(** * Front detection on latitude/longitude grids

    A shallow embedding of [front_detection/__init__.py]: the geodesic
    calculus ([four_corner_shift], [dist_between_grids], [geo_gradient],
    [smooth_grid]), the zero-contour rasteriser ([mask_zero_contour]) and the
    two detectors ([hewson_1998], [simmonds_et_al_2012]).

    Numbers.  A numpy float64 cell is a value of [fval]: not-a-number, one of
    the two infinities, or a finite number.  Finite numbers are real numbers
    and arithmetic on them is exact: rounding, overflow and the sign of zero
    are outside the model (a zero divisor counts as +0).  The bin edges and
    the histogram of the rasteriser are embedded a second time on binary64
    numbers ([Binary64]), where the rounding of the last edge shows.

    Arrays.  A two-dimensional numpy array is its shape together with its
    indexing function; element-wise operators follow numpy's broadcasting
    rule and raise [ValueError] when the shapes cannot be broadcast. *)

From Stdlib Require Import Reals Lra Lia List Arith Bool ZArith.
From Stdlib Require Floats.
Import ListNotations.

Local Open Scope R_scope.

(** ** Float cells *)

Module Float.

Inductive fval : Type :=
| NaN
| NInf
| PInf
| Fin (r : R).

Definition Rltb (x y : R) : bool := if Rlt_dec x y then true else false.
Definition Reqb (x y : R) : bool := if Req_dec_T x y then true else false.

Definition isnan (a : fval) : bool :=
  match a with NaN => true | _ => false end.

Definition isfinite (a : fval) : bool :=
  match a with Fin _ => true | _ => false end.

(** [-a] *)
Definition fneg (a : fval) : fval :=
  match a with
  | NaN => NaN
  | NInf => PInf
  | PInf => NInf
  | Fin x => Fin (- x)
  end.

(** [a + b] *)
Definition fadd (a b : fval) : fval :=
  match a, b with
  | NaN, _ | _, NaN => NaN
  | PInf, NInf | NInf, PInf => NaN
  | PInf, _ | _, PInf => PInf
  | NInf, _ | _, NInf => NInf
  | Fin x, Fin y => Fin (x + y)
  end.

(** [a - b] *)
Definition fsub (a b : fval) : fval := fadd a (fneg b).

(** The infinity with the sign of [x] times the sign of [pos]; [x = 0] gives
    not-a-number (infinity times zero). *)
Definition inf_times (pos : bool) (x : R) : fval :=
  if Reqb x 0 then NaN
  else if Bool.eqb pos (Rltb 0 x) then PInf else NInf.

(** [a * b] *)
Definition fmul (a b : fval) : fval :=
  match a, b with
  | NaN, _ | _, NaN => NaN
  | PInf, PInf | NInf, NInf => PInf
  | PInf, NInf | NInf, PInf => NInf
  | PInf, Fin x | Fin x, PInf => inf_times true x
  | NInf, Fin x | Fin x, NInf => inf_times false x
  | Fin x, Fin y => Fin (x * y)
  end.

(** [a / b] *)
Definition fdiv (a b : fval) : fval :=
  match a, b with
  | NaN, _ | _, NaN => NaN
  | (PInf | NInf), (PInf | NInf) => NaN
  | Fin _, (PInf | NInf) => Fin 0
  | PInf, Fin y => if Rltb y 0 then NInf else PInf
  | NInf, Fin y => if Rltb y 0 then PInf else NInf
  | Fin x, Fin y =>
      if Reqb y 0 then
        (if Reqb x 0 then NaN else if Rltb 0 x then PInf else NInf)
      else Fin (x / y)
  end.

(** [np.abs] *)
Definition fabs (a : fval) : fval :=
  match a with
  | NaN => NaN
  | NInf | PInf => PInf
  | Fin x => Fin (Rabs x)
  end.

(** [np.sqrt] *)
Definition fsqrt (a : fval) : fval :=
  match a with
  | NaN | NInf => NaN
  | PInf => PInf
  | Fin x => if Rltb x 0 then NaN else Fin (sqrt x)
  end.

(** [np.sin], [np.cos] *)
Definition fsin (a : fval) : fval :=
  match a with Fin x => Fin (sin x) | _ => NaN end.

Definition fcos (a : fval) : fval :=
  match a with Fin x => Fin (cos x) | _ => NaN end.

(** [np.arccos]: not-a-number outside [-1, 1]. *)
Definition farccos (a : fval) : fval :=
  match a with
  | Fin x => if Rltb x (-1) || Rltb 1 x then NaN else Fin (acos x)
  | _ => NaN
  end.

(** The angle of the point [(x, y)] in [(-PI, PI]]. *)
Definition Ratan2 (y x : R) : R :=
  if Rltb 0 x then atan (y / x)
  else if Rltb x 0 then
    (if Rltb y 0 then atan (y / x) - PI else atan (y / x) + PI)
  else if Rltb 0 y then PI / 2
  else if Rltb y 0 then - (PI / 2)
  else 0.

(** [np.arctan2 y x] *)
Definition farctan2 (y x : fval) : fval :=
  match y, x with
  | NaN, _ | _, NaN => NaN
  | PInf, PInf => Fin (PI / 4)
  | PInf, NInf => Fin (3 * PI / 4)
  | NInf, PInf => Fin (- (PI / 4))
  | NInf, NInf => Fin (- (3 * PI / 4))
  | PInf, Fin _ => Fin (PI / 2)
  | NInf, Fin _ => Fin (- (PI / 2))
  | Fin _, PInf => Fin 0
  | Fin b, NInf => if Rltb b 0 then Fin (- PI) else Fin PI
  | Fin b, Fin a => Fin (Ratan2 b a)
  end.

(** [a ** e] for a positive finite exponent [e] that is not an integer. *)
Definition fpow (a : fval) (e : R) : fval :=
  match a with
  | NaN => NaN
  | NInf | PInf => PInf
  | Fin x =>
      if Rltb x 0 then NaN
      else if Reqb x 0 then Fin 0
      else Fin (Rpower x e)
  end.

(** Comparisons: every comparison with not-a-number is false. *)
Definition flt (a b : fval) : bool :=
  match a, b with
  | NaN, _ | _, NaN => false
  | _, NInf => false
  | NInf, _ => true
  | PInf, _ => false
  | Fin _, PInf => true
  | Fin x, Fin y => Rltb x y
  end.

Definition fgt (a b : fval) : bool := flt b a.

Definition feq (a b : fval) : bool :=
  match a, b with
  | NInf, NInf | PInf, PInf => true
  | Fin x, Fin y => Reqb x y
  | _, _ => false
  end.

(** [np.double] of a boolean. *)
Definition of_bool (b : bool) : fval := if b then Fin 1 else Fin 0.

(** [np.nansum] over a list of cells: not-a-number entries count as zero. *)
Definition nansum (l : list fval) : fval :=
  fold_left (fun acc a => if isnan a then acc else fadd acc a) l (Fin 0).

(** [a >= b] *)
Definition fge (a b : fval) : bool := flt b a || feq a b.

End Float.

(** ** Arrays *)

Module Np.
Import Float.

(** The exceptions the program can meet. *)
Inductive exn : Type :=
| IndexError
| ValueError.

Inductive result (A : Type) : Type :=
| Ok (a : A)
| Err (e : exn).

Arguments Ok {A} a.
Arguments Err {A} e.

Definition bind {A B : Type} (m : result A) (k : A -> result B) : result B :=
  match m with
  | Ok a => k a
  | Err e => Err e
  end.

Declare Scope np_scope.
Delimit Scope np_scope with np.

Notation "x <- m ;; k" := (bind m (fun x => k))
  (at level 100, m at level 99, right associativity) : np_scope.
Notation "' p <- m ;; k" := (bind m (fun x => match x with p => k end))
  (at level 100, p pattern, m at level 99, right associativity) : np_scope.

(** A two-dimensional array: its shape and its indexing function.  Only the
    cells inside the shape are cells of the array. *)
Record ndarray (A : Type) : Type := mk_nd {
  nrows : nat;
  ncols : nat;
  cell : nat -> nat -> A
}.

Arguments mk_nd {A} nrows ncols cell.
Arguments nrows {A} n.
Arguments ncols {A} n.
Arguments cell {A} n i j.

Definition shape {A : Type} (a : ndarray A) : nat * nat := (nrows a, ncols a).

(** Broadcasting of one dimension: equal lengths, or one of them is 1. *)
Definition bdim (m n : nat) : option nat :=
  if (m =? n)%nat then Some m
  else if (m =? 1)%nat then Some n
  else if (n =? 1)%nat then Some m
  else None.

(** The index read in a dimension of length [m] for the output index [i]. *)
Definition bidx (m i : nat) : nat := if (m =? 1)%nat then 0%nat else i.

(** The cell that cell [(i, j)] of a broadcast result reads in [a]. *)
Definition rd {A : Type} (a : ndarray A) (i j : nat) : A :=
  cell a (bidx (nrows a) i) (bidx (ncols a) j).

(** [a] can be broadcast to the shape of [x]. *)
Definition fits {A B : Type} (a : ndarray A) (x : ndarray B) : Prop :=
  (nrows a = nrows x \/ nrows a = 1%nat) /\
  (ncols a = ncols x \/ ncols a = 1%nat).

(** An expression has a value, and the value can be broadcast to the shape
    of [L] ([okfit]) or has the shape of [L] ([okfull]). *)
Definition okfit {A B : Type} (L : ndarray B) (e : result (ndarray A))
  : Prop :=
  exists x, e = Ok x /\ fits x L.

Definition okfull {A B : Type} (L : ndarray B) (e : result (ndarray A))
  : Prop :=
  exists x, e = Ok x /\ nrows x = nrows L /\ ncols x = ncols L.

(** A computation that can fail with the exception [e0] only. *)
Definition raises_only {A : Type} (e0 : exn) (m : result A) : Prop :=
  forall e, m = Err e -> e = e0.

(** [a] has the shape of [L]. *)
Definition full {A B : Type} (L : ndarray B) (a : ndarray A) : Prop :=
  nrows a = nrows L /\ ncols a = ncols L.

(** A computation returns a value, and the value satisfies [P]. *)
Definition returns {A : Type} (m : result A) (P : A -> Prop) : Prop :=
  exists x, m = Ok x /\ P x.

Definition map1 {A B : Type} (f : A -> B) (a : ndarray A) : ndarray B :=
  mk_nd (nrows a) (ncols a) (fun i j => f (cell a i j)).

(** An element-wise binary operator. *)
Definition map2 {A B C : Type} (f : A -> B -> C)
    (a : ndarray A) (b : ndarray B) : result (ndarray C) :=
  match bdim (nrows a) (nrows b), bdim (ncols a) (ncols b) with
  | Some r, Some c =>
      Ok (mk_nd r c (fun i j =>
            f (cell a (bidx (nrows a) i) (bidx (ncols a) j))
              (cell b (bidx (nrows b) i) (bidx (ncols b) j))))
  | _, _ => Err ValueError
  end.

(** Operators inside an expression: the left operand is evaluated first. *)
Definition lift1 {A B : Type} (f : A -> B)
    (a : result (ndarray A)) : result (ndarray B) :=
  (x <- a ;; Ok (map1 f x))%np.

Definition lift2 {A B C : Type} (f : A -> B -> C)
    (a : result (ndarray A)) (b : result (ndarray B)) : result (ndarray C) :=
  (x <- a ;; y <- b ;; map2 f x y)%np.

(** A Python scalar in an array expression broadcasts like a 1 x 1 array. *)
Definition sc (r : R) : result (ndarray fval) :=
  Ok (mk_nd 1 1 (fun _ _ => Fin r)).

Notation "a + b" := (lift2 fadd a b) : np_scope.
Notation "a - b" := (lift2 fsub a b) : np_scope.
Notation "a * b" := (lift2 fmul a b) : np_scope.
Notation "a / b" := (lift2 fdiv a b) : np_scope.
Notation "- a" := (lift1 fneg a) : np_scope.
Notation "a > b" := (lift2 fgt a b) : np_scope.
Notation "a < b" := (lift2 flt a b) : np_scope.
Notation "a == b" := (lift2 feq a b) (at level 70, no associativity) : np_scope.
Notation "a && b" := (lift2 andb a b) : np_scope.
Notation "a || b" := (lift2 orb a b) : np_scope.
Notation "~~ a" := (lift1 negb a) (at level 35, right associativity) : np_scope.

Definition np_sin := lift1 fsin.
Definition np_cos := lift1 fcos.
Definition np_arccos := lift1 farccos.
Definition np_sqrt := lift1 fsqrt.
Definition np_abs := lift1 fabs.
Definition np_arctan2 := lift2 farctan2.
Definition np_double := lift1 of_bool.
Definition np_square := lift1 (fun x => fmul x x).

(** [a[p(a)] = v] where the mask is computed from [a] itself. *)
Definition where_self (p : fval -> bool) (v : fval) (a : ndarray fval)
  : ndarray fval :=
  map1 (fun x => if p x then v else x) a.

(** [a[mask] = v]: the boolean index must have the shape of [a]. *)
Definition set_where (a : ndarray fval) (mask : ndarray bool) (v : fval)
  : result (ndarray fval) :=
  if ((nrows mask =? nrows a) && (ncols mask =? ncols a))%nat%bool then
    Ok (mk_nd (nrows a) (ncols a)
          (fun i j => if cell mask i j then v else cell a i j))
  else Err IndexError.

(** [a[:, -1] = a[:, -1] + d] and [a[:, 0] = a[:, 0] + d]. *)
Definition add_last_col (a : ndarray fval) (d : R) : result (ndarray fval) :=
  if (ncols a =? 0)%nat then Err IndexError
  else Ok (mk_nd (nrows a) (ncols a)
             (fun i j => if (j =? ncols a - 1)%nat
                         then fadd (cell a i j) (Fin d) else cell a i j)).

Definition add_first_col (a : ndarray fval) (d : R) : result (ndarray fval) :=
  if (ncols a =? 0)%nat then Err IndexError
  else Ok (mk_nd (nrows a) (ncols a)
             (fun i j => if (j =? 0)%nat
                         then fadd (cell a i j) (Fin d) else cell a i j)).

(** [np.pad(a, ((s, 0), (0, 0)), constant_values=nan)[:-s, :]] *)
Definition shift_up (s : nat) (a : ndarray fval) : ndarray fval :=
  mk_nd (if (s =? 0)%nat then 0%nat else nrows a) (ncols a)
    (fun i j => if (i <? s)%nat then NaN else cell a (i - s) j).

(** [np.pad(a, ((0, s), (0, 0)), constant_values=nan)[s:, :]] *)
Definition shift_down (s : nat) (a : ndarray fval) : ndarray fval :=
  mk_nd (nrows a) (ncols a)
    (fun i j => if (i + s <? nrows a)%nat then cell a (i + s) j else NaN).

(** [np.roll(a, -1, axis=1)] and [np.roll(a, 1, axis=1)] *)
Definition roll_left (a : ndarray fval) : ndarray fval :=
  mk_nd (nrows a) (ncols a) (fun i j => cell a i ((j + 1) mod ncols a)).

Definition roll_right (a : ndarray fval) : ndarray fval :=
  mk_nd (nrows a) (ncols a)
    (fun i j => cell a i ((j + (ncols a - 1)) mod ncols a)).

(** Two arrays have one shape. *)
Definition same_shape {A B : Type} (a : ndarray A) (b : ndarray B) : bool :=
  ((nrows a =? nrows b) && (ncols a =? ncols b))%nat%bool.

(** [a[:, 0]] and [a[0, :]] as one-dimensional arrays. *)
Definition first_col (a : ndarray fval) : result (list fval) :=
  if (ncols a =? 0)%nat then Err IndexError
  else Ok (map (fun i => cell a i 0%nat) (seq 0 (nrows a))).

Definition first_row (a : ndarray fval) : result (list fval) :=
  if (nrows a =? 0)%nat then Err IndexError
  else Ok (map (fun j => cell a 0%nat j) (seq 0 (ncols a))).

(** [l[k]] for a non-negative [k]. *)
Definition item (l : list fval) (k : nat) : result fval :=
  match nth_error l k with
  | Some x => Ok x
  | None => Err IndexError
  end.

(** [np.histogram2d]'s check on explicit bin edges. *)
Fixpoint increasing (edges : list fval) : bool :=
  match edges with
  | a :: (b :: _) as tl => negb (fgt a b) && increasing tl
  | _ => true
  end.

(** The bin of a sample: [searchsorted(edges, x, side='right')] counts the
    edges at or below [x]; a sample on the last edge belongs to the last bin;
    a sample below the first edge or beyond the last one has no bin. *)
Definition count_le (edges : list fval) (x : fval) : nat :=
  length (filter (fun e => negb (fgt e x)) edges).

Definition bin_index (edges : list fval) (x : fval) : option nat :=
  let n := if feq x (last edges NaN) then (count_le edges x - 1)%nat
           else count_le edges x in
  if ((n =? 0) || (length edges <=? n))%nat%bool then None
  else Some (n - 1)%nat.

(** [np.histogram2d(x, y, bins=(ex, ey))[0]], the counts only. *)
Definition histogram2d (samples : list (fval * fval)) (ex ey : list fval)
  : result (ndarray nat) :=
  if increasing ex && increasing ey then
    Ok (mk_nd (length ex - 1) (length ey - 1)
          (fun i j =>
             length (filter (fun s =>
               match bin_index ex (fst s), bin_index ey (snd s) with
               | Some bi, Some bj => ((bi =? i) && (bj =? j))%nat%bool
               | _, _ => false
               end) samples)))
  else Err ValueError.

(** The cells of an array in row-major order. *)
Definition flat {A : Type} (a : ndarray A) : list A :=
  flat_map (fun i => map (fun j => cell a i j) (seq 0 (ncols a)))
    (seq 0 (nrows a)).

(** The scan of [argmin]: [mp] is the least value met so far and [min_ind]
    its index, [k] the index of the next cell.  A cell replaces the least
    value when it is not at or above it, so a not-a-number does; the scan
    stops at the first not-a-number. *)
Fixpoint argmin_scan (mp : fval) (min_ind k : nat) (l : list fval) : nat :=
  match l with
  | [] => min_ind
  | x :: tl =>
      if isnan mp then min_ind
      else if negb (fge x mp) then argmin_scan x k (S k) tl
      else argmin_scan mp min_ind (S k) tl
  end.

(** [a.argmin()]: the index, in row-major order, of the first least cell,
    or of the first not-a-number; an empty array raises [ValueError]. *)
Definition argmin (a : ndarray fval) : result nat :=
  match flat a with
  | [] => Err ValueError
  | x :: tl => Ok (argmin_scan x 0 1 tl)
  end.

(** [np.unravel_index(ind, shape)] for an index inside the shape. *)
Definition unravel_index (ind : nat) (shape : nat * nat) : nat * nat :=
  (ind / snd shape, ind mod snd shape)%nat.

(** [out = np.zeros(shape); out[r0:r1, c0:c1] = v] for bounds that are not
    negative. *)
Definition zeros_with_block (shape : nat * nat) (r0 r1 c0 c1 : Z) (v : fval)
  : ndarray fval :=
  mk_nd (fst shape) (snd shape)
    (fun i j =>
       if ((r0 <=? Z.of_nat i) && (Z.of_nat i <? r1)
           && (c0 <=? Z.of_nat j) && (Z.of_nat j <? c1))%Z%bool
       then v else Fin 0).

(** What singles out the cell [argmin] returns: it is the first
    not-a-number, or there is no not-a-number, no cell is below it and
    every cell before it is above it. *)
Definition is_argmin (l : list fval) (r : nat) : Prop :=
  (r < length l)%nat
  /\ ((nth r l NaN = NaN /\ forall t, (t < r)%nat -> nth t l NaN <> NaN)
      \/ ((forall t, (t < length l)%nat -> fge (nth t l NaN) (nth r l NaN) = true)
          /\ forall t, (t < r)%nat -> flt (nth r l NaN) (nth t l NaN) = true)).

(** Cell [(i, j)] comes before cell [(r, c)] in row-major order. *)
Definition before (i j r c : nat) : Prop :=
  (i < r)%nat \/ (i = r /\ j < c)%nat.

(** [np.broadcast_shapes] along one axis: the length the lengths [l] are
    broadcast to, where a length of 1 is stretched; [None] when two lengths
    other than 1 differ. *)
Fixpoint bdims (l : list nat) : option nat :=
  match l with
  | [] => Some 1%nat
  | n :: tl =>
      match bdims tl with
      | Some m => bdim n m
      | None => None
      end
  end.

(** [np.broadcast_shapes] of two-dimensional shapes. *)
Definition broadcast_shapes (l : list (nat * nat)) : option (nat * nat) :=
  match bdims (map fst l), bdims (map snd l) with
  | Some r, Some c => Some (r, c)
  | _, _ => None
  end.

End Np.

(** ** The program *)

Module FrontDetection.
Import Float Np.
Local Open Scope np_scope.

Notation "$ x" := (Ok x) (at level 1, x at level 0, format "$ x") : np_scope.

Abbreviation farr := (ndarray fval).

(** A contour line: the vertices of a path, as (first coordinate, second
    coordinate) pairs. *)
Definition path : Type := list (fval * fval).

(** [four_corner_shift(arr, shift_len=1)]: up, down, left, right. *)
Definition four_corner_shift (arr : farr) (shift_len : nat)
  : farr * farr * farr * farr :=
  (shift_up shift_len arr, shift_down shift_len arr,
   roll_left arr, roll_right arr).

(** [theta_from_temp_pres]: [temp * (1000./pres)**(2/7)], with [2/7] the
    true quotient. *)
Definition theta_from_temp_pres (temp pres : farr) : result farr :=
  $temp * lift1 (fun x => fpow x (2 / 7)%R) (sc 1000 / $pres).

(** [norm(x, y)] *)
Definition norm (x y : farr) : result farr :=
  np_sqrt (np_square $x + np_square $y).

Definition R_earth : R := 6378206.4%R.

(** [dist_between_grids(lat0, lon0, lat1, lon1)] *)
Definition dist_between_grids (lat0 lon0 lat1 lon1 : farr) : result farr :=
  cosc <- np_sin ($lat0 * sc PI / sc 180) * np_sin ($lat1 * sc PI / sc 180)
          + np_cos ($lat0 * sc PI / sc 180) * np_cos ($lat1 * sc PI / sc 180)
            * np_cos (sc (PI / 180) * ($lon1 - $lon0)) ;;
  let cosc := where_self (fun x => flt x (Fin (-1))) (Fin (-1)) cosc in
  let cosc := where_self (fun x => fgt x (Fin 1)) (Fin 1) cosc in
  np_arccos $cosc * sc R_earth.

(** [geo_gradient(lat, lon, data)]: returns [(dx, dy)]. *)
Definition geo_gradient (lat lon data : farr) : result (farr * farr) :=
  let '(data_up, data_down, data_left, data_right) :=
    four_corner_shift data 1 in
  let '(lat_up, lat_down, lat_left, lat_right) := four_corner_shift lat 1 in
  let '(lon_up, lon_down, lon_left, lon_right) := four_corner_shift lon 1 in
  lon_left <- add_last_col lon_left 360 ;;
  lon_right <- add_first_col lon_right (-360) ;;
  dy1 <- dist_between_grids lat_down lon_down lat lon ;;
  dy2 <- dist_between_grids lat_up lon_up lat lon ;;
  dy1_data <- $data_down - $data ;;
  dy2_data <- $data - $data_up ;;
  dy <- ($dy2_data + $dy1_data) / ($dy1 + $dy2) ;;
  dx1 <- dist_between_grids lat_left lon_left lat lon ;;
  dx2 <- dist_between_grids lat lon lat_right lon_right ;;
  dx1_data <- $data_left - $data ;;
  dx2_data <- $data - $data_right ;;
  dx <- ($dx2_data + $dx1_data) / ($dx1 + $dx2) ;;
  $(dx, dy).

(** A stack of layers along a third axis, [np.dstack]: the layers must have
    one shape. *)
Definition dstack (layers : list farr) : result (list farr) :=
  match layers with
  | [] => Err ValueError
  | a :: _ =>
      if forallb (same_shape a) layers then Ok layers else Err ValueError
  end.

(** [np.nansum(stack, 2)] *)
Definition nansum_axis2 (stack : list farr) : farr :=
  mk_nd (nrows (hd (mk_nd 0 0 (fun _ _ => NaN)) stack))
        (ncols (hd (mk_nd 0 0 (fun _ _ => NaN)) stack))
        (fun i j => nansum (map (fun l => cell l i j) stack)).

(** An element-wise operator on two stacks of the same depth. *)
Fixpoint stack_map2 (f : fval -> fval -> fval) (a b : list farr)
  : result (list farr) :=
  match a, b with
  | x :: a', y :: b' =>
      z <- map2 f x y ;; r <- stack_map2 f a' b' ;; $(z :: r)
  | [], [] => $[]
  | _, _ => Err ValueError
  end.

(** One pass of the loop of [smooth_grid]. *)
Definition smooth_pass (center_weight : R) (outGrid : farr) : result farr :=
  let shift_len := 1%nat in
  let up_shift := shift_up shift_len outGrid in
  let down_shift := shift_down shift_len outGrid in
  let right_shift := roll_right outGrid in
  let left_shift := roll_left outGrid in
  let valid (a : farr) := np_double (~~ lift1 isnan $a) in
  cnts <- valid right_shift + valid left_shift + valid up_shift
          + valid down_shift + valid outGrid * sc center_weight ;;
  weighted <- $outGrid * sc center_weight ;;
  stack <- dstack [weighted; right_shift; left_shift; up_shift; down_shift] ;;
  let outGrid_num := nansum_axis2 stack in
  cnt_ind <- ~~ ($cnts == sc 0) ;;
  quot <- $outGrid_num / $cnts ;;
  if (same_shape cnt_ind outGrid && same_shape quot outGrid)%bool then
    $(mk_nd (nrows outGrid) (ncols outGrid)
        (fun i j => if cell cnt_ind i j then cell quot i j
                    else cell outGrid i j))
  else Err IndexError.

(** [smooth_grid(inGrid, iter=1, center_weight=4)] *)
Fixpoint smooth_grid (inGrid : farr) (iter : nat) (center_weight : R)
  : result farr :=
  match iter with
  | O => $inGrid
  | S n =>
      outGrid <- smooth_pass center_weight inGrid ;;
      smooth_grid outGrid n center_weight
  end.

(** The bin edges [mask_zero_contour] builds from the grid centres along one
    axis: every centre moved down by half of the first step, then the last
    of these moved up by half of the first step and appended. *)
Definition bin_edges (centres : list fval) : result (list fval) :=
  e1 <- item centres 1 ;;
  e0 <- item centres 0 ;;
  let div := fsub e1 e0 in
  let edges := map (fun e => fsub e (fdiv div (Fin 2))) centres in
  $(edges ++ [fadd (last edges NaN) (fdiv div (Fin 2))]).

(** The loop that gathers the vertices of all paths in [cdt]: [None] is the
    one-dimensional empty array [np.asarray([])], [Some l] a two-dimensional
    array with one row per vertex. *)
Definition gather_vertices (paths : list path) : option (list (fval * fval)) :=
  fold_left
    (fun cdt cdt_line =>
       match cdt with
       | None | Some [] => Some cdt_line
       | Some l => Some (l ++ cdt_line)
       end)
    paths None.

Section Contour.

(** [plt.contour(latGrid, lonGrid, data, levels=[0])] followed by
    [cs.collections[0].get_paths()]: the contouring engine of the plotting
    library, which is not part of this program. *)
Variable contour_paths : farr -> farr -> farr -> result (list path).

(** [mask_zero_contour(latGrid, lonGrid, data)] *)
Definition mask_zero_contour (latGrid lonGrid data : farr) : result farr :=
  paths <- contour_paths latGrid lonGrid data ;;
  let cdt := gather_vertices paths in
  lat_centres <- first_col latGrid ;;
  lon_centres <- first_row lonGrid ;;
  lat_edges <- bin_edges lat_centres ;;
  lon_edges <- bin_edges lon_centres ;;
  samples <- match cdt with
             | Some l => $l
             | None => Err IndexError
             end ;;
  H <- histogram2d samples lat_edges lon_edges ;;
  $(map1 (fun n => of_bool (0 <? n)%nat) H).

(** The local variables of [hewson_1998] that the results are made of. *)
Record hewson_locals : Type := mk_locals {
  l_gx : farr;
  l_gy : farr;
  l_m1 : farr;
  l_m2 : farr;
  l_m1_mask : ndarray bool;
  l_m2_mask : ndarray bool;
  l_tot_div : farr;
  l_zc_6 : farr;
  l_rot_param : farr;
  l_Vx : farr;
  l_Vy : farr;
  l_gta : farr;
  l_wf_mask : farr;
  l_cf_mask : farr
}.

(** [hewson_1998], first part: the gradient of [theta], the locating vector
    [mu] and the two quantities [m1] and [m2] that are thresholded. *)
Definition hewson_locating (latGrid lonGrid theta : farr)
  : result (farr * farr * farr * farr * farr * farr * farr * farr) :=
  '(gx, gy) <- geo_gradient latGrid lonGrid theta ;;
  gNorm <- norm gx gy ;;
  '(mux, muy) <- geo_gradient latGrid lonGrid gNorm ;;
  abs_mu <- norm mux muy ;;
  '(grad_abs_mux, grad_abs_muy) <- geo_gradient latGrid lonGrid abs_mu ;;
  product <- $mux * $gx + $muy * $gy ;;
  product_smooth <- smooth_grid product 1 1 ;;
  m1 <- sc (-1) * $product_smooth / $gNorm ;;
  m2 <- $gNorm + sc (1 / sqrt 2 * 100 * 1000) * $abs_mu ;;
  $(gx, gy, gNorm, mux, muy, abs_mu, m1, m2).

(** [hewson_1998], the five point mean of the direction of [mu] and the
    divergence [tot_div] of [mu] resolved along it.  The count [n] of the
    source is computed from the two stacks, which have one shape, and is
    read nowhere; it is left out. *)
Definition hewson_tot_div (latGrid lonGrid mux muy abs_mu : farr)
  : result farr :=
  let mu_mag := abs_mu in
  mu_ang <- np_arctan2 $muy $mux ;;
  sel <- ($mux == sc 0) && ($muy > sc 0) ;;
  mu_ang <- set_where mu_ang sel (Fin (PI / 2)) ;;
  sel <- ($mux == sc 0) && ($muy < sc 0) ;;
  mu_ang <- set_where mu_ang sel (Fin (3 * PI / 2)) ;;
  sel <- $muy == sc 0 ;;
  mu_ang <- set_where mu_ang sel (Fin 0) ;;
  let '(up_shift_ang, down_shift_ang, left_shift_ang, right_shift_ang) :=
    four_corner_shift mu_ang 1 in
  let '(up_shift_mag, down_shift_mag, left_shift_mag, right_shift_mag) :=
    four_corner_shift mu_mag 1 in
  ang_stack <- dstack [mu_ang; up_shift_ang; down_shift_ang;
                       right_shift_ang; left_shift_ang] ;;
  mag_stack <- dstack [mu_mag; up_shift_mag; down_shift_mag;
                       right_shift_mag; left_shift_mag] ;;
  let ang2_stack := map (map1 (fmul (Fin 2))) ang_stack in
  sump_terms <- stack_map2 fmul mag_stack (map (map1 fcos) ang2_stack) ;;
  let sump := nansum_axis2 sump_terms in
  sumq_terms <- stack_map2 fmul mag_stack (map (map1 fsin) ang2_stack) ;;
  let sumq := nansum_axis2 sumq_terms in
  betamean <- np_arctan2 $sumq $sump * sc 0.5 ;;
  (* the four outer vectors resolved along the mean direction *)
  let '(up_mux, down_mux, left_mux, right_mux) := four_corner_shift mux 1 in
  let '(up_muy, down_muy, left_muy, right_muy) := four_corner_shift muy 1 in
  let '(up_lat, down_lat, left_lat, right_lat) :=
    four_corner_shift latGrid 1 in
  let '(up_lon, down_lon, left_lon, right_lon) :=
    four_corner_shift lonGrid 1 in
  left_lon <- add_last_col left_lon 360 ;;
  right_lon <- add_first_col right_lon (-360) ;;
  dy <- dist_between_grids up_lat up_lon down_lat down_lon ;;
  dx <- dist_between_grids left_lat left_lon right_lat right_lon ;;
  down_prime <- $down_mux * np_cos $betamean + $down_muy * np_sin $betamean ;;
  up_prime <- $up_mux * np_cos $betamean + $up_muy * np_sin $betamean ;;
  left_prime <- $left_mux * np_cos $betamean + $left_muy * np_sin $betamean ;;
  right_prime <-
    $right_mux * np_cos $betamean + $right_muy * np_sin $betamean ;;
  ($down_prime - $up_prime) * np_sin $betamean / $dy
  + ($left_prime - $right_prime) * np_cos $betamean / $dx.

(** [hewson_1998], the geostrophic wind at 850 hPa and the geostrophic
    thermal advection [gta]. *)
Definition hewson_advection (latGrid lonGrid H850 gx gy : farr)
  : result (farr * farr * farr * farr) :=
  let omega := 7.3e-5%R in
  rot_param <- sc 9.8 / (sc (2 * omega) * np_sin ($latGrid * sc PI / sc 180)) ;;
  sel <- np_abs $latGrid > sc 70 ;;
  rot_param <- set_where rot_param sel NaN ;;
  sel <- np_abs $latGrid < sc 20 ;;
  rot_param <- set_where rot_param sel NaN ;;
  let '(up_H850, down_H850, left_H850, right_H850) :=
    four_corner_shift H850 1 in
  let '(up_lat, down_lat, left_lat, right_lat) :=
    four_corner_shift latGrid 1 in
  let '(up_lon, down_lon, left_lon, right_lon) :=
    four_corner_shift lonGrid 1 in
  dz_y <- $down_H850 - $up_H850 ;;
  dy <- dist_between_grids up_lat up_lon down_lat down_lon ;;
  dz_x <- $left_H850 - $right_H850 ;;
  dx <- dist_between_grids left_lat left_lon right_lat right_lon ;;
  Vy <- $rot_param * ($dz_y / $dy) ;;
  Vx <- $rot_param * ($dz_x / $dx) ;;
  vgx <- - $Vx * $gx ;;
  vgy <- - $Vy * $gy ;;
  (* geostrophic thermal advection *)
  gta <- $vgx + $vgy ;;
  $(rot_param, Vx, Vy, gta).

(** The body of [hewson_1998] up to its [return], in the order of the
    source, with the two thresholds [k1] and [k2] as arguments. *)
Definition hewson_body (k1 k2 : R) (latGrid lonGrid theta H850 : farr)
  : result hewson_locals :=
  '(gx, gy, gNorm, mux, muy, abs_mu, m1, m2) <-
    hewson_locating latGrid lonGrid theta ;;
  m1_mask <- $m1 > sc k1 ;;
  m2_mask <- $m2 > sc k2 ;;
  tot_div <- hewson_tot_div latGrid lonGrid mux muy abs_mu ;;
  let eq6 := tot_div in
  zc_6 <- mask_zero_contour latGrid lonGrid eq6 ;;
  sel <- ~~ ($m1_mask && $m2_mask) ;;
  zc_6 <- set_where zc_6 sel (Fin 0) ;;
  '(rot_param, Vx, Vy, gta) <- hewson_advection latGrid lonGrid H850 gx gy ;;
  wf_mask <- np_double ($gta > sc 0) ;;
  cf_mask <- np_double ($gta < sc 0) ;;
  $(mk_locals gx gy m1 m2 m1_mask m2_mask tot_div zc_6 rot_param
      Vx Vy gta wf_mask cf_mask).

(** What [hewson_1998] returns: the dictionary entries ['wf'] and ['cf'] and
    the field [eq6]. *)
Record hewson_out : Type := mk_out {
  wf : farr;
  cf : farr;
  eq6 : farr
}.

Definition hewson_with (k1 k2 : R) (latGrid lonGrid theta H850 : farr)
  : result hewson_out :=
  l <- hewson_body k1 k2 latGrid lonGrid theta H850 ;;
  wf <- $(l_wf_mask l) * $(l_zc_6 l) ;;
  cf <- $(l_cf_mask l) * $(l_zc_6 l) ;;
  $(mk_out wf cf (l_tot_div l)).

Definition k1 : R := (0.33 * 1e-10)%R.
Definition k2 : R := (1.49 * 1e-5)%R.

(** [hewson_1998(latGrid, lonGrid, theta, H850)] *)
Definition hewson_1998 (latGrid lonGrid theta H850 : farr)
  : result hewson_out :=
  hewson_with k1 k2 latGrid lonGrid theta H850.

End Contour.

Definition wind_thres : R := 2.

(** [simmonds_et_al_2012(latGrid, lonGrid, u_prior, v_prior, u, v)]: the
    entry ['cf'] of the returned dictionary. *)
Definition simmonds_et_al_2012 (latGrid lonGrid u_prior v_prior u v : farr)
  : result farr :=
  mag_diff <- np_abs (np_abs $v - np_abs $v_prior) ;;
  cond <- ($u > sc 0) && ($u_prior > sc 0)
          && ((($v > sc 0) && ($latGrid < sc 0))
              || (($v < sc 0) && ($latGrid > sc 0)))
          && ($v * $v_prior < sc 0)
          && ($mag_diff > sc wind_thres)
          && (np_abs $latGrid < sc 80) ;;
  np_double $cond.

(** The condition of [simmonds_et_al_2012] at one cell. *)
Definition simmonds_cell (lat u_prior v_prior u v : fval) : bool :=
  (fgt u (Fin 0) && fgt u_prior (Fin 0)
   && ((fgt v (Fin 0) && flt lat (Fin 0))
       || (flt v (Fin 0) && fgt lat (Fin 0)))
   && flt (fmul v v_prior) (Fin 0)
   && fgt (fabs (fsub (fabs v) (fabs v_prior))) (Fin wind_thres)
   && flt (fabs lat) (Fin 80))%bool.

(** [dist_between_grids] at one cell: the cosine of the angle between the
    two points, its clamping to [-1, 1], and the distance. *)
Definition radians (x : fval) : fval := fdiv (fmul x (Fin PI)) (Fin 180).

Definition cosc_cell (lat0 lon0 lat1 lon1 : fval) : fval :=
  fadd (fmul (fsin (radians lat0)) (fsin (radians lat1)))
       (fmul (fmul (fcos (radians lat0)) (fcos (radians lat1)))
             (fcos (fmul (Fin (PI / 180)) (fsub lon1 lon0)))).

Definition clip_cell (c : fval) : fval :=
  let c := if flt c (Fin (-1)) then Fin (-1) else c in
  if fgt c (Fin 1) then Fin 1 else c.

Definition dist_cell (lat0 lon0 lat1 lon1 : fval) : fval :=
  fmul (farccos (clip_cell (cosc_cell lat0 lon0 lat1 lon1))) (Fin R_earth).

(** A field without a sign change: positive at every cell, or negative at
    every cell. *)
Definition strictly_positive (data : farr) : Prop :=
  forall i j, (i < nrows data)%nat -> (j < ncols data)%nat ->
    flt (Fin 0) (cell data i j) = true.

Definition strictly_negative (data : farr) : Prop :=
  forall i j, (i < nrows data)%nat -> (j < ncols data)%nat ->
    flt (cell data i j) (Fin 0) = true.

(** What is assumed of the contouring engine where a claim needs it: a field
    without a sign change has no zero contour, so the list of paths of the
    level is empty. *)
Definition no_contour_without_sign_change
    (contour_paths : farr -> farr -> farr -> result (list path)) : Prop :=
  forall latGrid lonGrid data,
    strictly_positive data \/ strictly_negative data ->
    contour_paths latGrid lonGrid data = Ok [].

(** Grid centres with a constant step: [c0], [c0 + d], [c0 + 2 d], ... *)
Definition centre (c0 d : R) (i : nat) : R := (c0 + INR i * d)%R.

Definition uniform_centres (c0 d : R) (n : nat) : list fval :=
  map (fun i => Fin (centre c0 d i)) (seq 0 n).

(** The edges [bin_edges] gives for such centres (lemma
    [bin_edges_uniform]): every centre moved down by half a step, and the
    last centre itself. *)
Definition uniform_edges (c0 d : R) (n : nat) : list fval :=
  map (fun i => Fin (centre c0 d i - d / 2)%R) (seq 0 n)
  ++ [Fin (centre c0 d (n - 1))].

(** The interval of cell [i] among [n] cells: half a step on each side of
    the centre, closed below and open above, except for the last cell, which
    ends at its centre and contains it. *)
Definition in_cell (c0 d : R) (n i : nat) (x : R) : Prop :=
  (i < n)%nat /\ (centre c0 d i - d / 2 <= x)%R
  /\ (if (S i <? n)%nat then (x < centre c0 d i + d / 2)%R
      else (x <= centre c0 d i)%R).

(** The longitudes [geo_gradient] uses for the left and right neighbours:
    the rolled grid with the correction at the seam. *)
Definition lon_of_left (lon : farr) : farr :=
  mk_nd (nrows lon) (ncols lon)
    (fun i j => if (j =? ncols lon - 1)%nat
                then fadd (cell (roll_left lon) i j) (Fin 360)
                else cell (roll_left lon) i j).

Definition lon_of_right (lon : farr) : farr :=
  mk_nd (nrows lon) (ncols lon)
    (fun i j => if (j =? 0)%nat
                then fadd (cell (roll_right lon) i j) (Fin (-360))
                else cell (roll_right lon) i j).

(** A derivative of [geo_gradient] at one cell, from the cell, its two
    neighbours along the axis and the distances to them: the sum of the two
    differences over the sum of the two distances. *)
Definition slope (before here after d_before d_after : fval) : fval :=
  fdiv (fadd (fsub here before) (fsub after here)) (fadd d_after d_before).

(** The distance from the equator to latitude [lat] (in degrees) along a
    meridian. *)
Definition metres_north (lat : R) : R := (lat * (PI / 180) * R_earth)%R.

(** An array written row by row. *)
Definition of_rows (rows : list (list fval)) : farr :=
  mk_nd (length rows) (length (hd [] rows))
    (fun i j => nth j (nth i rows []) NaN).

(** A small grid for examples: latitudes 10, 30 and 50, longitudes 0, 1
    and 2, and a contouring engine that answers with one path of one
    vertex. *)
Definition ex_lat : farr :=
  of_rows [[Fin 10; Fin 10; Fin 10];
           [Fin 30; Fin 30; Fin 30];
           [Fin 50; Fin 50; Fin 50]].

Definition ex_lon : farr :=
  of_rows [[Fin 0; Fin 1; Fin 2];
           [Fin 0; Fin 1; Fin 2];
           [Fin 0; Fin 1; Fin 2]].

Definition ex_theta : farr :=
  of_rows [[Fin 280; Fin 281; Fin 282];
           [Fin 290; Fin 292; Fin 291];
           [Fin 300; Fin 301; Fin 305]].

Definition ex_H850 : farr :=
  of_rows [[Fin 1500; Fin 1510; Fin 1520];
           [Fin 1400; Fin 1420; Fin 1410];
           [Fin 1300; Fin 1310; Fin 1350]].

Definition ex_contour (latGrid lonGrid data : farr) : result (list path) :=
  Ok [[(Fin 30, Fin 1)]].

(** The value that marks a front in the array [expand_fronts] works on. *)
Definition front_mark : fval := Fin (-10).

(** [np.arange(lo, hi)] for integers. *)
Definition arange (lo hi : Z) : list Z :=
  map (fun k => (lo + Z.of_nat k)%Z) (seq 0 (Z.to_nat (hi - lo))).

(** [a[i, j] = v] for a row [i] of the array and an integer column [j]: a
    negative column counts from the end, a column outside
    [-ncols, ncols) raises [IndexError]. *)
Definition setitem (a : farr) (i : nat) (j : Z) (v : fval) : result farr :=
  let n := Z.of_nat (ncols a) in
  let put k :=
    mk_nd (nrows a) (ncols a)
      (fun i' j' => if ((i' =? i) && (j' =? k))%nat%bool then v
                    else cell a i' j') in
  if ((0 <=? j) && (j <? n))%Z%bool then Ok (put (Z.to_nat j))
  else if ((- n <=? j) && (j <? 0))%Z%bool then Ok (put (Z.to_nat (j + n)))
  else Err IndexError.

(** A loop [for j in js: fronts[i, j] = -10] on the caller's array: the
    array as the loop leaves it, and how the loop ends. *)
Fixpoint mark_each (fronts : farr) (i : nat) (js : list Z)
  : farr * result unit :=
  match js with
  | [] => (fronts, Ok tt)
  | j :: tl =>
      match setitem fronts i j front_mark with
      | Ok fronts' => mark_each fronts' i tl
      | Err e => (fronts, Err e)
      end
  end.

(** [np.argwhere(fronts[i, :] == -10)]: the marked columns of row [i], in
    increasing order. *)
Definition argwhere_row (fronts : farr) (i : nat) : list nat :=
  filter (fun j => feq (cell fronts i j) front_mark) (seq 0 (ncols fronts)).

(** The body of the loop of [expand_fronts] for row [i]. *)
Definition expand_row (fronts : farr) (num_pixels : Z) (i : nat)
  : farr * result unit :=
  let ind := argwhere_row fronts i in
  match ind with
  | [] => (fronts, Ok tt)
  | first :: _ =>
      let max_ind := Z.of_nat (last ind 0%nat) in
      let min_ind := Z.of_nat first in
      let n := Z.of_nat (ncols fronts) in
      if (min_ind =? 0)%Z then
        mark_each fronts i
          (map (fun j => (j + 1)%Z) (arange max_ind (max_ind + num_pixels)))
      else if (max_ind =? n)%Z then
        mark_each fronts i (arange (min_ind - num_pixels) min_ind)
      else
        mark_each fronts i
          (filter (fun j => (negb (j <? 0) && negb (n <=? j))%Z%bool)
             (arange (min_ind - num_pixels) (max_ind + num_pixels + 1)))
  end.

Fixpoint expand_rows (fronts : farr) (num_pixels : Z) (rows : list nat)
  : farr * result unit :=
  match rows with
  | [] => (fronts, Ok tt)
  | i :: tl =>
      match expand_row fronts num_pixels i with
      | (fronts', Ok _) => expand_rows fronts' num_pixels tl
      | (fronts', Err e) => (fronts', Err e)
      end
  end.

(** [expand_fronts(fronts, num_pixels)]: the array is changed in place and
    returned; the first component is the caller's array as the call leaves
    it, also when the call raises. *)
Definition expand_fronts (fronts : farr) (num_pixels : Z)
  : farr * result unit :=
  expand_rows fronts num_pixels (seq 0 (nrows fronts)).

(** Row [i] has a mark, and its first and last marks are in columns [m] and
    [M]. *)
Definition row_span (fronts : farr) (i m M : nat) : Prop :=
  exists rest, argwhere_row fronts i = m :: rest /\ last (m :: rest) 0%nat = M.

(** The closed form of what [expand_row] does to row [i]: the cell it
    leaves in column [j], and whether it raises. *)
Definition expanded_cell (fronts : farr) (num_pixels : Z) (i j : nat) : fval :=
  match argwhere_row fronts i with
  | [] => cell fronts i j
  | m :: rest =>
      let M := Z.of_nat (last (m :: rest) 0%nat) in
      let z := Z.of_nat j in
      let hit :=
        if (m =? 0)%nat then ((M <? z) && (z <=? M + num_pixels))%Z%bool
        else ((Z.of_nat m - num_pixels <=? z) && (z <=? M + num_pixels))%Z%bool
      in
      if (hit && (j <? ncols fronts)%nat)%bool then front_mark
      else cell fronts i j
  end.

Definition row_overruns (fronts : farr) (num_pixels : Z) (i : nat) : bool :=
  match argwhere_row fronts i with
  | [] => false
  | m :: rest =>
      ((m =? 0)%nat
       && (Z.of_nat (ncols fronts)
           <=? Z.of_nat (last (m :: rest) 0%nat) + num_pixels)%Z)%bool
  end.

(** Whether the loop over [rows] reaches row [i]: it stops at the first row
    that raises. *)
Fixpoint reached (fronts : farr) (num_pixels : Z) (rows : list nat) (i : nat)
  : bool :=
  match rows with
  | [] => false
  | k :: tl =>
      if (k =? i)%nat then true
      else if row_overruns fronts num_pixels k then false
      else reached fronts num_pixels tl i
  end.

Definition mean_radius_earth : R := 6371%R.

(** [compute_dist_from_cdt(lat, lon, centerLat, centerLon)]: the haversine
    distance, in kilometres, of every grid point to a centre. *)
Definition compute_dist_from_cdt (lat lon centerLat centerLon : farr)
  : result farr :=
  lat1 <- $lat * sc PI / sc 180 ;;
  lat2 <- $centerLat * sc PI / sc 180 ;;
  lon1 <- $lon * sc PI / sc 180 ;;
  lon2 <- $centerLon * sc PI / sc 180 ;;
  dLat <- $lat1 - $lat2 ;;
  dLon <- $lon1 - $lon2 ;;
  a <- np_square (np_sin ($dLat / sc 2))
       + np_cos $lat1 * np_cos $lat2 * np_square (np_sin ($dLon / sc 2)) ;;
  c <- np_arctan2 (np_sqrt $a) (np_sqrt (sc 1 - $a)) ;;
  sc (2 * mean_radius_earth) * $c.

(** [compute_dist_from_cdt] at one cell. *)
Definition haversine_a (lat lon centerLat centerLon : fval) : fval :=
  let lat1 := radians lat in
  let lat2 := radians centerLat in
  let lon1 := radians lon in
  let lon2 := radians centerLon in
  let dLat := fsub lat1 lat2 in
  let dLon := fsub lon1 lon2 in
  let sq x := fmul x x in
  fadd (sq (fsin (fdiv dLat (Fin 2))))
       (fmul (fmul (fcos lat1) (fcos lat2)) (sq (fsin (fdiv dLon (Fin 2))))).

Definition haversine_cell (lat lon centerLat centerLon : fval) : fval :=
  let a := haversine_a lat lon centerLat centerLon in
  fmul (Fin (2 * mean_radius_earth))
       (farctan2 (fsqrt a) (fsqrt (fsub (Fin 1) a))).

(** [compute_center_mask(lat, lon, centerLat, centerLon)] *)
Definition compute_center_mask (lat lon centerLat centerLon : farr)
  : result (ndarray bool) :=
  dist <- compute_dist_from_cdt lat lon centerLat centerLon ;;
  ind <- argmin dist ;;
  let '(rCenter, cCenter) := unravel_index ind (shape dist) in
  let xdLeft := 8%Z in
  let xdRight := 11%Z in
  let ydTop := 2%Z in
  let ydBot := 16%Z in
  let '(numR, numC) := shape lat in
  let rMin := Z.max 0 (Z.of_nat rCenter - ydBot) in
  let cMin := Z.max 0 (Z.of_nat cCenter - xdLeft) in
  let rMax := Z.min (Z.of_nat numR) (Z.of_nat rCenter + ydTop) in
  let cMax := Z.min (Z.of_nat numC) (Z.of_nat cCenter + xdRight) in
  let out := zeros_with_block (shape lat) rMin rMax cMin cMax (Fin 1) in
  $out == sc 1.

(** One pass of [smooth_grid] at one cell: the cell [c], its right, left,
    upper and lower neighbours. *)
Definition smooth_cell (cw : R) (c r l u d : fval) : fval :=
  let valid x := of_bool (negb (isnan x)) in
  let cnts :=
    fadd (fadd (fadd (fadd (valid r) (valid l)) (valid u)) (valid d))
         (fmul (valid c) (Fin cw)) in
  let num := nansum [fmul c (Fin cw); r; l; u; d] in
  if negb (feq cnts (Fin 0)) then fdiv num cnts else c.

(** A cell that is finite or missing. *)
Definition finite_or_nan (x : fval) : Prop := x = NaN \/ exists r, x = Fin r.


(** [geo_divergence(lat, lon, x, y)] *)
Definition geo_divergence (lat lon x y : farr) : result farr :=
  '(x_dx, x_dy) <- geo_gradient lat lon x ;;
  '(y_dx, y_dy) <- geo_gradient lat lon y ;;
  $x_dx + $y_dy.

(** [geostrophic_thermal_advection(gx, gy, u, v)] *)
Definition geostrophic_thermal_advection (gx gy u v : farr) : result farr :=
  - ($u * $gx + $v * $gy).

(** A cell within two rows of the top or of the bottom of the grid. *)
Definition near_edge_row (n i : nat) : Prop := (i <= 1 \/ n <= i + 2)%nat.

(** [np.pad(a, ((0, 0), (1, 0)), mode='wrap')[:, :-1]]: the columns rolled
    by one to the right; an axis of length 0 cannot be wrapped. *)
Definition wrap_right (a : farr) : result farr :=
  if (ncols a =? 0)%nat then Err ValueError else Ok (roll_right a).

(** [auto_derivative(data)]: returns [(dx, dy)]. *)
Definition auto_derivative (data : farr) : result (farr * farr) :=
  data_right <- wrap_right data ;;
  let data_up := shift_up 1 data in
  dx <- $data - $data_right ;;
  dy <- $data - $data_up ;;
  $(dx, dy).

(** [compute_dist_grids(lat, lon)]: returns [(distX, distY)], in metres. *)
Definition compute_dist_grids (lat lon : farr) : result (farr * farr) :=
  '(dxLat, dyLat) <- auto_derivative lat ;;
  '(dxLon, dyLon) <- auto_derivative lon ;;
  lat1_x <- $lat * sc PI / sc 180 ;;
  lat2_x <- ($lat + $dxLat) * sc PI / sc 180 ;;
  lat1_y <- $lat * sc PI / sc 180 ;;
  lat2_y <- ($lat + $dyLat) * sc PI / sc 180 ;;
  lon1_x <- $lon * sc PI / sc 180 ;;
  lon2_x <- ($lon + $dxLon) * sc PI / sc 180 ;;
  lon1_y <- $lon * sc PI / sc 180 ;;
  lon2_y <- ($lon + $dyLon) * sc PI / sc 180 ;;
  dLat_x <- $dxLat * sc PI / sc 180 ;;
  dLat_y <- $dyLat * sc PI / sc 180 ;;
  dLon_x <- $dxLon * sc PI / sc 180 ;;
  dLon_y <- $dyLon * sc PI / sc 180 ;;
  a_x <- np_square (np_sin ($dLat_x / sc 2))
         + np_cos $lat1_x * np_cos $lat2_x
           * np_square (np_sin ($dLon_x / sc 2)) ;;
  c_x <- np_arctan2 (np_sqrt $a_x) (np_sqrt (sc 1 - $a_x)) ;;
  distX <- sc (2 * mean_radius_earth) * $c_x ;;
  a_y <- np_square (np_sin ($dLat_y / sc 2))
         + np_cos $lat1_y * np_cos $lat2_y
           * np_square (np_sin ($dLon_y / sc 2)) ;;
  c_y <- np_arctan2 (np_sqrt $a_y) (np_sqrt (sc 1 - $a_y)) ;;
  distY <- sc (2 * mean_radius_earth) * $c_y ;;
  distX_m <- $distX * sc 1000 ;;
  distY_m <- $distY * sc 1000 ;;
  $(distX_m, distY_m).

(** [geo_gradient_old(lat, lon, data)]: returns [(dx, dy)]. *)
Definition geo_gradient_old (lat lon data : farr) : result (farr * farr) :=
  '(dx, dy) <- auto_derivative data ;;
  '(distX, distY) <- compute_dist_grids lat lon ;;
  dx_distX <- $dx / $distX ;;
  dy_distY <- $dy / $distY ;;
  $(dx_distX, dy_distY).


(** A distance of [compute_dist_grids] at one cell, from the latitude of
    the cell and the differences of latitude and longitude to the
    neighbour. *)
Definition grid_step_a (lat dLat dLon : fval) : fval :=
  let lat1 := radians lat in
  let lat2 := radians (fadd lat dLat) in
  let sq x := fmul x x in
  fadd (sq (fsin (fdiv (radians dLat) (Fin 2))))
       (fmul (fmul (fcos lat1) (fcos lat2))
             (sq (fsin (fdiv (radians dLon) (Fin 2))))).

Definition grid_step_cell (lat dLat dLon : fval) : fval :=
  let a := grid_step_a lat dLat dLon in
  fmul (fmul (Fin (2 * mean_radius_earth))
             (farctan2 (fsqrt a) (fsqrt (fsub (Fin 1) a))))
       (Fin 1000).

(** The column to the left of column [j] on a grid of [n] columns that
    wraps around. *)
Definition left_of (n j : nat) : nat := ((j + (n - 1)) mod n)%nat.

End FrontDetection.

(** ** The rasteriser in binary64

    The bin edges and the histogram of [mask_zero_contour] once more, on
    numpy's own numbers: IEEE 754 binary64 with rounding to nearest.  The
    exact reals of [FrontDetection] hide the rounding of the last edge. *)

Module Binary64.
Import Np PrimFloat.
Local Open Scope float_scope.
Local Open Scope np_scope.
Local Set Warnings "-inexact-float".

Definition farr64 : Type := ndarray float.

Definition path64 : Type := list (float * float).

(** An array written row by row. *)
Definition of_rows64 (rows : list (list float)) : farr64 :=
  mk_nd (length rows) (length (hd [] rows))
    (fun i j => nth j (nth i rows []) nan).

(** [a[:, 0]] and [a[0, :]] *)
Definition first_col64 (a : farr64) : result (list float) :=
  if (ncols a =? 0)%nat then Err IndexError
  else Ok (map (fun i => cell a i 0%nat) (seq 0 (nrows a))).

Definition first_row64 (a : farr64) : result (list float) :=
  if (nrows a =? 0)%nat then Err IndexError
  else Ok (map (fun j => cell a 0%nat j) (seq 0 (ncols a))).

Definition item64 (l : list float) (k : nat) : result float :=
  match nth_error l k with
  | Some x => Ok x
  | None => Err IndexError
  end.

(** The edges: [e - div/2.] for every centre, then
    [np.append(edges, edges[-1] + div/2.)]. *)
Definition bin_edges64 (centres : list float) : result (list float) :=
  e1 <- item64 centres 1 ;;
  e0 <- item64 centres 0 ;;
  let div := (e1 - e0)%float in
  let edges := map (fun e => (e - div / 2)%float) centres in
  Ok (edges ++ [(last edges nan + div / 2)%float]).

(** [np.histogram2d] on explicit edges, as [Np.histogram2d]. *)
Fixpoint increasing64 (edges : list float) : bool :=
  match edges with
  | a :: (b :: _) as tl => (negb (ltb b a) && increasing64 tl)%bool
  | _ => true
  end.

Definition count_le64 (edges : list float) (x : float) : nat :=
  length (filter (fun e => negb (ltb x e)) edges).

Definition bin_index64 (edges : list float) (x : float) : option nat :=
  let n := if eqb x (last edges nan) then (count_le64 edges x - 1)%nat
           else count_le64 edges x in
  if ((n =? 0) || (length edges <=? n))%nat%bool then None
  else Some (n - 1)%nat.

Definition histogram2d64 (samples : list (float * float))
    (ex ey : list float) : result (ndarray nat) :=
  if (increasing64 ex && increasing64 ey)%bool then
    Ok (mk_nd (length ex - 1) (length ey - 1)
          (fun i j =>
             length (filter (fun s =>
               match bin_index64 ex (fst s), bin_index64 ey (snd s) with
               | Some bi, Some bj => ((bi =? i) && (bj =? j))%nat%bool
               | _, _ => false
               end) samples)))
  else Err ValueError.

Definition gather_vertices64 (paths : list path64)
  : option (list (float * float)) :=
  fold_left
    (fun cdt cdt_line =>
       match cdt with
       | None | Some [] => Some cdt_line
       | Some l => Some (l ++ cdt_line)
       end)
    paths None.

Section Contour64.

(** The contouring engine, as in [FrontDetection]. *)
Variable contour_paths : farr64 -> farr64 -> farr64 -> result (list path64).

(** [mask_zero_contour(latGrid, lonGrid, data)] *)
Definition mask_zero_contour64 (latGrid lonGrid data : farr64)
  : result farr64 :=
  paths <- contour_paths latGrid lonGrid data ;;
  let cdt := gather_vertices64 paths in
  lat_centres <- first_col64 latGrid ;;
  lon_centres <- first_row64 lonGrid ;;
  lat_edges <- bin_edges64 lat_centres ;;
  lon_edges <- bin_edges64 lon_centres ;;
  samples <- match cdt with
             | Some l => Ok l
             | None => Err IndexError
             end ;;
  H <- histogram2d64 samples lat_edges lon_edges ;;
  Ok (mk_nd (nrows H) (ncols H)
        (fun i j => if (0 <? cell H i j)%nat then 1%float else 0%float)).

End Contour64.

(** A grid with the latitudes 1.1, 1.2 and 1.3 and the longitudes 0 and 1,
    and a field that changes sign between the two columns in every row. *)
Definition seam_lat : farr64 :=
  of_rows64 [[1.1; 1.1]; [1.2; 1.2]; [1.3; 1.3]]%float.

Definition seam_lon : farr64 :=
  of_rows64 [[0; 1]; [0; 1]; [0; 1]]%float.

Definition seam_data : farr64 :=
  of_rows64 [[-1; 1]; [-1; 1]; [-1; 1]]%float.

(** Its zero contour: the meridian 0.5, with a vertex on every row. *)
Definition seam_contour : list path64 :=
  [[(1.1, 0.5); (1.2, 0.5); (1.3, 0.5)]]%float.

End Binary64.

(** * Properties *)

Import Float Np FrontDetection.

(** ** Cells of floats *)

Lemma Rltb_true (x y : R) : Rltb x y = true <-> (x < y)%R.
Proof. unfold Rltb; destruct (Rlt_dec x y); split; intros; auto; discriminate. Qed.

Lemma Rltb_false (x y : R) : Rltb x y = false <-> (y <= x)%R.
Proof.
  unfold Rltb; destruct (Rlt_dec x y); split; intros; auto; try discriminate; lra.
Qed.

Lemma Reqb_true (x y : R) : Reqb x y = true <-> x = y.
Proof. unfold Reqb; destruct (Req_dec_T x y); split; intros; auto; discriminate. Qed.

Lemma Reqb_false (x y : R) : Reqb x y = false <-> x <> y.
Proof.
  unfold Reqb; destruct (Req_dec_T x y); split; intros; auto;
    try discriminate; contradiction.
Qed.

(** Decides the real comparisons met in a goal, one at a time. *)
Ltac real_case :=
  match goal with
  | |- context [Rabs ?x] =>
      first [rewrite (Rabs_right x) by lra | rewrite (Rabs_left x) by lra]
  | |- context [Rltb ?x ?y] =>
      let H := fresh "Hc" in
      destruct (Rltb x y) eqn:H;
      [apply Rltb_true in H | apply Rltb_false in H]
  | |- context [Reqb ?x ?y] =>
      let H := fresh "Hc" in
      destruct (Reqb x y) eqn:H;
      [apply Reqb_true in H | apply Reqb_false in H]
  end.

Ltac real_cases := repeat (real_case; try lra; simpl).

Lemma fadd_nan_l (a : fval) : fadd NaN a = NaN.
Proof. reflexivity. Qed.

Lemma fadd_nan_r (a : fval) : fadd a NaN = NaN.
Proof. destruct a; reflexivity. Qed.

Lemma fsub_nan_l (a : fval) : fsub NaN a = NaN.
Proof. reflexivity. Qed.

Lemma fsub_nan_r (a : fval) : fsub a NaN = NaN.
Proof. destruct a; reflexivity. Qed.

Lemma fmul_nan_l (a : fval) : fmul NaN a = NaN.
Proof. reflexivity. Qed.

Lemma fmul_nan_r (a : fval) : fmul a NaN = NaN.
Proof. destruct a; reflexivity. Qed.

Lemma fdiv_nan_l (a : fval) : fdiv NaN a = NaN.
Proof. reflexivity. Qed.

Lemma fdiv_nan_r (a : fval) : fdiv a NaN = NaN.
Proof. destruct a; reflexivity. Qed.

Lemma flt_nan_l (a : fval) : flt NaN a = false.
Proof. reflexivity. Qed.

Lemma flt_nan_r (a : fval) : flt a NaN = false.
Proof. destruct a; reflexivity. Qed.

Lemma fgt_nan_l (a : fval) : fgt NaN a = false.
Proof. apply flt_nan_r. Qed.

Lemma fgt_nan_r (a : fval) : fgt a NaN = false.
Proof. reflexivity. Qed.

(** [a > b] and [a < b] never hold together. *)
Lemma flt_fgt_excl (a b : fval) : flt a b = true -> fgt a b = true -> False.
Proof.
  unfold fgt; destruct a, b; simpl; try discriminate.
  rewrite !Rltb_true; lra.
Qed.

(** Raising the bound of [a > k] can only turn the comparison off. *)
Lemma fgt_mono (a : fval) (k k' : R) :
  (k <= k')%R -> fgt a (Fin k') = true -> fgt a (Fin k) = true.
Proof.
  unfold fgt; destruct a; simpl; auto.
  rewrite !Rltb_true; lra.
Qed.

(** Not-a-number swallows arithmetic and fails every comparison. *)
Ltac nan_simpl :=
  rewrite ?fadd_nan_l, ?fadd_nan_r, ?fsub_nan_l, ?fsub_nan_r,
    ?fmul_nan_l, ?fmul_nan_r, ?fdiv_nan_l, ?fdiv_nan_r,
    ?flt_nan_l, ?flt_nan_r, ?fgt_nan_l, ?fgt_nan_r.

(** ** Broadcasting *)

Lemma bdim_some (m n k : nat) :
  bdim m n = Some k ->
  (m = k \/ m = 1%nat) /\ (n = k \/ n = 1%nat).
Proof.
  unfold bdim.
  destruct (Nat.eqb_spec m n); [intros [= <-]; subst; auto|].
  destruct (Nat.eqb_spec m 1); [intros [= <-]; auto|].
  destruct (Nat.eqb_spec n 1); [intros [= <-]; auto|discriminate].
Qed.

Lemma bdim_one_r (m : nat) : bdim m 1 = Some m.
Proof.
  unfold bdim. destruct (Nat.eqb_spec m 1); [subst; reflexivity|].
  reflexivity.
Qed.

Lemma bidx_bidx (m k i : nat) :
  m = k \/ m = 1%nat -> bidx m (bidx k i) = bidx m i.
Proof.
  unfold bidx; intros [-> | ->]; [|reflexivity].
  destruct (Nat.eqb_spec k 1); [|reflexivity].
  destruct (Nat.eqb_spec k 1); congruence.
Qed.

Lemma bidx_in_range (m i : nat) : (i < m)%nat -> bidx m i = i.
Proof. unfold bidx; destruct (Nat.eqb_spec m 1); lia. Qed.

Lemma rd_in_range {A : Type} (a : ndarray A) (i j : nat) :
  (i < nrows a)%nat -> (j < ncols a)%nat -> rd a i j = cell a i j.
Proof. intros; unfold rd; now rewrite !bidx_in_range. Qed.

Lemma fits_refl {A : Type} (a : ndarray A) : fits a a.
Proof. split; auto. Qed.

Lemma fits_trans {A B C : Type}
    (a : ndarray A) (b : ndarray B) (c : ndarray C) :
  fits a b -> fits b c -> fits a c.
Proof. unfold fits; intros [[?|?] [?|?]] [[?|?] [?|?]]; split; auto; lia. Qed.

(** A cell of [a] is read by the same cell of any result [a] fits in. *)
Lemma rd_fits_cell {A B : Type} (a : ndarray A) (x : ndarray B) (i j : nat) :
  fits a x -> (i < nrows a)%nat -> (j < ncols a)%nat ->
  rd a i j = cell a i j /\ rd x i j = cell x i j.
Proof.
  intros [Hr Hc] Hi Hj; split; [now apply rd_in_range|].
  unfold rd, bidx.
  destruct (Nat.eqb_spec (nrows x) 1), (Nat.eqb_spec (ncols x) 1);
    f_equal; lia.
Qed.

Lemma bidx_fits {A B : Type} (a : ndarray A) (x : ndarray B) (i j : nat) :
  fits a x -> (i < nrows a)%nat -> (j < ncols a)%nat ->
  bidx (nrows x) i = i /\ bidx (ncols x) j = j.
Proof.
  intros [Hr Hc] Hi Hj. unfold bidx.
  destruct (Nat.eqb_spec (nrows x) 1), (Nat.eqb_spec (ncols x) 1);
    split; lia.
Qed.

Lemma bind_ok {A B : Type} (m : result A) (k : A -> result B) (b : B) :
  bind m k = Ok b -> exists a, m = Ok a /\ k a = Ok b.
Proof. destruct m; simpl; [eauto | discriminate]. Qed.

Lemma map2_ok {A B C : Type} (f : A -> B -> C)
    (a : ndarray A) (b : ndarray B) (x : ndarray C) :
  map2 f a b = Ok x ->
  fits a x /\ fits b x /\ forall i j, rd x i j = f (rd a i j) (rd b i j).
Proof.
  unfold map2.
  destruct (bdim (nrows a) (nrows b)) as [r|] eqn:Hr; [|discriminate].
  destruct (bdim (ncols a) (ncols b)) as [c|] eqn:Hc; [|discriminate].
  intros [= <-].
  apply bdim_some in Hr, Hc; destruct Hr as [Ha Hb], Hc as [Ha' Hb'].
  assert (Fa : fits a (mk_nd r c (fun i j =>
            f (cell a (bidx (nrows a) i) (bidx (ncols a) j))
              (cell b (bidx (nrows b) i) (bidx (ncols b) j)))))
    by (split; assumption).
  assert (Fb : fits b (mk_nd r c (fun i j =>
            f (cell a (bidx (nrows a) i) (bidx (ncols a) j))
              (cell b (bidx (nrows b) i) (bidx (ncols b) j)))))
    by (split; assumption).
  split; [exact Fa|]; split; [exact Fb|].
  intros i j. unfold rd at 1; cbn [cell nrows ncols].
  now rewrite !bidx_bidx by assumption.
Qed.

Lemma lift2_ok {A B C : Type} (f : A -> B -> C)
    (a : result (ndarray A)) (b : result (ndarray B)) (x : ndarray C) :
  lift2 f a b = Ok x ->
  exists a' b', a = Ok a' /\ b = Ok b' /\ fits a' x /\ fits b' x /\
    forall i j, rd x i j = f (rd a' i j) (rd b' i j).
Proof.
  unfold lift2; intros H.
  apply bind_ok in H as (a' & -> & H).
  apply bind_ok in H as (b' & -> & H).
  apply map2_ok in H as (? & ? & ?); eauto 8.
Qed.

Lemma lift1_ok {A B : Type} (f : A -> B)
    (a : result (ndarray A)) (x : ndarray B) :
  lift1 f a = Ok x ->
  exists a', a = Ok a' /\ fits a' x /\ fits x a' /\
    (forall i j, rd x i j = f (rd a' i j)) /\
    (forall i j, cell x i j = f (cell a' i j)).
Proof.
  unfold lift1; intros H.
  apply bind_ok in H as (a' & -> & [= <-]).
  exists a'; repeat split; auto.
Qed.

Lemma sc_ok (r : R) (x : farr) :
  sc r = Ok x -> forall i j, rd x i j = Fin r.
Proof. intros [= <-] i j; reflexivity. Qed.

Lemma set_where_ok (a : farr) (mask : ndarray bool) (v : fval) (x : farr) :
  set_where a mask v = Ok x ->
  fits a x /\ fits x a /\ fits mask x /\
  forall i j, rd x i j = if rd mask i j then v else rd a i j.
Proof.
  unfold set_where.
  destruct (Nat.eqb_spec (nrows mask) (nrows a)) as [Hr|]; [|discriminate].
  destruct (Nat.eqb_spec (ncols mask) (ncols a)) as [Hc|]; [|discriminate].
  simpl. intros [= <-].
  repeat split; cbn [nrows ncols]; auto.
  intros i j; unfold rd; cbn [nrows ncols cell]. now rewrite Hr, Hc.
Qed.

(** Takes apart a hypothesis that says an array expression has a value. *)
Ltac inv_np :=
  repeat match goal with
  | H : bind _ _ = Ok _ |- _ =>
      let x := fresh "x" in
      apply bind_ok in H; destruct H as (x & ? & H)
  | H : lift2 _ _ _ = Ok _ |- _ =>
      let a := fresh "a" in let b := fresh "b" in
      apply lift2_ok in H; destruct H as (a & b & ? & ? & ? & ? & ?)
  | H : lift1 _ _ = Ok _ |- _ =>
      let a := fresh "a" in
      apply lift1_ok in H; destruct H as (a & ? & ? & ? & ? & ?)
  | H : np_abs _ = Ok _ |- _ => unfold np_abs in H
  | H : np_double _ = Ok _ |- _ => unfold np_double in H
  | H : np_sin _ = Ok _ |- _ => unfold np_sin in H
  | H : np_cos _ = Ok _ |- _ => unfold np_cos in H
  | H : np_sqrt _ = Ok _ |- _ => unfold np_sqrt in H
  | H : np_square _ = Ok _ |- _ => unfold np_square in H
  | H : np_arccos _ = Ok _ |- _ => unfold np_arccos in H
  | H : np_arctan2 _ _ = Ok _ |- _ => unfold np_arctan2 in H
  | H : sc _ = Ok _ |- _ =>
      let H' := fresh in pose proof (sc_ok _ _ H) as H'; clear H
  | H : set_where _ _ _ = Ok _ |- _ =>
      apply set_where_ok in H; destruct H as (? & ? & ? & ?)
  | H : Ok ?a = Ok ?b |- _ =>
      first [is_var a | is_var b]; injection H as H;
      first [subst b | subst a]
  end.

(** Runs an array expression on arrays of known shape, leaving the
    arithmetic of the cells alone. *)
Ltac np_eval :=
  cbv [simmonds_et_al_2012 theta_from_temp_pres
       bind lift1 lift2 map1 map2 bdim bidx sc nrows ncols cell shape
       np_abs np_double np_sin np_cos np_sqrt np_square np_arccos np_arctan2
       of_rows length hd nth Nat.eqb].

Ltac splits := repeat match goal with |- _ /\ _ => split end.

(** Follows an operand up to a result it is broadcast to. *)
Ltac fits_up n :=
  lazymatch n with
  | O => fail
  | S ?m =>
      first
        [ assumption
        | multimatch goal with
          | H : fits ?a ?b |- fits ?a _ =>
              apply (fits_trans _ _ _ H); fits_up m
          end ]
  end.

(** Replaces the cells of [x] that an expression reads by their definition. *)
Ltac rd_step x :=
  match goal with
  | Hx : forall i j, rd x i j = _ |- _ => rewrite Hx
  end.

(** Replaces the cells an array expression reads by their definitions. *)
Ltac rd_unfold :=
  repeat match goal with
  | H : forall i j, rd ?x i j = _ |- context [rd ?x _ _] => rewrite H
  end.

(** ** The wind-shift detector *)

(** At every cell the detector returns the condition of that cell. *)
Lemma simmonds_pointwise (latGrid lonGrid u_prior v_prior u v out : farr) :
  simmonds_et_al_2012 latGrid lonGrid u_prior v_prior u v = Ok out ->
  forall i j,
    rd out i j = of_bool (simmonds_cell (rd latGrid i j) (rd u_prior i j)
                            (rd v_prior i j) (rd u i j) (rd v i j)).
Proof.
  unfold simmonds_et_al_2012; intros H i j.
  inv_np. rd_unfold. reflexivity.
Qed.

(** The fixture of the end-to-end scenario: one cell at latitude 10 with
    [u_prior = 1], [v_prior = -3], [u = 1] and the given [v]. *)
Lemma simmonds_fixture (lonGrid : farr) (v : R) :
  exists out,
    simmonds_et_al_2012 (of_rows [[Fin 10]]) lonGrid (of_rows [[Fin 1]])
      (of_rows [[Fin (-3)]]) (of_rows [[Fin 1]]) (of_rows [[Fin v]]) = Ok out
    /\ shape out = (1%nat, 1%nat)
    /\ cell out 0 0 =
       of_bool (simmonds_cell (Fin 10) (Fin 1) (Fin (-3)) (Fin 1) (Fin v)).
Proof.
  eexists; split; [np_eval; reflexivity|]; split; reflexivity.
Qed.

Lemma simmonds_cell_v1 :
  simmonds_cell (Fin 10) (Fin 1) (Fin (-3)) (Fin 1) (Fin 1) = false.
Proof.
  unfold simmonds_cell, wind_thres, fgt, flt, fabs, fsub, fadd, fneg, fmul.
  replace (Rltb 2 (Rabs (Rabs 1 + - Rabs (-3)))) with false.
  - now rewrite !andb_false_r.
  - symmetry; apply Rltb_false. real_cases.
Qed.

Lemma simmonds_cell_v15 :
  simmonds_cell (Fin 10) (Fin 1) (Fin (-3)) (Fin 1) (Fin 1.5) = false.
Proof.
  unfold simmonds_cell, wind_thres, fgt, flt, fabs, fsub, fadd, fneg, fmul.
  replace (Rltb 2 (Rabs (Rabs 1.5 + - Rabs (-3)))) with false.
  - now rewrite !andb_false_r.
  - symmetry; apply Rltb_false. real_cases.
Qed.

(** With [v = 1.5] the fixture fails the direction test on its own: a
    northern cell needs [v < 0]. *)
Lemma simmonds_direction_v15 :
  (fgt (Fin 1.5) (Fin 0) && flt (Fin 10) (Fin 0)
   || flt (Fin 1.5) (Fin 0) && fgt (Fin 10) (Fin 0))%bool = false.
Proof. unfold fgt, flt. real_cases; try reflexivity. Qed.

(** A northern cell that the detector does flag: [v] turns from 3 to -0.5. *)
Lemma simmonds_cell_flagged :
  simmonds_cell (Fin 10) (Fin 1) (Fin 3) (Fin 1) (Fin (-0.5)) = true.
Proof.
  unfold simmonds_cell, wind_thres, fgt, flt, fabs, fsub, fadd, fneg, fmul.
  real_cases; try reflexivity.
Qed.

(** C2, counterexample: at [lat=10, u_prior=1, v_prior=-3, u=1, v=1.5] the
    wind-shift detector does not return a mask that is 1 at the cell: no cold
    front is flagged there. *)
Lemma simmonds_fixture_v15_not_flagged :
  ~ (exists out,
       simmonds_et_al_2012 (of_rows [[Fin 10]]) (of_rows [[Fin 0]])
         (of_rows [[Fin 1]]) (of_rows [[Fin (-3)]]) (of_rows [[Fin 1]])
         (of_rows [[Fin 1.5]]) = Ok out
       /\ cell out 0 0 = Fin 1).
Proof.
  intros (out & Hout & Hcell).
  destruct (simmonds_fixture (of_rows [[Fin 0]]) 1.5) as (out' & Hout' & _ & Hc).
  rewrite Hout in Hout'; injection Hout' as <-.
  rewrite Hc, simmonds_cell_v15 in Hcell; simpl in Hcell.
  injection Hcell as Hcell; lra.
Qed.

(** C2, as the code has it: for a cell with [lat=10, u_prior=1, v_prior=-3,
    u=1], the wind-shift detector does not flag the cell when [v=1] (the
    change of magnitude is 2, not greater than 2), and does not flag it when
    [v=1.5] either (the change of magnitude is 1.5, and a positive [v] at a
    northern latitude fails the direction test). *)
Theorem simmonds_fixture_outputs :
  (exists out,
     simmonds_et_al_2012 (of_rows [[Fin 10]]) (of_rows [[Fin 0]])
       (of_rows [[Fin 1]]) (of_rows [[Fin (-3)]]) (of_rows [[Fin 1]])
       (of_rows [[Fin 1]]) = Ok out
     /\ shape out = (1%nat, 1%nat) /\ cell out 0 0 = Fin 0)
  /\ fabs (fsub (fabs (Fin 1)) (fabs (Fin (-3)))) = Fin 2
  /\ (exists out,
        simmonds_et_al_2012 (of_rows [[Fin 10]]) (of_rows [[Fin 0]])
          (of_rows [[Fin 1]]) (of_rows [[Fin (-3)]]) (of_rows [[Fin 1]])
          (of_rows [[Fin 1.5]]) = Ok out
        /\ shape out = (1%nat, 1%nat) /\ cell out 0 0 = Fin 0)
  /\ fabs (fsub (fabs (Fin 1.5)) (fabs (Fin (-3)))) = Fin 1.5.
Proof.
  split; [|split; [|split]].
  - destruct (simmonds_fixture (of_rows [[Fin 0]]) 1) as (out & H & Hs & Hc).
    exists out; rewrite Hc, simmonds_cell_v1; auto.
  - simpl; f_equal. real_cases.
  - destruct (simmonds_fixture (of_rows [[Fin 0]]) 1.5) as (out & H & Hs & Hc).
    exists out; rewrite Hc, simmonds_cell_v15; auto.
  - simpl; f_equal. real_cases.
Qed.

(** *** Broadcasting never fails on grids that fit one shape *)

Lemma bdim_fit (m n k : nat) :
  m = k \/ m = 1%nat -> n = k \/ n = 1%nat ->
  exists r, bdim m n = Some r /\ (r = k \/ r = 1%nat)
            /\ (m = k -> r = k) /\ (n = k -> r = k).
Proof.
  unfold bdim; intros Hm Hn.
  destruct (Nat.eqb_spec m n).
  - exists m; repeat split; auto; lia.
  - destruct (Nat.eqb_spec m 1).
    + exists n; repeat split; auto; lia.
    + destruct (Nat.eqb_spec n 1).
      * exists m; repeat split; auto; lia.
      * lia.
Qed.

Lemma map2_fit {A B C D : Type} (f : A -> B -> C) (L : ndarray D)
    (a : ndarray A) (b : ndarray B) :
  fits a L -> fits b L ->
  exists x, map2 f a b = Ok x /\ fits x L
            /\ (nrows a = nrows L \/ nrows b = nrows L -> nrows x = nrows L)
            /\ (ncols a = ncols L \/ ncols b = ncols L -> ncols x = ncols L).
Proof.
  intros [Har Hac] [Hbr Hbc]; unfold map2.
  destruct (bdim_fit _ _ _ Har Hbr) as (r & -> & Hr & Hr1 & Hr2).
  destruct (bdim_fit _ _ _ Hac Hbc) as (c & -> & Hc & Hc1 & Hc2).
  eexists; split; [reflexivity|]; unfold fits; cbn [nrows ncols].
  repeat split; auto; intros [?|?]; auto.
Qed.

Lemma okfull_okfit {A B : Type} (L : ndarray B) (e : result (ndarray A)) :
  okfull L e -> okfit L e.
Proof. intros (x & -> & Hr & Hc); exists x; split; [|split]; auto. Qed.

Lemma okfit_ret {A B : Type} (L : ndarray B) (a : ndarray A) :
  fits a L -> okfit L (Ok a).
Proof. intros; exists a; auto. Qed.

Lemma okfull_ret {A : Type} (L : ndarray A) : okfull L (Ok L).
Proof. exists L; auto. Qed.

Lemma okfit_sc {B : Type} (L : ndarray B) (r : R) : okfit L (sc r).
Proof. eexists; split; [reflexivity|]; split; right; reflexivity. Qed.

Lemma okfit_lift1 {A B D : Type} (f : A -> B) (L : ndarray D)
    (a : result (ndarray A)) :
  okfit L a -> okfit L (lift1 f a).
Proof. intros (x & -> & Hx); eexists; split; [reflexivity|exact Hx]. Qed.

Lemma okfull_lift1 {A B D : Type} (f : A -> B) (L : ndarray D)
    (a : result (ndarray A)) :
  okfull L a -> okfull L (lift1 f a).
Proof. intros (x & -> & Hx); eexists; split; [reflexivity|exact Hx]. Qed.

Lemma okfit_lift2 {A B C D : Type} (f : A -> B -> C) (L : ndarray D)
    (a : result (ndarray A)) (b : result (ndarray B)) :
  okfit L a -> okfit L b -> okfit L (lift2 f a b).
Proof.
  intros (x & -> & Hx) (y & -> & Hy).
  destruct (map2_fit f L x y Hx Hy) as (z & Hz & Hfit & _).
  exists z; split; auto.
Qed.

Lemma okfull_lift2_l {A B C D : Type} (f : A -> B -> C) (L : ndarray D)
    (a : result (ndarray A)) (b : result (ndarray B)) :
  okfull L a -> okfit L b -> okfull L (lift2 f a b).
Proof.
  intros (x & -> & Hxr & Hxc) (y & -> & Hy).
  assert (Hx : fits x L) by (split; auto).
  destruct (map2_fit f L x y Hx Hy) as (z & Hz & _ & Hr & Hc).
  exists z; split; auto.
Qed.

Lemma okfull_lift2_r {A B C D : Type} (f : A -> B -> C) (L : ndarray D)
    (a : result (ndarray A)) (b : result (ndarray B)) :
  okfit L a -> okfull L b -> okfull L (lift2 f a b).
Proof.
  intros (x & -> & Hx) (y & -> & Hyr & Hyc).
  assert (Hy : fits y L) by (split; auto).
  destruct (map2_fit f L x y Hx Hy) as (z & Hz & _ & Hr & Hc).
  exists z; split; auto.
Qed.

Create HintDb bcast.
#[local] Hint Resolve okfit_ret okfit_sc okfit_lift1 okfit_lift2
  okfull_okfit fits_refl : bcast.
#[local] Hint Resolve okfull_ret okfull_lift1 okfull_lift2_l okfull_lift2_r
  : bcast.

(** *** Broadcasting is the only way an expression fails *)

Lemma raises_only_ret {A : Type} (e0 : exn) (a : A) : raises_only e0 (Ok a).
Proof. intros e; discriminate. Qed.

Lemma raises_only_sc (r : R) : raises_only ValueError (sc r).
Proof. intros e; discriminate. Qed.

Lemma raises_only_bind {A B : Type} (e0 : exn)
    (m : result A) (k : A -> result B) :
  raises_only e0 m -> (forall a, raises_only e0 (k a)) ->
  raises_only e0 (bind m k).
Proof.
  intros Hm Hk e; destruct m; simpl; [exact (Hk a e)|].
  intros [= <-]; now apply Hm.
Qed.

Lemma raises_only_map2 {A B C : Type} (f : A -> B -> C)
    (a : ndarray A) (b : ndarray B) :
  raises_only ValueError (map2 f a b).
Proof.
  intros e; unfold map2.
  destruct (bdim (nrows a) (nrows b)), (bdim (ncols a) (ncols b));
    congruence.
Qed.

Lemma raises_only_lift1 {A B : Type} (f : A -> B) (a : result (ndarray A)) :
  raises_only ValueError a -> raises_only ValueError (lift1 f a).
Proof.
  intros Ha; apply raises_only_bind; auto.
  intros; apply raises_only_ret.
Qed.

Lemma raises_only_lift2 {A B C : Type} (f : A -> B -> C)
    (a : result (ndarray A)) (b : result (ndarray B)) :
  raises_only ValueError a -> raises_only ValueError b ->
  raises_only ValueError (lift2 f a b).
Proof.
  intros Ha Hb; apply raises_only_bind; auto.
  intros; apply raises_only_bind; auto.
  intros; apply raises_only_map2.
Qed.

Ltac raises_tac :=
  repeat first
    [ apply raises_only_lift2 | apply raises_only_lift1
    | apply raises_only_ret | apply raises_only_sc | apply raises_only_map2 ].

Lemma simmonds_raises_only (latGrid lonGrid u_prior v_prior u v : farr) :
  raises_only ValueError
    (simmonds_et_al_2012 latGrid lonGrid u_prior v_prior u v).
Proof.
  unfold simmonds_et_al_2012, np_abs, np_double.
  apply raises_only_bind; [raises_tac|intros mag_diff].
  apply raises_only_bind; [raises_tac|intros; raises_tac].
Qed.

(** Every grid the wind-shift detector reads is broadcast to its result. *)
Lemma simmonds_inputs_fit (latGrid lonGrid u_prior v_prior u v out : farr) :
  simmonds_et_al_2012 latGrid lonGrid u_prior v_prior u v = Ok out ->
  fits latGrid out /\ fits u_prior out /\ fits v_prior out
  /\ fits u out /\ fits v out.
Proof.
  unfold simmonds_et_al_2012; intros H. inv_np.
  splits; fits_up 12%nat.
Qed.

Lemma fits_antisym {A B : Type} (a : ndarray A) (b : ndarray B) :
  fits a b -> fits b a -> nrows a = nrows b /\ ncols a = ncols b.
Proof. unfold fits; intros [[?|?] [?|?]] [[?|?] [?|?]]; split; lia. Qed.

(** The wind-shift detector returns a mask for grids that can be broadcast
    to one shape. *)
Lemma simmonds_returns (L latGrid lonGrid u_prior v_prior u v : farr) :
  fits latGrid L -> fits u_prior L -> fits v_prior L ->
  fits u L -> fits v L ->
  exists out,
    simmonds_et_al_2012 latGrid lonGrid u_prior v_prior u v = Ok out
    /\ fits out L.
Proof.
  intros Hlat Hup Hvp Hu Hv. unfold simmonds_et_al_2012.
  assert (Hmd : okfit L
            (np_abs (lift2 fsub (np_abs (Ok v)) (np_abs (Ok v_prior)))))
    by (unfold np_abs; auto 8 with bcast).
  destruct Hmd as (mag_diff & -> & Hmag); cbn [bind].
  match goal with
  | |- exists out, bind ?e _ = _ /\ _ => assert (Hc : okfit L e)
  end.
  { unfold np_abs. repeat apply okfit_lift2; auto 6 with bcast. }
  destruct Hc as (cond & -> & Hc); cbn [bind].
  eexists; split; [reflexivity|]; exact Hc.
Qed.

(** C10: wherever [u], [v], [u_prior], [v_prior] or [lat] is not-a-number
    at a cell, the wind-shift detector returns 0 at that cell, not
    not-a-number. *)
Theorem simmonds_nan_gives_zero
    (latGrid lonGrid u_prior v_prior u v out g : farr) (i j : nat) :
  simmonds_et_al_2012 latGrid lonGrid u_prior v_prior u v = Ok out ->
  In g [u; v; u_prior; v_prior; latGrid] ->
  (i < nrows g)%nat -> (j < ncols g)%nat ->
  cell g i j = NaN ->
  cell out i j = Fin 0.
Proof.
  intros H Hg Hi Hj Hnan.
  destruct (simmonds_inputs_fit _ _ _ _ _ _ _ H)
    as (Flat & Fup & Fvp & Fu & Fv).
  assert (Hfit : fits g out).
  { simpl in Hg; destruct Hg as [<-|[<-|[<-|[<-|[<-|[]]]]]]; assumption. }
  destruct (rd_fits_cell g out i j Hfit Hi Hj) as [Hrg Hro].
  rewrite <- Hro, (simmonds_pointwise _ _ _ _ _ _ _ H).
  rewrite <- Hrg in Hnan. unfold simmonds_cell.
  simpl in Hg; destruct Hg as [<-|[<-|[<-|[<-|[<-|[]]]]]];
    rewrite Hnan; simpl; nan_simpl;
    rewrite ?andb_false_r, ?andb_false_l; simpl;
    rewrite ?andb_false_r, ?andb_false_l; reflexivity.
Qed.

Lemma simmonds_nan_gives_zero_witness :
  exists out,
    simmonds_et_al_2012 (of_rows [[Fin 10; Fin 10]]) (of_rows [[Fin 0; Fin 1]])
      (of_rows [[Fin 1; Fin 1]]) (of_rows [[Fin 3; Fin 3]])
      (of_rows [[Fin 1; NaN]]) (of_rows [[Fin (-0.5); Fin (-0.5)]]) = Ok out
    /\ cell out 0 1 = Fin 0.
Proof.
  eexists; split; [np_eval; reflexivity|].
  apply (simmonds_nan_gives_zero
           (of_rows [[Fin 10; Fin 10]]) (of_rows [[Fin 0; Fin 1]])
           (of_rows [[Fin 1; Fin 1]]) (of_rows [[Fin 3; Fin 3]])
           (of_rows [[Fin 1; NaN]]) (of_rows [[Fin (-0.5); Fin (-0.5)]])
           _ (of_rows [[Fin 1; NaN]]) 0 1).
  - np_eval; reflexivity.
  - simpl; auto.
  - simpl; lia.
  - simpl; lia.
  - reflexivity.
Defined.

(** ** Shapes *)

(** The potential temperature is one broadcast expression. *)
Lemma theta_returns (L temp pres : farr) :
  fits temp L -> fits pres L ->
  exists out, theta_from_temp_pres temp pres = Ok out /\ fits out L.
Proof.
  intros Ht Hp; unfold theta_from_temp_pres.
  apply okfit_lift2; auto 6 with bcast.
Qed.

Lemma theta_inputs_fit (temp pres out : farr) :
  theta_from_temp_pres temp pres = Ok out ->
  fits temp out /\ fits pres out
  /\ forall i j,
       rd out i j =
       fmul (rd temp i j) (fpow (fdiv (Fin 1000) (rd pres i j)) (2 / 7)).
Proof.
  unfold theta_from_temp_pres; intros H. inv_np.
  splits; try fits_up 6%nat.
  intros i j; rd_unfold; reflexivity.
Qed.

Lemma theta_raises_only (temp pres : farr) :
  raises_only ValueError (theta_from_temp_pres temp pres).
Proof. unfold theta_from_temp_pres; raises_tac. Qed.

(** C4, counterexample: the wind-shift detector is given a 1 x 2 grid [v]
    next to 2 x 2 grids and returns a 2 x 2 mask. *)
Lemma simmonds_accepts_unequal_shapes :
  shape (of_rows [[Fin (-0.5); Fin (-0.5)]])
    <> shape (of_rows [[Fin 1; Fin 1]; [Fin 1; Fin 1]])
  /\ exists out,
       simmonds_et_al_2012
         (of_rows [[Fin 10; Fin 10]; [Fin 20; Fin 20]])
         (of_rows [[Fin 0; Fin 1]; [Fin 0; Fin 1]])
         (of_rows [[Fin 1; Fin 1]; [Fin 1; Fin 1]])
         (of_rows [[Fin 3; Fin 3]; [Fin 3; Fin 3]])
         (of_rows [[Fin 1; Fin 1]; [Fin 1; Fin 1]])
         (of_rows [[Fin (-0.5); Fin (-0.5)]]) = Ok out
       /\ shape out = (2%nat, 2%nat).
Proof.
  split; [discriminate|].
  eexists; split; [np_eval; reflexivity|reflexivity].
Qed.

(** ** Great-circle distance *)

Lemma rd_map1 {A B : Type} (f : A -> B) (a : ndarray A) (i j : nat) :
  rd (map1 f a) i j = f (rd a i j).
Proof. reflexivity. Qed.

Lemma dist_pointwise (lat0 lon0 lat1 lon1 out : farr) :
  dist_between_grids lat0 lon0 lat1 lon1 = Ok out ->
  forall i j,
    rd out i j =
    dist_cell (rd lat0 i j) (rd lon0 i j) (rd lat1 i j) (rd lon1 i j).
Proof.
  unfold dist_between_grids; intros H i j. inv_np.
  rd_unfold. unfold where_self. rewrite !rd_map1. rd_unfold.
  reflexivity.
Qed.

Lemma dist_inputs_fit (lat0 lon0 lat1 lon1 out : farr) :
  dist_between_grids lat0 lon0 lat1 lon1 = Ok out ->
  fits lat0 out /\ fits lon0 out /\ fits lat1 out /\ fits lon1 out.
Proof.
  unfold dist_between_grids; intros H. inv_np.
  assert (Hw : forall (p q : fval -> bool) (v w : fval) (a : farr),
             fits a (where_self p v (where_self q w a)))
    by (intros; split; left; reflexivity).
  match goal with
  | Hf : fits (where_self _ _ (where_self _ _ ?c)) _ |- _ =>
      pose proof (fits_trans _ _ _ (Hw _ _ _ _ c) Hf)
  end.
  splits; fits_up 12%nat.
Qed.

Lemma dist_returns (L lat0 lon0 lat1 lon1 : farr) :
  fits lat0 L -> fits lon0 L -> fits lat1 L -> fits lon1 L ->
  okfit L (dist_between_grids lat0 lon0 lat1 lon1).
Proof.
  intros H0 H1 H2 H3; unfold dist_between_grids.
  match goal with
  | |- okfit _ (bind ?e _) => assert (Hc : okfit L e)
  end.
  { unfold np_sin, np_cos. repeat apply okfit_lift2; auto 8 with bcast. }
  destruct Hc as (cosc & -> & Hc); cbn [bind].
  unfold np_arccos. apply okfit_lift2; auto with bcast.
Qed.

(** The angle between a point and itself has cosine 1. *)
Lemma cosc_cell_self (phi lam : R) :
  cosc_cell (Fin phi) (Fin lam) (Fin phi) (Fin lam) = Fin 1.
Proof.
  unfold cosc_cell, radians; simpl.
  replace (Reqb 180 0) with false by (symmetry; apply Reqb_false; lra).
  simpl. f_equal.
  replace (PI / 180 * (lam + - lam))%R with 0%R by lra.
  rewrite cos_0.
  pose proof (sin2_cos2 (phi * PI / 180)) as Hsc; unfold Rsqr in Hsc. lra.
Qed.

(** A cosine at or above 1 is clamped to 1, and the distance is 0. *)
Lemma dist_of_overshoot (x : R) :
  (1 <= x)%R -> fmul (farccos (clip_cell (Fin x))) (Fin R_earth) = Fin 0.
Proof.
  intros Hx. unfold clip_cell, fgt, flt.
  replace (Rltb x (-1)) with false by (symmetry; apply Rltb_false; lra).
  assert (Hclip : (if Rltb 1 x then Fin 1 else Fin x) = Fin 1).
  { destruct (Rltb 1 x) eqn:E; [reflexivity|].
    apply Rltb_false in E. f_equal; lra. }
  rewrite Hclip. unfold farccos.
  replace (Rltb 1 (-1)) with false by (symmetry; apply Rltb_false; lra).
  replace (Rltb 1 1) with false by (symmetry; apply Rltb_false; lra).
  simpl. rewrite acos_1. f_equal; lra.
Qed.

(** The clamped cosine is never outside the domain of the arc cosine. *)
Lemma clip_cell_in_domain (c : fval) :
  c <> NaN -> exists y, clip_cell c = Fin y /\ (-1 <= y <= 1)%R.
Proof.
  intros Hc; unfold clip_cell, fgt, flt.
  destruct c as [| | |x]; simpl; try congruence.
  - exists (-1)%R.
    replace (Rltb 1 (-1)) with false by (symmetry; apply Rltb_false; lra).
    split; [reflexivity|lra].
  - exists 1%R; split; [reflexivity|lra].
  - destruct (Rltb x (-1)) eqn:E1.
    + replace (Rltb 1 (-1)) with false by (symmetry; apply Rltb_false; lra).
      exists (-1)%R; split; [reflexivity|lra].
    + apply Rltb_false in E1. destruct (Rltb 1 x) eqn:E2.
      * exists 1%R; split; [reflexivity|lra].
      * apply Rltb_false in E2. exists x; split; [reflexivity|lra].
Qed.

(** In exact arithmetic the distance of a point with finite latitude and
    longitude to itself is 0, on every grid; and whatever the four grids, a
    cell whose cosine comes out at or above 1 gets distance 0, and a cell
    whose cosine is a number never gets not-a-number.  (The finite cells of
    this model are real numbers: a sum of squares that binary rounding
    leaves just below 1 is not a case of this statement.) *)
Lemma self_distance_zero_exact :
  (forall lat lon : farr,
     nrows lon = nrows lat -> ncols lon = ncols lat ->
     exists out,
       dist_between_grids lat lon lat lon = Ok out
       /\ nrows out = nrows lat /\ ncols out = ncols lat
       /\ forall i j phi lam,
            (i < nrows lat)%nat -> (j < ncols lat)%nat ->
            cell lat i j = Fin phi -> cell lon i j = Fin lam ->
            cell out i j = Fin 0)
  /\ (forall (lat0 lon0 lat1 lon1 out : farr) (i j : nat),
        dist_between_grids lat0 lon0 lat1 lon1 = Ok out ->
        let cosc :=
          cosc_cell (rd lat0 i j) (rd lon0 i j) (rd lat1 i j) (rd lon1 i j) in
        (forall x, cosc = Fin x -> (1 <= x)%R -> rd out i j = Fin 0)
        /\ (cosc <> NaN -> rd out i j <> NaN)).
Proof.
  split.
  - intros lat lon Hr Hc.
    assert (Flon : fits lon lat) by (split; left; assumption).
    destruct (dist_returns lat lat lon lat lon) as (out & Hout & Hfit);
      auto using fits_refl.
    destruct (dist_inputs_fit _ _ _ _ _ Hout) as (Flat & Flon' & _).
    destruct (fits_antisym _ _ Hfit Flat) as [Hor Hoc].
    exists out; splits; auto.
    intros i j phi lam Hi Hj Hphi Hlam.
    destruct (rd_fits_cell lat out i j Flat Hi Hj) as [Hrl Hro].
    assert (Hrn : rd lon i j = cell lon i j)
      by (apply rd_in_range; congruence).
    rewrite <- Hro, (dist_pointwise _ _ _ _ _ Hout), Hrl, Hrn, Hphi, Hlam.
    unfold dist_cell. rewrite cosc_cell_self.
    apply dist_of_overshoot; lra.
  - intros lat0 lon0 lat1 lon1 out i j Hout cosc; subst cosc.
    rewrite (dist_pointwise _ _ _ _ _ Hout); unfold dist_cell. split.
    + intros x -> Hx. now apply dist_of_overshoot.
    + intros Hc. destruct (clip_cell_in_domain _ Hc) as (y & -> & Hy).
      unfold farccos.
      replace (Rltb y (-1)) with false by (symmetry; apply Rltb_false; lra).
      replace (Rltb 1 y) with false by (symmetry; apply Rltb_false; lra).
      simpl. discriminate.
Qed.

Example self_distance_zero_example :
  exists out,
    dist_between_grids (of_rows [[Fin 45; Fin 45]]) (of_rows [[Fin 10; Fin 11]])
      (of_rows [[Fin 45; Fin 45]]) (of_rows [[Fin 10; Fin 11]]) = Ok out
    /\ cell out 0 1 = Fin 0.
Proof.
  destruct (proj1 self_distance_zero_exact
              (of_rows [[Fin 45; Fin 45]]) (of_rows [[Fin 10; Fin 11]])
              eq_refl eq_refl) as (out & Hout & _ & _ & Hzero).
  exists out; split; [exact Hout|].
  apply (Hzero 0%nat 1%nat 45%R 11%R); simpl; auto.
Defined.

(** ** The zero-contour rasteriser *)

Lemma item_err (l : list fval) (k : nat) (e : exn) :
  item l k = Err e -> e = IndexError.
Proof. unfold item; destruct (nth_error l k); congruence. Qed.

Lemma bin_edges_raises_only (centres : list fval) :
  raises_only IndexError (bin_edges centres).
Proof.
  intros e; unfold bin_edges.
  destruct (item centres 1) eqn:E1; simpl; [|intros [= <-]; eauto using item_err].
  destruct (item centres 0) eqn:E0; simpl; [|intros [= <-]; eauto using item_err].
  discriminate.
Qed.

(** With no path at all, [cdt] stays the one-dimensional empty array and
    taking its columns fails. *)
Lemma mask_zero_contour_no_path
    (contour_paths : farr -> farr -> farr -> result (list path))
    (latGrid lonGrid data : farr) :
  contour_paths latGrid lonGrid data = Ok [] ->
  mask_zero_contour contour_paths latGrid lonGrid data = Err IndexError.
Proof.
  intros Hc; unfold mask_zero_contour; rewrite Hc; cbn [bind gather_vertices fold_left].
  unfold first_col, first_row.
  destruct (ncols latGrid =? 0)%nat; [reflexivity|cbn [bind]].
  destruct (nrows lonGrid =? 0)%nat; [reflexivity|cbn [bind]].
  destruct (bin_edges _) eqn:E1; cbn [bind];
    [|now rewrite (bin_edges_raises_only _ _ E1)].
  clear E1.
  destruct (bin_edges _) eqn:E2; cbn [bind];
    [|now rewrite (bin_edges_raises_only _ _ E2)].
  reflexivity.
Qed.

(** C1, on the code: for a field that is strictly positive (or strictly
    negative) at every cell the contour has no path, and
    [mask_zero_contour] does not return the all-zero mask: it fails with
    [IndexError]. *)
Theorem mask_zero_contour_empty_contour_raises
    (contour_paths : farr -> farr -> farr -> result (list path))
    (latGrid lonGrid data : farr) :
  no_contour_without_sign_change contour_paths ->
  strictly_positive data \/ strictly_negative data ->
  mask_zero_contour contour_paths latGrid lonGrid data = Err IndexError.
Proof.
  intros Hengine Hsign. apply mask_zero_contour_no_path. now apply Hengine.
Qed.

Lemma mask_zero_contour_empty_contour_raises_witness :
  mask_zero_contour (fun _ _ _ => Ok [])
    (of_rows [[Fin 0; Fin 0]; [Fin 1; Fin 1]])
    (of_rows [[Fin 0; Fin 1]; [Fin 0; Fin 1]])
    (of_rows [[Fin 1; Fin 1]; [Fin 1; Fin 1]]) = Err IndexError.
Proof.
  apply mask_zero_contour_empty_contour_raises.
  - intros ? ? ? _; reflexivity.
  - left; intros i j Hi Hj; simpl in Hi, Hj.
    assert (Hij : (i = 0 \/ i = 1)%nat /\ (j = 0 \/ j = 1)%nat) by lia.
    destruct Hij as [[-> | ->] [-> | ->]]; simpl; apply Rltb_true; lra.
Defined.

(** *** Bin edges and bins on a grid with a constant step *)

Lemma count_le_app (l1 l2 : list fval) (x : fval) :
  count_le (l1 ++ l2) x = (count_le l1 x + count_le l2 x)%nat.
Proof. unfold count_le; now rewrite filter_app, length_app. Qed.

Lemma count_le_all (f : nat -> R) (x : R) (m s : nat) :
  (forall k, (s <= k < s + m)%nat -> (f k <= x)%R) ->
  count_le (map (fun k => Fin (f k)) (seq s m)) (Fin x) = m.
Proof.
  revert s; induction m as [|m IH]; intros s Hall; [reflexivity|].
  unfold count_le in *; cbn [seq map filter fgt flt].
  replace (Rltb x (f s)) with false
    by (symmetry; apply Rltb_false, Hall; lia).
  cbn [negb length]. f_equal. apply IH. intros k Hk; apply Hall; lia.
Qed.

Lemma count_le_none (f : nat -> R) (x : R) (m s : nat) :
  (forall k, (s <= k < s + m)%nat -> (x < f k)%R) ->
  count_le (map (fun k => Fin (f k)) (seq s m)) (Fin x) = 0%nat.
Proof.
  revert s; induction m as [|m IH]; intros s Hall; [reflexivity|].
  unfold count_le in *; cbn [seq map filter fgt flt].
  replace (Rltb x (f s)) with true
    by (symmetry; apply Rltb_true, Hall; lia).
  cbn [negb]. apply IH. intros k Hk; apply Hall; lia.
Qed.

Lemma centre_mono (c0 d : R) (k l : nat) :
  (0 < d)%R -> (k <= l)%nat -> (centre c0 d k <= centre c0 d l)%R.
Proof.
  intros Hd Hkl; unfold centre. apply le_INR in Hkl. nra.
Qed.

Lemma centre_succ (c0 d : R) (k : nat) :
  centre c0 d (S k) = (centre c0 d k + d)%R.
Proof. unfold centre; rewrite S_INR; lra. Qed.

Lemma fdiv_fin (x y : R) : y <> 0%R -> fdiv (Fin x) (Fin y) = Fin (x / y).
Proof.
  intros Hy; simpl.
  now replace (Reqb y 0) with false by (symmetry; now apply Reqb_false).
Qed.

Lemma item_uniform (c0 d : R) (n k : nat) :
  (k < n)%nat -> item (uniform_centres c0 d n) k = Ok (Fin (centre c0 d k)).
Proof.
  intros Hk; unfold item, uniform_centres.
  rewrite nth_error_map, nth_error_nth' with (d := 0%nat)
    by (rewrite length_seq; lia).
  now rewrite seq_nth by lia.
Qed.

(** The edges [bin_edges] builds for centres with a constant step. *)
Lemma bin_edges_uniform (c0 d : R) (n : nat) :
  (2 <= n)%nat ->
  bin_edges (uniform_centres c0 d n) =
  Ok (map (fun i => Fin (centre c0 d i - d / 2)) (seq 0 n)
      ++ [Fin (centre c0 d (n - 1))]).
Proof.
  intros Hn. unfold bin_edges.
  rewrite !item_uniform by lia. cbn [bind].
  change (fsub (Fin (centre c0 d 1)) (Fin (centre c0 d 0)))
    with (Fin (centre c0 d 1 + - centre c0 d 0)).
  rewrite fdiv_fin by lra.
  assert (Hh : ((centre c0 d 1 + - centre c0 d 0) / 2 = d / 2)%R)
    by (unfold centre; simpl; lra).
  rewrite Hh. unfold uniform_centres. rewrite map_map.
  change (fun x : nat => fsub (Fin (centre c0 d x)) (Fin (d / 2)))
    with (fun x : nat => Fin (centre c0 d x - d / 2)).
  do 3 f_equal.
  replace n with ((n - 1) + 1)%nat at 1 by lia.
  rewrite seq_app, map_app. cbn [seq map]. rewrite last_last.
  cbn [fadd]. f_equal.
  replace (0 + (n - 1))%nat with (n - 1)%nat by lia. lra.
Qed.

Lemma count_le_spec (f : nat -> R) (x : R) (n k : nat) :
  (forall a b, (a <= b)%nat -> (f a <= f b)%R) ->
  count_le (map (fun i => Fin (f i)) (seq 0 n)) (Fin x) = k ->
  (k <= n)%nat /\ (forall a, (a < k)%nat -> (f a <= x)%R)
  /\ (forall a, (k <= a < n)%nat -> (x < f a)%R).
Proof.
  intros Hmono; revert k; induction n as [|n IH]; intros k Hk.
  - cbn in Hk; subst k; splits; intros; lia.
  - rewrite seq_S, map_app, count_le_app in Hk. cbn [seq map] in Hk.
    unfold count_le at 2 in Hk; cbn [filter fgt flt] in Hk.
    destruct (Rltb x (f (0 + n)%nat)) eqn:E; cbn [negb length] in Hk.
    + apply Rltb_true in E. simpl in E.
      destruct (IH k) as (Hle & Hlo & Hhi); [lia|].
      splits; [lia|exact Hlo|].
      intros a Ha. destruct (Nat.eq_dec a n) as [->|]; [exact E|].
      apply Hhi; lia.
    + apply Rltb_false in E. simpl in E.
      rewrite count_le_all in Hk.
      * subst k; splits; [lia| |intros; lia].
        intros a Ha. apply Rle_trans with (f n); [apply Hmono; lia|exact E].
      * intros a Ha. apply Rle_trans with (f n); [apply Hmono; lia|exact E].
Qed.

Lemma edge_mono (c0 d : R) (a b : nat) :
  (0 < d)%R -> (a <= b)%nat ->
  (centre c0 d a - d / 2 <= centre c0 d b - d / 2)%R.
Proof. intros Hd Hab. pose proof (centre_mono c0 d a b Hd Hab). lra. Qed.

Lemma uniform_edges_length (c0 d : R) (n : nat) :
  length (uniform_edges c0 d n) = S n.
Proof.
  unfold uniform_edges. rewrite length_app, length_map, length_seq.
  simpl; lia.
Qed.

Lemma count_le_top (edges : list fval) (x : fval) :
  x = NaN \/ x = PInf -> count_le edges x = length edges.
Proof.
  intros Hx; unfold count_le; f_equal.
  apply forallb_filter_id, forallb_forall. intros e _.
  destruct Hx as [-> | ->]; now destruct e.
Qed.

Lemma count_le_ninf (edges : list fval) :
  (forall e, In e edges -> isfinite e = true) -> count_le edges NInf = 0%nat.
Proof.
  unfold count_le; induction edges as [|e edges IH]; intros Hfin;
    [reflexivity|].
  cbn [filter]. destruct e; try (specialize (Hfin _ (or_introl eq_refl));
    discriminate).
  cbn [fgt flt negb]. apply IH. intros e' He'; apply Hfin; now right.
Qed.

(** The number [bin_index] computes before it looks for outliers. *)
Lemma bin_index_uniform_count (c0 d x : R) (n : nat) :
  bin_index (uniform_edges c0 d n) (Fin x) =
  let k := count_le (map (fun i => Fin (centre c0 d i - d / 2)%R) (seq 0 n))
             (Fin x) in
  let m := if Rltb x (centre c0 d (n - 1)) then k else
             if Reqb x (centre c0 d (n - 1)) then k else S k in
  if ((m =? 0) || (S n <=? m))%nat%bool then None else Some (m - 1)%nat.
Proof.
  assert (Hlast : last (uniform_edges c0 d n) NaN = Fin (centre c0 d (n - 1)))
    by (unfold uniform_edges; now rewrite last_last).
  assert (Hcount : count_le (uniform_edges c0 d n) (Fin x) =
            (count_le (map (fun i => Fin (centre c0 d i - d / 2)%R) (seq 0 n))
               (Fin x)
             + if Rltb x (centre c0 d (n - 1)) then 0 else 1)%nat).
  { unfold uniform_edges; rewrite count_le_app. f_equal.
    unfold count_le; cbn [filter fgt flt].
    now destruct (Rltb x (centre c0 d (n - 1))). }
  unfold bin_index.
  rewrite Hlast, Hcount, uniform_edges_length; cbn [feq]; cbv zeta.
  destruct (Rltb x (centre c0 d (n - 1))) eqn:E1.
  - apply Rltb_true in E1.
    replace (Reqb x (centre c0 d (n - 1))) with false
      by (symmetry; apply Reqb_false; lra).
    now rewrite Nat.add_0_r.
  - destruct (Reqb x (centre c0 d (n - 1))) eqn:E2.
    + now rewrite Nat.add_sub.
    + now rewrite Nat.add_1_r.
Qed.

(** On a grid with a constant positive step, a vertex coordinate is binned
    into cell [i] exactly when it lies in the interval of cell [i]. *)
Lemma bin_index_uniform (c0 d : R) (n i : nat) (v : fval) :
  (0 < d)%R -> (1 <= n)%nat ->
  bin_index (uniform_edges c0 d n) v = Some i
  <-> exists x, v = Fin x /\ in_cell c0 d n i x.
Proof.
  intros Hd Hn.
  assert (Hmono : forall a b, (a <= b)%nat ->
             (centre c0 d a - d / 2 <= centre c0 d b - d / 2)%R)
    by (intros; now apply edge_mono).
  assert (Hlast : (centre c0 d (n - 1) - d / 2 < centre c0 d (n - 1))%R)
    by lra.
  assert (Hedge : last (uniform_edges c0 d n) NaN = Fin (centre c0 d (n - 1)))
    by (unfold uniform_edges; now rewrite last_last).
  assert (Hfin : forall e, In e (uniform_edges c0 d n) -> isfinite e = true).
  { intros e He; unfold uniform_edges in He.
    apply in_app_iff in He as [He|[<-|[]]]; [|reflexivity].
    apply in_map_iff in He as (k & <- & _); reflexivity. }
  destruct v as [| | |x].
  - (* not-a-number is beyond every edge *)
    split; [|intros (x & [=] & _)].
    unfold bin_index. rewrite Hedge, count_le_top by auto; cbn [feq].
    rewrite uniform_edges_length, Nat.leb_refl, orb_true_r; discriminate.
  - (* minus infinity is below every edge *)
    split; [|intros (x & [=] & _)].
    unfold bin_index. rewrite Hedge, count_le_ninf by exact Hfin.
    cbn; discriminate.
  - (* plus infinity is beyond every edge *)
    split; [|intros (x & [=] & _)].
    unfold bin_index. rewrite Hedge, count_le_top by auto; cbn [feq].
    rewrite uniform_edges_length, Nat.leb_refl, orb_true_r; discriminate.
  - rewrite bin_index_uniform_count; cbv zeta.
    remember (count_le _ (Fin x)) as k eqn:Hk; symmetry in Hk.
    destruct (count_le_spec _ x n k Hmono Hk) as (Hkn & Hlo & Hhi).
    split.
    + intros Hbin. exists x; split; [reflexivity|]. unfold in_cell.
      destruct (Rltb x (centre c0 d (n - 1))) eqn:E1.
      * apply Rltb_true in E1.
        destruct k as [|k]; [discriminate|]. cbn [Nat.eqb orb] in Hbin.
        destruct (S n <=? S k)%nat eqn:E; [discriminate|].
        apply Nat.leb_gt in E. injection Hbin as <-.
        rewrite Nat.sub_0_r. splits; [lia|apply Hlo; lia|].
        destruct (S k <? n)%nat eqn:E'.
        -- apply Nat.ltb_lt in E'.
           pose proof (Hhi (S k) ltac:(lia)) as Hh.
           rewrite centre_succ in Hh; lra.
        -- apply Nat.ltb_ge in E'.
           replace k with (n - 1)%nat by lia. lra.
      * apply Rltb_false in E1.
        destruct (Reqb x (centre c0 d (n - 1))) eqn:E2.
        -- apply Reqb_true in E2.
           destruct k as [|k]; [discriminate|]. cbn [Nat.eqb orb] in Hbin.
           destruct (S n <=? S k)%nat eqn:E; [discriminate|].
           apply Nat.leb_gt in E. injection Hbin as <-.
           rewrite Nat.sub_0_r.
           destruct (Nat.eq_dec (S k) n) as [Heq|Hne].
           ++ splits; [lia|apply Hlo; lia|].
              replace (S k <? n)%nat with false
                by (symmetry; apply Nat.ltb_ge; lia).
              replace k with (n - 1)%nat by lia. lra.
           ++ exfalso. pose proof (Hhi (n - 1)%nat ltac:(lia)). lra.
        -- apply Reqb_false in E2. cbn [Nat.eqb orb] in Hbin.
           destruct (S n <=? S k)%nat eqn:E; [discriminate|].
           apply Nat.leb_gt in E. exfalso.
           pose proof (Hhi (n - 1)%nat ltac:(lia)). lra.
    + intros (x' & [= <-] & Hi & Hlow & Hup).
      assert (Hki : k = S i).
      { destruct (Nat.lt_trichotomy k (S i)) as [Hlt|[Heq|Hgt]]; auto.
        - pose proof (Hhi i ltac:(lia)); lra.
        - pose proof (Hlo (S i) ltac:(lia)) as Hh.
          rewrite centre_succ in Hh.
          destruct (S i <? n)%nat eqn:E'; [lra|].
          apply Nat.ltb_ge in E'; lia. }
      rewrite Hki.
      destruct (S i <? n)%nat eqn:E'.
      * apply Nat.ltb_lt in E'.
        assert (Hx : (x < centre c0 d (n - 1))%R).
        { pose proof (centre_mono c0 d (S i) (n - 1) Hd ltac:(lia)) as Hm.
          rewrite centre_succ in Hm. lra. }
        replace (Rltb x (centre c0 d (n - 1))) with true
          by (symmetry; now apply Rltb_true).
        cbn [Nat.eqb orb].
        replace (S n <=? S i)%nat with false
          by (symmetry; apply Nat.leb_gt; lia).
        f_equal; lia.
      * apply Nat.ltb_ge in E'.
        assert (Hin : i = (n - 1)%nat) by lia.
        rewrite <- Hin.
        destruct (Rltb x (centre c0 d i)) eqn:E1;
          [|destruct (Reqb x (centre c0 d i)) eqn:E2].
        -- cbn [Nat.eqb orb].
           replace (S n <=? S i)%nat with false
             by (symmetry; apply Nat.leb_gt; lia).
           f_equal; lia.
        -- cbn [Nat.eqb orb].
           replace (S n <=? S i)%nat with false
             by (symmetry; apply Nat.leb_gt; lia).
           f_equal; lia.
        -- apply Rltb_false in E1. apply Reqb_false in E2. lra.
Qed.

Lemma increasing_seq_app (f : nat -> R) (z : R) (m s : nat) :
  (forall k, (f k <= f (S k))%R) ->
  ((0 < m)%nat -> (f (s + m - 1)%nat <= z)%R) ->
  increasing (map (fun i => Fin (f i)) (seq s m) ++ [Fin z]) = true.
Proof.
  intros Hstep; revert s; induction m as [|m IH]; intros s Hz;
    [reflexivity|].
  destruct m as [|m].
  - cbn [seq map app increasing fgt flt].
    replace (Rltb z (f s)) with false; [reflexivity|].
    symmetry; apply Rltb_false.
    replace s with (s + 1 - 1)%nat at 1 by lia. apply Hz; lia.
  - specialize (IH (S s)).
    cbn [seq map app increasing fgt flt] in *.
    replace (Rltb (f (S s)) (f s)) with false
      by (symmetry; apply Rltb_false, Hstep).
    cbn [negb andb]. apply IH. intros _.
    replace (S s + S m - 1)%nat with (s + S (S m) - 1)%nat by lia.
    apply Hz; lia.
Qed.

Lemma increasing_uniform_edges (c0 d : R) (n : nat) :
  (0 < d)%R -> increasing (uniform_edges c0 d n) = true.
Proof.
  intros Hd; unfold uniform_edges. apply increasing_seq_app.
  - intros k; apply edge_mono; [exact Hd|lia].
  - intros Hn. replace (0 + n - 1)%nat with (n - 1)%nat by lia. lra.
Qed.

(** The first column of a grid whose rows have a constant step. *)
Lemma first_col_uniform (g : farr) (c0 d : R) :
  (0 < ncols g)%nat ->
  (forall i, (i < nrows g)%nat -> cell g i 0 = Fin (centre c0 d i)) ->
  first_col g = Ok (uniform_centres c0 d (nrows g)).
Proof.
  intros Hc Hcells; unfold first_col, uniform_centres.
  replace (ncols g =? 0)%nat with false by (symmetry; apply Nat.eqb_neq; lia).
  f_equal. apply map_ext_in. intros i Hi. apply in_seq in Hi.
  apply Hcells; lia.
Qed.

Lemma first_row_uniform (g : farr) (c0 d : R) :
  (0 < nrows g)%nat ->
  (forall j, (j < ncols g)%nat -> cell g 0 j = Fin (centre c0 d j)) ->
  first_row g = Ok (uniform_centres c0 d (ncols g)).
Proof.
  intros Hr Hcells; unfold first_row, uniform_centres.
  replace (nrows g =? 0)%nat with false by (symmetry; apply Nat.eqb_neq; lia).
  f_equal. apply map_ext_in. intros j Hj. apply in_seq in Hj.
  apply Hcells; lia.
Qed.

(** A cell of the histogram is positive when some sample falls in it. *)
Lemma filter_nonempty {A : Type} (p : A -> bool) (l : list A) :
  (0 <? length (filter p l))%nat = true <-> exists a, In a l /\ p a = true.
Proof.
  rewrite Nat.ltb_lt. split.
  - destruct (filter p l) as [|a t] eqn:E; [simpl; lia|intros _].
    exists a. apply filter_In. rewrite E; now left.
  - intros (a & Ha & Hp).
    assert (Hin : In a (filter p l)) by (apply filter_In; auto).
    destruct (filter p l); [destruct Hin|simpl; lia].
Qed.

(** What [mask_zero_contour] returns on a grid whose rows and columns have
    constant positive steps, once the contour has at least one path. *)
Lemma mask_zero_contour_uniform
    (contour_paths : farr -> farr -> farr -> result (list path))
    (latGrid lonGrid data : farr) (paths : list path)
    (verts : list (fval * fval)) (a da b db : R) :
  contour_paths latGrid lonGrid data = Ok paths ->
  gather_vertices paths = Some verts ->
  (2 <= nrows latGrid)%nat -> (0 < ncols latGrid)%nat ->
  (0 < nrows lonGrid)%nat -> (2 <= ncols lonGrid)%nat ->
  (0 < da)%R -> (0 < db)%R ->
  (forall i, (i < nrows latGrid)%nat ->
     cell latGrid i 0 = Fin (centre a da i)) ->
  (forall j, (j < ncols lonGrid)%nat ->
     cell lonGrid 0 j = Fin (centre b db j)) ->
  mask_zero_contour contour_paths latGrid lonGrid data =
  Ok (mk_nd (nrows latGrid) (ncols lonGrid)
        (fun i j =>
           of_bool (0 <? length (filter (fun s =>
             match bin_index (uniform_edges a da (nrows latGrid)) (fst s),
                   bin_index (uniform_edges b db (ncols lonGrid)) (snd s)
             with
             | Some bi, Some bj => ((bi =? i) && (bj =? j))%nat%bool
             | _, _ => false
             end) verts))%nat)).
Proof.
  intros Hpaths Hverts Hn Hc Hr Hm Hda Hdb Hlat Hlon.
  unfold mask_zero_contour. rewrite Hpaths; cbn [bind]. rewrite Hverts.
  rewrite (first_col_uniform latGrid a da Hc Hlat); cbn [bind].
  rewrite (first_row_uniform lonGrid b db Hr Hlon); cbn [bind].
  rewrite !bin_edges_uniform by assumption; cbn [bind].
  fold (uniform_edges a da (nrows latGrid)).
  fold (uniform_edges b db (ncols lonGrid)).
  unfold histogram2d. rewrite !increasing_uniform_edges by assumption.
  cbn [andb bind]. rewrite !uniform_edges_length. unfold map1; cbn [nrows ncols cell].
  do 2 f_equal; lia.
Qed.

(** No cell reaches beyond the last grid centre. *)
Lemma in_cell_upper (c0 d x : R) (n i : nat) :
  (0 < d)%R -> in_cell c0 d n i x -> (x <= centre c0 d (n - 1))%R.
Proof.
  intros Hd (Hi & _ & Hup).
  destruct (S i <? n)%nat eqn:E.
  - apply Nat.ltb_lt in E.
    pose proof (centre_mono c0 d (S i) (n - 1) Hd ltac:(lia)) as Hm.
    rewrite centre_succ in Hm. lra.
  - apply Nat.ltb_ge in E. replace (n - 1)%nat with i by lia. exact Hup.
Qed.

Lemma bin_index_beyond_last (c0 d x : R) (n : nat) :
  (0 < d)%R -> (1 <= n)%nat -> (centre c0 d (n - 1) < x)%R ->
  bin_index (uniform_edges c0 d n) (Fin x) = None.
Proof.
  intros Hd Hn Hx.
  destruct (bin_index _ _) as [i|] eqn:E; [|reflexivity].
  apply bin_index_uniform in E as (x' & [= <-] & Hin); try assumption.
  pose proof (in_cell_upper _ _ _ _ _ Hd Hin). lra.
Qed.

(** In exact arithmetic, on a grid whose latitudes and longitudes have
    constant positive steps, [mask_zero_contour] flags cell [(i, j)] exactly
    when some contour vertex lies in the latitude interval of row [i] and the
    longitude interval of column [j].  The interval of a cell reaches half a
    step below its centre and, except in the last row or column, half a step
    above it, so the boundaries between cells are the midpoints between
    adjacent centres and the first boundary is half a step before the first
    centre; the last boundary is the last centre itself, so a vertex at the
    last centre is binned into the last cell and a vertex beyond it is binned
    into no cell. *)
Theorem zero_contour_cells
    (contour_paths : farr -> farr -> farr -> result (list path))
    (latGrid lonGrid data : farr) (paths : list path)
    (verts : list (fval * fval)) (a da b db : R) :
  contour_paths latGrid lonGrid data = Ok paths ->
  gather_vertices paths = Some verts ->
  (2 <= nrows latGrid)%nat -> (0 < ncols latGrid)%nat ->
  (0 < nrows lonGrid)%nat -> (2 <= ncols lonGrid)%nat ->
  (0 < da)%R -> (0 < db)%R ->
  (forall i, (i < nrows latGrid)%nat ->
     cell latGrid i 0 = Fin (centre a da i)) ->
  (forall j, (j < ncols lonGrid)%nat ->
     cell lonGrid 0 j = Fin (centre b db j)) ->
  exists out,
    mask_zero_contour contour_paths latGrid lonGrid data = Ok out
    /\ nrows out = nrows latGrid /\ ncols out = ncols lonGrid
    /\ (forall i j,
          cell out i j = Fin 1
          <-> exists x y,
                In (Fin x, Fin y) verts
                /\ in_cell a da (nrows latGrid) i x
                /\ in_cell b db (ncols lonGrid) j y)
    /\ (forall i j, cell out i j = Fin 1 \/ cell out i j = Fin 0)
    /\ (forall i x,
          in_cell a da (nrows latGrid) i x ->
          (x <= centre a da (nrows latGrid - 1))%R)
    /\ in_cell a da (nrows latGrid) (nrows latGrid - 1)
         (centre a da (nrows latGrid - 1))
    /\ (forall j y,
          in_cell b db (ncols lonGrid) j y ->
          (y <= centre b db (ncols lonGrid - 1))%R)
    /\ in_cell b db (ncols lonGrid) (ncols lonGrid - 1)
         (centre b db (ncols lonGrid - 1)).
Proof.
  intros Hpaths Hverts Hn Hc Hr Hm Hda Hdb Hlat Hlon.
  eexists; split;
    [apply (mask_zero_contour_uniform _ _ _ _ paths verts a da b db);
       assumption|].
  cbn [nrows ncols cell]. splits; try reflexivity.
  - intros i j. split.
    + intros Hcell.
      destruct (0 <? length _)%nat eqn:E in Hcell;
        [|simpl in Hcell; injection Hcell as Hcell; lra].
      apply filter_nonempty in E as ([vx vy] & Hin & Hp); cbn [fst snd] in Hp.
      destruct (bin_index (uniform_edges a da _) vx) as [bi|] eqn:Ei;
        [|discriminate].
      destruct (bin_index (uniform_edges b db _) vy) as [bj|] eqn:Ej;
        [|discriminate].
      apply andb_prop in Hp as [Hbi Hbj].
      apply Nat.eqb_eq in Hbi, Hbj; subst bi bj.
      apply bin_index_uniform in Ei as (x & -> & Hx); [|assumption|lia].
      apply bin_index_uniform in Ej as (y & -> & Hy); [|assumption|lia].
      exists x, y; auto.
    + intros (x & y & Hin & Hx & Hy).
      replace (0 <? length _)%nat with true; [reflexivity|].
      symmetry; apply filter_nonempty. exists (Fin x, Fin y); split; auto.
      cbn [fst snd].
      replace (bin_index (uniform_edges a da _) (Fin x)) with (Some i)
        by (symmetry; apply bin_index_uniform; eauto; lia).
      replace (bin_index (uniform_edges b db _) (Fin y)) with (Some j)
        by (symmetry; apply bin_index_uniform; eauto; lia).
      now rewrite !Nat.eqb_refl.
  - intros i j. destruct (0 <? length _)%nat; simpl; auto.
  - intros i x Hin. now apply in_cell_upper with (i := i).
  - unfold in_cell; splits; [lia|lra|].
    replace (S (nrows latGrid - 1) <? nrows latGrid)%nat with false
      by (symmetry; apply Nat.ltb_ge; lia). lra.
  - intros j y Hin. now apply in_cell_upper with (i := j).
  - unfold in_cell; splits; [lia|lra|].
    replace (S (ncols lonGrid - 1) <? ncols lonGrid)%nat with false
      by (symmetry; apply Nat.ltb_ge; lia). lra.
Qed.

Lemma zero_contour_cells_witness :
  exists out,
    mask_zero_contour (fun _ _ _ => Ok [[(Fin 1, Fin 0)]])
      (of_rows [[Fin 0; Fin 0]; [Fin 1; Fin 1]])
      (of_rows [[Fin 0; Fin 1]; [Fin 0; Fin 1]])
      (of_rows [[Fin (-1); Fin (-1)]; [Fin 1; Fin 1]]) = Ok out
    /\ cell out 1 0 = Fin 1.
Proof.
  assert (Hlat : forall i, (i < 2)%nat ->
            cell (of_rows [[Fin 0; Fin 0]; [Fin 1; Fin 1]]) i 0
            = Fin (centre 0 1 i)).
  { intros [|[|i]] Hi; try lia; unfold centre; simpl; f_equal; lra. }
  assert (Hlon : forall j, (j < 2)%nat ->
            cell (of_rows [[Fin 0; Fin 1]; [Fin 0; Fin 1]]) 0 j
            = Fin (centre 0 1 j)).
  { intros [|[|j]] Hj; try lia; unfold centre; simpl; f_equal; lra. }
  destruct (zero_contour_cells (fun _ _ _ => Ok [[(Fin 1, Fin 0)]])
              (of_rows [[Fin 0; Fin 0]; [Fin 1; Fin 1]])
              (of_rows [[Fin 0; Fin 1]; [Fin 0; Fin 1]])
              (of_rows [[Fin (-1); Fin (-1)]; [Fin 1; Fin 1]])
              [[(Fin 1, Fin 0)]] [(Fin 1, Fin 0)] 0 1 0 1
              eq_refl eq_refl (le_n 2) Nat.lt_0_2 Nat.lt_0_2 (le_n 2)
              Rlt_0_1 Rlt_0_1 Hlat Hlon)
    as (out & Hout & _ & _ & Hcells & _).
  exists out; split; [exact Hout|].
  apply Hcells. exists 1%R, 0%R. split; [now left|].
  unfold in_cell, centre; simpl. split; splits; try lia; lra.
Defined.

(** ** The gradient *)

Lemma add_last_col_ok (a x : farr) (d : R) :
  add_last_col a d = Ok x ->
  (0 < ncols a)%nat
  /\ x = mk_nd (nrows a) (ncols a)
           (fun i j => if (j =? ncols a - 1)%nat
                       then fadd (cell a i j) (Fin d) else cell a i j).
Proof.
  unfold add_last_col. destruct (Nat.eqb_spec (ncols a) 0); [discriminate|].
  intros [= <-]; split; [lia|reflexivity].
Qed.

Lemma add_first_col_ok (a x : farr) (d : R) :
  add_first_col a d = Ok x ->
  (0 < ncols a)%nat
  /\ x = mk_nd (nrows a) (ncols a)
           (fun i j => if (j =? 0)%nat
                       then fadd (cell a i j) (Fin d) else cell a i j).
Proof.
  unfold add_first_col. destruct (Nat.eqb_spec (ncols a) 0); [discriminate|].
  intros [= <-]; split; [lia|reflexivity].
Qed.

Lemma geo_gradient_pointwise (lat lon data dx dy : farr) :
  geo_gradient lat lon data = Ok (dx, dy) ->
  (0 < ncols lon)%nat
  /\ fits lat dy /\ fits lon dy /\ fits data dy
  /\ fits lat dx /\ fits lon dx /\ fits data dx
  /\ (forall i j,
        rd dy i j =
        slope (rd (shift_up 1 data) i j) (rd data i j)
          (rd (shift_down 1 data) i j)
          (dist_cell (rd (shift_up 1 lat) i j) (rd (shift_up 1 lon) i j)
             (rd lat i j) (rd lon i j))
          (dist_cell (rd (shift_down 1 lat) i j) (rd (shift_down 1 lon) i j)
             (rd lat i j) (rd lon i j)))
  /\ (forall i j,
        rd dx i j =
        slope (rd (roll_right data) i j) (rd data i j)
          (rd (roll_left data) i j)
          (dist_cell (rd lat i j) (rd lon i j)
             (rd (roll_right lat) i j) (rd (lon_of_right lon) i j))
          (dist_cell (rd (roll_left lat) i j) (rd (lon_of_left lon) i j)
             (rd lat i j) (rd lon i j))).
Proof.
  unfold geo_gradient; cbn [four_corner_shift]. intros H.
  apply bind_ok in H as (lon_left & Hll & H).
  apply bind_ok in H as (lon_right & Hlr & H).
  apply add_last_col_ok in Hll as (Hc & ->).
  apply add_first_col_ok in Hlr as (_ & ->).
  fold (lon_of_left lon) in H. fold (lon_of_right lon) in H.
  apply bind_ok in H as (dy1 & Hdy1 & H).
  apply bind_ok in H as (dy2 & Hdy2 & H).
  apply bind_ok in H as (dy1_data & Hdy1d & H).
  apply bind_ok in H as (dy2_data & Hdy2d & H).
  apply bind_ok in H as (dy' & Hdy & H).
  apply bind_ok in H as (dx1 & Hdx1 & H).
  apply bind_ok in H as (dx2 & Hdx2 & H).
  apply bind_ok in H as (dx1_data & Hdx1d & H).
  apply bind_ok in H as (dx2_data & Hdx2d & H).
  apply bind_ok in H as (dx' & Hdx & H).
  injection H as <- <-.
  pose proof (dist_pointwise _ _ _ _ _ Hdy1) as Pdy1.
  pose proof (dist_pointwise _ _ _ _ _ Hdy2) as Pdy2.
  pose proof (dist_pointwise _ _ _ _ _ Hdx1) as Pdx1.
  pose proof (dist_pointwise _ _ _ _ _ Hdx2) as Pdx2.
  apply dist_inputs_fit in Hdy1 as (_ & _ & Flat1 & Flon1).
  apply dist_inputs_fit in Hdx1 as (_ & _ & Flat2 & Flon2).
  clear Hdy2 Hdx2.
  inv_np.
  split; [exact Hc|].
  splits; try fits_up 6%nat.
  - intros i j; unfold slope; rd_unfold; reflexivity.
  - intros i j; unfold slope; rd_unfold; reflexivity.
Qed.

Lemma fits_shift_up {B : Type} (a : farr) (L : ndarray B) :
  fits a L -> fits (shift_up 1 a) L.
Proof. intros H; exact H. Qed.

Lemma fits_shift_down {B : Type} (a : farr) (L : ndarray B) :
  fits a L -> fits (shift_down 1 a) L.
Proof. intros H; exact H. Qed.

Lemma fits_roll_left {B : Type} (a : farr) (L : ndarray B) :
  fits a L -> fits (roll_left a) L.
Proof. intros H; exact H. Qed.

Lemma fits_roll_right {B : Type} (a : farr) (L : ndarray B) :
  fits a L -> fits (roll_right a) L.
Proof. intros H; exact H. Qed.

Lemma fits_lon_of_left {B : Type} (a : farr) (L : ndarray B) :
  fits a L -> fits (lon_of_left a) L.
Proof. intros H; exact H. Qed.

Lemma fits_lon_of_right {B : Type} (a : farr) (L : ndarray B) :
  fits a L -> fits (lon_of_right a) L.
Proof. intros H; exact H. Qed.

#[local] Hint Resolve fits_shift_up fits_shift_down fits_roll_left
  fits_roll_right fits_lon_of_left fits_lon_of_right dist_returns : bcast.

Lemma add_last_col_returns (a : farr) (d : R) :
  (0 < ncols a)%nat ->
  add_last_col a d =
  Ok (mk_nd (nrows a) (ncols a)
        (fun i j => if (j =? ncols a - 1)%nat
                    then fadd (cell a i j) (Fin d) else cell a i j)).
Proof.
  intros Hc; unfold add_last_col.
  now replace (ncols a =? 0)%nat with false by (symmetry; apply Nat.eqb_neq; lia).
Qed.

Lemma add_first_col_returns (a : farr) (d : R) :
  (0 < ncols a)%nat ->
  add_first_col a d =
  Ok (mk_nd (nrows a) (ncols a)
        (fun i j => if (j =? 0)%nat
                    then fadd (cell a i j) (Fin d) else cell a i j)).
Proof.
  intros Hc; unfold add_first_col.
  now replace (ncols a =? 0)%nat with false by (symmetry; apply Nat.eqb_neq; lia).
Qed.

(** The gradient is returned for grids that can be broadcast to one shape,
    provided the longitude grid has a column. *)
Lemma geo_gradient_returns (L lat lon data : farr) :
  fits lat L -> fits lon L -> fits data L -> (0 < ncols lon)%nat ->
  exists dx dy,
    geo_gradient lat lon data = Ok (dx, dy) /\ fits dx L /\ fits dy L.
Proof.
  intros Flat Flon Fdata Hc. unfold geo_gradient; cbn [four_corner_shift].
  rewrite add_last_col_returns by exact Hc. cbn [bind].
  rewrite add_first_col_returns by exact Hc. cbn [bind].
  change (mk_nd (nrows (roll_left lon)) (ncols (roll_left lon)) _)
    with (lon_of_left lon).
  change (mk_nd (nrows (roll_right lon)) (ncols (roll_right lon)) _)
    with (lon_of_right lon).
  destruct (dist_returns L (shift_down 1 lat) (shift_down 1 lon) lat lon)
    as (dy1 & -> & Fdy1); auto with bcast. cbn [bind].
  destruct (dist_returns L (shift_up 1 lat) (shift_up 1 lon) lat lon)
    as (dy2 & -> & Fdy2); auto with bcast. cbn [bind].
  destruct (okfit_lift2 fsub L (Ok (shift_down 1 data)) (Ok data))
    as (dy1_data & -> & Fdy1d); auto with bcast. cbn [bind].
  destruct (okfit_lift2 fsub L (Ok data) (Ok (shift_up 1 data)))
    as (dy2_data & -> & Fdy2d); auto with bcast. cbn [bind].
  destruct (okfit_lift2 fdiv L (lift2 fadd (Ok dy2_data) (Ok dy1_data))
              (lift2 fadd (Ok dy1) (Ok dy2)))
    as (dy & -> & Fdy); auto with bcast. cbn [bind].
  destruct (dist_returns L (roll_left lat) (lon_of_left lon) lat lon)
    as (dx1 & -> & Fdx1); auto with bcast. cbn [bind].
  destruct (dist_returns L lat lon (roll_right lat) (lon_of_right lon))
    as (dx2 & -> & Fdx2); auto with bcast. cbn [bind].
  destruct (okfit_lift2 fsub L (Ok (roll_left data)) (Ok data))
    as (dx1_data & -> & Fdx1d); auto with bcast. cbn [bind].
  destruct (okfit_lift2 fsub L (Ok data) (Ok (roll_right data)))
    as (dx2_data & -> & Fdx2d); auto with bcast. cbn [bind].
  destruct (okfit_lift2 fdiv L (lift2 fadd (Ok dx2_data) (Ok dx1_data))
              (lift2 fadd (Ok dx1) (Ok dx2)))
    as (dx & -> & Fdx); auto with bcast. cbn [bind].
  exists dx, dy; auto.
Qed.

(** The neighbours of a cell inside the grid. *)
Lemma rd_roll_left (a : farr) (i j : nat) :
  (i < nrows a)%nat -> (j + 1 < ncols a)%nat ->
  rd (roll_left a) i j = cell a i (j + 1).
Proof.
  intros Hi Hj. rewrite rd_in_range by (cbn; lia). cbn [roll_left cell].
  now rewrite Nat.mod_small by lia.
Qed.

Lemma rd_roll_right (a : farr) (i j : nat) :
  (i < nrows a)%nat -> (0 < j)%nat -> (j < ncols a)%nat ->
  rd (roll_right a) i j = cell a i (j - 1).
Proof.
  intros Hi Hj Hj'. rewrite rd_in_range by (cbn; lia).
  cbn [roll_right cell]. f_equal.
  replace (j + (ncols a - 1))%nat with ((j - 1) + 1 * ncols a)%nat by lia.
  rewrite Nat.Div0.mod_add. apply Nat.mod_small; lia.
Qed.

Lemma rd_lon_of_left (lon : farr) (i j : nat) :
  (i < nrows lon)%nat -> (j + 1 < ncols lon)%nat ->
  rd (lon_of_left lon) i j = cell lon i (j + 1).
Proof.
  intros Hi Hj. rewrite rd_in_range by (cbn; lia).
  cbn [lon_of_left cell].
  replace (j =? ncols lon - 1)%nat with false
    by (symmetry; apply Nat.eqb_neq; lia).
  cbn [roll_left cell]. now rewrite Nat.mod_small by lia.
Qed.

Lemma rd_lon_of_right (lon : farr) (i j : nat) :
  (i < nrows lon)%nat -> (0 < j)%nat -> (j < ncols lon)%nat ->
  rd (lon_of_right lon) i j = cell lon i (j - 1).
Proof.
  intros Hi Hj Hj'. rewrite rd_in_range by (cbn; lia).
  cbn [lon_of_right cell].
  replace (j =? 0)%nat with false by (symmetry; apply Nat.eqb_neq; lia).
  cbn [roll_right cell]. f_equal.
  replace (j + (ncols lon - 1))%nat with ((j - 1) + 1 * ncols lon)%nat by lia.
  rewrite Nat.Div0.mod_add. apply Nat.mod_small; lia.
Qed.

(** A missing neighbour makes the derivative missing. *)
Lemma slope_nan_before (here after d1 d2 : fval) :
  slope NaN here after d1 d2 = NaN.
Proof. unfold slope. now nan_simpl. Qed.

Lemma slope_nan_after (before here d1 d2 : fval) :
  slope before here NaN d1 d2 = NaN.
Proof. unfold slope. now nan_simpl. Qed.

(** The derivative of a field with slope [g] between the cell and its two
    neighbours. *)
Lemma slope_linear (v g d1 d2 : R) :
  (d1 + d2 <> 0)%R ->
  slope (Fin (v - g * d1)) (Fin v) (Fin (v + g * d2)) (Fin d1) (Fin d2)
  = Fin g.
Proof.
  intros Hd. unfold slope. cbn [fsub fadd fneg].
  rewrite fdiv_fin by lra. f_equal. field. lra.
Qed.

(** The gradient on grids of one shape, cell by cell. *)
Lemma geo_gradient_cells (lat lon data : farr) :
  nrows lon = nrows lat -> ncols lon = ncols lat ->
  nrows data = nrows lat -> ncols data = ncols lat ->
  (0 < ncols lat)%nat ->
  exists dx dy,
    geo_gradient lat lon data = Ok (dx, dy)
    /\ nrows dx = nrows lat /\ ncols dx = ncols lat
    /\ nrows dy = nrows lat /\ ncols dy = ncols lat
    /\ forall i j, (i < nrows lat)%nat -> (j < ncols lat)%nat ->
         cell dy i j =
         slope (cell (shift_up 1 data) i j) (cell data i j)
           (cell (shift_down 1 data) i j)
           (dist_cell (cell (shift_up 1 lat) i j) (cell (shift_up 1 lon) i j)
              (cell lat i j) (cell lon i j))
           (dist_cell (cell (shift_down 1 lat) i j)
              (cell (shift_down 1 lon) i j) (cell lat i j) (cell lon i j))
         /\ cell dx i j =
            slope (cell (roll_right data) i j) (cell data i j)
              (cell (roll_left data) i j)
              (dist_cell (cell lat i j) (cell lon i j)
                 (cell (roll_right lat) i j) (cell (lon_of_right lon) i j))
              (dist_cell (cell (roll_left lat) i j)
                 (cell (lon_of_left lon) i j) (cell lat i j) (cell lon i j)).
Proof.
  intros Hr1 Hc1 Hr2 Hc2 Hc.
  assert (Flon : fits lon lat) by (split; left; assumption).
  assert (Fdata : fits data lat) by (split; left; assumption).
  destruct (geo_gradient_returns lat lat lon data)
    as (dx & dy & Hgrad & Fdx & Fdy); auto using fits_refl; [lia|].
  destruct (geo_gradient_pointwise _ _ _ _ _ Hgrad)
    as (_ & Flat_dy & _ & _ & Flat_dx & _ & _ & Pdy & Pdx).
  destruct (fits_antisym _ _ Fdx Flat_dx) as [Hdxr Hdxc].
  destruct (fits_antisym _ _ Fdy Flat_dy) as [Hdyr Hdyc].
  exists dx, dy; splits; auto.
  intros i j Hi Hj.
  rewrite <- (rd_in_range dy i j), <- (rd_in_range dx i j), Pdy, Pdx
    by congruence.
  rewrite !rd_in_range by (cbn [nrows ncols shift_up shift_down roll_left
    roll_right lon_of_left lon_of_right Nat.eqb]; congruence).
  split; reflexivity.
Qed.

(** Along a meridian the distance is the difference of latitude, in
    radians, times the radius. *)
Lemma dist_cell_meridian (a b l : R) :
  (0 <= a - b <= 180)%R ->
  dist_cell (Fin a) (Fin l) (Fin b) (Fin l) = Fin ((a - b) * (PI / 180) * R_earth)
  /\ dist_cell (Fin b) (Fin l) (Fin a) (Fin l)
     = Fin ((a - b) * (PI / 180) * R_earth).
Proof.
  intros Hab.
  assert (Hpi : (0 < PI)%R) by apply PI_RGT_0.
  assert (Hrange : (0 <= a * PI / 180 - b * PI / 180 <= PI)%R).
  { replace (a * PI / 180 - b * PI / 180)%R
      with ((a - b) * (PI / 180))%R by lra.
    split; [nra|]. replace PI with (180 * (PI / 180))%R at 2 by lra. nra. }
  assert (Hcosc : forall x y,
             cosc_cell (Fin x) (Fin l) (Fin y) (Fin l)
             = Fin (cos (x * PI / 180 - y * PI / 180))).
  { intros x y. unfold cosc_cell, radians. cbn [fmul fsub fadd fneg].
    rewrite !fdiv_fin by lra.
    cbn [fsin fcos fmul fadd fsub fneg]. f_equal.
    replace (PI / 180 * (l + - l))%R with 0%R by lra.
    rewrite cos_0, cos_minus. lra. }
  assert (Hdist : forall c,
             (-1 <= c <= 1)%R ->
             fmul (farccos (clip_cell (Fin c))) (Fin R_earth)
             = Fin (acos c * R_earth)).
  { intros c Hc.
    assert (E1 : Rltb c (-1) = false) by (apply Rltb_false; lra).
    assert (E2 : Rltb 1 c = false) by (apply Rltb_false; lra).
    unfold clip_cell, fgt, flt. rewrite E1, E2.
    unfold farccos. now rewrite E1, E2. }
  unfold dist_cell. rewrite !Hcosc, !Hdist by apply COS_bound.
  replace (cos (b * PI / 180 - a * PI / 180))
    with (cos (a * PI / 180 - b * PI / 180))
    by (rewrite <- cos_neg; f_equal; lra).
  rewrite acos_cos by exact Hrange.
  split; f_equal; lra.
Qed.

Lemma R_earth_pos : (0 < R_earth)%R.
Proof. unfold R_earth; lra. Qed.

(** C3, counterexample: latitudes 0, 1 and 2 degrees, and a field equal to
    the distance from the equator, which is linear in physical distance with
    gradient 1.  The gradient is recovered in the middle row, and it is
    not-a-number, not a one-sided difference, in the top and bottom rows. *)
Lemma gradient_missing_at_top_and_bottom :
  exists dx dy,
    geo_gradient
      (of_rows [[Fin 0; Fin 0]; [Fin 1; Fin 1]; [Fin 2; Fin 2]])
      (of_rows [[Fin 0; Fin 1]; [Fin 0; Fin 1]; [Fin 0; Fin 1]])
      (of_rows [[Fin (metres_north 0); Fin (metres_north 0)];
                [Fin (metres_north 1); Fin (metres_north 1)];
                [Fin (metres_north 2); Fin (metres_north 2)]])
    = Ok (dx, dy)
    /\ cell dy 1 0 = Fin 1
    /\ cell dy 0 0 = NaN
    /\ cell dy 2 0 = NaN.
Proof.
  destruct (geo_gradient_cells
              (of_rows [[Fin 0; Fin 0]; [Fin 1; Fin 1]; [Fin 2; Fin 2]])
              (of_rows [[Fin 0; Fin 1]; [Fin 0; Fin 1]; [Fin 0; Fin 1]])
              (of_rows [[Fin (metres_north 0); Fin (metres_north 0)];
                        [Fin (metres_north 1); Fin (metres_north 1)];
                        [Fin (metres_north 2); Fin (metres_north 2)]])
              eq_refl eq_refl eq_refl eq_refl Nat.lt_0_2)
    as (dx & dy & Hgrad & _ & _ & _ & _ & Hcells).
  exists dx, dy; split; [exact Hgrad|].
  cbn [nrows ncols of_rows length hd] in Hcells. splits.
  - destruct (Hcells 1%nat 0%nat ltac:(lia) ltac:(lia)) as [-> _].
    cbn [cell of_rows shift_up shift_down nrows Nat.ltb Nat.leb Nat.sub
         Nat.add nth length].
    destruct (dist_cell_meridian 1 0 0 ltac:(lra)) as [_ ->].
    destruct (dist_cell_meridian 2 1 0 ltac:(lra)) as [-> _].
    pose proof R_earth_pos. pose proof PI_RGT_0.
    replace (metres_north 0)
      with (metres_north 1 - 1 * ((1 - 0) * (PI / 180) * R_earth))%R
      by (unfold metres_north; lra).
    replace (metres_north 2)
      with (metres_north 1 + 1 * ((2 - 1) * (PI / 180) * R_earth))%R
      by (unfold metres_north; lra).
    apply slope_linear. nra.
  - destruct (Hcells 0%nat 0%nat ltac:(lia) ltac:(lia)) as [-> _].
    apply slope_nan_before.
  - destruct (Hcells 2%nat 0%nat ltac:(lia) ltac:(lia)) as [-> _].
    apply slope_nan_after.
Qed.

(** C3, as the code has it: on grids of one shape, [geo_gradient] recovers
    the constant gradient of a field that is linear in physical distance at
    every cell that has both neighbours along the axis inside the grid: the
    y-derivative in every row but the first and the last, the x-derivative in
    every column but the first and the last.  In the first and in the last
    row the y-derivative is not-a-number: the missing neighbour makes the
    value missing, not a one-sided difference. *)
Theorem gradient_of_linear_field (lat lon data : farr) :
  nrows lon = nrows lat -> ncols lon = ncols lat ->
  nrows data = nrows lat -> ncols data = ncols lat ->
  (0 < nrows lat)%nat -> (0 < ncols lat)%nat ->
  exists dx dy,
    geo_gradient lat lon data = Ok (dx, dy)
    /\ nrows dx = nrows lat /\ ncols dx = ncols lat
    /\ nrows dy = nrows lat /\ ncols dy = ncols lat
    /\ (forall j, (j < ncols lat)%nat ->
          cell dy 0 j = NaN /\ cell dy (nrows lat - 1) j = NaN)
    /\ (forall i j g v d_up d_down,
          (0 < i)%nat -> (i + 1 < nrows lat)%nat -> (j < ncols lat)%nat ->
          dist_cell (cell lat (i - 1) j) (cell lon (i - 1) j)
            (cell lat i j) (cell lon i j) = Fin d_up ->
          dist_cell (cell lat (i + 1) j) (cell lon (i + 1) j)
            (cell lat i j) (cell lon i j) = Fin d_down ->
          (d_up + d_down <> 0)%R ->
          cell data i j = Fin v ->
          cell data (i - 1) j = Fin (v - g * d_up) ->
          cell data (i + 1) j = Fin (v + g * d_down) ->
          cell dy i j = Fin g)
    /\ (forall i j g v d_left d_right,
          (i < nrows lat)%nat -> (0 < j)%nat -> (j + 1 < ncols lat)%nat ->
          dist_cell (cell lat i j) (cell lon i j)
            (cell lat i (j - 1)) (cell lon i (j - 1)) = Fin d_left ->
          dist_cell (cell lat i (j + 1)) (cell lon i (j + 1))
            (cell lat i j) (cell lon i j) = Fin d_right ->
          (d_left + d_right <> 0)%R ->
          cell data i j = Fin v ->
          cell data i (j - 1) = Fin (v - g * d_left) ->
          cell data i (j + 1) = Fin (v + g * d_right) ->
          cell dx i j = Fin g).
Proof.
  intros Hr1 Hc1 Hr2 Hc2 Hr Hc.
  destruct (geo_gradient_cells lat lon data Hr1 Hc1 Hr2 Hc2 Hc)
    as (dx & dy & Hgrad & Hdxr & Hdxc & Hdyr & Hdyc & Hcells).
  exists dx, dy; splits; auto.
  - intros j Hj; split.
    + destruct (Hcells 0%nat j Hr Hj) as [-> _]. apply slope_nan_before.
    + destruct (Hcells (nrows lat - 1)%nat j ltac:(lia) Hj) as [-> _].
      cbn [cell shift_down].
      replace (nrows lat - 1 + 1 <? nrows data)%nat with false
        by (symmetry; apply Nat.ltb_ge; lia).
      apply slope_nan_after.
  - intros i j g v d_up d_down Hi Hi' Hj Hdu Hdd Hne Hv Hvu Hvd.
    destruct (Hcells i j ltac:(lia) Hj) as [-> _].
    cbn [cell shift_up shift_down].
    replace (i <? 1)%nat with false by (symmetry; apply Nat.ltb_ge; lia).
    replace (i + 1 <? nrows data)%nat with true
      by (symmetry; apply Nat.ltb_lt; lia).
    replace (i + 1 <? nrows lat)%nat with true
      by (symmetry; apply Nat.ltb_lt; lia).
    replace (i + 1 <? nrows lon)%nat with true
      by (symmetry; apply Nat.ltb_lt; lia).
    rewrite Hdu, Hdd, Hv, Hvu, Hvd. now apply slope_linear.
  - intros i j g v d_left d_right Hi Hj Hj' Hdl Hdr Hne Hv Hvl Hvr.
    destruct (Hcells i j Hi ltac:(lia)) as [_ ->].
    rewrite <- !(rd_in_range (roll_right _) i j),
      <- !(rd_in_range (roll_left _) i j),
      <- (rd_in_range (lon_of_right _) i j),
      <- (rd_in_range (lon_of_left _) i j)
      by (cbn [nrows ncols roll_left roll_right lon_of_left lon_of_right];
          lia).
    rewrite !rd_roll_right, !rd_roll_left, rd_lon_of_right, rd_lon_of_left
      by lia.
    rewrite Hdl, Hdr, Hv, Hvl, Hvr. now apply slope_linear.
Qed.

Lemma gradient_of_linear_field_witness :
  exists dx dy,
    geo_gradient
      (of_rows [[Fin 0; Fin 0]; [Fin 1; Fin 1]; [Fin 2; Fin 2]])
      (of_rows [[Fin 0; Fin 1]; [Fin 0; Fin 1]; [Fin 0; Fin 1]])
      (of_rows [[Fin (metres_north 0); Fin (metres_north 0)];
                [Fin (metres_north 1); Fin (metres_north 1)];
                [Fin (metres_north 2); Fin (metres_north 2)]])
    = Ok (dx, dy)
    /\ cell dy 1 1 = Fin 1 /\ cell dy 0 1 = NaN.
Proof.
  destruct (gradient_of_linear_field
              (of_rows [[Fin 0; Fin 0]; [Fin 1; Fin 1]; [Fin 2; Fin 2]])
              (of_rows [[Fin 0; Fin 1]; [Fin 0; Fin 1]; [Fin 0; Fin 1]])
              (of_rows [[Fin (metres_north 0); Fin (metres_north 0)];
                        [Fin (metres_north 1); Fin (metres_north 1)];
                        [Fin (metres_north 2); Fin (metres_north 2)]])
              eq_refl eq_refl eq_refl eq_refl (Nat.lt_0_succ 2) Nat.lt_0_2)
    as (dx & dy & Hgrad & _ & _ & _ & _ & Hedge & Hrows & _).
  exists dx, dy; splits; [exact Hgrad| |].
  - apply (Hrows 1%nat 1%nat 1%R (metres_north 1)
             ((1 - 0) * (PI / 180) * R_earth)%R
             ((2 - 1) * (PI / 180) * R_earth)%R);
      try (simpl; lia).
    + apply (dist_cell_meridian 1 0 1); lra.
    + apply (dist_cell_meridian 2 1 1); lra.
    + pose proof R_earth_pos. pose proof PI_RGT_0. nra.
    + reflexivity.
    + simpl. f_equal. unfold metres_north. lra.
    + simpl. f_equal. unfold metres_north. lra.
  - apply (Hedge 1%nat). simpl; lia.
Defined.

(** ** The thermal-front detector *)

(** The cells of a rasterised contour are 0 or 1. *)
Lemma mask_zero_contour_binary
    (contour_paths : farr -> farr -> farr -> result (list path))
    (latGrid lonGrid data zc : farr) :
  mask_zero_contour contour_paths latGrid lonGrid data = Ok zc ->
  forall i j, cell zc i j = Fin 0 \/ cell zc i j = Fin 1.
Proof.
  unfold mask_zero_contour; intros H i j.
  repeat (apply bind_ok in H as (? & _ & H)).
  injection H as <-. cbn [map1 cell].
  destruct (0 <? _)%nat; simpl; auto.
Qed.

(** The statements of [hewson_body], one by one. *)
Lemma hewson_body_inv
    (contour_paths : farr -> farr -> farr -> result (list path))
    (k1 k2 : R) (latGrid lonGrid theta H850 : farr) (l : hewson_locals) :
  hewson_body contour_paths k1 k2 latGrid lonGrid theta H850 = Ok l ->
  exists gNorm mux muy abs_mu zc_raw sel,
    hewson_locating latGrid lonGrid theta
    = Ok (l_gx l, l_gy l, gNorm, mux, muy, abs_mu, l_m1 l, l_m2 l)
    /\ lift2 fgt (Ok (l_m1 l)) (sc k1) = Ok (l_m1_mask l)
    /\ lift2 fgt (Ok (l_m2 l)) (sc k2) = Ok (l_m2_mask l)
    /\ hewson_tot_div latGrid lonGrid mux muy abs_mu = Ok (l_tot_div l)
    /\ mask_zero_contour contour_paths latGrid lonGrid (l_tot_div l)
       = Ok zc_raw
    /\ lift1 negb (lift2 andb (Ok (l_m1_mask l)) (Ok (l_m2_mask l))) = Ok sel
    /\ set_where zc_raw sel (Fin 0) = Ok (l_zc_6 l)
    /\ hewson_advection latGrid lonGrid H850 (l_gx l) (l_gy l)
       = Ok (l_rot_param l, l_Vx l, l_Vy l, l_gta l)
    /\ np_double (lift2 fgt (Ok (l_gta l)) (sc 0)) = Ok (l_wf_mask l)
    /\ np_double (lift2 flt (Ok (l_gta l)) (sc 0)) = Ok (l_cf_mask l).
Proof.
  unfold hewson_body; intros H.
  apply bind_ok in H as ([[[[[[[gx gy] gNorm] mux] muy] abs_mu] m1] m2]
                         & Hloc & H).
  apply bind_ok in H as (m1_mask & Hm1 & H).
  apply bind_ok in H as (m2_mask & Hm2 & H).
  apply bind_ok in H as (tot_div & Htd & H).
  apply bind_ok in H as (zc_raw & Hzc & H).
  apply bind_ok in H as (sel & Hsel & H).
  apply bind_ok in H as (zc_6 & Hzc6 & H).
  apply bind_ok in H as ([[[rot_param Vx] Vy] gta] & Hadv & H).
  apply bind_ok in H as (wf_mask & Hwf & H).
  apply bind_ok in H as (cf_mask & Hcf & H).
  injection H as <-. cbn.
  exists gNorm, mux, muy, abs_mu, zc_raw, sel. splits; assumption.
Qed.

(** The converse: statements that succeed make the body succeed. *)
Lemma hewson_body_intro
    (contour_paths : farr -> farr -> farr -> result (list path))
    (k1 k2 : R) (latGrid lonGrid theta H850 : farr)
    (gx gy gNorm mux muy abs_mu m1 m2 tot_div zc_raw zc_6 : farr)
    (rot_param Vx Vy gta wf_mask cf_mask : farr)
    (m1_mask m2_mask sel : ndarray bool) :
  hewson_locating latGrid lonGrid theta
  = Ok (gx, gy, gNorm, mux, muy, abs_mu, m1, m2) ->
  lift2 fgt (Ok m1) (sc k1) = Ok m1_mask ->
  lift2 fgt (Ok m2) (sc k2) = Ok m2_mask ->
  hewson_tot_div latGrid lonGrid mux muy abs_mu = Ok tot_div ->
  mask_zero_contour contour_paths latGrid lonGrid tot_div = Ok zc_raw ->
  lift1 negb (lift2 andb (Ok m1_mask) (Ok m2_mask)) = Ok sel ->
  set_where zc_raw sel (Fin 0) = Ok zc_6 ->
  hewson_advection latGrid lonGrid H850 gx gy = Ok (rot_param, Vx, Vy, gta) ->
  np_double (lift2 fgt (Ok gta) (sc 0)) = Ok wf_mask ->
  np_double (lift2 flt (Ok gta) (sc 0)) = Ok cf_mask ->
  hewson_body contour_paths k1 k2 latGrid lonGrid theta H850
  = Ok (mk_locals gx gy m1 m2 m1_mask m2_mask tot_div zc_6 rot_param
          Vx Vy gta wf_mask cf_mask).
Proof.
  intros Hloc Hm1 Hm2 Htd Hzc Hsel Hzc6 Hadv Hwf Hcf.
  unfold hewson_body. rewrite Hloc; cbn [bind].
  rewrite Hm1; cbn [bind]. rewrite Hm2; cbn [bind].
  rewrite Htd; cbn [bind]. rewrite Hzc; cbn [bind].
  rewrite Hsel; cbn [bind]. rewrite Hzc6; cbn [bind].
  rewrite Hadv; cbn [bind]. rewrite Hwf; cbn [bind].
  rewrite Hcf; cbn [bind]. reflexivity.
Qed.

(** Where the latitude is outside the band from 20 to 70 degrees, the
    rotation parameter, both wind components and the advection are
    not-a-number. *)
Lemma hewson_advection_spec
    (latGrid lonGrid H850 gx gy rot_param Vx Vy gta : farr) :
  hewson_advection latGrid lonGrid H850 gx gy = Ok (rot_param, Vx, Vy, gta) ->
  fits latGrid rot_param /\ fits latGrid Vx /\ fits latGrid Vy
  /\ fits latGrid gta
  /\ forall i j,
       fgt (fabs (rd latGrid i j)) (Fin 70) = true
       \/ flt (fabs (rd latGrid i j)) (Fin 20) = true ->
       rd rot_param i j = NaN /\ rd Vx i j = NaN /\ rd Vy i j = NaN
       /\ rd gta i j = NaN.
Proof.
  unfold hewson_advection; cbn [four_corner_shift]. intros H.
  apply bind_ok in H as (rot0 & Hrot0 & H).
  apply bind_ok in H as (sel70 & Hsel70 & H).
  apply bind_ok in H as (rot1 & Hrot1 & H).
  apply bind_ok in H as (sel20 & Hsel20 & H).
  apply bind_ok in H as (rot2 & Hrot2 & H).
  apply bind_ok in H as (dz_y & Hdzy & H).
  apply bind_ok in H as (dy & _ & H).
  apply bind_ok in H as (dz_x & Hdzx & H).
  apply bind_ok in H as (dx & _ & H).
  apply bind_ok in H as (Vy' & HVy & H).
  apply bind_ok in H as (Vx' & HVx & H).
  apply bind_ok in H as (vgx & Hvgx & H).
  apply bind_ok in H as (vgy & Hvgy & H).
  apply bind_ok in H as (gta' & Hgta & H).
  injection H as <- <- <- <-.
  clear Hdzy Hdzx.
  inv_np.
  assert (Flat : fits latGrid rot2) by fits_up 8%nat.
  splits; [exact Flat|fits_up 10%nat|fits_up 10%nat|fits_up 12%nat|].
  intros i j Hlat.
  assert (Hrot : rd rot2 i j = NaN).
  { rd_unfold. destruct Hlat as [-> | ->]; [|reflexivity].
    now destruct (flt _ _). }
  assert (HVx : rd Vx' i j = NaN) by (rd_step Vx'; now rewrite Hrot).
  assert (HVy : rd Vy' i j = NaN) by (rd_step Vy'; now rewrite Hrot).
  splits; [exact Hrot|exact HVx|exact HVy|].
  rd_step gta'. rd_step vgx.
  match goal with
  | |- context [rd ?a i j] =>
      match goal with
      | Hx : forall i j, rd a i j = fneg (rd Vx' i j) |- _ => rewrite Hx
      end
  end.
  now rewrite HVx.
Qed.

Lemma map2_shape {A B C : Type} (f : A -> B -> C)
    (a : ndarray A) (b : ndarray B) (x : ndarray C) :
  map2 f a b = Ok x ->
  bdim (nrows a) (nrows b) = Some (nrows x)
  /\ bdim (ncols a) (ncols b) = Some (ncols x).
Proof.
  unfold map2.
  destruct (bdim (nrows a) (nrows b)), (bdim (ncols a) (ncols b));
    try discriminate.
  intros [= <-]; auto.
Qed.

(** A comparison with a scalar keeps the shape of the array. *)
Lemma cmp_scalar_ok {C : Type} (f : fval -> fval -> C) (a : farr) (r : R) :
  lift2 f (Ok a) (sc r)
  = Ok (mk_nd (nrows a) (ncols a) (fun i j => f (rd a i j) (Fin r))).
Proof.
  unfold lift2, sc, map2; cbn [bind nrows ncols cell].
  now rewrite !bdim_one_r.
Qed.

Lemma hewson_with_inv
    (contour_paths : farr -> farr -> farr -> result (list path))
    (ka1 ka2 : R) (latGrid lonGrid theta H850 : farr) (out : hewson_out) :
  hewson_with contour_paths ka1 ka2 latGrid lonGrid theta H850 = Ok out ->
  exists l,
    hewson_body contour_paths ka1 ka2 latGrid lonGrid theta H850 = Ok l
    /\ map2 fmul (l_wf_mask l) (l_zc_6 l) = Ok (wf out)
    /\ map2 fmul (l_cf_mask l) (l_zc_6 l) = Ok (cf out)
    /\ eq6 out = l_tot_div l.
Proof.
  unfold hewson_with; intros H.
  apply bind_ok in H as (l & Hl & H).
  apply bind_ok in H as (wf' & Hwf & H).
  apply bind_ok in H as (cf' & Hcf & H).
  injection H as <-. exists l; auto.
Qed.

(** The masked contour: 0 where a threshold fails, the contour elsewhere;
    0 or 1 everywhere. *)
Lemma hewson_zc_6_spec
    (contour_paths : farr -> farr -> farr -> result (list path))
    (ka1 ka2 : R) (latGrid lonGrid theta H850 : farr) (l : hewson_locals) :
  hewson_body contour_paths ka1 ka2 latGrid lonGrid theta H850 = Ok l ->
  exists zc_raw,
    (exists gNorm mux muy abs_mu,
       hewson_locating latGrid lonGrid theta
       = Ok (l_gx l, l_gy l, gNorm, mux, muy, abs_mu, l_m1 l, l_m2 l)
       /\ hewson_tot_div latGrid lonGrid mux muy abs_mu = Ok (l_tot_div l))
    /\ mask_zero_contour contour_paths latGrid lonGrid (l_tot_div l)
       = Ok zc_raw
    /\ nrows (l_zc_6 l) = nrows zc_raw /\ ncols (l_zc_6 l) = ncols zc_raw
    /\ (forall i j,
          rd (l_zc_6 l) i j =
          if (fgt (rd (l_m1 l) i j) (Fin ka1)
              && fgt (rd (l_m2 l) i j) (Fin ka2))%bool
          then rd zc_raw i j else Fin 0)
    /\ (forall i j, rd zc_raw i j = Fin 0 \/ rd zc_raw i j = Fin 1)
    /\ (forall i j,
          rd (l_wf_mask l) i j = of_bool (fgt (rd (l_gta l) i j) (Fin 0)))
    /\ (forall i j,
          rd (l_cf_mask l) i j = of_bool (flt (rd (l_gta l) i j) (Fin 0)))
    /\ nrows (l_wf_mask l) = nrows (l_gta l)
    /\ ncols (l_wf_mask l) = ncols (l_gta l)
    /\ nrows (l_cf_mask l) = nrows (l_gta l)
    /\ ncols (l_cf_mask l) = ncols (l_gta l).
Proof.
  intros H.
  destruct (hewson_body_inv _ _ _ _ _ _ _ _ H)
    as (gNorm & mux & muy & abs_mu & zc_raw & sel & Hloc & Hm1 & Hm2 & Htd
        & Hzc & Hsel & Hzc6 & Hadv & Hwf & Hcf).
  exists zc_raw.
  pose proof (mask_zero_contour_binary _ _ _ _ _ Hzc) as Hbin.
  assert (Hshape : nrows (l_zc_6 l) = nrows zc_raw
                   /\ ncols (l_zc_6 l) = ncols zc_raw).
  { unfold set_where in Hzc6.
    destruct ((nrows sel =? nrows zc_raw) && (ncols sel =? ncols zc_raw))%nat%bool;
      [|discriminate].
    injection Hzc6 as Hzc6. rewrite <- Hzc6. split; reflexivity. }
  destruct Hshape as [Hsr Hsc].
  unfold np_double in Hwf, Hcf.
  assert (Swf : nrows (l_wf_mask l) = nrows (l_gta l)
                /\ ncols (l_wf_mask l) = ncols (l_gta l)).
  { rewrite cmp_scalar_ok in Hwf. injection Hwf as <-. now split. }
  assert (Scf : nrows (l_cf_mask l) = nrows (l_gta l)
                /\ ncols (l_cf_mask l) = ncols (l_gta l)).
  { rewrite cmp_scalar_ok in Hcf. injection Hcf as <-. now split. }
  destruct Swf as [Swr Swc], Scf as [Scr Scc].
  inv_np.
  splits; eauto 6; intros i j; try apply Hbin; rd_unfold;
    try reflexivity.
  destruct (fgt (rd (l_m1 l) i j) (Fin ka1)),
           (fgt (rd (l_m2 l) i j) (Fin ka2)); reflexivity.
Qed.

Lemma fmul_zero_binary (z : fval) :
  z = Fin 0 \/ z = Fin 1 -> fmul (Fin 0) z = Fin 0.
Proof. intros [-> | ->]; simpl; f_equal; lra. Qed.

Lemma fmul_binary_zero (b : bool) : fmul (of_bool b) (Fin 0) = Fin 0.
Proof. destruct b; simpl; f_equal; lra. Qed.

(** What the two returned masks are made of. *)
Lemma hewson_masks_spec
    (contour_paths : farr -> farr -> farr -> result (list path))
    (ka1 ka2 : R) (latGrid lonGrid theta H850 : farr) (out : hewson_out) :
  hewson_with contour_paths ka1 ka2 latGrid lonGrid theta H850 = Ok out ->
  exists l zc_raw,
    hewson_body contour_paths ka1 ka2 latGrid lonGrid theta H850 = Ok l
    /\ mask_zero_contour contour_paths latGrid lonGrid (l_tot_div l)
       = Ok zc_raw
    /\ nrows (cf out) = nrows (wf out) /\ ncols (cf out) = ncols (wf out)
    /\ bdim (nrows (l_gta l)) (nrows zc_raw) = Some (nrows (wf out))
    /\ bdim (ncols (l_gta l)) (ncols zc_raw) = Some (ncols (wf out))
    /\ fits (l_gta l) (wf out)
    /\ (forall i j, rd zc_raw i j = Fin 0 \/ rd zc_raw i j = Fin 1)
    /\ (forall i j,
          rd (wf out) i j =
          fmul (of_bool (fgt (rd (l_gta l) i j) (Fin 0)))
            (if (fgt (rd (l_m1 l) i j) (Fin ka1)
                 && fgt (rd (l_m2 l) i j) (Fin ka2))%bool
             then rd zc_raw i j else Fin 0))
    /\ (forall i j,
          rd (cf out) i j =
          fmul (of_bool (flt (rd (l_gta l) i j) (Fin 0)))
            (if (fgt (rd (l_m1 l) i j) (Fin ka1)
                 && fgt (rd (l_m2 l) i j) (Fin ka2))%bool
             then rd zc_raw i j else Fin 0)).
Proof.
  intros H.
  destruct (hewson_with_inv _ _ _ _ _ _ _ _ H) as (l & Hl & Hwf & Hcf & _).
  destruct (hewson_zc_6_spec _ _ _ _ _ _ _ _ Hl)
    as (zc_raw & _ & Hzc & Hzr & Hzcc & Pzc & Hbin & Pwf & Pcf
        & Swr & Swc & Scr & Scc).
  exists l, zc_raw.
  destruct (map2_shape _ _ _ _ Hwf) as [Bwr Bwc].
  destruct (map2_shape _ _ _ _ Hcf) as [Bcr Bcc].
  rewrite Swr, Hzr in Bwr. rewrite Swc, Hzcc in Bwc.
  rewrite Scr, Hzr in Bcr. rewrite Scc, Hzcc in Bcc.
  destruct (map2_ok _ _ _ _ Hwf) as (Fwm & _ & Rwf).
  destruct (map2_ok _ _ _ _ Hcf) as (_ & _ & Rcf).
  splits; auto; try congruence.
  - destruct Fwm as [Fr Fc]. rewrite Swr in Fr. rewrite Swc in Fc.
    split; assumption.
  - intros i j. now rewrite Rwf, Pwf, Pzc.
  - intros i j. now rewrite Rcf, Pcf, Pzc.
Qed.

(** C9: the warm-front mask and the cold-front mask that the thermal-front
    detector returns have one shape, and at no cell are both nonzero. *)
Theorem warm_and_cold_masks_disjoint
    (contour_paths : farr -> farr -> farr -> result (list path))
    (latGrid lonGrid theta H850 : farr) (out : hewson_out) :
  hewson_1998 contour_paths latGrid lonGrid theta H850 = Ok out ->
  nrows (cf out) = nrows (wf out) /\ ncols (cf out) = ncols (wf out)
  /\ forall i j, (i < nrows (wf out))%nat -> (j < ncols (wf out))%nat ->
       cell (wf out) i j = Fin 0 \/ cell (cf out) i j = Fin 0.
Proof.
  unfold hewson_1998; intros H.
  destruct (hewson_masks_spec _ _ _ _ _ _ _ _ H)
    as (l & zc_raw & _ & _ & Hr & Hc & _ & _ & _ & Hbin & Rwf & Rcf).
  splits; auto. intros i j Hi Hj.
  rewrite <- (rd_in_range (wf out) i j), <- (rd_in_range (cf out) i j)
    by congruence.
  rewrite Rwf, Rcf.
  set (z := if (_ && _)%bool then rd zc_raw i j else Fin 0).
  assert (Hz : z = Fin 0 \/ z = Fin 1).
  { subst z. destruct (_ && _)%bool; [apply Hbin|now left]. }
  destruct (fgt (rd (l_gta l) i j) (Fin 0)) eqn:Egt.
  - right. destruct (flt (rd (l_gta l) i j) (Fin 0)) eqn:Elt.
    + exfalso; eapply flt_fgt_excl; eassumption.
    + now apply fmul_zero_binary.
  - left. now apply fmul_zero_binary.
Qed.

(** C6: in the thermal-front detector, at every cell whose latitude has
    [|lat| > 70] or [|lat| < 20] the rotation parameter, the two components
    of the geostrophic wind and the thermal advection are not-a-number, and
    both returned masks are 0; no error is raised on account of such a
    latitude. *)
Theorem out_of_band_latitude_not_flagged
    (contour_paths : farr -> farr -> farr -> result (list path))
    (latGrid lonGrid theta H850 : farr) (out : hewson_out) :
  hewson_1998 contour_paths latGrid lonGrid theta H850 = Ok out ->
  exists l,
    hewson_body contour_paths k1 k2 latGrid lonGrid theta H850 = Ok l
    /\ forall i j, (i < nrows latGrid)%nat -> (j < ncols latGrid)%nat ->
         fgt (fabs (cell latGrid i j)) (Fin 70) = true
         \/ flt (fabs (cell latGrid i j)) (Fin 20) = true ->
         cell (l_rot_param l) i j = NaN
         /\ cell (l_Vx l) i j = NaN /\ cell (l_Vy l) i j = NaN
         /\ cell (l_gta l) i j = NaN
         /\ cell (wf out) i j = Fin 0 /\ cell (cf out) i j = Fin 0.
Proof.
  unfold hewson_1998; intros H.
  destruct (hewson_masks_spec _ _ _ _ _ _ _ _ H)
    as (l & zc_raw & Hl & _ & Hr & Hc & _ & _ & Fgta & Hbin & Rwf & Rcf).
  exists l; split; [exact Hl|]. intros i j Hi Hj Hlat.
  destruct (hewson_body_inv _ _ _ _ _ _ _ _ Hl)
    as (gNorm & mux & muy & abs_mu & zc' & sel & _ & _ & _ & _ & _ & _ & _
        & Hadv & _).
  destruct (hewson_advection_spec _ _ _ _ _ _ _ _ _ Hadv)
    as (Frot & FVx & FVy & Fg & Pnan).
  destruct (rd_fits_cell _ _ i j Frot Hi Hj) as [Hlat_rd Hrot_rd].
  destruct (rd_fits_cell _ _ i j FVx Hi Hj) as [_ HVx_rd].
  destruct (rd_fits_cell _ _ i j FVy Hi Hj) as [_ HVy_rd].
  destruct (rd_fits_cell _ _ i j Fg Hi Hj) as [_ Hg_rd].
  assert (Fwf : fits latGrid (wf out)) by (eapply fits_trans; eassumption).
  destruct (rd_fits_cell _ _ i j Fwf Hi Hj) as [_ Hwf_rd].
  assert (Hcf_rd : rd (cf out) i j = cell (cf out) i j).
  { unfold rd. rewrite Hr, Hc.
    destruct (bidx_fits _ _ i j Fwf Hi Hj) as [-> ->]. reflexivity. }
  rewrite <- Hlat_rd in Hlat.
  destruct (Pnan i j Hlat) as (Prot & PVx & PVy & Pg).
  rewrite <- Hrot_rd, <- HVx_rd, <- HVy_rd, <- Hg_rd, <- Hwf_rd, <- Hcf_rd.
  splits; auto.
  - rewrite Rwf, Pg. apply fmul_zero_binary.
    destruct (_ && _)%bool; [apply Hbin|now left].
  - rewrite Rcf, Pg. apply fmul_zero_binary.
    destruct (_ && _)%bool; [apply Hbin|now left].
Qed.

(** Whether the detector returns does not depend on the thresholds, and
    neither do the quantities that are thresholded, the contour and the
    advection. *)
Lemma hewson_with_other_thresholds
    (contour_paths : farr -> farr -> farr -> result (list path))
    (ka1 ka2 kb1 kb2 : R) (latGrid lonGrid theta H850 : farr)
    (la : hewson_locals) (out : hewson_out) :
  hewson_body contour_paths ka1 ka2 latGrid lonGrid theta H850 = Ok la ->
  hewson_with contour_paths ka1 ka2 latGrid lonGrid theta H850 = Ok out ->
  exists lb out',
    hewson_body contour_paths kb1 kb2 latGrid lonGrid theta H850 = Ok lb
    /\ hewson_with contour_paths kb1 kb2 latGrid lonGrid theta H850 = Ok out'
    /\ l_m1 lb = l_m1 la /\ l_m2 lb = l_m2 la
    /\ l_tot_div lb = l_tot_div la /\ l_gta lb = l_gta la.
Proof.
  intros Hl H.
  destruct (hewson_with_inv _ _ _ _ _ _ _ _ H) as (l & Hl' & Hwf & Hcf & _).
  rewrite Hl in Hl'; injection Hl' as <-.
  destruct (hewson_body_inv _ _ _ _ _ _ _ _ Hl)
    as (gNorm & mux & muy & abs_mu & zc_raw & sel & Hloc & Hm1 & Hm2 & Htd
        & Hzc & Hsel & Hzc6 & Hadv & Hwfm & Hcfm).
  pose proof (cmp_scalar_ok fgt (l_m1 la) kb1) as Hm1b.
  pose proof (cmp_scalar_ok fgt (l_m2 la) kb2) as Hm2b.
  rewrite cmp_scalar_ok in Hm1, Hm2.
  injection Hm1 as Hm1; injection Hm2 as Hm2.
  rewrite <- Hm1, <- Hm2 in Hsel.
  unfold lift1, lift2, map2 in Hsel; cbn [bind nrows ncols] in Hsel.
  destruct (bdim (nrows (l_m1 la)) (nrows (l_m2 la))) as [r|] eqn:Br;
    [|discriminate].
  destruct (bdim (ncols (l_m1 la)) (ncols (l_m2 la))) as [c|] eqn:Bc;
    [|discriminate].
  cbn [bind] in Hsel. injection Hsel as Hsel.
  match type of Hm1b with
  | _ = Ok ?m1b =>
      match type of Hm2b with
      | _ = Ok ?m2b =>
          destruct (map2 andb m1b m2b) as [and_b|] eqn:Hand;
            [|unfold map2 in Hand; cbn [nrows ncols] in Hand;
              rewrite Br, Bc in Hand; discriminate];
          assert (Hselb : lift1 negb (lift2 andb (Ok m1b) (Ok m2b))
                          = Ok (map1 negb and_b))
            by (unfold lift1, lift2; cbn [bind]; now rewrite Hand)
      end
  end.
  assert (Hshape : nrows and_b = r /\ ncols and_b = c).
  { unfold map2 in Hand; cbn [nrows ncols] in Hand.
    rewrite Br, Bc in Hand. injection Hand as <-. now split. }
  destruct Hshape as [Har Hac].
  unfold set_where in Hzc6. rewrite <- Hsel in Hzc6.
  cbn [nrows ncols map1] in Hzc6.
  destruct ((r =? nrows zc_raw) && (c =? ncols zc_raw))%nat%bool eqn:Echk;
    [|discriminate].
  injection Hzc6 as Hzc6.
  assert (Hzc6b : set_where zc_raw (map1 negb and_b) (Fin 0)
                  = Ok (mk_nd (nrows zc_raw) (ncols zc_raw)
                          (fun i j => if cell (map1 negb and_b) i j
                                      then Fin 0 else cell zc_raw i j))).
  { unfold set_where; cbn [nrows ncols map1]. now rewrite Har, Hac, Echk. }
  pose proof (hewson_body_intro contour_paths kb1 kb2 _ _ _ _ _ _ _ _ _ _
                _ _ _ _ _ _ _ _ _ _ _ _ _ _
                Hloc Hm1b Hm2b Htd Hzc Hselb Hzc6b Hadv Hwfm Hcfm) as Hlb.
  rewrite <- Hzc6 in Hwf, Hcf.
  unfold map2 in Hwf, Hcf; cbn [nrows ncols] in Hwf, Hcf.
  destruct (bdim (nrows (l_wf_mask la)) (nrows zc_raw)) eqn:Bwr;
    [|discriminate].
  destruct (bdim (ncols (l_wf_mask la)) (ncols zc_raw)) eqn:Bwc;
    [|discriminate].
  destruct (bdim (nrows (l_cf_mask la)) (nrows zc_raw)) eqn:Bcr;
    [|discriminate].
  destruct (bdim (ncols (l_cf_mask la)) (ncols zc_raw)) eqn:Bcc;
    [|discriminate].
  clear Hwf Hcf.
  eexists; eexists. split; [exact Hlb|].
  split; [|cbn; auto].
  unfold hewson_with. rewrite Hlb; cbn [bind l_wf_mask l_cf_mask l_zc_6
    l_tot_div lift2].
  unfold map2; cbn [nrows ncols]. rewrite Bwr, Bwc, Bcr, Bcc.
  cbn [bind]. reflexivity.
Qed.

(** C5: if the thermal-front detector returns masks with the thresholds
    [(ka1, ka2)], it returns masks of the same shape with any thresholds
    [kb1 >= ka1] and [kb2 >= ka2], and every cell that is nonzero in a mask
    of the second run is nonzero in the same mask of the first run: raising
    a threshold never adds a flagged cell. *)
Theorem thresholds_monotone
    (contour_paths : farr -> farr -> farr -> result (list path))
    (ka1 ka2 kb1 kb2 : R) (latGrid lonGrid theta H850 : farr)
    (out : hewson_out) :
  (ka1 <= kb1)%R -> (ka2 <= kb2)%R ->
  hewson_with contour_paths ka1 ka2 latGrid lonGrid theta H850 = Ok out ->
  exists out',
    hewson_with contour_paths kb1 kb2 latGrid lonGrid theta H850 = Ok out'
    /\ nrows (wf out') = nrows (wf out) /\ ncols (wf out') = ncols (wf out)
    /\ nrows (cf out') = nrows (cf out) /\ ncols (cf out') = ncols (cf out)
    /\ forall i j, (i < nrows (wf out))%nat -> (j < ncols (wf out))%nat ->
         (cell (wf out') i j <> Fin 0 -> cell (wf out) i j <> Fin 0)
         /\ (cell (cf out') i j <> Fin 0 -> cell (cf out) i j <> Fin 0).
Proof.
  intros Hk1 Hk2 H.
  destruct (hewson_masks_spec _ _ _ _ _ _ _ _ H)
    as (la & zc & Hla & Hzc & Sr & Sc & Bwr & Bwc & _ & Hbin & Rwf & Rcf).
  destruct (hewson_with_other_thresholds _ ka1 ka2 kb1 kb2 _ _ _ _ _ _ Hla H)
    as (lb & out' & Hlb & Hb & E1 & E2 & E3 & E4).
  destruct (hewson_masks_spec _ _ _ _ _ _ _ _ Hb)
    as (lb' & zc' & Hlb' & Hzc' & Sr' & Sc' & Bwr' & Bwc' & _ & _
        & Rwf' & Rcf').
  rewrite Hlb in Hlb'; injection Hlb' as <-.
  rewrite E3, Hzc in Hzc'; injection Hzc' as <-.
  rewrite E4 in Bwr', Bwc'.
  rewrite Bwr in Bwr'; injection Bwr' as Ewr.
  rewrite Bwc in Bwc'; injection Bwc' as Ewc.
  exists out'; splits; auto; try congruence.
  intros i j Hi Hj.
  rewrite <- (rd_in_range (wf out) i j), <- (rd_in_range (cf out) i j),
    <- (rd_in_range (wf out') i j), <- (rd_in_range (cf out') i j)
    by congruence.
  rewrite Rwf, Rcf, Rwf', Rcf', E1, E2, E4.
  destruct (fgt (rd (l_m1 la) i j) (Fin kb1)) eqn:G1;
    [|cbn [andb]; rewrite !fmul_binary_zero; split; congruence].
  destruct (fgt (rd (l_m2 la) i j) (Fin kb2)) eqn:G2;
    [|cbn [andb]; rewrite !fmul_binary_zero; split; congruence].
  rewrite (fgt_mono _ ka1 kb1 Hk1 G1), (fgt_mono _ ka2 kb2 Hk2 G2).
  split; auto.
Qed.

(** ** The thermal-front detector returns *)

Lemma okfull_ret' {A B : Type} (L : ndarray B) (a : ndarray A) :
  nrows a = nrows L -> ncols a = ncols L -> okfull L (Ok a).
Proof. intros Hr Hc; exists a; auto. Qed.

Lemma okfull_lift2 {A B C D : Type} (f : A -> B -> C) (L : ndarray D)
    (a : result (ndarray A)) (b : result (ndarray B)) :
  okfull L a -> okfull L b -> okfull L (lift2 f a b).
Proof. intros Ha Hb; apply okfull_lift2_l; [exact Ha|now apply okfull_okfit]. Qed.

(** Solves the shape of an expression whose operands have the shape of
    [L] or are scalars. *)
Ltac shapes_tac :=
  cbn [nrows ncols shift_up shift_down roll_left roll_right lon_of_left
       lon_of_right where_self map1 Nat.eqb];
  first [assumption | reflexivity | lia].

Ltac full_tac :=
  unfold np_abs, np_double, np_sin, np_cos, np_sqrt, np_square, np_arccos,
    np_arctan2;
  repeat lazymatch goal with
    | |- okfit _ (sc _) => apply okfit_sc
    | |- okfull _ (lift1 _ _) => apply okfull_lift1
    | |- okfull _ (lift2 _ (sc _) _) => apply okfull_lift2_r
    | |- okfull _ (lift2 _ _ (sc _)) => apply okfull_lift2_l
    | |- okfull _ (lift2 _ _ _) => apply okfull_lift2
    | |- okfull _ (Ok _) => apply okfull_ret'; shapes_tac
    end.

(** Runs the next statement of a body whose value has the shape of [L]. *)
Ltac full_step L :=
  match goal with
  | |- context [bind ?e _] =>
      let H := fresh "Hstep" in
      assert (H : okfull L e) by full_tac;
      let x := fresh "x" in
      let Hr := fresh "Hr" in
      let Hc := fresh "Hc" in
      destruct H as (x & -> & Hr & Hc); cbn [bind]
  end.

Lemma dist_full (L lat0 lon0 lat1 lon1 : farr) :
  okfull L (Ok lat0) -> okfull L (Ok lon0) ->
  okfull L (Ok lat1) -> okfull L (Ok lon1) ->
  okfull L (dist_between_grids lat0 lon0 lat1 lon1).
Proof.
  intros (? & [= <-] & H0r & H0c) (? & [= <-] & H1r & H1c)
         (? & [= <-] & H2r & H2c) (? & [= <-] & H3r & H3c).
  unfold dist_between_grids.
  full_step L. full_tac.
Qed.

Lemma norm_full (L x y : farr) :
  okfull L (Ok x) -> okfull L (Ok y) -> okfull L (norm x y).
Proof.
  intros (? & [= <-] & H0r & H0c) (? & [= <-] & H1r & H1c).
  unfold norm. full_tac.
Qed.

Lemma geo_gradient_full (lat lon data : farr) :
  okfull lat (Ok lon) -> okfull lat (Ok data) -> (0 < ncols lat)%nat ->
  exists dx dy,
    geo_gradient lat lon data = Ok (dx, dy)
    /\ okfull lat (Ok dx) /\ okfull lat (Ok dy).
Proof.
  intros (? & [= <-] & H0r & H0c) (? & [= <-] & H1r & H1c) Hc.
  destruct (geo_gradient_cells lat lon data H0r H0c H1r H1c Hc)
    as (dx & dy & H & ? & ? & ? & ? & _).
  exists dx, dy; splits; auto; now apply okfull_ret'.
Qed.

Lemma dstack_full (L : farr) (layers : list farr) :
  layers <> [] ->
  Forall (fun a => nrows a = nrows L /\ ncols a = ncols L) layers ->
  dstack layers = Ok layers.
Proof.
  intros Hne Hall; unfold dstack.
  destruct layers as [|a rest]; [congruence|].
  replace (forallb (same_shape a) (a :: rest)) with true; [reflexivity|].
  symmetry; apply forallb_forall. intros x Hx.
  rewrite Forall_forall in Hall.
  destruct (Hall a (or_introl eq_refl)) as [Har Hac].
  destruct (Hall x Hx) as [Hxr Hxc].
  unfold same_shape. rewrite Har, Hac, Hxr, Hxc, !Nat.eqb_refl. reflexivity.
Qed.

Lemma stack_map2_full (f : fval -> fval -> fval) (L : farr)
    (a b : list farr) :
  length a = length b ->
  Forall (fun x => nrows x = nrows L /\ ncols x = ncols L) a ->
  Forall (fun x => nrows x = nrows L /\ ncols x = ncols L) b ->
  exists r,
    stack_map2 f a b = Ok r /\ length r = length a
    /\ Forall (fun x => nrows x = nrows L /\ ncols x = ncols L) r.
Proof.
  revert b; induction a as [|x a IH]; intros [|y b] Hlen Ha Hb;
    try discriminate.
  - exists []; auto.
  - inversion Ha as [|? ? [Hxr Hxc] Ha']; subst.
    inversion Hb as [|? ? [Hyr Hyc] Hb']; subst.
    destruct (IH b) as (r & Hr & Hlr & Hfr); auto.
    cbn [stack_map2].
    assert (Hz : okfull L (lift2 f (Ok x) (Ok y))) by full_tac.
    destruct Hz as (z & Hz & Hzr & Hzc).
    unfold lift2 in Hz; cbn [bind] in Hz. rewrite Hz, Hr; cbn [bind].
    exists (z :: r); splits; [reflexivity|simpl; congruence|].
    constructor; auto.
Qed.

Lemma nansum_axis2_full (L : farr) (stack : list farr) :
  stack <> [] ->
  Forall (fun x => nrows x = nrows L /\ ncols x = ncols L) stack ->
  nrows (nansum_axis2 stack) = nrows L
  /\ ncols (nansum_axis2 stack) = ncols L.
Proof.
  intros Hne Hall. destruct stack as [|a rest]; [congruence|].
  inversion Hall as [|? ? Ha _]; subst. exact Ha.
Qed.

Lemma smooth_pass_full (L : farr) (cw : R) (g : farr) :
  okfull L (Ok g) -> okfull L (smooth_pass cw g).
Proof.
  intros (? & [= <-] & Hgr & Hgc). unfold smooth_pass. cbv zeta.
  full_step L. full_step L.
  rewrite (dstack_full L) by
    (try discriminate; repeat constructor; cbn [nrows ncols shift_up
       shift_down roll_left roll_right Nat.eqb]; congruence).
  cbn [bind].
  full_step L.
  match goal with
  | |- context [nansum_axis2 ?st] =>
      destruct (nansum_axis2_full L st) as [Hnr Hnc];
        [discriminate
        |repeat constructor; cbn [nrows ncols shift_up shift_down roll_left
           roll_right Nat.eqb]; congruence|]
  end.
  full_step L.
  unfold same_shape.
  repeat match goal with
         | |- context [(?a =? ?b)%nat] =>
             replace (a =? b)%nat with true
               by (symmetry; apply Nat.eqb_eq; congruence)
         end.
  cbn [andb]. apply okfull_ret'; reflexivity || assumption.
Qed.

Lemma smooth_grid_full (L : farr) (cw : R) (iter : nat) (g : farr) :
  okfull L (Ok g) -> okfull L (smooth_grid g iter cw).
Proof.
  revert g; induction iter as [|n IH]; intros g Hg; [exact Hg|].
  cbn [smooth_grid].
  destruct (smooth_pass_full L cw g Hg) as (x & -> & Hr & Hc). cbn [bind].
  apply IH. now apply okfull_ret'.
Qed.

(** The first part of the detector on grids of one shape. *)
Lemma hewson_locating_full (latGrid lonGrid theta : farr) :
  okfull latGrid (Ok lonGrid) -> okfull latGrid (Ok theta) ->
  (0 < ncols latGrid)%nat ->
  exists gx gy gNorm mux muy abs_mu m1 m2,
    hewson_locating latGrid lonGrid theta
    = Ok (gx, gy, gNorm, mux, muy, abs_mu, m1, m2)
    /\ okfull latGrid (Ok gx) /\ okfull latGrid (Ok gy)
    /\ okfull latGrid (Ok mux) /\ okfull latGrid (Ok muy)
    /\ okfull latGrid (Ok abs_mu)
    /\ okfull latGrid (Ok m1) /\ okfull latGrid (Ok m2).
Proof.
  intros Hlon Htheta Hc. unfold hewson_locating.
  destruct (geo_gradient_full latGrid lonGrid theta Hlon Htheta Hc)
    as (gx & gy & -> & Hgx & Hgy). cbn [bind].
  destruct (norm_full latGrid gx gy Hgx Hgy) as (gNorm & -> & Hnr & Hnc).
  cbn [bind].
  assert (HgN : okfull latGrid (Ok gNorm)) by now apply okfull_ret'.
  destruct (geo_gradient_full latGrid lonGrid gNorm Hlon HgN Hc)
    as (mux & muy & -> & Hmux & Hmuy). cbn [bind].
  destruct (norm_full latGrid mux muy Hmux Hmuy) as (abs_mu & -> & Har & Hac).
  cbn [bind].
  assert (Habs : okfull latGrid (Ok abs_mu)) by now apply okfull_ret'.
  destruct (geo_gradient_full latGrid lonGrid abs_mu Hlon Habs Hc)
    as (gax & gay & -> & _ & _). cbn [bind].
  destruct Hgx as (? & [= <-] & Hgxr & Hgxc).
  destruct Hgy as (? & [= <-] & Hgyr & Hgyc).
  destruct Hmux as (? & [= <-] & Hmxr & Hmxc).
  destruct Hmuy as (? & [= <-] & Hmyr & Hmyc).
  full_step latGrid.
  match goal with
  | |- context [smooth_grid ?p 1 1] =>
      destruct (smooth_grid_full latGrid 1 1 p) as (ps & -> & Hpr & Hpc);
        [now apply okfull_ret'|]
  end.
  cbn [bind].
  full_step latGrid. full_step latGrid.
  do 8 eexists. split; [reflexivity|].
  splits; apply okfull_ret'; assumption.
Qed.

Lemma set_where_full (L a : farr) (mask : ndarray bool) (v : fval) :
  okfull L (Ok a) -> okfull L (Ok mask) -> okfull L (set_where a mask v).
Proof.
  intros (? & [= <-] & Har & Hac) (? & [= <-] & Hmr & Hmc).
  unfold set_where.
  replace (nrows mask =? nrows a)%nat with true
    by (symmetry; apply Nat.eqb_eq; congruence).
  replace (ncols mask =? ncols a)%nat with true
    by (symmetry; apply Nat.eqb_eq; congruence).
  cbn [andb]. now apply okfull_ret'.
Qed.

(** *** Running a body statement by statement *)

Lemma returns_ret {A : Type} (x : A) (Q : A -> Prop) :
  Q x -> returns (Ok x) Q.
Proof. intros H; exists x; auto. Qed.

Lemma returns_bind {A B : Type} (m : result A) (k : A -> result B)
    (P : A -> Prop) (Q : B -> Prop) :
  returns m P -> (forall x, P x -> returns (k x) Q) -> returns (bind m k) Q.
Proof. intros (x & -> & Hx) Hk; cbn [bind]; auto. Qed.

Lemma returns_bind_full {A B D : Type} (L : ndarray D)
    (m : result (ndarray A)) (k : ndarray A -> result B) (Q : B -> Prop) :
  okfull L m ->
  (forall x, nrows x = nrows L -> ncols x = ncols L -> returns (k x) Q) ->
  returns (bind m k) Q.
Proof. intros (x & -> & Hr & Hc) Hk; cbn [bind]; auto. Qed.

Lemma returns_full {A D : Type} (L : ndarray D) (m : result (ndarray A)) :
  okfull L m -> returns m (full L).
Proof. intros H; exact H. Qed.

Lemma returns_dstack {B : Type} (L : farr) (layers : list farr)
    (k : list farr -> result B) (Q : B -> Prop) :
  layers <> [] ->
  Forall (fun a => nrows a = nrows L /\ ncols a = ncols L) layers ->
  returns (k layers) Q -> returns (bind (dstack layers) k) Q.
Proof. intros Hne Hall Hk. now rewrite (dstack_full L layers Hne Hall). Qed.

Lemma returns_stack_map2 {B : Type} (f : fval -> fval -> fval) (L : farr)
    (a b : list farr) (k : list farr -> result B) (Q : B -> Prop) :
  a <> [] -> length a = length b ->
  Forall (fun x => nrows x = nrows L /\ ncols x = ncols L) a ->
  Forall (fun x => nrows x = nrows L /\ ncols x = ncols L) b ->
  (forall r,
     nrows (nansum_axis2 r) = nrows L -> ncols (nansum_axis2 r) = ncols L ->
     returns (k r) Q) ->
  returns (bind (stack_map2 f a b) k) Q.
Proof.
  intros Hne Hlen Ha Hb Hk.
  destruct (stack_map2_full f L a b Hlen Ha Hb) as (r & -> & Hlr & Hfr).
  cbn [bind].
  destruct (nansum_axis2_full L r) as [Hr Hc]; auto.
  destruct r; [|discriminate]. destruct a; [congruence|discriminate].
Qed.

Lemma returns_add_last_col {B : Type} (a : farr) (d : R)
    (k : farr -> result B) (Q : B -> Prop) :
  (0 < ncols a)%nat ->
  (forall x, nrows x = nrows a -> ncols x = ncols a -> returns (k x) Q) ->
  returns (bind (add_last_col a d) k) Q.
Proof.
  intros Hc Hk. rewrite add_last_col_returns by exact Hc. cbn [bind].
  now apply Hk.
Qed.

Lemma returns_add_first_col {B : Type} (a : farr) (d : R)
    (k : farr -> result B) (Q : B -> Prop) :
  (0 < ncols a)%nat ->
  (forall x, nrows x = nrows a -> ncols x = ncols a -> returns (k x) Q) ->
  returns (bind (add_first_col a d) k) Q.
Proof.
  intros Hc Hk. rewrite add_first_col_returns by exact Hc. cbn [bind].
  now apply Hk.
Qed.

(** Runs the next statement, an array expression of the shape of [L]. *)
Ltac run_expr L :=
  apply (returns_bind_full L); [full_tac|intros ? ? ?; cbv beta].

Ltac run_set_where L :=
  apply (returns_bind_full L);
    [apply set_where_full; apply okfull_ret'; shapes_tac
    |intros ? ? ?; cbv beta].

Ltac run_dist L :=
  apply (returns_bind_full L);
    [apply dist_full; apply okfull_ret'; shapes_tac
    |intros ? ? ?; cbv beta].

(** The divergence along the mean direction on grids of one shape. *)
Lemma hewson_tot_div_full (latGrid lonGrid mux muy abs_mu : farr) :
  okfull latGrid (Ok lonGrid) -> okfull latGrid (Ok mux) ->
  okfull latGrid (Ok muy) -> okfull latGrid (Ok abs_mu) ->
  (0 < ncols latGrid)%nat ->
  returns (hewson_tot_div latGrid lonGrid mux muy abs_mu) (full latGrid).
Proof.
  intros (? & [= <-] & Hlr & Hlc) (? & [= <-] & Hxr & Hxc)
         (? & [= <-] & Hyr & Hyc) (? & [= <-] & Har & Hac) Hc.
  unfold hewson_tot_div. cbv zeta. cbn [four_corner_shift].
  run_expr latGrid. run_expr latGrid. run_set_where latGrid.
  run_expr latGrid. run_set_where latGrid.
  run_expr latGrid. run_set_where latGrid.
  apply (returns_dstack latGrid);
    [discriminate|repeat constructor; shapes_tac|].
  apply (returns_dstack latGrid);
    [discriminate|repeat constructor; shapes_tac|].
  apply (returns_stack_map2 fmul latGrid);
    [discriminate|reflexivity|repeat constructor; shapes_tac
    |repeat constructor; shapes_tac|intros sp Hspr Hspc].
  apply (returns_stack_map2 fmul latGrid);
    [discriminate|reflexivity|repeat constructor; shapes_tac
    |repeat constructor; shapes_tac|intros sq Hsqr Hsqc].
  run_expr latGrid.
  apply returns_add_last_col; [cbn [ncols roll_left]; lia|intros ll Hllr Hllc].
  apply returns_add_first_col;
    [cbn [ncols roll_right]; lia|intros lr Hlrr Hlrc].
  cbn [nrows ncols roll_left roll_right] in Hllr, Hllc, Hlrr, Hlrc.
  run_dist latGrid. run_dist latGrid.
  run_expr latGrid. run_expr latGrid. run_expr latGrid. run_expr latGrid.
  apply returns_full. full_tac.
Qed.

(** The geostrophic advection on grids of one shape. *)
Lemma hewson_advection_full (latGrid lonGrid H850 gx gy : farr) :
  okfull latGrid (Ok lonGrid) -> okfull latGrid (Ok H850) ->
  okfull latGrid (Ok gx) -> okfull latGrid (Ok gy) ->
  returns (hewson_advection latGrid lonGrid H850 gx gy)
    (fun t => full latGrid (snd t)).
Proof.
  intros (? & [= <-] & Hlr & Hlc) (? & [= <-] & Hhr & Hhc)
         (? & [= <-] & Hxr & Hxc) (? & [= <-] & Hyr & Hyc).
  unfold hewson_advection. cbv zeta. cbn [four_corner_shift].
  run_expr latGrid. run_expr latGrid. run_set_where latGrid.
  run_expr latGrid. run_set_where latGrid.
  run_expr latGrid. run_dist latGrid.
  run_expr latGrid. run_dist latGrid.
  run_expr latGrid. run_expr latGrid. run_expr latGrid. run_expr latGrid.
  run_expr latGrid.
  apply returns_ret. split; assumption.
Qed.

(** On grids of one shape whose latitudes and longitudes have constant
    positive steps, and with a contouring engine that finds at least one
    vertex, the detector returns masks of the shape of the grid, whatever
    the thresholds. *)
Lemma hewson_body_full
    (contour_paths : farr -> farr -> farr -> result (list path))
    (ka1 ka2 : R) (latGrid lonGrid theta H850 : farr) (a da b db : R) :
  okfull latGrid (Ok lonGrid) -> okfull latGrid (Ok theta) ->
  okfull latGrid (Ok H850) ->
  (2 <= nrows latGrid)%nat -> (2 <= ncols latGrid)%nat ->
  (0 < da)%R -> (0 < db)%R ->
  (forall i, (i < nrows latGrid)%nat ->
     cell latGrid i 0 = Fin (centre a da i)) ->
  (forall j, (j < ncols lonGrid)%nat ->
     cell lonGrid 0 j = Fin (centre b db j)) ->
  (forall data, exists paths verts,
     contour_paths latGrid lonGrid data = Ok paths
     /\ gather_vertices paths = Some verts) ->
  returns (hewson_body contour_paths ka1 ka2 latGrid lonGrid theta H850)
    (fun l => full latGrid (l_wf_mask l) /\ full latGrid (l_cf_mask l)
              /\ full latGrid (l_zc_6 l) /\ full latGrid (l_tot_div l)).
Proof.
  intros Hlon Htheta HH Hn Hm Hda Hdb Hlat Hlong Hengine.
  assert (Hc : (0 < ncols latGrid)%nat) by lia.
  unfold hewson_body.
  destruct (hewson_locating_full latGrid lonGrid theta Hlon Htheta Hc)
    as (gx & gy & gNorm & mux & muy & abs_mu & m1 & m2 & Hloc
        & Hgx & Hgy & Hmux & Hmuy & Habs & Hm1 & Hm2).
  apply (returns_bind _ _ (fun t => t = (gx, gy, gNorm, mux, muy, abs_mu,
                                          m1, m2)));
    [exists (gx, gy, gNorm, mux, muy, abs_mu, m1, m2); auto|].
  intros t ->.
  pose proof Hlon as (? & [= <-] & Hlr & Hlc).
  pose proof HH as (? & [= <-] & Hhr & Hhc).
  pose proof Hm1 as (? & [= <-] & Hm1r & Hm1c).
  pose proof Hm2 as (? & [= <-] & Hm2r & Hm2c).
  run_expr latGrid. run_expr latGrid.
  apply (returns_bind _ _ (full latGrid));
    [now apply hewson_tot_div_full|intros tot_div [Htr Htc]].
  destruct (Hengine tot_div) as (paths & verts & Hp & Hv).
  rewrite (mask_zero_contour_uniform _ _ _ _ paths verts a da b db Hp Hv)
    by (assumption || lia).
  cbn [bind].
  run_expr latGrid. run_set_where latGrid.
  apply (returns_bind _ _ (fun t => full latGrid (snd t)));
    [now apply hewson_advection_full|].
  intros [[[rot_param Vx] Vy] gta] [Hgr Hgc]; cbn [snd] in Hgr, Hgc.
  run_expr latGrid. run_expr latGrid.
  apply returns_ret; cbn [l_wf_mask l_cf_mask l_zc_6 l_tot_div].
  unfold full; auto 8.
Qed.

Lemma hewson_with_full
    (contour_paths : farr -> farr -> farr -> result (list path))
    (ka1 ka2 : R) (latGrid lonGrid theta H850 : farr) (a da b db : R) :
  okfull latGrid (Ok lonGrid) -> okfull latGrid (Ok theta) ->
  okfull latGrid (Ok H850) ->
  (2 <= nrows latGrid)%nat -> (2 <= ncols latGrid)%nat ->
  (0 < da)%R -> (0 < db)%R ->
  (forall i, (i < nrows latGrid)%nat ->
     cell latGrid i 0 = Fin (centre a da i)) ->
  (forall j, (j < ncols lonGrid)%nat ->
     cell lonGrid 0 j = Fin (centre b db j)) ->
  (forall data, exists paths verts,
     contour_paths latGrid lonGrid data = Ok paths
     /\ gather_vertices paths = Some verts) ->
  returns (hewson_with contour_paths ka1 ka2 latGrid lonGrid theta H850)
    (fun out => full latGrid (wf out) /\ full latGrid (cf out)
                /\ full latGrid (eq6 out)).
Proof.
  intros Hlon Htheta HH Hn Hm Hda Hdb Hlat Hlong Hengine.
  unfold hewson_with.
  eapply returns_bind;
    [apply (hewson_body_full contour_paths ka1 ka2 latGrid lonGrid theta
              H850 a da b db); assumption|].
  intros l ([Hwr Hwc] & [Hcr Hcc] & [Hzr Hzc] & Htd). cbv beta.
  run_expr latGrid. run_expr latGrid.
  apply returns_ret; cbn [wf cf eq6]. unfold full; auto.
Qed.

(** The detector returns on the example grid. *)
Lemma ex_returns (ka1 ka2 : R) :
  returns (hewson_with ex_contour ka1 ka2 ex_lat ex_lon ex_theta ex_H850)
    (fun out => full ex_lat (wf out) /\ full ex_lat (cf out)
                /\ full ex_lat (eq6 out)).
Proof.
  apply (hewson_with_full ex_contour ka1 ka2 ex_lat ex_lon ex_theta ex_H850
           10 20 0 1);
    try (apply okfull_ret'; reflexivity); try (simpl; lia); try lra.
  - intros [|[|[|i]]] Hi; simpl in Hi; try lia; unfold centre; simpl;
      f_equal; lra.
  - intros [|[|[|j]]] Hj; simpl in Hj; try lia; unfold centre; simpl;
      f_equal; lra.
  - intros data. exists [[(Fin 30, Fin 1)]], [(Fin 30, Fin 1)]. now split.
Qed.

Lemma warm_and_cold_masks_disjoint_witness :
  exists out,
    hewson_1998 ex_contour ex_lat ex_lon ex_theta ex_H850 = Ok out
    /\ (cell (wf out) 1 1 = Fin 0 \/ cell (cf out) 1 1 = Fin 0).
Proof.
  destruct (ex_returns k1 k2) as (out & Hout & [Hwr Hwc] & _).
  exists out; split; [exact Hout|].
  apply (warm_and_cold_masks_disjoint ex_contour ex_lat ex_lon ex_theta
           ex_H850 out Hout).
  - rewrite Hwr; simpl; lia.
  - rewrite Hwc; simpl; lia.
Defined.

Lemma out_of_band_latitude_not_flagged_witness :
  exists out,
    hewson_1998 ex_contour ex_lat ex_lon ex_theta ex_H850 = Ok out
    /\ cell (wf out) 0 1 = Fin 0 /\ cell (cf out) 0 1 = Fin 0.
Proof.
  destruct (ex_returns k1 k2) as (out & Hout & _).
  exists out; split; [exact Hout|].
  destruct (out_of_band_latitude_not_flagged ex_contour ex_lat ex_lon
              ex_theta ex_H850 out Hout) as (l & _ & Hcells).
  destruct (Hcells 0%nat 1%nat) as (_ & _ & _ & _ & Hwf & Hcf).
  - simpl; lia.
  - simpl; lia.
  - right. simpl. apply Rltb_true. rewrite Rabs_right; lra.
  - split; assumption.
Defined.

Lemma thresholds_monotone_witness :
  exists out out',
    hewson_with ex_contour k1 k2 ex_lat ex_lon ex_theta ex_H850 = Ok out
    /\ hewson_with ex_contour 1 1 ex_lat ex_lon ex_theta ex_H850 = Ok out'
    /\ (cell (wf out') 1 1 <> Fin 0 -> cell (wf out) 1 1 <> Fin 0).
Proof.
  destruct (ex_returns k1 k2) as (out & Hout & [Hwr Hwc] & _).
  destruct (thresholds_monotone ex_contour k1 k2 1 1 ex_lat ex_lon ex_theta
              ex_H850 out) as (out' & Hout' & _ & _ & _ & _ & Hsub).
  - unfold k1; lra.
  - unfold k2; lra.
  - exact Hout.
  - exists out, out'; split; [exact Hout|]; split; [exact Hout'|].
    apply Hsub; [rewrite Hwr|rewrite Hwc]; simpl; lia.
Defined.

Lemma feq_mark (c : fval) : feq c front_mark = true <-> c = front_mark.
Proof.
  unfold front_mark; destruct c; simpl; split; try discriminate.
  - intros H; apply Reqb_true in H; now subst.
  - intros [= ->]; now apply Reqb_true.
Qed.

Lemma In_argwhere_row (a : farr) (i j : nat) :
  In j (argwhere_row a i) <-> (j < ncols a)%nat /\ cell a i j = front_mark.
Proof.
  unfold argwhere_row. rewrite filter_In, in_seq, feq_mark. intuition lia.
Qed.

Lemma filter_seq_bounds (p : nat -> bool) (n s m : nat) (rest : list nat) :
  filter p (seq s n) = m :: rest ->
  forall x, In x (m :: rest) -> (m <= x <= last (m :: rest) 0)%nat.
Proof.
  revert s m rest; induction n as [|n IH]; intros s m rest; [discriminate|].
  cbn [seq filter]. destruct (p s).
  - intros [= <- Hrest] x Hx.
    destruct rest as [|m' rest'].
    + destruct Hx as [<- | []]. simpl; lia.
    + assert (Hm' : (S s <= m')%nat).
      { assert (In m' (filter p (seq (S s) n))) by (rewrite Hrest; now left).
        apply filter_In in H as [H _]. apply in_seq in H. lia. }
      pose proof (IH _ _ _ Hrest) as Hb.
      change (last (s :: m' :: rest') 0%nat) with (last (m' :: rest') 0%nat).
      destruct Hx as [<- | Hx].
      * specialize (Hb m' (or_introl eq_refl)). lia.
      * specialize (Hb x Hx). lia.
  - intros H. exact (IH _ _ _ H).
Qed.

Lemma row_span_spec (a : farr) (i m M : nat) :
  row_span a i m M <->
  (m <= M)%nat /\ (M < ncols a)%nat
  /\ cell a i m = front_mark /\ cell a i M = front_mark
  /\ forall j, (j < ncols a)%nat -> cell a i j = front_mark ->
       (m <= j <= M)%nat.
Proof.
  split.
  - intros (rest & Hind & Hlast).
    pose proof (filter_seq_bounds _ _ _ _ _ Hind) as Hb.
    assert (Hm : In m (argwhere_row a i)) by (rewrite Hind; now left).
    assert (HM : In M (argwhere_row a i)).
    { rewrite Hind, <- Hlast.
      clear. generalize m. induction rest as [|r rest IH]; intros m0.
      - now left.
      - right. apply IH. }
    apply In_argwhere_row in Hm as [Hm1 Hm2].
    apply In_argwhere_row in HM as [HM1 HM2].
    rewrite Hlast in Hb.
    splits; auto.
    + apply (Hb M). rewrite <- Hind. apply In_argwhere_row; auto.
    + intros j Hj Hc. apply Hb. rewrite <- Hind. apply In_argwhere_row; auto.
  - intros (HmM & HM & Hm & HMm & Hall).
    destruct (argwhere_row a i) as [|m' rest] eqn:Hind.
    + assert (In m (argwhere_row a i)) by (apply In_argwhere_row; split; [lia|auto]).
      rewrite Hind in H. destruct H.
    + pose proof (filter_seq_bounds _ _ _ _ _ Hind) as Hb.
      assert (Hin : forall x, In x (m' :: rest) <->
                (x < ncols a)%nat /\ cell a i x = front_mark).
      { intros x. rewrite <- Hind. apply In_argwhere_row. }
      assert (Hm' : In m' (m' :: rest)) by now left.
      assert (HL : In (last (m' :: rest) 0%nat) (m' :: rest)).
      { clear. generalize m'. induction rest as [|r rest IH]; intros m0.
        - now left.
        - right. apply IH. }
      assert (m' = m).
      { assert (Hmn : (m < ncols a)%nat) by lia.
        pose proof (Hb m (proj2 (Hin m) (conj Hmn Hm))).
        apply Hin in Hm' as [? ?]. pose proof (Hall m' H0 H1). lia. }
      subst m'. exists rest; split; [exact Hind|].
      pose proof (Hb M (proj2 (Hin M) (conj HM HMm))).
      apply Hin in HL as [? ?]. pose proof (Hall _ H0 H1). lia.
Qed.

Lemma setitem_in_range (a : farr) (i : nat) (j : Z) (v : fval) :
  (0 <= j < Z.of_nat (ncols a))%Z ->
  setitem a i j v =
  Ok (mk_nd (nrows a) (ncols a)
        (fun i' j' => if ((i' =? i) && (j' =? Z.to_nat j))%nat%bool then v
                      else cell a i' j')).
Proof.
  intros Hj. unfold setitem.
  replace ((0 <=? j) && (j <? Z.of_nat (ncols a)))%Z%bool with true; auto.
  symmetry; apply andb_true_iff; split; [apply Z.leb_le|apply Z.ltb_lt]; lia.
Qed.

Lemma setitem_beyond (a : farr) (i : nat) (j : Z) (v : fval) :
  (Z.of_nat (ncols a) <= j)%Z -> setitem a i j v = Err IndexError.
Proof.
  intros Hj. unfold setitem.
  replace (j <? Z.of_nat (ncols a))%Z with false
    by (symmetry; apply Z.ltb_ge; lia).
  replace (j <? 0)%Z with false by (symmetry; apply Z.ltb_ge; lia).
  now rewrite !andb_false_r.
Qed.

(** A loop over columns inside the row marks them and ends normally. *)
Lemma mark_each_in_range (js : list Z) (a : farr) (i : nat) :
  Forall (fun j => (0 <= j < Z.of_nat (ncols a))%Z) js ->
  exists out,
    mark_each a i js = (out, Ok tt)
    /\ nrows out = nrows a /\ ncols out = ncols a
    /\ forall i' j',
         cell out i' j' =
         if ((i' =? i)%nat && existsb (Z.eqb (Z.of_nat j')) js)%bool
         then front_mark else cell a i' j'.
Proof.
  revert a; induction js as [|j js IH]; intros a Hall.
  - exists a; splits; auto. intros i' j'. now rewrite andb_false_r.
  - inversion Hall as [|? ? Hj Hjs]; subst.
    cbn [mark_each]. rewrite setitem_in_range by exact Hj.
    edestruct IH as (out & -> & Hr & Hc & Hcell); [exact Hjs|].
    exists out; splits; auto.
    intros i' j'. rewrite Hcell. cbn [cell existsb].
    destruct (Nat.eqb_spec i' i); cbn [andb]; [|reflexivity].
    destruct (existsb (Z.eqb (Z.of_nat j')) js); [now rewrite orb_true_r|].
    rewrite orb_false_r.
    destruct (Nat.eqb_spec j' (Z.to_nat j)), (Z.eqb_spec (Z.of_nat j') j);
      try reflexivity; lia.
Qed.

(** A loop that meets a column beyond the row has marked the columns before
    it and ends with [IndexError]. *)
Lemma mark_each_overrun (l1 l2 : list Z) (bad : Z) (a : farr) (i : nat) :
  Forall (fun j => (0 <= j < Z.of_nat (ncols a))%Z) l1 ->
  (Z.of_nat (ncols a) <= bad)%Z ->
  exists out,
    mark_each a i (l1 ++ bad :: l2) = (out, Err IndexError)
    /\ nrows out = nrows a /\ ncols out = ncols a
    /\ forall i' j',
         cell out i' j' =
         if ((i' =? i)%nat && existsb (Z.eqb (Z.of_nat j')) l1)%bool
         then front_mark else cell a i' j'.
Proof.
  revert a; induction l1 as [|j js IH]; intros a Hall Hbad.
  - cbn [app mark_each]. rewrite setitem_beyond by exact Hbad.
    exists a; splits; auto. intros i' j'. now rewrite andb_false_r.
  - inversion Hall as [|? ? Hj Hjs]; subst.
    cbn [app mark_each]. rewrite setitem_in_range by exact Hj.
    edestruct IH as (out & -> & Hr & Hc & Hcell); [exact Hjs|exact Hbad|].
    exists out; splits; auto.
    intros i' j'. rewrite Hcell. cbn [cell existsb].
    destruct (Nat.eqb_spec i' i); cbn [andb]; [|reflexivity].
    destruct (existsb (Z.eqb (Z.of_nat j')) js); [now rewrite orb_true_r|].
    rewrite orb_false_r.
    destruct (Nat.eqb_spec j' (Z.to_nat j)), (Z.eqb_spec (Z.of_nat j') j);
      try reflexivity; lia.
Qed.

Lemma In_arange (lo hi z : Z) : In z (arange lo hi) <-> (lo <= z < hi)%Z.
Proof.
  unfold arange. rewrite in_map_iff. split.
  - intros (k & <- & Hk). apply in_seq in Hk. lia.
  - intros Hz. exists (Z.to_nat (z - lo)). split; [lia|].
    apply in_seq. lia.
Qed.

Lemma existsb_eqb_In (z : Z) (l : list Z) :
  existsb (Z.eqb z) l = true <-> In z l.
Proof.
  rewrite existsb_exists. split.
  - intros (x & Hx & He). apply Z.eqb_eq in He. now subst.
  - intros H. exists z; split; [exact H|apply Z.eqb_refl].
Qed.

Lemma map_seq_shift {A : Type} (f : nat -> A) (a n s : nat) :
  map f (seq (a + s) n) = map (fun k => f (a + k)%nat) (seq s n).
Proof.
  revert s; induction n as [|n IH]; intros s; [reflexivity|].
  cbn [seq map]. f_equal. rewrite <- IH. now rewrite Nat.add_succ_r.
Qed.

Lemma arange_split (lo mid hi : Z) :
  (lo <= mid <= hi)%Z -> arange lo hi = arange lo mid ++ arange mid hi.
Proof.
  intros H. unfold arange.
  replace (Z.to_nat (hi - lo))
    with (Z.to_nat (mid - lo) + Z.to_nat (hi - mid))%nat by lia.
  rewrite seq_app, map_app. f_equal.
  rewrite (Nat.add_comm 0), <- (Nat.add_0_r (Z.to_nat (mid - lo))) at 1.
  rewrite map_seq_shift. apply map_ext. intros k. lia.
Qed.

Lemma arange_cons (lo hi : Z) :
  (lo < hi)%Z -> arange lo hi = lo :: arange (lo + 1) hi.
Proof.
  intros H. unfold arange.
  replace (Z.to_nat (hi - lo)) with (S (Z.to_nat (hi - (lo + 1)))) by lia.
  cbn [seq map]. f_equal; [lia|].
  pose proof (map_seq_shift (fun k => (lo + Z.of_nat k)%Z) 1
                (Z.to_nat (hi - (lo + 1))) 0) as E.
  cbn [Nat.add] in E. rewrite E. apply map_ext. intros k. lia.
Qed.

Lemma last_in_argwhere (a : farr) (i m : nat) (rest : list nat) :
  argwhere_row a i = m :: rest ->
  row_span a i m (last (m :: rest) 0%nat).
Proof. intros H; exists rest; auto. Qed.

Lemma expand_row_spec (a : farr) (num_pixels : Z) (i : nat) :
  exists out,
    expand_row a num_pixels i =
    (out, if row_overruns a num_pixels i then Err IndexError else Ok tt)
    /\ nrows out = nrows a /\ ncols out = ncols a
    /\ forall i' j',
         cell out i' j' =
         if (i' =? i)%nat then expanded_cell a num_pixels i j'
         else cell a i' j'.
Proof.
  unfold expand_row, row_overruns, expanded_cell.
  destruct (argwhere_row a i) as [|m rest] eqn:Hind.
  - exists a; splits; auto. intros i' j'.
    destruct (Nat.eqb_spec i' i); now subst.
  - pose proof (last_in_argwhere _ _ _ _ Hind) as Hspan.
    apply row_span_spec in Hspan as (HmM & HM & _ & _ & _).
    set (M := last (m :: rest) 0%nat) in *.
    destruct (Nat.eqb_spec m 0) as [Hm0 | Hm0].
    + subst m. cbn [Z.of_nat Z.eqb andb].
      destruct (Z.leb_spec (Z.of_nat (ncols a)) (Z.of_nat M + num_pixels))
        as [Hover | Hfit].
      * rewrite (arange_split (Z.of_nat M) (Z.of_nat (ncols a) - 1)
                   (Z.of_nat M + num_pixels)) by lia.
        rewrite (arange_cons (Z.of_nat (ncols a) - 1)) by lia.
        rewrite map_app. cbn [map].
        edestruct (mark_each_overrun
                     (map (fun j => (j + 1)%Z)
                        (arange (Z.of_nat M) (Z.of_nat (ncols a) - 1)))
                     (map (fun j => (j + 1)%Z)
                        (arange (Z.of_nat (ncols a) - 1 + 1)
                           (Z.of_nat M + num_pixels)))
                     (Z.of_nat (ncols a) - 1 + 1)%Z a i)
          as (out & -> & Hr & Hc & Hcell).
        { apply Forall_forall. intros z Hz.
          apply in_map_iff in Hz as (y & <- & Hy). apply In_arange in Hy. lia. }
        { lia. }
        exists out; splits; auto.
        intros i' j'. rewrite Hcell.
        destruct (Nat.eqb_spec i' i); cbn [andb]; [subst i'|reflexivity].
        match goal with
        | |- (if ?b1 then _ else _) = (if ?b2 then _ else _) =>
            replace b1 with b2; [reflexivity|]
        end.
        apply eq_true_iff_eq.
        rewrite existsb_eqb_In, in_map_iff, !andb_true_iff, Z.ltb_lt,
          Z.leb_le, Nat.ltb_lt.
        split.
        -- intros [[H1 H2] H3]. exists (Z.of_nat j' - 1)%Z; split; [lia|].
           apply In_arange. lia.
        -- intros (y & Hyj & Hy). apply In_arange in Hy. lia.
      * edestruct (mark_each_in_range
                     (map (fun j => (j + 1)%Z)
                        (arange (Z.of_nat M) (Z.of_nat M + num_pixels))) a i)
          as (out & -> & Hr & Hc & Hcell).
        { apply Forall_forall. intros z Hz.
          apply in_map_iff in Hz as (y & <- & Hy). apply In_arange in Hy. lia. }
        exists out; splits; auto.
        intros i' j'. rewrite Hcell.
        destruct (Nat.eqb_spec i' i); cbn [andb]; [subst i'|reflexivity].
        match goal with
        | |- (if ?b1 then _ else _) = (if ?b2 then _ else _) =>
            replace b1 with b2; [reflexivity|]
        end.
        apply eq_true_iff_eq.
        rewrite existsb_eqb_In, in_map_iff, !andb_true_iff, Z.ltb_lt,
          Z.leb_le, Nat.ltb_lt.
        split.
        -- intros [[H1 H2] H3]. exists (Z.of_nat j' - 1)%Z; split; [lia|].
           apply In_arange. lia.
        -- intros (y & Hyj & Hy). apply In_arange in Hy. lia.
    + replace (Z.of_nat m =? 0)%Z with false by (symmetry; apply Z.eqb_neq; lia).
      replace (Z.of_nat M =? Z.of_nat (ncols a))%Z with false
        by (symmetry; apply Z.eqb_neq; lia).
      cbn [andb].
      edestruct (mark_each_in_range
                   (filter
                      (fun j => (negb (j <? 0)
                                 && negb (Z.of_nat (ncols a) <=? j))%Z%bool)
                      (arange (Z.of_nat m - num_pixels)
                         (Z.of_nat M + num_pixels + 1))) a i)
        as (out & -> & Hr & Hc & Hcell).
      { apply Forall_forall. intros z Hz. apply filter_In in Hz as [_ Hz].
        apply andb_true_iff in Hz as [H1 H2].
        apply negb_true_iff in H1, H2.
        apply Z.ltb_ge in H1. apply Z.leb_gt in H2. lia. }
      exists out; splits; auto.
      intros i' j'. rewrite Hcell.
      destruct (Nat.eqb_spec i' i); cbn [andb]; [subst i'|reflexivity].
      match goal with
      | |- (if ?b1 then _ else _) = (if ?b2 then _ else _) =>
          replace b1 with b2; [reflexivity|]
      end.
      apply eq_true_iff_eq.
      rewrite existsb_eqb_In, filter_In, In_arange, !andb_true_iff,
        !negb_true_iff, Z.ltb_ge, Z.leb_gt, !Z.leb_le, Nat.ltb_lt.
      lia.
Qed.

Lemma argwhere_row_ext (a b : farr) (k : nat) :
  ncols b = ncols a -> (forall j, cell b k j = cell a k j) ->
  argwhere_row b k = argwhere_row a k.
Proof.
  intros Hc Hcell. unfold argwhere_row. rewrite Hc.
  apply filter_ext. intros j. now rewrite Hcell.
Qed.

Lemma expanded_cell_ext (a b : farr) (num_pixels : Z) (k j : nat) :
  ncols b = ncols a -> (forall j, cell b k j = cell a k j) ->
  expanded_cell b num_pixels k j = expanded_cell a num_pixels k j.
Proof.
  intros Hc Hcell. unfold expanded_cell.
  now rewrite (argwhere_row_ext a b k Hc Hcell), Hc, Hcell.
Qed.

Lemma row_overruns_ext (a b : farr) (num_pixels : Z) (k : nat) :
  ncols b = ncols a -> (forall j, cell b k j = cell a k j) ->
  row_overruns b num_pixels k = row_overruns a num_pixels k.
Proof.
  intros Hc Hcell. unfold row_overruns.
  now rewrite (argwhere_row_ext a b k Hc Hcell), Hc.
Qed.

Lemma reached_In (a : farr) (num_pixels : Z) (rows : list nat) (i : nat) :
  reached a num_pixels rows i = true -> In i rows.
Proof.
  induction rows as [|k tl IH]; cbn [reached]; [discriminate|].
  destruct (Nat.eqb_spec k i); [now left|].
  destruct (row_overruns a num_pixels k); [discriminate|].
  intros H; right; auto.
Qed.

Lemma reached_ext (a b : farr) (num_pixels : Z) (rows : list nat) (i : nat) :
  (forall k, In k rows -> row_overruns b num_pixels k = row_overruns a num_pixels k) ->
  reached b num_pixels rows i = reached a num_pixels rows i.
Proof.
  induction rows as [|k tl IH]; intros H; cbn [reached]; [reflexivity|].
  rewrite (H k (or_introl eq_refl)), IH; [reflexivity|].
  intros k' Hk'; apply H; now right.
Qed.

Lemma expand_rows_spec (num_pixels : Z) (rows : list nat) (a : farr) :
  NoDup rows ->
  exists out,
    expand_rows a num_pixels rows =
    (out, if existsb (row_overruns a num_pixels) rows
          then Err IndexError else Ok tt)
    /\ nrows out = nrows a /\ ncols out = ncols a
    /\ forall i j,
         cell out i j =
         if reached a num_pixels rows i then expanded_cell a num_pixels i j
         else cell a i j.
Proof.
  revert a; induction rows as [|i tl IH]; intros a Hnd.
  - exists a; splits; auto.
  - inversion Hnd as [|? ? Hni Hnd']; subst.
    destruct (expand_row_spec a num_pixels i) as (o1 & H1 & Hr1 & Hc1 & Hcell1).
    cbn [expand_rows existsb reached]. rewrite H1.
    destruct (row_overruns a num_pixels i) eqn:Hover; cbn [orb].
    + exists o1; splits; auto. intros i' j. rewrite Hcell1.
      rewrite (Nat.eqb_sym i i').
      destruct (Nat.eqb_spec i' i); [now subst|reflexivity].
    + destruct (IH o1 Hnd') as (out & H2 & Hr2 & Hc2 & Hcell2).
      assert (Hsame : forall k, In k tl -> forall j, cell o1 k j = cell a k j).
      { intros k Hk j. rewrite Hcell1.
        destruct (Nat.eqb_spec k i); [subst; contradiction|reflexivity]. }
      assert (Hov : forall k, In k tl ->
                row_overruns o1 num_pixels k = row_overruns a num_pixels k).
      { intros k Hk. apply row_overruns_ext; auto. }
      exists out; splits; try congruence.
      * rewrite H2. f_equal.
        replace (existsb (row_overruns o1 num_pixels) tl)
          with (existsb (row_overruns a num_pixels) tl); [reflexivity|].
        clear - Hov. induction tl as [|k tl IH]; [reflexivity|].
        cbn [existsb]. rewrite (Hov k (or_introl eq_refl)), IH; auto.
        intros k' Hk'; apply Hov; now right.
      * intros i' j. rewrite Hcell2, (reached_ext a o1 _ _ _ Hov).
        destruct (reached a num_pixels tl i') eqn:Hreach.
        -- apply reached_In in Hreach.
           destruct (Nat.eqb_spec i i'); [subst; contradiction|].
           apply expanded_cell_ext; auto.
        -- rewrite Hcell1, (Nat.eqb_sym i i').
           destruct (Nat.eqb_spec i' i); [now subst|reflexivity].
Qed.

Lemma expand_fronts_spec (fronts : farr) (num_pixels : Z) :
  exists out,
    expand_fronts fronts num_pixels =
    (out, if existsb (row_overruns fronts num_pixels) (seq 0 (nrows fronts))
          then Err IndexError else Ok tt)
    /\ nrows out = nrows fronts /\ ncols out = ncols fronts
    /\ forall i j,
         cell out i j =
         if reached fronts num_pixels (seq 0 (nrows fronts)) i
         then expanded_cell fronts num_pixels i j
         else cell fronts i j.
Proof. apply expand_rows_spec, seq_NoDup. Qed.

Lemma row_span_or_empty (a : farr) (i : nat) :
  (forall j, (j < ncols a)%nat -> cell a i j <> front_mark)
  \/ exists m M, row_span a i m M.
Proof.
  destruct (argwhere_row a i) as [|m rest] eqn:Hind.
  - left. intros j Hj Hc.
    assert (H : In j (argwhere_row a i)) by (apply In_argwhere_row; auto).
    rewrite Hind in H. destruct H.
  - right. exists m, (last (m :: rest) 0%nat), rest. auto.
Qed.

Lemma expanded_cell_no_mark (a : farr) (num_pixels : Z) (i j : nat) :
  (forall j, (j < ncols a)%nat -> cell a i j <> front_mark) ->
  expanded_cell a num_pixels i j = cell a i j
  /\ row_overruns a num_pixels i = false.
Proof.
  intros Hno. unfold expanded_cell, row_overruns.
  destruct (argwhere_row a i) as [|m rest] eqn:Hind; [auto|].
  assert (H : In m (argwhere_row a i)) by (rewrite Hind; now left).
  apply In_argwhere_row in H as [H1 H2]. now apply Hno in H2.
Qed.

Lemma expanded_cell_span (a : farr) (num_pixels : Z) (i j m M : nat) :
  row_span a i m M ->
  expanded_cell a num_pixels i j =
  (if ((if (m =? 0)%nat
        then ((Z.of_nat M <? Z.of_nat j)
              && (Z.of_nat j <=? Z.of_nat M + num_pixels))%Z%bool
        else ((Z.of_nat m - num_pixels <=? Z.of_nat j)
              && (Z.of_nat j <=? Z.of_nat M + num_pixels))%Z%bool)
       && (j <? ncols a)%nat)%bool
   then front_mark else cell a i j)
  /\ row_overruns a num_pixels i =
     ((m =? 0)%nat && (Z.of_nat (ncols a) <=? Z.of_nat M + num_pixels)%Z)%bool.
Proof.
  intros (rest & Hind & Hlast). unfold expanded_cell, row_overruns.
  rewrite Hind, Hlast. auto.
Qed.

Lemma row_overruns_iff (a : farr) (num_pixels : Z) (i : nat) :
  row_overruns a num_pixels i = true <->
  exists M, (M < ncols a)%nat /\ cell a i 0 = front_mark
            /\ cell a i M = front_mark
            /\ (Z.of_nat (ncols a) <= Z.of_nat M + num_pixels)%Z.
Proof.
  destruct (row_span_or_empty a i) as [Hno | (m & M & Hspan)].
  - rewrite (proj2 (expanded_cell_no_mark a num_pixels i 0 Hno)).
    split; [discriminate|]. intros (M & HM & _ & Hc & _).
    now apply Hno in Hc.
  - rewrite (proj2 (expanded_cell_span a num_pixels i 0 m M Hspan)).
    apply row_span_spec in Hspan as (HmM & HM & Hm & HMm & Hall).
    rewrite andb_true_iff, Nat.eqb_eq, Z.leb_le. split.
    + intros [-> Hov]. exists M; auto.
    + intros (M' & HM' & H0 & Hc & Hov).
      pose proof (Hall 0%nat ltac:(lia) H0).
      pose proof (Hall M' HM' Hc). lia.
Qed.

Lemma reached_all (a : farr) (num_pixels : Z) (rows : list nat) (i : nat) :
  (forall k, In k rows -> row_overruns a num_pixels k = false) ->
  In i rows -> reached a num_pixels rows i = true.
Proof.
  induction rows as [|k tl IH]; intros Hno Hin; [destruct Hin|].
  cbn [reached]. destruct (Nat.eqb_spec k i); [reflexivity|].
  rewrite (Hno k (or_introl eq_refl)). apply IH.
  - intros k' Hk'; apply Hno; now right.
  - destruct Hin; [contradiction|assumption].
Qed.

Lemma existsb_false {A : Type} (p : A -> bool) (l : list A) :
  (forall x, In x l -> p x = false) -> existsb p l = false.
Proof.
  intros H. destruct (existsb p l) eqn:E; [|reflexivity].
  apply existsb_exists in E as (x & Hx & Hp). now rewrite (H x Hx) in Hp.
Qed.

Lemma front_mark_dec (c : fval) : c = front_mark \/ c <> front_mark.
Proof.
  destruct (feq c front_mark) eqn:E.
  - left. now apply feq_mark.
  - right. intros H. apply feq_mark in H. congruence.
Qed.

(** X1: [expand_fronts] returns or raises [IndexError], nothing else.  In both
    cases the array it leaves behind has the shape of the input, and every
    cell either keeps its value or holds the front mark [-10]: the function
    only ever adds marks. *)
Theorem expand_fronts_only_adds_marks (fronts : farr) (num_pixels : Z) :
  exists out r,
    expand_fronts fronts num_pixels = (out, r)
    /\ (r = Ok tt \/ r = Err IndexError)
    /\ nrows out = nrows fronts /\ ncols out = ncols fronts
    /\ forall i j,
         cell out i j = cell fronts i j \/ cell out i j = front_mark.
Proof.
  destruct (expand_fronts_spec fronts num_pixels)
    as (out & Hrun & Hr & Hc & Hcell).
  eexists out, _; splits; [exact Hrun| |exact Hr|exact Hc|].
  - destruct (existsb _ _); auto.
  - intros i j. rewrite Hcell.
    destruct (reached _ _ _ i); [|now left].
    unfold expanded_cell. destruct (argwhere_row fronts i); [now left|].
    match goal with |- context [if ?b then _ else _] => destruct b end; auto.
Qed.

(** X2: [expand_fronts] raises [IndexError] exactly when some row has the
    mark in column 0 and a mark in a column [M] with [M + num_pixels] at or
    beyond the number of columns (the write to column [j + 1] leaves the
    row); in every other case it returns. *)
Theorem expand_fronts_raises_iff (fronts : farr) (num_pixels : Z) :
  (snd (expand_fronts fronts num_pixels) = Err IndexError <->
   exists i M,
     (i < nrows fronts)%nat /\ (M < ncols fronts)%nat
     /\ cell fronts i 0 = front_mark /\ cell fronts i M = front_mark
     /\ (Z.of_nat (ncols fronts) <= Z.of_nat M + num_pixels)%Z)
  /\ (snd (expand_fronts fronts num_pixels) = Ok tt
      \/ snd (expand_fronts fronts num_pixels) = Err IndexError).
Proof.
  destruct (expand_fronts_spec fronts num_pixels) as (out & -> & _).
  cbn [snd]. split.
  - destruct (existsb _ _) eqn:E.
    + split; [intros _|reflexivity].
      apply existsb_exists in E as (i & Hi & Hov).
      apply in_seq in Hi. apply row_overruns_iff in Hov as (M & H).
      exists i, M. intuition.
    + split; [discriminate|]. intros (i & M & Hi & H).
      assert (Hov : row_overruns fronts num_pixels i = true)
        by (apply row_overruns_iff; exists M; exact H).
      assert (Hex : existsb (row_overruns fronts num_pixels)
                      (seq 0 (nrows fronts)) = true).
      { apply existsb_exists. exists i; split; [apply in_seq; lia|exact Hov]. }
      congruence.
  - destruct (existsb _ _); auto.
Qed.

(** X3: when no row has the mark in column 0, [expand_fronts] returns, and
    a cell holds the mark afterwards exactly when it held it before or lies
    between [a - num_pixels] and [b + num_pixels] for two marked columns [a]
    and [b] of its row; every cell without the mark is unchanged. *)
Theorem expand_fronts_away_from_left_edge (fronts : farr) (num_pixels : Z) :
  (forall i, (i < nrows fronts)%nat -> cell fronts i 0 <> front_mark) ->
  exists out,
    expand_fronts fronts num_pixels = (out, Ok tt)
    /\ nrows out = nrows fronts /\ ncols out = ncols fronts
    /\ forall i j, (i < nrows fronts)%nat -> (j < ncols fronts)%nat ->
         (cell out i j = front_mark <->
          cell fronts i j = front_mark
          \/ exists a b,
               (a < ncols fronts)%nat /\ (b < ncols fronts)%nat
               /\ cell fronts i a = front_mark /\ cell fronts i b = front_mark
               /\ (Z.of_nat a - num_pixels <= Z.of_nat j
                   <= Z.of_nat b + num_pixels)%Z)
         /\ (cell out i j <> front_mark -> cell out i j = cell fronts i j).
Proof.
  intros Hedge.
  destruct (expand_fronts_spec fronts num_pixels)
    as (out & Hrun & Hr & Hc & Hcell).
  assert (Hno : forall k, In k (seq 0 (nrows fronts)) ->
            row_overruns fronts num_pixels k = false).
  { intros k Hk. apply in_seq in Hk.
    destruct (row_overruns fronts num_pixels k) eqn:E; [|reflexivity].
    apply row_overruns_iff in E as (M & _ & H0 & _).
    exfalso. apply (Hedge k); [lia|exact H0]. }
  rewrite (existsb_false _ _ Hno) in Hrun.
  exists out; splits; auto.
  intros i j Hi Hj. rewrite Hcell.
  rewrite (reached_all _ _ _ i Hno) by (apply in_seq; lia).
  destruct (row_span_or_empty fronts i) as [Hnone | (m & M & Hspan)].
  - rewrite (proj1 (expanded_cell_no_mark fronts num_pixels i j Hnone)).
    split; [|auto]. split; [auto|].
    intros [H | (a & b & Ha & _ & Hca & _)]; [exact H|].
    now apply Hnone in Hca.
  - rewrite (proj1 (expanded_cell_span fronts num_pixels i j m M Hspan)).
    apply row_span_spec in Hspan as (HmM & HM & Hm & HMm & Hall).
    assert (Hm0 : m <> 0%nat).
    { intros ->. now apply (Hedge i Hi). }
    replace (m =? 0)%nat with false by (symmetry; apply Nat.eqb_neq; lia).
    replace (j <? ncols fronts)%nat with true
      by (symmetry; apply Nat.ltb_lt; lia).
    rewrite andb_true_r.
    destruct ((Z.of_nat m - num_pixels <=? Z.of_nat j)
              && (Z.of_nat j <=? Z.of_nat M + num_pixels))%Z%bool eqn:Hhit.
    + apply andb_true_iff in Hhit as [H1 H2].
      apply Z.leb_le in H1, H2.
      split; [|congruence]. split; [|reflexivity].
      intros _. right. exists m, M. splits; auto; lia.
    + split; [|auto]. split; [auto|].
      intros [H | (a & b & Ha & Hb & Hca & Hcb & Hwin)]; [exact H|].
      pose proof (Hall a Ha Hca). pose proof (Hall b Hb Hcb).
      apply andb_false_iff in Hhit as [H1 | H1];
        [apply Z.leb_gt in H1 | apply Z.leb_gt in H1]; lia.
Qed.

Lemma expand_fronts_away_from_left_edge_witness :
  exists out,
    expand_fronts (of_rows [[Fin 0; Fin 0; front_mark; Fin 0]]) 1
    = (out, Ok tt)
    /\ cell out 0 1 = front_mark.
Proof.
  destruct (expand_fronts_away_from_left_edge
              (of_rows [[Fin 0; Fin 0; front_mark; Fin 0]]) 1)
    as (out & Hrun & _ & _ & Hcell).
  - intros i Hi. simpl in Hi.
    destruct i; [|lia]. simpl. unfold front_mark. intros [= H]. lra.
  - exists out; split; [exact Hrun|].
    apply (proj1 (Hcell 0%nat 1%nat ltac:(simpl; lia) ltac:(simpl; lia))).
    right. exists 2%nat, 2%nat. simpl. splits; auto; lia.
Defined.

Lemma reached_first (a : farr) (num_pixels : Z) (n s i : nat) :
  (s <= i < s + n)%nat ->
  (forall k, (s <= k < i)%nat -> row_overruns a num_pixels k = false) ->
  reached a num_pixels (seq s n) i = true.
Proof.
  revert s; induction n as [|n IH]; intros s Hi Hno; [lia|].
  cbn [seq reached]. destruct (Nat.eqb_spec s i); [reflexivity|].
  rewrite Hno by lia. apply IH; [lia|]. intros k Hk; apply Hno; lia.
Qed.

Lemma reached_after (a : farr) (num_pixels : Z) (n s i k : nat) :
  (s <= i < s + n)%nat -> (i < k)%nat ->
  row_overruns a num_pixels i = true ->
  reached a num_pixels (seq s n) k = false.
Proof.
  revert s; induction n as [|n IH]; intros s Hi Hk Hov; [lia|].
  cbn [seq reached]. destruct (Nat.eqb_spec s k); [lia|].
  destruct (Nat.eq_dec s i) as [-> | Hsi]; [now rewrite Hov|].
  destruct (row_overruns a num_pixels s); [reflexivity|].
  apply IH; auto; lia.
Qed.

(** X4: after a call that returned, in a row whose first mark is in
    column 0 and whose last mark is in column [M], [M + num_pixels] is below
    the number of columns, and the cells that hold the mark are the ones that
    held it before and the columns [M + 1] to [M + num_pixels]: the row is
    extended to the right only, and gaps between its old marks are not
    filled. *)
Theorem expand_fronts_left_edge_row
    (fronts out : farr) (num_pixels : Z) (i M : nat) :
  expand_fronts fronts num_pixels = (out, Ok tt) ->
  (i < nrows fronts)%nat ->
  row_span fronts i 0 M ->
  (Z.of_nat M + num_pixels < Z.of_nat (ncols fronts))%Z
  /\ forall j, (j < ncols fronts)%nat ->
       (cell out i j = front_mark <->
        cell fronts i j = front_mark
        \/ (Z.of_nat M < Z.of_nat j <= Z.of_nat M + num_pixels)%Z)
       /\ (cell out i j <> front_mark -> cell out i j = cell fronts i j).
Proof.
  intros Hrun Hi Hspan.
  destruct (expand_fronts_spec fronts num_pixels)
    as (out' & Hrun' & Hr & Hc & Hcell).
  rewrite Hrun in Hrun'. injection Hrun' as <- Hok.
  destruct (existsb _ _) eqn:Hex; [discriminate|].
  assert (Hno : forall k, In k (seq 0 (nrows fronts)) ->
            row_overruns fronts num_pixels k = false).
  { intros k Hk. destruct (row_overruns fronts num_pixels k) eqn:E; auto.
    assert (existsb (row_overruns fronts num_pixels)
              (seq 0 (nrows fronts)) = true)
      by (apply existsb_exists; eauto).
    congruence. }
  pose proof (Hno i ltac:(apply in_seq; lia)) as Hnoi.
  rewrite (proj2 (expanded_cell_span fronts num_pixels i 0 0 M Hspan)) in Hnoi.
  cbn [Nat.eqb andb] in Hnoi. apply Z.leb_gt in Hnoi.
  split; [exact Hnoi|].
  intros j Hj. rewrite Hcell.
  rewrite (reached_all _ _ _ i Hno) by (apply in_seq; lia).
  rewrite (proj1 (expanded_cell_span fronts num_pixels i j 0 M Hspan)).
  cbn [Nat.eqb].
  replace (j <? ncols fronts)%nat with true
    by (symmetry; apply Nat.ltb_lt; lia).
  rewrite andb_true_r.
  destruct ((Z.of_nat M <? Z.of_nat j)
            && (Z.of_nat j <=? Z.of_nat M + num_pixels))%Z%bool eqn:Hhit.
  - apply andb_true_iff in Hhit as [H1 H2].
    apply Z.ltb_lt in H1. apply Z.leb_le in H2.
    split; [|congruence]. split; [|reflexivity]. intros _. right. lia.
  - split; [|auto]. split; [auto|]. intros [H | H]; [exact H|].
    apply andb_false_iff in Hhit as [H1 | H1];
      [apply Z.ltb_ge in H1 | apply Z.leb_gt in H1]; lia.
Qed.

(** X5: if the first row with a mark in column 0 has its last mark in a
    column [M] with [M + num_pixels] at or beyond the number of columns,
    [expand_fronts] raises [IndexError] after having marked that row from
    column [M + 1] to the right end; the columns up to [M] of that row and
    all later rows are left as they were. *)
Theorem expand_fronts_stops_at_overrun
    (fronts : farr) (num_pixels : Z) (i M : nat) :
  (i < nrows fronts)%nat ->
  row_span fronts i 0 M ->
  (Z.of_nat (ncols fronts) <= Z.of_nat M + num_pixels)%Z ->
  (forall k, (k < i)%nat -> cell fronts k 0 <> front_mark) ->
  exists out,
    expand_fronts fronts num_pixels = (out, Err IndexError)
    /\ (forall j, (M < j < ncols fronts)%nat -> cell out i j = front_mark)
    /\ (forall j, (j <= M)%nat -> cell out i j = cell fronts i j)
    /\ (forall k j, (i < k)%nat -> cell out k j = cell fronts k j).
Proof.
  intros Hi Hspan Hover Hbefore.
  destruct (expand_fronts_spec fronts num_pixels)
    as (out & Hrun & Hr & Hc & Hcell).
  assert (Hovi : row_overruns fronts num_pixels i = true).
  { rewrite (proj2 (expanded_cell_span fronts num_pixels i 0 0 M Hspan)).
    cbn [Nat.eqb andb]. apply Z.leb_le. exact Hover. }
  assert (Hex : existsb (row_overruns fronts num_pixels)
                  (seq 0 (nrows fronts)) = true).
  { apply existsb_exists. exists i; split; [apply in_seq; lia|exact Hovi]. }
  rewrite Hex in Hrun.
  assert (Hreach : reached fronts num_pixels (seq 0 (nrows fronts)) i = true).
  { apply reached_first; [lia|]. intros k Hk.
    destruct (row_overruns fronts num_pixels k) eqn:E; [|reflexivity].
    apply row_overruns_iff in E as (M' & _ & H0 & _).
    exfalso. apply (Hbefore k); [lia|exact H0]. }
  exists out; splits; auto.
  - intros j Hj. rewrite Hcell, Hreach.
    rewrite (proj1 (expanded_cell_span fronts num_pixels i j 0 M Hspan)).
    cbn [Nat.eqb].
    replace (Z.of_nat M <? Z.of_nat j)%Z with true
      by (symmetry; apply Z.ltb_lt; lia).
    replace (Z.of_nat j <=? Z.of_nat M + num_pixels)%Z with true
      by (symmetry; apply Z.leb_le; lia).
    replace (j <? ncols fronts)%nat with true
      by (symmetry; apply Nat.ltb_lt; lia).
    reflexivity.
  - intros j Hj. rewrite Hcell, Hreach.
    rewrite (proj1 (expanded_cell_span fronts num_pixels i j 0 M Hspan)).
    cbn [Nat.eqb].
    replace (Z.of_nat M <? Z.of_nat j)%Z with false
      by (symmetry; apply Z.ltb_ge; lia).
    reflexivity.
  - intros k j Hk. rewrite Hcell.
    now rewrite (reached_after fronts num_pixels (nrows fronts) 0 i k)
      by (auto; lia).
Qed.

Lemma ex_left_edge_span :
  row_span (of_rows [[front_mark; Fin 0; Fin 0]]) 0 0 0.
Proof.
  apply row_span_spec. splits; try reflexivity; try (simpl; lia).
  intros j Hj Hc. simpl in Hj.
  destruct j as [|[|[|j]]]; try lia; simpl in Hc;
    unfold front_mark in Hc; injection Hc as Hc; lra.
Qed.

Lemma expand_fronts_left_edge_row_witness :
  exists out,
    expand_fronts (of_rows [[front_mark; Fin 0; Fin 0]]) 1 = (out, Ok tt)
    /\ cell out 0 1 = front_mark /\ cell out 0 2 = Fin 0.
Proof.
  destruct (expand_fronts_spec (of_rows [[front_mark; Fin 0; Fin 0]]) 1)
    as (out & Hrun & _).
  assert (E : existsb (row_overruns (of_rows [[front_mark; Fin 0; Fin 0]]) 1)
                 (seq 0 (nrows (of_rows [[front_mark; Fin 0; Fin 0]])))
               = false).
  { cbn [of_rows nrows length seq existsb].
    rewrite (proj2 (expanded_cell_span _ 1 0 0 0 0 ex_left_edge_span)).
    reflexivity. }
  rewrite E in Hrun.
  destruct (expand_fronts_left_edge_row _ out 1 0 0 Hrun
              ltac:(simpl; lia) ex_left_edge_span) as [_ Hcell].
  exists out; split; [exact Hrun|]. split.
  - apply (proj1 (Hcell 1%nat ltac:(simpl; lia))). right. lia.
  - destruct (front_mark_dec (cell out 0 2)) as [Hm | Hm].
    + apply (proj1 (Hcell 2%nat ltac:(simpl; lia))) in Hm as [Hm | Hm].
      * simpl in Hm. unfold front_mark in Hm. injection Hm as Hm. lra.
      * lia.
    + apply (proj2 (Hcell 2%nat ltac:(simpl; lia))) in Hm. exact Hm.
Defined.

Lemma expand_fronts_stops_at_overrun_witness :
  exists out,
    expand_fronts (of_rows [[front_mark; Fin 0; Fin 0]]) 3
    = (out, Err IndexError)
    /\ cell out 0 1 = front_mark /\ cell out 0 2 = front_mark.
Proof.
  destruct (expand_fronts_stops_at_overrun
              (of_rows [[front_mark; Fin 0; Fin 0]]) 3 0 0
              ltac:(simpl; lia) ex_left_edge_span ltac:(simpl; lia)
              ltac:(intros k Hk; lia))
    as (out & Hrun & Hright & _).
  exists out; split; [exact Hrun|].
  split; apply Hright; simpl; lia.
Defined.

Lemma cdt_pointwise (lat lon centerLat centerLon out : farr) :
  compute_dist_from_cdt lat lon centerLat centerLon = Ok out ->
  forall i j,
    rd out i j =
    haversine_cell (rd lat i j) (rd lon i j)
      (rd centerLat i j) (rd centerLon i j).
Proof.
  unfold compute_dist_from_cdt; intros H i j. inv_np.
  rd_unfold. reflexivity.
Qed.

Lemma cdt_inputs_fit (lat lon centerLat centerLon out : farr) :
  compute_dist_from_cdt lat lon centerLat centerLon = Ok out ->
  fits lat out /\ fits lon out /\ fits centerLat out /\ fits centerLon out.
Proof.
  unfold compute_dist_from_cdt; intros H. inv_np.
  splits; fits_up 14%nat.
Qed.

Lemma cdt_returns (L lat lon centerLat centerLon : farr) :
  fits lat L -> fits lon L -> fits centerLat L -> fits centerLon L ->
  okfit L (compute_dist_from_cdt lat lon centerLat centerLon).
Proof.
  intros H0 H1 H2 H3; unfold compute_dist_from_cdt.
  repeat match goal with
  | |- okfit _ (bind ?e _) =>
      let Hc := fresh "Hc" in
      assert (Hc : okfit L e)
        by (unfold np_sin, np_cos, np_square, np_sqrt, np_arctan2;
            repeat first [apply okfit_lift2 | apply okfit_lift1];
            auto 8 with bcast);
      let x := fresh "x" in
      destruct Hc as (x & -> & Hc); cbn [bind]
  end.
  apply okfit_lift2; auto with bcast.
Qed.

(** ** The haversine formula *)

(** Twice the angle whose sine and cosine are the square roots of [a] and
    [1 - a] is the angle whose cosine is [1 - 2 a]. *)
Lemma hav_angle (a : R) :
  (0 <= a <= 1)%R ->
  (2 * Ratan2 (sqrt a) (sqrt (1 - a)) = acos (1 - 2 * a))%R.
Proof.
  intros Ha.
  set (t := acos (1 - 2 * a)).
  pose proof (acos_bound (1 - 2 * a)) as Ht. fold t in Ht.
  assert (Hcos : cos t = (1 - 2 * a)%R) by (apply cos_acos; lra).
  set (h := (t / 2)%R).
  assert (Hth : t = (2 * h)%R) by (unfold h; lra).
  assert (Hh : (0 <= h <= PI / 2)%R) by (unfold h; lra).
  assert (Hs2 : (sin h * sin h = a)%R).
  { pose proof (cos_2a_sin h) as E. rewrite <- Hth, Hcos in E. lra. }
  assert (Hc2 : (cos h * cos h = 1 - a)%R).
  { pose proof (cos_2a_cos h) as E. rewrite <- Hth, Hcos in E. lra. }
  assert (Hs : (0 <= sin h)%R) by (apply sin_ge_0; lra).
  assert (Hc : (0 <= cos h)%R) by (apply cos_ge_0; lra).
  assert (Hsa : sqrt a = sin h).
  { rewrite <- Hs2. now apply sqrt_square. }
  assert (Hca : sqrt (1 - a) = cos h).
  { rewrite <- Hc2. now apply sqrt_square. }
  rewrite Hsa, Hca. unfold Ratan2.
  destruct (Rltb 0 (cos h)) eqn:E0.
  - apply Rltb_true in E0.
    assert (Hlt : (h < PI / 2)%R).
    { destruct (Rle_lt_or_eq_dec _ _ (proj2 Hh)) as [H | H]; [exact H|].
      rewrite H, cos_PI2 in E0. lra. }
    change (sin h / cos h)%R with (tan h).
    rewrite atan_tan by lra. lra.
  - apply Rltb_false in E0.
    assert (Hc0 : cos h = 0%R) by lra.
    replace (Rltb (cos h) 0) with false by (symmetry; apply Rltb_false; lra).
    assert (Ha1 : a = 1%R) by (rewrite Hc0 in Hc2; lra).
    assert (Hs1 : sin h = 1%R) by nra.
    replace (Rltb 0 (sin h)) with true by (symmetry; apply Rltb_true; lra).
    subst t. rewrite Ha1.
    replace (1 - 2 * 1)%R with (- (1))%R by lra.
    rewrite acos_opp, acos_1. lra.
Qed.

(** The cosine of the angle between two points on the sphere is a cosine. *)
Lemma cosc_bound (p q d : R) :
  (-1 <= sin p * sin q + cos p * cos q * cos d <= 1)%R.
Proof.
  pose proof (COS_bound (p - q)) as H1. rewrite cos_minus in H1.
  pose proof (COS_bound (p + q)) as H2. rewrite cos_plus in H2.
  pose proof (COS_bound d) as H3.
  split; nra.
Qed.

Lemma half_angle (x : R) : (1 - 2 * (sin (x / 2) * sin (x / 2)) = cos x)%R.
Proof.
  pose proof (cos_2a_sin (x / 2)) as E.
  replace (2 * (x / 2))%R with x in E by lra. lra.
Qed.

Lemma radians_fin (x : R) : radians (Fin x) = Fin (x * PI / 180).
Proof.
  unfold radians; simpl.
  now replace (Reqb 180 0) with false by (symmetry; apply Reqb_false; lra).
Qed.

Lemma cosc_cell_fin (p l pc lc : R) :
  cosc_cell (Fin p) (Fin l) (Fin pc) (Fin lc) =
  Fin (sin (p * PI / 180) * sin (pc * PI / 180)
       + cos (p * PI / 180) * cos (pc * PI / 180)
         * cos (PI / 180 * (lc + - l))).
Proof. unfold cosc_cell. rewrite !radians_fin. reflexivity. Qed.

Lemma haversine_a_fin (p l pc lc : R) :
  exists a,
    haversine_a (Fin p) (Fin l) (Fin pc) (Fin lc) = Fin a
    /\ (0 <= a <= 1)%R
    /\ cosc_cell (Fin p) (Fin l) (Fin pc) (Fin lc) = Fin (1 - 2 * a).
Proof.
  unfold haversine_a. rewrite !radians_fin, cosc_cell_fin. simpl.
  replace (Reqb 2 0) with false by (symmetry; apply Reqb_false; lra).
  eexists; split; [reflexivity|].
  set (P := (p * PI / 180)%R). set (Q := (pc * PI / 180)%R).
  set (D := (l * PI / 180 + - (lc * PI / 180))%R).
  replace (PI / 180 * (lc + - l))%R with (- D)%R by (unfold D; lra).
  rewrite cos_neg.
  pose proof (half_angle (P + - Q)) as E1.
  pose proof (half_angle D) as E2.
  replace (P + - Q)%R with (P - Q)%R in E1 |- * by lra.
  rewrite cos_minus in E1.
  assert (E : (1 - 2 * (sin ((P - Q) / 2) * sin ((P - Q) / 2)
                        + cos P * cos Q * (sin (D / 2) * sin (D / 2)))
               = sin P * sin Q + cos P * cos Q * cos D)%R) by nra.
  pose proof (cosc_bound P Q D) as Hb.
  split; [lra|]. f_equal. lra.
Qed.

Lemma dist_cell_fin (p l pc lc c : R) :
  cosc_cell (Fin p) (Fin l) (Fin pc) (Fin lc) = Fin c ->
  (-1 <= c <= 1)%R ->
  dist_cell (Fin p) (Fin l) (Fin pc) (Fin lc) = Fin (acos c * R_earth).
Proof.
  intros Hc Hb. unfold dist_cell. rewrite Hc.
  unfold clip_cell, flt, fgt, flt.
  replace (Rltb c (-1)) with false by (symmetry; apply Rltb_false; lra).
  replace (Rltb 1 c) with false by (symmetry; apply Rltb_false; lra).
  unfold farccos.
  replace (Rltb c (-1)) with false by (symmetry; apply Rltb_false; lra).
  replace (Rltb 1 c) with false by (symmetry; apply Rltb_false; lra).
  reflexivity.
Qed.

Lemma haversine_cell_fin (p l pc lc a : R) :
  haversine_a (Fin p) (Fin l) (Fin pc) (Fin lc) = Fin a ->
  (0 <= a <= 1)%R ->
  haversine_cell (Fin p) (Fin l) (Fin pc) (Fin lc)
  = Fin (mean_radius_earth * acos (1 - 2 * a)).
Proof.
  intros Ha Hb. unfold haversine_cell. rewrite Ha. simpl.
  replace (Rltb a 0) with false by (symmetry; apply Rltb_false; lra).
  replace (Rltb (1 + - a) 0) with false by (symmetry; apply Rltb_false; lra).
  simpl. f_equal.
  replace (1 + - a)%R with (1 - a)%R by lra.
  pose proof (hav_angle a Hb). nra.
Qed.

(** X6: [compute_dist_from_cdt] gives the distance 0 at every cell whose
    finite latitude and longitude are those of the centre. *)
Theorem haversine_self_distance_zero
    (lat lon centerLat centerLon out : farr) (i j : nat) (phi lam : R) :
  compute_dist_from_cdt lat lon centerLat centerLon = Ok out ->
  rd lat i j = Fin phi -> rd centerLat i j = Fin phi ->
  rd lon i j = Fin lam -> rd centerLon i j = Fin lam ->
  rd out i j = Fin 0.
Proof.
  intros Hrun H1 H2 H3 H4.
  rewrite (cdt_pointwise _ _ _ _ _ Hrun), H1, H2, H3, H4.
  destruct (haversine_a_fin phi lam phi lam) as (a & Ha & Hb & Hc).
  rewrite cosc_cell_self in Hc. injection Hc as Hc.
  rewrite (haversine_cell_fin _ _ _ _ a Ha Hb).
  replace (1 - 2 * a)%R with 1%R by lra. rewrite acos_1. f_equal; lra.
Qed.

Lemma haversine_self_distance_zero_witness :
  exists out,
    compute_dist_from_cdt (of_rows [[Fin 45; Fin 46]])
      (of_rows [[Fin 10; Fin 10]]) (of_rows [[Fin 46]]) (of_rows [[Fin 10]])
    = Ok out
    /\ rd out 0 1 = Fin 0.
Proof.
  destruct (cdt_returns (of_rows [[Fin 45; Fin 46]])
              (of_rows [[Fin 45; Fin 46]]) (of_rows [[Fin 10; Fin 10]])
              (of_rows [[Fin 46]]) (of_rows [[Fin 10]]))
    as (out & Hrun & _);
    try (split; simpl; auto).
  exists out; split; [exact Hrun|].
  apply (haversine_self_distance_zero _ _ _ _ out 0 1 46 10 Hrun);
    reflexivity.
Defined.

(** X7: whenever [compute_dist_from_cdt] returns, [dist_between_grids]
    returns on the same arguments with a result of the same shape, and at
    every cell with finite coordinates the two results are one central angle
    in [[0, PI]] times the radius of each function (6371 km for the
    haversine formula, 6378206.4 m for the arc-cosine formula); cells are
    exact reals. *)
Theorem haversine_agrees_with_dist_between_grids
    (lat lon centerLat centerLon d : farr) :
  compute_dist_from_cdt lat lon centerLat centerLon = Ok d ->
  exists g,
    dist_between_grids lat lon centerLat centerLon = Ok g
    /\ nrows g = nrows d /\ ncols g = ncols d
    /\ forall i j phi lam phic lamc,
         rd lat i j = Fin phi -> rd lon i j = Fin lam ->
         rd centerLat i j = Fin phic -> rd centerLon i j = Fin lamc ->
         exists angle,
           (0 <= angle <= PI)%R
           /\ rd d i j = Fin (mean_radius_earth * angle)
           /\ rd g i j = Fin (angle * R_earth).
Proof.
  intros Hd.
  destruct (cdt_inputs_fit _ _ _ _ _ Hd) as (F1 & F2 & F3 & F4).
  destruct (dist_returns d lat lon centerLat centerLon F1 F2 F3 F4)
    as (g & Hg & Fgd).
  destruct (dist_inputs_fit _ _ _ _ _ Hg) as (G1 & G2 & G3 & G4).
  destruct (cdt_returns g lat lon centerLat centerLon G1 G2 G3 G4)
    as (d' & Hd' & Fdg).
  rewrite Hd in Hd'. injection Hd' as <-.
  destruct (fits_antisym g d Fgd Fdg) as [Hr Hc].
  exists g; splits; auto.
  intros i j phi lam phic lamc H1 H2 H3 H4.
  rewrite (cdt_pointwise _ _ _ _ _ Hd), (dist_pointwise _ _ _ _ _ Hg),
    H1, H2, H3, H4.
  destruct (haversine_a_fin phi lam phic lamc) as (a & Ha & Hb & Hc').
  exists (acos (1 - 2 * a)). split; [apply acos_bound|]. split.
  - now apply haversine_cell_fin.
  - apply dist_cell_fin; [exact Hc'|lra].
Qed.

Lemma haversine_agrees_with_dist_between_grids_witness :
  exists d g,
    compute_dist_from_cdt (of_rows [[Fin 45; Fin 46]])
      (of_rows [[Fin 10; Fin 10]]) (of_rows [[Fin 46]]) (of_rows [[Fin 10]])
    = Ok d
    /\ dist_between_grids (of_rows [[Fin 45; Fin 46]])
         (of_rows [[Fin 10; Fin 10]]) (of_rows [[Fin 46]])
         (of_rows [[Fin 10]]) = Ok g
    /\ shape g = shape d.
Proof.
  destruct (cdt_returns (of_rows [[Fin 45; Fin 46]])
              (of_rows [[Fin 45; Fin 46]]) (of_rows [[Fin 10; Fin 10]])
              (of_rows [[Fin 46]]) (of_rows [[Fin 10]]))
    as (d & Hrun & _);
    try (split; simpl; auto).
  destruct (haversine_agrees_with_dist_between_grids _ _ _ _ d Hrun)
    as (g & Hg & Hr & Hc & _).
  exists d, g; splits; auto. unfold shape. now rewrite Hr, Hc.
Defined.

(** ** The order of float cells *)

Lemma fge_not_nan (a b : fval) : fge a b = true -> a <> NaN /\ b <> NaN.
Proof. destruct a, b; simpl; try discriminate; split; discriminate. Qed.

Lemma not_fge_flt (x m : fval) :
  fge x m = false -> x <> NaN -> m <> NaN -> flt x m = true.
Proof.
  unfold fge. destruct x, m; simpl; try congruence; intros H _ _;
    try discriminate.
  apply orb_false_iff in H as [H1 H2].
  apply Rltb_false in H1. apply Reqb_false in H2. apply Rltb_true. lra.
Qed.

Lemma flt_fge (x y : fval) : flt x y = true -> fge y x = true.
Proof. unfold fge. intros ->. reflexivity. Qed.

Lemma flt_fge_trans (x m y : fval) :
  flt x m = true -> fge y m = true -> flt x y = true.
Proof.
  unfold fge. destruct x, m, y; simpl; try discriminate; auto.
  intros H1 H2. apply Rltb_true in H1. apply orb_true_iff in H2 as [H2 | H2];
    [apply Rltb_true in H2 | apply Reqb_true in H2]; apply Rltb_true; lra.
Qed.

Lemma fge_trans (x m y : fval) :
  fge x m = true -> fge m y = true -> fge x y = true.
Proof.
  unfold fge. destruct x, m, y; simpl; try discriminate; auto.
  intros H1 H2.
  apply orb_true_iff in H1 as [H1 | H1];
    [apply Rltb_true in H1 | apply Reqb_true in H1];
  apply orb_true_iff in H2 as [H2 | H2];
    [apply Rltb_true in H2 | apply Reqb_true in H2
    |apply Rltb_true in H2 | apply Reqb_true in H2];
  apply orb_true_iff;
  first [left; apply Rltb_true; lra | right; apply Reqb_true; lra].
Qed.

Lemma fge_refl (x : fval) : x <> NaN -> fge x x = true.
Proof.
  unfold fge. destruct x; simpl; try congruence; auto.
  intros _. apply orb_true_iff. right. now apply Reqb_true.
Qed.

Lemma isnan_true (x : fval) : isnan x = true <-> x = NaN.
Proof. destruct x; simpl; split; congruence. Qed.

(** ** The scan of [argmin] *)


Lemma argmin_scan_spec (l pre : list fval) (mp : fval) (mi : nat) :
  (mi < length pre)%nat -> nth mi pre NaN = mp ->
  ((mp = NaN /\ forall t, (t < mi)%nat -> nth t pre NaN <> NaN)
   \/ ((forall t, (t < length pre)%nat -> fge (nth t pre NaN) mp = true)
       /\ forall t, (t < mi)%nat -> flt mp (nth t pre NaN) = true)) ->
  is_argmin (pre ++ l) (argmin_scan mp mi (length pre) l).
Proof.
  revert pre mp mi; induction l as [|x tl IH]; intros pre mp mi Hmi Hmp Hinv.
  - cbn [argmin_scan]. rewrite app_nil_r. split; [exact Hmi|].
    rewrite Hmp. exact Hinv.
  - cbn [argmin_scan].
    destruct (isnan mp) eqn:Hnan.
    + apply isnan_true in Hnan. split; [rewrite length_app; lia|].
      left. rewrite app_nth1 by lia. split; [congruence|].
      intros t Ht. rewrite app_nth1 by lia.
      destruct Hinv as [[_ H] | [H _]]; [now apply H|].
      specialize (H mi Hmi). apply fge_not_nan in H as [_ H]. congruence.
    + assert (Hmpn : mp <> NaN) by (intros ->; discriminate).
      destruct Hinv as [[H _] | [Hge Hlt]]; [congruence|].
      replace (pre ++ x :: tl) with ((pre ++ [x]) ++ tl)
        by (now rewrite <- app_assoc).
      replace (S (length pre)) with (length (pre ++ [x]))
        by (rewrite length_app; simpl; lia).
      destruct (fge x mp) eqn:Hx; cbn [negb].
      * apply IH.
        -- rewrite length_app; simpl; lia.
        -- rewrite app_nth1 by lia. exact Hmp.
        -- right. split.
           ++ intros t Ht. rewrite length_app in Ht; simpl in Ht.
              destruct (Nat.lt_ge_cases t (length pre)) as [Hlt' | Hge'].
              ** rewrite app_nth1 by lia. now apply Hge.
              ** assert (t = length pre) by lia. subst t.
                 rewrite app_nth2 by lia. rewrite Nat.sub_diag. exact Hx.
           ++ intros t Ht. rewrite app_nth1 by lia. now apply Hlt.
      * apply IH.
        -- rewrite length_app; simpl; lia.
        -- rewrite app_nth2 by lia. now rewrite Nat.sub_diag.
        -- destruct (isnan x) eqn:Hxn.
           ++ apply isnan_true in Hxn. left. split; [exact Hxn|].
              intros t Ht. rewrite app_nth1 by lia.
              specialize (Hge t Ht). now apply fge_not_nan in Hge as [Hge _].
           ++ assert (Hxnn : x <> NaN) by (intros ->; discriminate).
              pose proof (not_fge_flt x mp Hx Hxnn Hmpn) as Hxlt.
              right. split.
              ** intros t Ht. rewrite length_app in Ht; simpl in Ht.
                 destruct (Nat.lt_ge_cases t (length pre)) as [Hlt' | Hge'].
                 --- rewrite app_nth1 by lia. apply flt_fge.
                     apply (flt_fge_trans x mp); [exact Hxlt|now apply Hge].
                 --- assert (t = length pre) by lia. subst t.
                     rewrite app_nth2 by lia. rewrite Nat.sub_diag.
                     now apply fge_refl.
              ** intros t Ht. rewrite app_nth1 by lia.
                 apply (flt_fge_trans x mp); [exact Hxlt|now apply Hge].
Qed.

Lemma argmin_list_spec (x : fval) (tl : list fval) :
  is_argmin (x :: tl) (argmin_scan x 0 1 tl).
Proof.
  apply (argmin_scan_spec tl [x] x 0); [simpl; lia|reflexivity|].
  destruct (isnan x) eqn:Hx.
  - apply isnan_true in Hx. left. split; [exact Hx|]. intros t Ht; lia.
  - right. split.
    + intros t Ht. simpl in Ht. assert (t = 0%nat) by lia. subst t.
      apply fge_refl. intros ->; discriminate.
    + intros t Ht; lia.
Qed.

(** ** Row-major order *)

Lemma length_flat {A : Type} (a : ndarray A) :
  length (flat a) = (nrows a * ncols a)%nat.
Proof.
  unfold flat.
  assert (G : forall n s,
            length (flat_map
                      (fun i => map (fun j => cell a i j) (seq 0 (ncols a)))
                      (seq s n)) = (n * ncols a)%nat).
  { induction n as [|n IH]; intros s; [reflexivity|].
    cbn [seq flat_map]. rewrite length_app, length_map, length_seq, IH. lia. }
  apply G.
Qed.

Lemma nth_flat {A : Type} (a : ndarray A) (d : A) (i j : nat) :
  (i < nrows a)%nat -> (j < ncols a)%nat ->
  nth (i * ncols a + j) (flat a) d = cell a i j.
Proof.
  unfold flat. intros Hi Hj.
  assert (G : forall n s i, (i < n)%nat ->
            nth (i * ncols a + j)
              (flat_map (fun i => map (fun j => cell a i j) (seq 0 (ncols a)))
                 (seq s n)) d = cell a (s + i) j).
  { clear i Hi. induction n as [|n IH]; intros s i Hi; [lia|].
    cbn [seq flat_map]. destruct i as [|i].
    - rewrite app_nth1 by (rewrite length_map, length_seq; lia).
      cbn [Nat.mul Nat.add].
      rewrite (nth_indep _ d (cell a s 0%nat))
        by (rewrite length_map, length_seq; lia).
      rewrite (map_nth (fun j => cell a s j)), seq_nth by lia.
      now rewrite Nat.add_0_r.
    - rewrite app_nth2 by (rewrite length_map, length_seq; lia).
      rewrite length_map, length_seq.
      replace (S i * ncols a + j - ncols a)%nat with (i * ncols a + j)%nat
        by lia.
      rewrite IH by lia. f_equal; lia. }
  now rewrite (G (nrows a) 0%nat i Hi).
Qed.


Lemma argmin_spec (a : farr) :
  (0 < nrows a)%nat -> (0 < ncols a)%nat ->
  exists k r c,
    argmin a = Ok k /\ unravel_index k (shape a) = (r, c)
    /\ (r < nrows a)%nat /\ (c < ncols a)%nat
    /\ ((cell a r c = NaN
         /\ forall i j, (j < ncols a)%nat -> before i j r c ->
              cell a i j <> NaN)
        \/ ((forall i j, (i < nrows a)%nat -> (j < ncols a)%nat ->
               fge (cell a i j) (cell a r c) = true)
            /\ forall i j, (j < ncols a)%nat -> before i j r c ->
                 flt (cell a r c) (cell a i j) = true)).
Proof.
  intros Hr Hc. unfold argmin.
  destruct (flat a) as [|x tl] eqn:Hflat.
  { pose proof (length_flat a) as Hlen. rewrite Hflat in Hlen.
    simpl in Hlen. nia. }
  pose proof (argmin_list_spec x tl) as [Hk Hspec].
  set (k := argmin_scan x 0 1 tl) in *.
  rewrite <- Hflat in Hk, Hspec. rewrite length_flat in Hk, Hspec.
  assert (Hkr : (k / ncols a < nrows a)%nat)
    by (apply Nat.Div0.div_lt_upper_bound; lia).
  assert (Hkc : (k mod ncols a < ncols a)%nat)
    by (apply Nat.mod_upper_bound; lia).
  assert (Hkd : k = (k / ncols a * ncols a + k mod ncols a)%nat).
  { rewrite (Nat.div_mod_eq k (ncols a)) at 1. lia. }
  assert (Hnk : nth k (flat a) NaN = cell a (k / ncols a) (k mod ncols a)).
  { rewrite Hkd at 1. now apply nth_flat. }
  assert (Hbefore : forall i j, (j < ncols a)%nat ->
            before i j (k / ncols a) (k mod ncols a) ->
            (i < nrows a)%nat /\ (i * ncols a + j < k)%nat).
  { intros i j Hj Hb.
    generalize dependent (k / ncols a)%nat.
    generalize dependent (k mod ncols a)%nat.
    intros m Hm q Hq Hkd _ [Hi | [-> Hjc]]; split; try lia; nia. }
  exists k, (k / ncols a)%nat, (k mod ncols a)%nat.
  splits; auto.
  rewrite Hnk in Hspec.
  destruct Hspec as [[Hnan Hfirst] | [Hmin Hfirst]]; [left | right]; split;
    auto.
  - intros i j Hj Hb. destruct (Hbefore i j Hj Hb) as [Hi Hlt].
    rewrite <- (nth_flat a NaN i j Hi Hj). now apply Hfirst.
  - intros i j Hi Hj. rewrite <- (nth_flat a NaN i j Hi Hj).
    apply Hmin. nia.
  - intros i j Hj Hb. destruct (Hbefore i j Hj Hb) as [Hi Hlt].
    rewrite <- (nth_flat a NaN i j Hi Hj). now apply Hfirst.
Qed.

Lemma argmin_empty (a : farr) :
  (nrows a * ncols a = 0)%nat -> argmin a = Err ValueError.
Proof.
  intros H. unfold argmin. pose proof (length_flat a) as Hlen.
  rewrite H in Hlen. now destruct (flat a).
Qed.

Lemma cdt_full (lat lon centerLat centerLon : farr) :
  fits lon lat -> fits centerLat lat -> fits centerLon lat ->
  okfull lat (compute_dist_from_cdt lat lon centerLat centerLon).
Proof.
  intros H1 H2 H3.
  destruct (cdt_returns lat lat lon centerLat centerLon (fits_refl lat)
              H1 H2 H3) as (d & Hd & Hfit).
  exists d; split; [exact Hd|].
  destruct (cdt_inputs_fit _ _ _ _ _ Hd) as (F & _).
  now apply fits_antisym.
Qed.

Lemma fge_not_flt (x m : fval) : fge x m = true -> flt x m = false.
Proof.
  unfold fge. destruct x, m; simpl; try discriminate; auto.
  intros H. apply orb_true_iff in H as [H | H];
    [apply Rltb_true in H | apply Reqb_true in H]; apply Rltb_false; lra.
Qed.

(** X8: on a grid with at least one cell [compute_center_mask] returns a
    mask of the shape of the grid that is true exactly on the rows [r - 16]
    to [r + 1] and the columns [c - 8] to [c + 10] that exist, around a cell
    [(r, c)] of the grid than which no cell is nearer to the centre; the cell
    [(r, c)] is inside the window.  A missing distance takes over: if some
    distance is not-a-number, [(r, c)] is the first such cell in row-major
    order. *)
Theorem compute_center_mask_window (lat lon centerLat centerLon : farr) :
  fits lon lat -> fits centerLat lat -> fits centerLon lat ->
  (0 < nrows lat)%nat -> (0 < ncols lat)%nat ->
  exists dist mask r c,
    compute_dist_from_cdt lat lon centerLat centerLon = Ok dist
    /\ compute_center_mask lat lon centerLat centerLon = Ok mask
    /\ nrows mask = nrows lat /\ ncols mask = ncols lat
    /\ (r < nrows lat)%nat /\ (c < ncols lat)%nat
    /\ (forall i j, (i < nrows lat)%nat -> (j < ncols lat)%nat ->
          flt (cell dist i j) (cell dist r c) = false)
    /\ ((exists i j, (i < nrows lat)%nat /\ (j < ncols lat)%nat
                     /\ cell dist i j = NaN) ->
        cell dist r c = NaN
        /\ forall i j, (j < ncols lat)%nat -> before i j r c ->
             cell dist i j <> NaN)
    /\ (forall i j, (i < nrows lat)%nat -> (j < ncols lat)%nat ->
          (cell mask i j = true <->
           (r <= i + 16 /\ i < r + 2 /\ c <= j + 8 /\ j < c + 11)%nat))
    /\ cell mask r c = true.
Proof.
  intros H1 H2 H3 Hr Hc.
  destruct (cdt_full lat lon centerLat centerLon H1 H2 H3)
    as (dist & Hdist & Hdr & Hdc).
  destruct (argmin_spec dist) as (k & r & c & Hk & Hrc & Hrr & Hcc & Hmin);
    [lia|lia|].
  unfold compute_center_mask. rewrite Hdist. cbn [bind]. rewrite Hk.
  cbn [bind]. rewrite Hrc. cbn [shape].
  set (rMin := Z.max 0 (Z.of_nat r - 16)).
  set (cMin := Z.max 0 (Z.of_nat c - 8)).
  set (rMax := Z.min (Z.of_nat (nrows lat)) (Z.of_nat r + 2)).
  set (cMax := Z.min (Z.of_nat (ncols lat)) (Z.of_nat c + 11)).
  assert (Hmask : okfull lat
            (lift2 feq (Ok (zeros_with_block (nrows lat, ncols lat)
                              rMin rMax cMin cMax (Fin 1))) (sc 1))).
  { apply okfull_lift2_l; [|apply okfit_sc].
    eexists; split; [reflexivity|]. split; reflexivity. }
  destruct Hmask as (mask & Hmask & Hmr & Hmc).
  assert (Hcell : forall i j, (i < nrows lat)%nat -> (j < ncols lat)%nat ->
            cell mask i j =
            ((rMin <=? Z.of_nat i) && (Z.of_nat i <? rMax)
             && (cMin <=? Z.of_nat j) && (Z.of_nat j <? cMax))%Z%bool).
  { intros i j Hi Hj. apply lift2_ok in Hmask
      as (a & b & Ha & Hb & _ & _ & Hrd).
    injection Ha as <-. pose proof (sc_ok _ _ Hb) as Hsc.
    rewrite <- (rd_in_range mask i j) by lia.
    rewrite Hrd, Hsc, rd_in_range by (cbn; lia).
    cbn [cell zeros_with_block].
    destruct (_ && _ && _ && _)%bool; simpl;
      [apply Reqb_true; reflexivity | apply Reqb_false; lra]. }
  rewrite Hdr in Hrr. rewrite Hdc in Hcc.
  exists dist, mask, r, c. splits; auto.
  - intros i j Hi Hj.
    destruct Hmin as [[Hnan _] | [Hge _]].
    + rewrite Hnan. apply flt_nan_r.
    + apply fge_not_flt, Hge; lia.
  - intros (i & j & Hi & Hj & Hnan).
    destruct Hmin as [[Hn Hfirst] | [Hge _]].
    + split; [exact Hn|]. intros i' j' Hj' Hb. apply Hfirst; [lia|exact Hb].
    + specialize (Hge i j ltac:(lia) ltac:(lia)).
      apply fge_not_nan in Hge as [Hge _]. congruence.
  - intros i j Hi Hj. rewrite (Hcell i j Hi Hj).
    rewrite !andb_true_iff, !Z.leb_le, !Z.ltb_lt. unfold rMin, rMax, cMin, cMax.
    lia.
  - rewrite (Hcell r c Hrr Hcc).
    rewrite !andb_true_iff, !Z.leb_le, !Z.ltb_lt. unfold rMin, rMax, cMin, cMax.
    lia.
Qed.

Lemma compute_center_mask_window_witness :
  exists mask,
    compute_center_mask (of_rows [[Fin 45; Fin 46]])
      (of_rows [[Fin 10; Fin 10]]) (of_rows [[Fin 46]]) (of_rows [[Fin 10]])
    = Ok mask
    /\ shape mask = (1%nat, 2%nat).
Proof.
  destruct (compute_center_mask_window (of_rows [[Fin 45; Fin 46]])
              (of_rows [[Fin 10; Fin 10]]) (of_rows [[Fin 46]])
              (of_rows [[Fin 10]]))
    as (dist & mask & r & c & _ & Hmask & Hr & Hc & _);
    try (split; simpl; auto); try (simpl; lia).
  exists mask; split; [exact Hmask|]. unfold shape. now rewrite Hr, Hc.
Defined.

(** X9: on a grid without rows or without columns [compute_center_mask]
    raises [ValueError]: there is no smallest distance to take. *)
Theorem compute_center_mask_empty_grid_raises
    (lat lon centerLat centerLon : farr) :
  fits lon lat -> fits centerLat lat -> fits centerLon lat ->
  (nrows lat = 0 \/ ncols lat = 0)%nat ->
  compute_center_mask lat lon centerLat centerLon = Err ValueError.
Proof.
  intros H1 H2 H3 Hempty.
  destruct (cdt_full lat lon centerLat centerLon H1 H2 H3)
    as (dist & Hdist & Hdr & Hdc).
  unfold compute_center_mask. rewrite Hdist. cbn [bind].
  rewrite argmin_empty; [reflexivity|]. rewrite Hdr, Hdc. nia.
Qed.

Lemma compute_center_mask_empty_grid_raises_witness :
  compute_center_mask (mk_nd 0 3 (fun _ _ => Fin 0))
    (mk_nd 0 3 (fun _ _ => Fin 0)) (of_rows [[Fin 46]]) (of_rows [[Fin 10]])
  = Err ValueError.
Proof.
  apply compute_center_mask_empty_grid_raises;
    try (split; simpl; auto). now left.
Defined.

Lemma dstack_ok (layers x : list farr) : dstack layers = Ok x -> x = layers.
Proof.
  unfold dstack. destruct layers; [discriminate|].
  destruct (forallb _ _); [|discriminate]. now intros [= <-].
Qed.

(** One pass of the smoothing, cell by cell. *)
Lemma smooth_pass_pointwise (cw : R) (g out : farr) :
  smooth_pass cw g = Ok out ->
  nrows out = nrows g /\ ncols out = ncols g
  /\ forall i j, (i < nrows g)%nat -> (j < ncols g)%nat ->
       cell out i j =
       smooth_cell cw (cell g i j) (cell (roll_right g) i j)
         (cell (roll_left g) i j) (cell (shift_up 1 g) i j)
         (cell (shift_down 1 g) i j).
Proof.
  unfold smooth_pass. cbv zeta. intros H.
  apply bind_ok in H as (cnts & Hcnts & H).
  apply bind_ok in H as (weighted & Hw & H).
  apply bind_ok in H as (stack & Hstack & H).
  apply dstack_ok in Hstack. subst stack.
  apply bind_ok in H as (cnt_ind & Hci & H).
  apply bind_ok in H as (quot & Hq & H).
  destruct (same_shape cnt_ind g && same_shape quot g)%bool eqn:Hs;
    [|discriminate].
  injection H as <-.
  rewrite cmp_scalar_ok in Hw. injection Hw as <-.
  apply andb_true_iff in Hs as [Hs1 Hs2]. unfold same_shape in Hs1, Hs2.
  apply andb_true_iff in Hs1 as [Hs1r Hs1c].
  apply andb_true_iff in Hs2 as [Hs2r Hs2c].
  apply Nat.eqb_eq in Hs1r, Hs1c, Hs2r, Hs2c.
  splits; [reflexivity|reflexivity|].
  intros i j Hi Hj. cbn [cell].
  rewrite <- (rd_in_range cnt_ind i j) by lia.
  rewrite <- (rd_in_range quot i j) by lia.
  unfold np_double in *. inv_np. rd_unfold.
  repeat match goal with
         | H : forall i j, rd ?x i j = Fin _ |- context [rd ?x _ _] =>
             rewrite H
         end.
  rewrite !rd_in_range
    by (cbn [nrows ncols nansum_axis2 hd shift_up shift_down roll_left
             roll_right Nat.eqb]; lia).
  cbn [cell nansum_axis2 map].
  rewrite !rd_in_range by lia.
  reflexivity.
Qed.

Lemma smooth_pass_returns (cw : R) (g : farr) :
  exists out, smooth_pass cw g = Ok out.
Proof.
  destruct (smooth_pass_full g cw g) as (out & H & _); eauto.
  exists g; auto.
Qed.

(** ** One cell of the smoothing *)



Ltac smooth_cases :=
  unfold smooth_cell, nansum, of_bool, feq, fdiv, fadd, fmul;
  cbn [fold_left isnan negb fadd fmul];
  repeat match goal with
         | |- context [Reqb ?x ?y] =>
             let H := fresh "Hc" in
             destruct (Reqb x y) eqn:H;
             [apply Reqb_true in H | apply Reqb_false in H];
             cbn [negb]
         end.


Lemma smooth_cell_nan_iff (cw : R) (c r l u d : fval) :
  (0 < cw)%R ->
  finite_or_nan c -> finite_or_nan r -> finite_or_nan l ->
  finite_or_nan u -> finite_or_nan d ->
  finite_or_nan (smooth_cell cw c r l u d)
  /\ (smooth_cell cw c r l u d = NaN <->
      c = NaN /\ r = NaN /\ l = NaN /\ u = NaN /\ d = NaN).
Proof.
  intros Hcw
    [-> | (xc & ->)] [-> | (xr & ->)] [-> | (xl & ->)]
    [-> | (xu & ->)] [-> | (xd & ->)];
    smooth_cases; try (exfalso; lra);
    (split;
     [ first [left; reflexivity | right; eexists; reflexivity]
     | split;
       [ intros H; try discriminate H; auto
       | intros (H1 & H2 & H3 & H4 & H5); try discriminate; auto ] ]).
Qed.


(** ** The neighbours of a cell *)

Lemma roll_right_in (g : farr) (i j : nat) :
  (j < ncols g)%nat ->
  exists j', (j' < ncols g)%nat /\ cell (roll_right g) i j = cell g i j'.
Proof.
  intros Hj. exists ((j + (ncols g - 1)) mod ncols g)%nat. split.
  - apply Nat.mod_upper_bound. lia.
  - reflexivity.
Qed.

Lemma roll_left_in (g : farr) (i j : nat) :
  (j < ncols g)%nat ->
  exists j', (j' < ncols g)%nat /\ cell (roll_left g) i j = cell g i j'.
Proof.
  intros Hj. exists ((j + 1) mod ncols g)%nat. split.
  - apply Nat.mod_upper_bound. lia.
  - reflexivity.
Qed.

Lemma shift_up_in (g : farr) (i j : nat) :
  (i < nrows g)%nat ->
  cell (shift_up 1 g) i j = NaN
  \/ exists i', (i' < nrows g)%nat /\ cell (shift_up 1 g) i j = cell g i' j.
Proof.
  intros Hi. cbn [shift_up cell]. destruct (i <? 1)%nat; [now left|].
  right. exists (i - 1)%nat. split; [lia|reflexivity].
Qed.

Lemma shift_down_in (g : farr) (i j : nat) :
  (i < nrows g)%nat ->
  cell (shift_down 1 g) i j = NaN
  \/ exists i', (i' < nrows g)%nat /\ cell (shift_down 1 g) i j = cell g i' j.
Proof.
  intros Hi. cbn [shift_down cell].
  destruct (Nat.ltb_spec (i + 1) (nrows g)); [|now left].
  right. exists (i + 1)%nat. split; [lia|reflexivity].
Qed.

(** A property of all cells of a grid, with the missing cell, holds of the
    five cells a pass reads. *)
Lemma stencil_all (P : fval -> Prop) (g : farr) (i j : nat) :
  P NaN ->
  (forall i j, (i < nrows g)%nat -> (j < ncols g)%nat -> P (cell g i j)) ->
  (i < nrows g)%nat -> (j < ncols g)%nat ->
  P (cell g i j) /\ P (cell (roll_right g) i j) /\ P (cell (roll_left g) i j)
  /\ P (cell (shift_up 1 g) i j) /\ P (cell (shift_down 1 g) i j).
Proof.
  intros Hnan Hall Hi Hj.
  destruct (roll_right_in g i j Hj) as (jr & Hjr & ->).
  destruct (roll_left_in g i j Hj) as (jl & Hjl & ->).
  splits; auto.
  - destruct (shift_up_in g i j Hi) as [-> | (i' & Hi' & ->)]; auto.
  - destruct (shift_down_in g i j Hi) as [-> | (i' & Hi' & ->)]; auto.
Qed.



(** X11: one pass of [smooth_grid] with a positive centre weight, on a
    grid of finite or missing cells, leaves a cell missing exactly when the
    cell, its left and right neighbours (around the seam) and its upper and
    lower neighbours (where the grid has them) are all missing; every other
    cell comes out finite. *)
Theorem smooth_grid_fills_missing_cells
    (inGrid : farr) (center_weight : R) :
  (0 < center_weight)%R ->
  (forall i j, (i < nrows inGrid)%nat -> (j < ncols inGrid)%nat ->
     finite_or_nan (cell inGrid i j)) ->
  exists out,
    smooth_grid inGrid 1 center_weight = Ok out
    /\ nrows out = nrows inGrid /\ ncols out = ncols inGrid
    /\ forall i j, (i < nrows inGrid)%nat -> (j < ncols inGrid)%nat ->
         finite_or_nan (cell out i j)
         /\ (cell out i j = NaN <->
             cell inGrid i j = NaN
             /\ cell inGrid i ((j + (ncols inGrid - 1)) mod ncols inGrid) = NaN
             /\ cell inGrid i ((j + 1) mod ncols inGrid) = NaN
             /\ (i = 0%nat \/ cell inGrid (i - 1) j = NaN)
             /\ (i + 1 = nrows inGrid \/ cell inGrid (i + 1) j = NaN)%nat).
Proof.
  intros Hcw Hg. cbn [smooth_grid].
  destruct (smooth_pass_returns center_weight inGrid) as (out & Hout).
  rewrite Hout. cbn [bind].
  destruct (smooth_pass_pointwise _ _ _ Hout) as (Hr & Hc & Hcell).
  exists out; splits; auto.
  intros i j Hi Hj. rewrite (Hcell i j Hi Hj).
  destruct (stencil_all finite_or_nan inGrid i j)
    as (P1 & P2 & P3 & P4 & P5); auto; [now left|].
  destruct (smooth_cell_nan_iff center_weight _ _ _ _ _ Hcw P1 P2 P3 P4 P5)
    as [Hfin Hiff].
  split; [exact Hfin|]. rewrite Hiff.
  cbn [roll_right roll_left shift_up shift_down cell].
  assert (Hup : (if (i <? 1)%nat then NaN else cell inGrid (i - 1) j) = NaN
                <-> (i = 0%nat \/ cell inGrid (i - 1) j = NaN)).
  { destruct (Nat.ltb_spec i 1).
    - split; [left; lia|reflexivity].
    - split; [now right|]. intros [H0 | H0]; [lia|exact H0]. }
  assert (Hdn : (if (i + 1 <? nrows inGrid)%nat then cell inGrid (i + 1) j
                 else NaN) = NaN
                <-> ((i + 1)%nat = nrows inGrid
                     \/ cell inGrid (i + 1) j = NaN)).
  { destruct (Nat.ltb_spec (i + 1) (nrows inGrid)).
    - split; [now right|]. intros [H0 | H0]; [lia|exact H0].
    - split; [left; lia|reflexivity]. }
  rewrite Hup, Hdn. reflexivity.
Qed.

Lemma smooth_grid_fills_missing_cells_witness :
  exists out,
    smooth_grid (of_rows [[Fin 1; NaN]; [Fin 3; Fin 2]]) 1 4 = Ok out
    /\ finite_or_nan (cell out 0 1).
Proof.
  destruct (smooth_grid_fills_missing_cells
              (of_rows [[Fin 1; NaN]; [Fin 3; Fin 2]]) 4)
    as (out & Hrun & _ & _ & Hin).
  - lra.
  - intros i j Hi Hj. simpl in Hi, Hj.
    destruct i as [|[|i]], j as [|[|j]]; try lia; simpl;
      first [left; reflexivity | right; eexists; reflexivity].
  - exists out; split; [exact Hrun|]. apply Hin; simpl; lia.
Defined.



(** ** The rows next to the top and bottom of the grid *)

Lemma slope_nan_here (before after d1 d2 : fval) :
  slope before NaN after d1 d2 = NaN.
Proof. unfold slope. now nan_simpl. Qed.

(** The y-derivative is missing wherever the cell, the cell above or the
    cell below is missing or outside the grid. *)
Lemma dy_missing (lat lon data dx dy : farr) (i j : nat) :
  nrows lon = nrows lat -> ncols lon = ncols lat ->
  nrows data = nrows lat -> ncols data = ncols lat ->
  geo_gradient lat lon data = Ok (dx, dy) ->
  (i < nrows lat)%nat -> (j < ncols lat)%nat ->
  (i = 0%nat \/ (i + 1)%nat = nrows lat
   \/ cell data (i - 1) j = NaN \/ cell data i j = NaN
   \/ cell data (i + 1) j = NaN) ->
  cell dy i j = NaN.
Proof.
  intros Hr1 Hc1 Hr2 Hc2 Hg Hi Hj Hcase.
  destruct (geo_gradient_cells lat lon data Hr1 Hc1 Hr2 Hc2 ltac:(lia))
    as (dx' & dy' & Hg' & _ & _ & _ & _ & Hcells).
  rewrite Hg in Hg'. injection Hg' as <- <-.
  destruct (Hcells i j Hi Hj) as [-> _].
  cbn [shift_up shift_down cell].
  destruct (Nat.ltb_spec i 1); [apply slope_nan_before|].
  destruct (Nat.ltb_spec (i + 1) (nrows data)); [|apply slope_nan_after].
  destruct Hcase as [H1 | [H1 | [H1 | [H1 | H1]]]]; try lia;
    rewrite H1;
    [apply slope_nan_before | apply slope_nan_here | apply slope_nan_after].
Qed.

Lemma norm_cells (L x y n : farr) :
  nrows x = nrows L -> ncols x = ncols L ->
  nrows y = nrows L -> ncols y = ncols L ->
  norm x y = Ok n ->
  nrows n = nrows L /\ ncols n = ncols L
  /\ forall i j, (i < nrows L)%nat -> (j < ncols L)%nat ->
       cell n i j =
       fsqrt (fadd (fmul (cell x i j) (cell x i j))
                   (fmul (cell y i j) (cell y i j))).
Proof.
  intros Hxr Hxc Hyr Hyc Hn.
  destruct (norm_full L x y) as (n' & Hn' & Hr & Hc);
    try (apply okfull_ret'; assumption).
  rewrite Hn in Hn'. injection Hn' as <-.
  splits; auto. intros i j Hi Hj.
  unfold norm in Hn. inv_np.
  rewrite <- (rd_in_range n i j) by lia. rd_unfold.
  now rewrite !rd_in_range by lia.
Qed.


(** The quantity [m2] of the detector is missing in the two rows at the top
    and the two rows at the bottom of the grid. *)
Lemma hewson_locating_edge_rows
    (latGrid lonGrid theta gx gy gNorm mux muy abs_mu m1 m2 : farr) :
  nrows lonGrid = nrows latGrid -> ncols lonGrid = ncols latGrid ->
  nrows theta = nrows latGrid -> ncols theta = ncols latGrid ->
  hewson_locating latGrid lonGrid theta
  = Ok (gx, gy, gNorm, mux, muy, abs_mu, m1, m2) ->
  nrows m2 = nrows latGrid /\ ncols m2 = ncols latGrid
  /\ nrows gx = nrows latGrid /\ ncols gx = ncols latGrid
  /\ nrows gy = nrows latGrid /\ ncols gy = ncols latGrid
  /\ forall i j, (i < nrows latGrid)%nat -> (j < ncols latGrid)%nat ->
       near_edge_row (nrows latGrid) i -> cell m2 i j = NaN.
Proof.
  intros Hr1 Hc1 Hr2 Hc2 H. unfold hewson_locating in H.
  apply bind_ok in H as ([gx0 gy0] & Hg1 & H).
  pose proof (geo_gradient_pointwise _ _ _ _ _ Hg1) as (Hcols & _).
  assert (Hc : (0 < ncols latGrid)%nat) by lia.
  destruct (geo_gradient_cells latGrid lonGrid theta Hr1 Hc1 Hr2 Hc2 Hc)
    as (dx' & dy' & Hg' & Hgxr & Hgxc & Hgyr & Hgyc & _).
  rewrite Hg1 in Hg'. injection Hg' as <- <-.
  apply bind_ok in H as (gN & HgN & H).
  destruct (norm_cells latGrid gx0 gy0 gN Hgxr Hgxc Hgyr Hgyc HgN)
    as (HNr & HNc & HNcell).
  apply bind_ok in H as ([mux0 muy0] & Hg2 & H).
  destruct (geo_gradient_cells latGrid lonGrid gN Hr1 Hc1 HNr HNc Hc)
    as (dx' & dy' & Hg' & Hmxr & Hmxc & Hmyr & Hmyc & _).
  rewrite Hg2 in Hg'. injection Hg' as <- <-.
  apply bind_ok in H as (am & Ham & H).
  destruct (norm_cells latGrid mux0 muy0 am Hmxr Hmxc Hmyr Hmyc Ham)
    as (Har & Hac & Hacell).
  apply bind_ok in H as ([gax gay] & Hg3 & H).
  apply bind_ok in H as (product & Hprod & H).
  apply bind_ok in H as (ps & Hps & H).
  apply bind_ok in H as (m1' & Hm1 & H).
  apply bind_ok in H as (m2' & Hm2 & H).
  injection H as -> -> -> -> -> -> -> ->.
  assert (Hfull : okfull latGrid
            (lift2 fadd (Ok gNorm)
               (lift2 fmul (sc (1 / sqrt 2 * 100 * 1000)) (Ok abs_mu))))
    by full_tac.
  destruct Hfull as (m2'' & Hm2'' & Hm2r & Hm2c).
  rewrite Hm2 in Hm2''. injection Hm2'' as <-.
  splits; auto.
  intros i j Hi Hj Hedge.
  assert (HgyN : forall i, (i < nrows latGrid)%nat ->
            (i = 0%nat \/ (i + 1)%nat = nrows latGrid) ->
            cell gNorm i j = NaN).
  { intros k Hk Hk'. rewrite HNcell by assumption.
    rewrite (dy_missing latGrid lonGrid theta gx gy k j) by
      (auto; tauto).
    now nan_simpl. }
  assert (Hmuy : cell muy i j = NaN).
  { apply (dy_missing latGrid lonGrid gNorm mux muy i j); auto.
    destruct Hedge as [Hedge | Hedge].
    - destruct i as [|[|i]]; [now left| |lia].
      right; right; left. apply HgyN; [lia|now left].
    - destruct (Nat.eq_dec (i + 1) (nrows latGrid)) as [E | E];
        [right; now left|].
      right; right; right; right. apply HgyN; [lia|right; lia]. }
  rewrite <- (rd_in_range m2 i j) by lia.
  inv_np. rd_unfold.
  rewrite !rd_in_range by lia.
  rewrite (Hacell i j Hi Hj), Hmuy. now nan_simpl.
Qed.

Lemma length_first_col (a : farr) (l : list fval) :
  first_col a = Ok l -> length l = nrows a.
Proof.
  unfold first_col. destruct (ncols a =? 0)%nat; [discriminate|].
  intros [= <-]. now rewrite length_map, length_seq.
Qed.

Lemma length_first_row (a : farr) (l : list fval) :
  first_row a = Ok l -> length l = ncols a.
Proof.
  unfold first_row. destruct (nrows a =? 0)%nat; [discriminate|].
  intros [= <-]. now rewrite length_map, length_seq.
Qed.

Lemma length_bin_edges (centres edges : list fval) :
  bin_edges centres = Ok edges -> length edges = S (length centres).
Proof.
  unfold bin_edges. intros H.
  apply bind_ok in H as (e1 & _ & H). apply bind_ok in H as (e0 & _ & H).
  injection H as <-. rewrite length_app, length_map. simpl. lia.
Qed.

(** The mask of the zero contour has the rows of the latitude grid and the
    columns of the longitude grid. *)
Lemma mask_zero_contour_shape
    (contour_paths : farr -> farr -> farr -> result (list path))
    (latGrid lonGrid data zc : farr) :
  mask_zero_contour contour_paths latGrid lonGrid data = Ok zc ->
  nrows zc = nrows latGrid /\ ncols zc = ncols lonGrid.
Proof.
  unfold mask_zero_contour. intros H.
  apply bind_ok in H as (paths & _ & H).
  apply bind_ok in H as (latc & Hlatc & H).
  apply bind_ok in H as (lonc & Hlonc & H).
  apply bind_ok in H as (late & Hlate & H).
  apply bind_ok in H as (lone & Hlone & H).
  apply bind_ok in H as (samples & _ & H).
  apply bind_ok in H as (Hist & HH & H).
  injection H as <-. unfold histogram2d in HH.
  destruct (increasing late && increasing lone)%bool; [|discriminate].
  injection HH as <-. cbn [map1 nrows ncols].
  rewrite (length_bin_edges _ _ Hlate), (length_bin_edges _ _ Hlone),
    (length_first_col _ _ Hlatc), (length_first_row _ _ Hlonc).
  split; lia.
Qed.

Lemma bdim_refl_inv (m k : nat) : bdim m m = Some k -> k = m.
Proof. unfold bdim. rewrite Nat.eqb_refl. now intros [= <-]. Qed.

(** X13: whenever [hewson_1998] returns on grids of one shape, the warm
    and the cold mask have the shape of the grid and are 0 in the first two
    and in the last two rows, whatever the fields are. *)
Theorem hewson_edge_rows_never_flagged
    (contour_paths : farr -> farr -> farr -> result (list path))
    (latGrid lonGrid theta H850 : farr) (out : hewson_out) :
  nrows lonGrid = nrows latGrid -> ncols lonGrid = ncols latGrid ->
  nrows theta = nrows latGrid -> ncols theta = ncols latGrid ->
  nrows H850 = nrows latGrid -> ncols H850 = ncols latGrid ->
  hewson_1998 contour_paths latGrid lonGrid theta H850 = Ok out ->
  nrows (wf out) = nrows latGrid /\ ncols (wf out) = ncols latGrid
  /\ nrows (cf out) = nrows latGrid /\ ncols (cf out) = ncols latGrid
  /\ forall i j, (i < nrows latGrid)%nat -> (j < ncols latGrid)%nat ->
       (i <= 1 \/ nrows latGrid <= i + 2)%nat ->
       cell (wf out) i j = Fin 0 /\ cell (cf out) i j = Fin 0.
Proof.
  intros Hr1 Hc1 Hr2 Hc2 Hr3 Hc3 Hrun. unfold hewson_1998 in Hrun.
  destruct (hewson_masks_spec _ _ _ _ _ _ _ _ Hrun)
    as (l & zc_raw & Hbody & Hzc & Hcr & Hcc & Hbr & Hbc & _ & _ & Hwf & Hcf).
  destruct (hewson_body_inv _ _ _ _ _ _ _ _ Hbody)
    as (gNorm & mux & muy & abs_mu & zc' & sel & Hloc & _ & _ & _ & _ & _
        & _ & Hadv & _).
  destruct (hewson_locating_edge_rows _ _ _ _ _ _ _ _ _ _ _
              Hr1 Hc1 Hr2 Hc2 Hloc)
    as (Hm2r & Hm2c & Hgxr & Hgxc & Hgyr & Hgyc & Hm2).
  destruct (hewson_advection_full latGrid lonGrid H850 (l_gx l) (l_gy l))
    as (t & Ht & Htr & Htc); try (apply okfull_ret'; assumption).
  rewrite Hadv in Ht. injection Ht as <-. cbn [snd] in Htr, Htc.
  destruct (mask_zero_contour_shape _ _ _ _ _ Hzc) as [Hzr Hzc'].
  rewrite Htr, Hzr in Hbr. apply bdim_refl_inv in Hbr.
  rewrite Htc, Hzc', Hc1 in Hbc. apply bdim_refl_inv in Hbc.
  splits; try congruence.
  intros i j Hi Hj Hedge.
  rewrite <- (rd_in_range (wf out) i j), <- (rd_in_range (cf out) i j)
    by congruence.
  rewrite Hwf, Hcf.
  rewrite (rd_in_range (l_m2 l) i j) by congruence.
  rewrite (Hm2 i j Hi Hj Hedge). rewrite fgt_nan_l, andb_false_r.
  split; apply fmul_binary_zero.
Qed.

Lemma hewson_edge_rows_never_flagged_witness :
  exists out,
    hewson_1998 ex_contour ex_lat ex_lon ex_theta ex_H850 = Ok out
    /\ cell (wf out) 1 1 = Fin 0 /\ cell (cf out) 1 1 = Fin 0.
Proof.
  destruct (ex_returns k1 k2) as (out & Hrun & _).
  exists out; split; [exact Hrun|].
  apply (hewson_edge_rows_never_flagged ex_contour ex_lat ex_lon ex_theta
           ex_H850 out); try reflexivity; try exact Hrun; simpl; lia.
Defined.

(** X14: on grids of one shape with at least one column, when the
    contouring engine finds no path, [hewson_1998] raises [IndexError]. *)
Theorem hewson_1998_without_contour_raises
    (contour_paths : farr -> farr -> farr -> result (list path))
    (latGrid lonGrid theta H850 : farr) :
  nrows lonGrid = nrows latGrid -> ncols lonGrid = ncols latGrid ->
  nrows theta = nrows latGrid -> ncols theta = ncols latGrid ->
  (0 < ncols latGrid)%nat ->
  (forall data, contour_paths latGrid lonGrid data = Ok []) ->
  hewson_1998 contour_paths latGrid lonGrid theta H850 = Err IndexError.
Proof.
  intros Hr1 Hc1 Hr2 Hc2 Hc Hnone.
  unfold hewson_1998, hewson_with, hewson_body.
  destruct (hewson_locating_full latGrid lonGrid theta)
    as (gx & gy & gNorm & mux & muy & abs_mu & m1 & m2 & -> & _ & _
        & Hmux & Hmuy & Habs & _ & _);
    try (apply okfull_ret'; assumption); [exact Hc|].
  cbn [bind]. rewrite !cmp_scalar_ok. cbn [bind].
  destruct (hewson_tot_div_full latGrid lonGrid mux muy abs_mu)
    as (td & -> & _); auto; try (apply okfull_ret'; assumption).
  cbn [bind].
  now rewrite (mask_zero_contour_no_path _ _ _ _ (Hnone td)).
Qed.

Lemma hewson_1998_without_contour_raises_witness :
  hewson_1998 (fun _ _ _ => Ok []) ex_lat ex_lon ex_theta ex_H850
  = Err IndexError.
Proof.
  apply hewson_1998_without_contour_raises;
    try reflexivity; simpl; lia.
Defined.

(** ** The thermal advection *)

Lemma fneg_inf_times (pos : bool) (x : R) :
  fneg (inf_times pos x) = inf_times (negb pos) x.
Proof.
  unfold inf_times. destruct (Reqb x 0); [reflexivity|].
  destruct pos, (Rltb 0 x); reflexivity.
Qed.

Lemma fmul_fneg_l (a b : fval) : fmul (fneg a) b = fneg (fmul a b).
Proof.
  destruct a, b; cbn [fmul fneg]; try reflexivity;
    try (now rewrite fneg_inf_times).
  - unfold inf_times. destruct (Reqb (- r) 0) eqn:E1, (Reqb r 0) eqn:E2;
      try reflexivity.
    + apply Reqb_true in E1. apply Reqb_false in E2. lra.
    + apply Reqb_false in E1. apply Reqb_true in E2. lra.
    + apply Reqb_false in E2.
      destruct (Rltb 0 (- r)) eqn:E3, (Rltb 0 r) eqn:E4; try reflexivity.
      * apply Rltb_true in E3, E4. lra.
      * apply Rltb_false in E3, E4. lra.
  - unfold inf_times. destruct (Reqb (- r) 0) eqn:E1, (Reqb r 0) eqn:E2;
      try reflexivity.
    + apply Reqb_true in E1. apply Reqb_false in E2. lra.
    + apply Reqb_false in E1. apply Reqb_true in E2. lra.
    + apply Reqb_false in E2.
      destruct (Rltb 0 (- r)) eqn:E3, (Rltb 0 r) eqn:E4; try reflexivity.
      * apply Rltb_true in E3, E4. lra.
      * apply Rltb_false in E3, E4. lra.
  - f_equal. lra.
Qed.

Lemma fadd_fneg (a b : fval) : fadd (fneg a) (fneg b) = fneg (fadd a b).
Proof. destruct a, b; cbn [fadd fneg]; try reflexivity. f_equal. lra. Qed.

Lemma map2_same_shapes {A B C A' B' C' : Type}
    (f : A -> B -> C) (g : A' -> B' -> C')
    (a : ndarray A) (b : ndarray B) (a' : ndarray A') (b' : ndarray B')
    (x : ndarray C) :
  nrows a' = nrows a -> ncols a' = ncols a ->
  nrows b' = nrows b -> ncols b' = ncols b ->
  map2 f a b = Ok x ->
  exists y, map2 g a' b' = Ok y /\ nrows y = nrows x /\ ncols y = ncols x.
Proof.
  intros Har Hac Hbr Hbc. unfold map2. rewrite Har, Hac, Hbr, Hbc.
  destruct (bdim (nrows a) (nrows b)), (bdim (ncols a) (ncols b));
    try discriminate.
  intros [= <-]. eexists; split; [reflexivity|]. split; reflexivity.
Qed.

(** X17: the advection [hewson_1998] computes in line is the function
    [geostrophic_thermal_advection] applied to the gradient of theta and the
    geostrophic wind: the function returns on them, with the same shape and
    the same cells. *)
Theorem hewson_advection_is_geostrophic_thermal_advection
    (latGrid lonGrid H850 gx gy rot_param Vx Vy gta : farr) :
  hewson_advection latGrid lonGrid H850 gx gy = Ok (rot_param, Vx, Vy, gta) ->
  exists g,
    geostrophic_thermal_advection gx gy Vx Vy = Ok g
    /\ nrows g = nrows gta /\ ncols g = ncols gta
    /\ forall i j, rd g i j = rd gta i j.
Proof.
  unfold hewson_advection; cbn [four_corner_shift]. intros H.
  apply bind_ok in H as (rot0 & _ & H).
  apply bind_ok in H as (sel70 & _ & H).
  apply bind_ok in H as (rot1 & _ & H).
  apply bind_ok in H as (sel20 & _ & H).
  apply bind_ok in H as (rot2 & _ & H).
  apply bind_ok in H as (dz_y & _ & H).
  apply bind_ok in H as (dy & _ & H).
  apply bind_ok in H as (dz_x & _ & H).
  apply bind_ok in H as (dx & _ & H).
  apply bind_ok in H as (Vy' & _ & H).
  apply bind_ok in H as (Vx' & _ & H).
  apply bind_ok in H as (vgx & Hvgx & H).
  apply bind_ok in H as (vgy & Hvgy & H).
  apply bind_ok in H as (gta' & Hgta & H).
  injection H as -> -> -> ->.
  unfold lift2, lift1 in Hvgx, Hvgy, Hgta. cbn [bind] in Hvgx, Hvgy, Hgta.
  destruct (map2_same_shapes fmul fmul (map1 fneg Vx) gx Vx gx vgx)
    as (y1 & Hy1 & Hy1r & Hy1c); auto.
  destruct (map2_same_shapes fmul fmul (map1 fneg Vy) gy Vy gy vgy)
    as (y2 & Hy2 & Hy2r & Hy2c); auto.
  destruct (map2_same_shapes fadd fadd vgx vgy y1 y2 gta)
    as (y3 & Hy3 & Hy3r & Hy3c); auto.
  unfold geostrophic_thermal_advection, lift2, lift1. cbn [bind].
  rewrite Hy1, Hy2. cbn [bind]. rewrite Hy3. cbn [bind].
  eexists; split; [reflexivity|]. cbn [map1 nrows ncols].
  splits; auto.
  intros i j. rewrite rd_map1.
  apply map2_ok in Hvgx as (_ & _ & Rvgx).
  apply map2_ok in Hvgy as (_ & _ & Rvgy).
  apply map2_ok in Hgta as (_ & _ & Rgta).
  apply map2_ok in Hy1 as (_ & _ & Ry1).
  apply map2_ok in Hy2 as (_ & _ & Ry2).
  apply map2_ok in Hy3 as (_ & _ & Ry3).
  rewrite Ry3, Ry1, Ry2, Rgta, Rvgx, Rvgy, !rd_map1.
  now rewrite !fmul_fneg_l, fadd_fneg.
Qed.

Lemma hewson_advection_is_geostrophic_thermal_advection_witness :
  exists rot_param Vx Vy gta g,
    hewson_advection ex_lat ex_lon ex_H850 ex_theta ex_theta
    = Ok (rot_param, Vx, Vy, gta)
    /\ geostrophic_thermal_advection ex_theta ex_theta Vx Vy = Ok g
    /\ shape g = shape gta.
Proof.
  destruct (hewson_advection_full ex_lat ex_lon ex_H850 ex_theta ex_theta)
    as ([[[rot_param Vx] Vy] gta] & Hrun & _);
    try (apply okfull_ret'; reflexivity).
  destruct (hewson_advection_is_geostrophic_thermal_advection
              _ _ _ _ _ _ _ _ _ Hrun) as (g & Hg & Hr & Hc & _).
  exists rot_param, Vx, Vy, gta, g. splits; auto.
  unfold shape. now rewrite Hr, Hc.
Defined.

(** X15: on grids of one shape with at least two rows and two columns,
    whose first column of latitudes and first row of longitudes have constant
    positive steps, and with a contouring engine that always returns at
    least one path, [hewson_1998] returns, and the two masks and the field
    [eq6] have the shape of the grid. *)
Theorem hewson_1998_returns_on_regular_grid
    (contour_paths : farr -> farr -> farr -> result (list path))
    (latGrid lonGrid theta H850 : farr) (a da b db : R) :
  nrows lonGrid = nrows latGrid -> ncols lonGrid = ncols latGrid ->
  nrows theta = nrows latGrid -> ncols theta = ncols latGrid ->
  nrows H850 = nrows latGrid -> ncols H850 = ncols latGrid ->
  (2 <= nrows latGrid)%nat -> (2 <= ncols latGrid)%nat ->
  (0 < da)%R -> (0 < db)%R ->
  (forall i, (i < nrows latGrid)%nat ->
     cell latGrid i 0 = Fin (centre a da i)) ->
  (forall j, (j < ncols lonGrid)%nat ->
     cell lonGrid 0 j = Fin (centre b db j)) ->
  (forall data, exists paths verts,
     contour_paths latGrid lonGrid data = Ok paths
     /\ gather_vertices paths = Some verts) ->
  exists out,
    hewson_1998 contour_paths latGrid lonGrid theta H850 = Ok out
    /\ shape (wf out) = shape latGrid /\ shape (cf out) = shape latGrid
    /\ shape (eq6 out) = shape latGrid.
Proof.
  intros Hr1 Hc1 Hr2 Hc2 Hr3 Hc3 Hnr Hnc Hda Hdb Hlat Hlon Hpaths.
  destruct (hewson_with_full contour_paths k1 k2 latGrid lonGrid theta H850
              a da b db)
    as (out & Hrun & [Hwr Hwc] & [Hcr Hcc] & [Her Hec]);
    auto; try (apply okfull_ret'; assumption).
  exists out; split; [exact Hrun|]. unfold shape.
  rewrite Hwr, Hwc, Hcr, Hcc, Her, Hec. auto.
Qed.

Lemma hewson_1998_returns_on_regular_grid_witness :
  exists out,
    hewson_1998 ex_contour ex_lat ex_lon ex_theta ex_H850 = Ok out
    /\ shape (wf out) = (3%nat, 3%nat).
Proof.
  destruct (hewson_1998_returns_on_regular_grid ex_contour ex_lat ex_lon
              ex_theta ex_H850 10 20 0 1)
    as (out & Hrun & Hs & _); try reflexivity; try (simpl; lia); try lra.
  - intros i Hi. simpl in Hi. unfold centre.
    destruct i as [|[|[|i]]]; try lia; simpl; f_equal; lra.
  - intros j Hj. simpl in Hj. unfold centre.
    destruct j as [|[|[|j]]]; try lia; simpl; f_equal; lra.
  - intros data. exists [[(Fin 30, Fin 1)]], [(Fin 30, Fin 1)].
    split; reflexivity.
  - exists out; split; [exact Hrun|exact Hs].
Defined.

Lemma fmul_bool_bool (x y : bool) :
  fmul (of_bool x) (of_bool y) = of_bool (x && y).
Proof. destruct x, y; simpl; f_equal; lra. Qed.

Lemma of_bool_one (x : bool) : of_bool x = Fin 1 <-> x = true.
Proof.
  destruct x; simpl; split; auto; try discriminate.
  intros [= H]. lra.
Qed.

Lemma of_bool_binary (x : bool) : of_bool x = Fin 0 \/ of_bool x = Fin 1.
Proof. destruct x; [right|left]; reflexivity. Qed.

Lemma binary_of_bool (z : fval) :
  z = Fin 0 \/ z = Fin 1 -> exists x, z = of_bool x /\ (x = true <-> z = Fin 1).
Proof.
  intros [-> | ->].
  - exists false; split; [reflexivity|]. split; [discriminate|].
    intros [= H]; lra.
  - exists true; split; [reflexivity|]. tauto.
Qed.

(** X16: whenever [hewson_1998] returns, both masks hold only 0 and 1,
    the field returned with them is the total divergence, and a cell of the
    warm mask is 1 exactly when the zero-contour mask of the total divergence
    is 1 there, [m1 > k1], [m2 > k2] and the thermal advection is positive;
    the cold mask likewise with a negative advection. *)
Theorem hewson_1998_flagged_cells
    (contour_paths : farr -> farr -> farr -> result (list path))
    (latGrid lonGrid theta H850 : farr) (out : hewson_out) :
  hewson_1998 contour_paths latGrid lonGrid theta H850 = Ok out ->
  exists l zc,
    hewson_body contour_paths k1 k2 latGrid lonGrid theta H850 = Ok l
    /\ mask_zero_contour contour_paths latGrid lonGrid (l_tot_div l) = Ok zc
    /\ eq6 out = l_tot_div l
    /\ forall i j,
         (rd (wf out) i j = Fin 0 \/ rd (wf out) i j = Fin 1)
         /\ (rd (cf out) i j = Fin 0 \/ rd (cf out) i j = Fin 1)
         /\ (rd (wf out) i j = Fin 1 <->
             rd zc i j = Fin 1
             /\ fgt (rd (l_m1 l) i j) (Fin k1) = true
             /\ fgt (rd (l_m2 l) i j) (Fin k2) = true
             /\ fgt (rd (l_gta l) i j) (Fin 0) = true)
         /\ (rd (cf out) i j = Fin 1 <->
             rd zc i j = Fin 1
             /\ fgt (rd (l_m1 l) i j) (Fin k1) = true
             /\ fgt (rd (l_m2 l) i j) (Fin k2) = true
             /\ flt (rd (l_gta l) i j) (Fin 0) = true).
Proof.
  intros Hrun. unfold hewson_1998 in Hrun.
  destruct (hewson_masks_spec _ _ _ _ _ _ _ _ Hrun)
    as (l & zc & Hbody & Hzc & _ & _ & _ & _ & _ & Hbin & Hwf & Hcf).
  destruct (hewson_with_inv _ _ _ _ _ _ _ _ Hrun)
    as (l' & Hbody' & _ & _ & Heq6).
  rewrite Hbody in Hbody'. injection Hbody' as <-.
  exists l, zc. splits; auto.
  intros i j. rewrite Hwf, Hcf.
  destruct (binary_of_bool _ (Hbin i j)) as (z & -> & Hz).
  set (t := (fgt (rd (l_m1 l) i j) (Fin k1)
             && fgt (rd (l_m2 l) i j) (Fin k2))%bool).
  replace (if t then of_bool z else Fin 0) with (of_bool (t && z))
    by (destruct t; reflexivity).
  rewrite !fmul_bool_bool.
  assert (Ht : t = true <->
               fgt (rd (l_m1 l) i j) (Fin k1) = true
               /\ fgt (rd (l_m2 l) i j) (Fin k2) = true)
    by apply andb_true_iff.
  splits.
  - apply of_bool_binary.
  - apply of_bool_binary.
  - rewrite !of_bool_one, !andb_true_iff, Ht. tauto.
  - rewrite !of_bool_one, !andb_true_iff, Ht. tauto.
Qed.

Lemma hewson_1998_flagged_cells_witness :
  exists out l zc,
    hewson_1998 ex_contour ex_lat ex_lon ex_theta ex_H850 = Ok out
    /\ hewson_body ex_contour k1 k2 ex_lat ex_lon ex_theta ex_H850 = Ok l
    /\ mask_zero_contour ex_contour ex_lat ex_lon (l_tot_div l) = Ok zc.
Proof.
  destruct (ex_returns k1 k2) as (out & Hrun & _).
  destruct (hewson_1998_flagged_cells _ _ _ _ _ out Hrun)
    as (l & zc & Hl & Hzc & _).
  exists out, l, zc. auto.
Defined.

(** ** Grids whose latitudes decrease *)

Lemma bin_edges_returns (centres : list fval) :
  (2 <= length centres)%nat -> exists edges, bin_edges centres = Ok edges.
Proof.
  intros H. destruct centres as [|c0 [|c1 tl]]; try (simpl in H; lia).
  unfold bin_edges, item. cbn [nth_error bind]. eexists; reflexivity.
Qed.

Lemma first_row_returns (g : farr) :
  (0 < nrows g)%nat ->
  exists l, first_row g = Ok l /\ length l = ncols g.
Proof.
  intros H. unfold first_row.
  replace (nrows g =? 0)%nat with false by (symmetry; apply Nat.eqb_neq; lia).
  eexists; split; [reflexivity|]. now rewrite length_map, length_seq.
Qed.

Lemma decreasing_uniform_edges (c0 d : R) (n : nat) :
  (d < 0)%R -> (2 <= n)%nat -> increasing (uniform_edges c0 d n) = false.
Proof.
  intros Hd Hn. unfold uniform_edges.
  destruct n as [|[|n]]; try lia.
  cbn [seq map app increasing fgt flt].
  replace (Rltb (centre c0 d 1 - d / 2) (centre c0 d 0 - d / 2)) with true;
    [reflexivity|].
  symmetry. apply Rltb_true. unfold centre. simpl. lra.
Qed.

(** X18: [mask_zero_contour] raises [ValueError] on a grid with at least
    two rows of latitudes and two columns of longitudes whose first column
    of latitudes decreases with a constant step, as soon as the contour has
    a path: the bin edges are then decreasing, which the histogram
    refuses. *)
Theorem mask_zero_contour_descending_latitudes_raise
    (contour_paths : farr -> farr -> farr -> result (list path))
    (latGrid lonGrid data : farr) (paths : list path)
    (verts : list (fval * fval)) (a da : R) :
  contour_paths latGrid lonGrid data = Ok paths ->
  gather_vertices paths = Some verts ->
  (2 <= nrows latGrid)%nat -> (0 < ncols latGrid)%nat ->
  (0 < nrows lonGrid)%nat -> (2 <= ncols lonGrid)%nat ->
  (da < 0)%R ->
  (forall i, (i < nrows latGrid)%nat ->
     cell latGrid i 0 = Fin (centre a da i)) ->
  mask_zero_contour contour_paths latGrid lonGrid data = Err ValueError.
Proof.
  intros Hpaths Hverts Hn Hc Hr Hm Hda Hlat.
  unfold mask_zero_contour. rewrite Hpaths; cbn [bind]. rewrite Hverts.
  rewrite (first_col_uniform latGrid a da Hc Hlat); cbn [bind].
  destruct (first_row_returns lonGrid Hr) as (lonc & -> & Hlen). cbn [bind].
  rewrite bin_edges_uniform by assumption; cbn [bind].
  destruct (bin_edges_returns lonc) as (lone & ->); [lia|]. cbn [bind].
  fold (uniform_edges a da (nrows latGrid)).
  unfold histogram2d. now rewrite decreasing_uniform_edges.
Qed.

Lemma mask_zero_contour_descending_latitudes_raise_witness :
  mask_zero_contour (fun _ _ _ => Ok [[(Fin 0.5, Fin 0)]])
    (of_rows [[Fin 1; Fin 1]; [Fin 0; Fin 0]])
    (of_rows [[Fin 0; Fin 1]; [Fin 0; Fin 1]])
    (of_rows [[Fin 1; Fin 1]; [Fin (-1); Fin (-1)]])
  = Err ValueError.
Proof.
  apply (mask_zero_contour_descending_latitudes_raise _ _ _ _
           [[(Fin 0.5, Fin 0)]] [(Fin 0.5, Fin 0)] 1 (-1));
    try reflexivity; try (simpl; lia); try lra.
  intros i Hi. simpl in Hi. unfold centre.
  destruct i as [|[|i]]; try lia; simpl; f_equal; lra.
Defined.

(** ** The distance between two grids *)

Lemma fmul_comm (a b : fval) : fmul a b = fmul b a.
Proof. destruct a, b; cbn [fmul]; try reflexivity. f_equal. lra. Qed.

Lemma fcos_fsub_swap (k : R) (a b : fval) :
  fcos (fmul (Fin k) (fsub a b)) = fcos (fmul (Fin k) (fsub b a)).
Proof.
  destruct a, b; cbn [fsub fneg fadd fmul fcos]; try reflexivity;
    try (unfold inf_times; destruct (Reqb k 0); [reflexivity|];
         now destruct (Rltb 0 k)).
  f_equal. replace (k * (r0 + - r))%R with (- (k * (r + - r0)))%R by lra.
  now rewrite cos_neg.
Qed.

Lemma cosc_cell_sym (lat0 lon0 lat1 lon1 : fval) :
  cosc_cell lat0 lon0 lat1 lon1 = cosc_cell lat1 lon1 lat0 lon0.
Proof.
  unfold cosc_cell.
  rewrite (fmul_comm (fsin (radians lat0))),
    (fmul_comm (fcos (radians lat0))).
  now rewrite fcos_fsub_swap.
Qed.

(** X19: [dist_between_grids] is symmetric: whenever it returns, it
    returns with the two points exchanged, with the same shape and the same
    cells. *)
Theorem dist_between_grids_symmetric (lat0 lon0 lat1 lon1 d : farr) :
  dist_between_grids lat0 lon0 lat1 lon1 = Ok d ->
  exists d',
    dist_between_grids lat1 lon1 lat0 lon0 = Ok d'
    /\ nrows d' = nrows d /\ ncols d' = ncols d
    /\ forall i j, rd d' i j = rd d i j.
Proof.
  intros Hd.
  destruct (dist_inputs_fit _ _ _ _ _ Hd) as (F0 & F1 & F2 & F3).
  destruct (dist_returns d lat1 lon1 lat0 lon0 F2 F3 F0 F1)
    as (d' & Hd' & Fd'd).
  destruct (dist_inputs_fit _ _ _ _ _ Hd') as (G2 & G3 & G0 & G1).
  destruct (dist_returns d' lat0 lon0 lat1 lon1 G0 G1 G2 G3)
    as (d'' & Hd'' & Fdd').
  rewrite Hd in Hd''. injection Hd'' as <-.
  destruct (fits_antisym d' d Fd'd Fdd') as [Hr Hc].
  exists d'; splits; auto.
  intros i j.
  rewrite (dist_pointwise _ _ _ _ _ Hd), (dist_pointwise _ _ _ _ _ Hd').
  unfold dist_cell. now rewrite cosc_cell_sym.
Qed.

Lemma dist_between_grids_symmetric_witness :
  exists d d',
    dist_between_grids (of_rows [[Fin 45; Fin 46]])
      (of_rows [[Fin 10; Fin 11]]) (of_rows [[Fin 40]]) (of_rows [[Fin 12]])
    = Ok d
    /\ dist_between_grids (of_rows [[Fin 40]]) (of_rows [[Fin 12]])
         (of_rows [[Fin 45; Fin 46]]) (of_rows [[Fin 10; Fin 11]]) = Ok d'
    /\ rd d' 0 1 = rd d 0 1.
Proof.
  destruct (dist_returns (of_rows [[Fin 45; Fin 46]])
              (of_rows [[Fin 45; Fin 46]]) (of_rows [[Fin 10; Fin 11]])
              (of_rows [[Fin 40]]) (of_rows [[Fin 12]]))
    as (d & Hd & _); try (split; simpl; auto).
  destruct (dist_between_grids_symmetric _ _ _ _ d Hd)
    as (d' & Hd' & _ & _ & Hcell).
  exists d, d'. auto.
Defined.

Lemma radians_not_finite (x : fval) :
  isfinite x = false -> isfinite (radians x) = false.
Proof.
  assert (Hpi : Rltb 0 PI = true) by (apply Rltb_true, PI_RGT_0).
  assert (Hpi0 : Reqb PI 0 = false)
    by (apply Reqb_false; pose proof PI_RGT_0; lra).
  assert (H180 : Rltb 180 0 = false) by (apply Rltb_false; lra).
  destruct x; simpl; try discriminate; intros _; unfold radians;
    cbn [fmul fdiv]; try reflexivity;
    unfold inf_times; rewrite Hpi0, Hpi; cbn [Bool.eqb fdiv];
    now rewrite H180.
Qed.

Lemma fsin_not_finite (x : fval) : isfinite x = false -> fsin x = NaN.
Proof. destruct x; simpl; try discriminate; reflexivity. Qed.

Lemma fcos_not_finite (x : fval) : isfinite x = false -> fcos x = NaN.
Proof. destruct x; simpl; try discriminate; reflexivity. Qed.

Lemma fsub_not_finite (a b : fval) :
  isfinite a = false \/ isfinite b = false -> isfinite (fsub a b) = false.
Proof. destruct a, b; simpl; intros [H | H]; try discriminate; reflexivity. Qed.

Lemma fmul_scale_not_finite (k : R) (a : fval) :
  isfinite a = false -> isfinite (fmul (Fin k) a) = false.
Proof.
  destruct a; simpl; try discriminate; intros _; try reflexivity;
    unfold inf_times; destruct (Reqb k 0); try reflexivity;
    now destruct (Bool.eqb _ _).
Qed.

Lemma cosc_cell_not_finite (lat0 lon0 lat1 lon1 : fval) :
  (isfinite lat0 && isfinite lon0 && isfinite lat1 && isfinite lon1)%bool
  = false ->
  cosc_cell lat0 lon0 lat1 lon1 = NaN.
Proof.
  intros H. unfold cosc_cell.
  apply andb_false_iff in H as [H | H];
    [apply andb_false_iff in H as [H | H];
     [apply andb_false_iff in H as [H | H]|]|].
  - rewrite (fsin_not_finite _ (radians_not_finite _ H)),
      (fcos_not_finite _ (radians_not_finite _ H)). do 3 nan_simpl; reflexivity.
  - rewrite (fcos_not_finite (fmul _ (fsub lon1 lon0)))
      by (apply fmul_scale_not_finite, fsub_not_finite; now right).
    do 3 nan_simpl; reflexivity.
  - rewrite (fsin_not_finite _ (radians_not_finite _ H)),
      (fcos_not_finite _ (radians_not_finite _ H)). do 3 nan_simpl; reflexivity.
  - rewrite (fcos_not_finite (fmul _ (fsub lon1 lon0)))
      by (apply fmul_scale_not_finite, fsub_not_finite; now left).
    do 3 nan_simpl; reflexivity.
Qed.

(** X20: whenever [dist_between_grids] returns, a cell read from four
    finite coordinates is a finite distance between 0 and half the
    circumference [PI * R_earth], and a cell read from a coordinate that is
    not finite is not-a-number. *)
Theorem dist_between_grids_range (lat0 lon0 lat1 lon1 d : farr) (i j : nat) :
  dist_between_grids lat0 lon0 lat1 lon1 = Ok d ->
  (if (isfinite (rd lat0 i j) && isfinite (rd lon0 i j)
       && isfinite (rd lat1 i j) && isfinite (rd lon1 i j))%bool
   then exists x, rd d i j = Fin x /\ (0 <= x <= PI * R_earth)%R
   else rd d i j = NaN).
Proof.
  intros Hd. rewrite (dist_pointwise _ _ _ _ _ Hd).
  destruct (isfinite (rd lat0 i j) && isfinite (rd lon0 i j)
            && isfinite (rd lat1 i j) && isfinite (rd lon1 i j))%bool eqn:E.
  - apply andb_true_iff in E as [E E4]. apply andb_true_iff in E as [E E3].
    apply andb_true_iff in E as [E1 E2].
    destruct (rd lat0 i j) as [| | |p]; try discriminate.
    destruct (rd lon0 i j) as [| | |l]; try discriminate.
    destruct (rd lat1 i j) as [| | |q]; try discriminate.
    destruct (rd lon1 i j) as [| | |m]; try discriminate.
    pose proof (cosc_cell_fin p l q m) as Hc.
    pose proof (cosc_bound (p * PI / 180) (q * PI / 180)
                  (PI / 180 * (m + - l))) as Hb.
    rewrite (dist_cell_fin _ _ _ _ _ Hc Hb).
    eexists; split; [reflexivity|].
    pose proof (acos_bound
                  (sin (p * PI / 180) * sin (q * PI / 180)
                   + cos (p * PI / 180) * cos (q * PI / 180)
                     * cos (PI / 180 * (m + - l)))) as Ha.
    pose proof R_earth_pos. nra.
  - unfold dist_cell. rewrite (cosc_cell_not_finite _ _ _ _ E).
    reflexivity.
Qed.

Lemma dist_between_grids_range_witness :
  exists d x,
    dist_between_grids (of_rows [[Fin 45; Fin 46]])
      (of_rows [[Fin 10; Fin 11]]) (of_rows [[Fin 40]]) (of_rows [[Fin 12]])
    = Ok d
    /\ rd d 0 1 = Fin x /\ (0 <= x <= PI * R_earth)%R.
Proof.
  destruct (dist_returns (of_rows [[Fin 45; Fin 46]])
              (of_rows [[Fin 45; Fin 46]]) (of_rows [[Fin 10; Fin 11]])
              (of_rows [[Fin 40]]) (of_rows [[Fin 12]]))
    as (d & Hd & _); try (split; simpl; auto).
  pose proof (dist_between_grids_range _ _ _ _ d 0 1 Hd) as H.
  cbn in H. destruct H as (x & Hx & Hb).
  exists d, x. auto.
Defined.

(** ** Whole turns of longitude *)

Lemma cos_whole_turns (k : Z) (x : R) : cos (x + 2 * IZR k * PI) = cos x.
Proof.
  destruct (Z_le_gt_dec 0 k) as [Hk | Hk].
  - rewrite <- (Z2Nat.id k Hk), <- INR_IZR_INZ. apply cos_period.
  - rewrite <- (cos_period (x + 2 * IZR k * PI) (Z.to_nat (- k))).
    f_equal. rewrite INR_IZR_INZ, Z2Nat.id by lia.
    rewrite opp_IZR. lra.
Qed.

Lemma cosc_cell_whole_turns (k0 k1 : Z) (lat0 lon0 lat1 lon1 : fval) :
  cosc_cell lat0 (fadd lon0 (Fin (360 * IZR k0)))
            lat1 (fadd lon1 (Fin (360 * IZR k1)))
  = cosc_cell lat0 lon0 lat1 lon1.
Proof.
  unfold cosc_cell. do 2 f_equal.
  destruct lon0, lon1; cbn [fadd fsub fneg fmul fcos]; try reflexivity.
  f_equal.
  replace (PI / 180 * (r0 + 360 * IZR k1 + - (r + 360 * IZR k0)))
    with (PI / 180 * (r0 + - r) + 2 * IZR (k1 - k0) * PI)
    by (rewrite minus_IZR; lra).
  apply cos_whole_turns.
Qed.

(** X21: adding whole turns of 360 degrees, cell by cell, to either
    grid of longitudes changes neither whether [dist_between_grids] returns
    nor the shape or a cell of its result; cells are exact reals.  The
    corrections [geo_gradient] makes at the seam are of this kind. *)
Theorem dist_between_grids_whole_turns
    (lat0 lon0 lat1 lon1 lon0' lon1' d : farr) :
  shape lon0' = shape lon0 -> shape lon1' = shape lon1 ->
  (forall i j, exists k : Z,
      cell lon0' i j = fadd (cell lon0 i j) (Fin (360 * IZR k))) ->
  (forall i j, exists k : Z,
      cell lon1' i j = fadd (cell lon1 i j) (Fin (360 * IZR k))) ->
  dist_between_grids lat0 lon0 lat1 lon1 = Ok d ->
  exists d',
    dist_between_grids lat0 lon0' lat1 lon1' = Ok d'
    /\ shape d' = shape d
    /\ forall i j, rd d' i j = rd d i j.
Proof.
  intros S0 S1 H0 H1 Hd.
  injection S0 as R0 C0. injection S1 as R1 C1.
  destruct (dist_inputs_fit _ _ _ _ _ Hd) as (F0 & F1 & F2 & F3).
  assert (F1' : fits lon0' d) by (unfold fits in *; rewrite R0, C0; exact F1).
  assert (F3' : fits lon1' d) by (unfold fits in *; rewrite R1, C1; exact F3).
  destruct (dist_returns d lat0 lon0' lat1 lon1' F0 F1' F2 F3')
    as (d' & Hd' & Fd'd).
  destruct (dist_inputs_fit _ _ _ _ _ Hd') as (G0 & G1 & G2 & G3).
  assert (G1' : fits lon0 d') by (unfold fits in *; rewrite <- R0, <- C0; exact G1).
  assert (G3' : fits lon1 d') by (unfold fits in *; rewrite <- R1, <- C1; exact G3).
  destruct (dist_returns d' lat0 lon0 lat1 lon1 G0 G1' G2 G3')
    as (d'' & Hd'' & Fdd').
  rewrite Hd in Hd''. injection Hd'' as <-.
  destruct (fits_antisym d' d Fd'd Fdd') as [Hr Hc].
  exists d'; split; [exact Hd'|]. split; [unfold shape; now rewrite Hr, Hc|].
  intros i j.
  rewrite (dist_pointwise _ _ _ _ _ Hd), (dist_pointwise _ _ _ _ _ Hd').
  unfold dist_cell, rd at 2 4. rewrite R0, C0, R1, C1.
  destruct (H0 (bidx (nrows lon0) i) (bidx (ncols lon0) j)) as [k0 ->].
  destruct (H1 (bidx (nrows lon1) i) (bidx (ncols lon1) j)) as [k1 ->].
  now rewrite cosc_cell_whole_turns.
Qed.

Lemma dist_between_grids_whole_turns_witness :
  exists d d',
    dist_between_grids (of_rows [[Fin 45; Fin 45]])
      (of_rows [[Fin 0; Fin 359]]) (of_rows [[Fin 45; Fin 45]])
      (roll_right (of_rows [[Fin 0; Fin 359]])) = Ok d
    /\ dist_between_grids (of_rows [[Fin 45; Fin 45]])
      (of_rows [[Fin 0; Fin 359]]) (of_rows [[Fin 45; Fin 45]])
      (lon_of_right (of_rows [[Fin 0; Fin 359]])) = Ok d'
    /\ rd d' 0 0 = rd d 0 0.
Proof.
  destruct (dist_returns (of_rows [[Fin 45; Fin 45]])
              (of_rows [[Fin 45; Fin 45]]) (of_rows [[Fin 0; Fin 359]])
              (of_rows [[Fin 45; Fin 45]])
              (roll_right (of_rows [[Fin 0; Fin 359]])))
    as (d & Hd & _); try (split; simpl; auto).
  destruct (dist_between_grids_whole_turns
              (of_rows [[Fin 45; Fin 45]]) (of_rows [[Fin 0; Fin 359]])
              (of_rows [[Fin 45; Fin 45]])
              (roll_right (of_rows [[Fin 0; Fin 359]]))
              (of_rows [[Fin 0; Fin 359]])
              (lon_of_right (of_rows [[Fin 0; Fin 359]])) d
              eq_refl eq_refl) as (d' & Hd' & _ & Hcell); auto.
  - intros i j. exists 0%Z. destruct (cell _ i j); cbn [fadd]; try reflexivity.
    f_equal; lra.
  - intros i j. unfold lon_of_right. cbn [cell].
    destruct j as [|j]; cbn [Nat.eqb].
    + exists (-1)%Z. do 2 f_equal. lra.
    + exists 0%Z. destruct (cell _ i (S j)); cbn [fadd]; try reflexivity.
      f_equal; lra.
  - exists d, d'. auto.
Defined.

(** ** The wind-shift detector in the two hemispheres *)

Lemma flt_fneg_zero (a : fval) : flt (fneg a) (Fin 0) = fgt a (Fin 0).
Proof.
  unfold fgt. destruct a; cbn [fneg flt]; try reflexivity.
  destruct (Rltb (- r) 0) eqn:E1, (Rltb 0 r) eqn:E2; try reflexivity.
  - apply Rltb_true in E1. apply Rltb_false in E2. lra.
  - apply Rltb_false in E1. apply Rltb_true in E2. lra.
Qed.

Lemma fgt_fneg_zero (a : fval) : fgt (fneg a) (Fin 0) = flt a (Fin 0).
Proof.
  unfold fgt. destruct a; cbn [fneg flt]; try reflexivity.
  destruct (Rltb 0 (- r)) eqn:E1, (Rltb r 0) eqn:E2; try reflexivity.
  - apply Rltb_true in E1. apply Rltb_false in E2. lra.
  - apply Rltb_false in E1. apply Rltb_true in E2. lra.
Qed.

Lemma fabs_fneg (a : fval) : fabs (fneg a) = fabs a.
Proof. destruct a; cbn [fneg fabs]; try reflexivity. now rewrite Rabs_Ropp. Qed.

Lemma fneg_fneg (a : fval) : fneg (fneg a) = a.
Proof. destruct a; cbn [fneg]; try reflexivity. f_equal. lra. Qed.

Lemma fmul_fneg_fneg (a b : fval) : fmul (fneg a) (fneg b) = fmul a b.
Proof.
  destruct a, b; cbn [fneg fmul]; try reflexivity.
  - unfold inf_times.
    destruct (Reqb (- r) 0) eqn:E1, (Reqb r 0) eqn:E2; try reflexivity;
      try (apply Reqb_true in E1; apply Reqb_false in E2; lra);
      try (apply Reqb_false in E1; apply Reqb_true in E2; lra).
    apply Reqb_false in E2.
    destruct (Rltb 0 (- r)) eqn:E3, (Rltb 0 r) eqn:E4; try reflexivity.
    + apply Rltb_true in E3, E4. lra.
    + apply Rltb_false in E3, E4. lra.
  - unfold inf_times.
    destruct (Reqb (- r) 0) eqn:E1, (Reqb r 0) eqn:E2; try reflexivity;
      try (apply Reqb_true in E1; apply Reqb_false in E2; lra);
      try (apply Reqb_false in E1; apply Reqb_true in E2; lra).
    apply Reqb_false in E2.
    destruct (Rltb 0 (- r)) eqn:E3, (Rltb 0 r) eqn:E4; try reflexivity.
    + apply Rltb_true in E3, E4. lra.
    + apply Rltb_false in E3, E4. lra.
  - unfold inf_times.
    destruct (Reqb (- r) 0) eqn:E1, (Reqb r 0) eqn:E2; try reflexivity;
      try (apply Reqb_true in E1; apply Reqb_false in E2; lra);
      try (apply Reqb_false in E1; apply Reqb_true in E2; lra).
    apply Reqb_false in E2.
    destruct (Rltb 0 (- r)) eqn:E3, (Rltb 0 r) eqn:E4; try reflexivity.
    + apply Rltb_true in E3, E4. lra.
    + apply Rltb_false in E3, E4. lra.
  - unfold inf_times.
    destruct (Reqb (- r) 0) eqn:E1, (Reqb r 0) eqn:E2; try reflexivity;
      try (apply Reqb_true in E1; apply Reqb_false in E2; lra);
      try (apply Reqb_false in E1; apply Reqb_true in E2; lra).
    apply Reqb_false in E2.
    destruct (Rltb 0 (- r)) eqn:E3, (Rltb 0 r) eqn:E4; try reflexivity.
    + apply Rltb_true in E3, E4. lra.
    + apply Rltb_false in E3, E4. lra.
  - f_equal. lra.
Qed.

Lemma simmonds_cell_mirror (lat u_prior v_prior u v : fval) :
  simmonds_cell (fneg lat) u_prior (fneg v_prior) u (fneg v)
  = simmonds_cell lat u_prior v_prior u v.
Proof.
  unfold simmonds_cell.
  rewrite !fabs_fneg, fmul_fneg_fneg, !fgt_fneg_zero, !flt_fneg_zero.
  f_equal. f_equal. f_equal. f_equal. apply orb_comm.
Qed.

(** X22: the wind-shift detector is symmetric under the mirror image on
    the equator: negating the latitudes and both meridional winds gives the
    same mask. *)
Theorem simmonds_mirror_symmetry
    (latGrid lonGrid u_prior v_prior u v out : farr) :
  simmonds_et_al_2012 latGrid lonGrid u_prior v_prior u v = Ok out ->
  exists out',
    simmonds_et_al_2012 (map1 fneg latGrid) lonGrid u_prior
      (map1 fneg v_prior) u (map1 fneg v) = Ok out'
    /\ nrows out' = nrows out /\ ncols out' = ncols out
    /\ forall i j, rd out' i j = rd out i j.
Proof.
  intros Hout.
  destruct (simmonds_inputs_fit _ _ _ _ _ _ _ Hout)
    as (F1 & F2 & F3 & F4 & F5).
  destruct (simmonds_returns out (map1 fneg latGrid) lonGrid u_prior
              (map1 fneg v_prior) u (map1 fneg v))
    as (out' & Hout' & Fo'); auto.
  destruct (simmonds_inputs_fit _ _ _ _ _ _ _ Hout')
    as (G1 & G2 & G3 & G4 & G5).
  destruct (simmonds_returns out' latGrid lonGrid u_prior v_prior u v)
    as (out'' & Hout'' & Fo''); auto.
  rewrite Hout in Hout''. injection Hout'' as <-.
  destruct (fits_antisym out' out Fo' Fo'') as [Hr Hc].
  exists out'; splits; auto.
  intros i j.
  rewrite (simmonds_pointwise _ _ _ _ _ _ _ Hout),
    (simmonds_pointwise _ _ _ _ _ _ _ Hout').
  rewrite !rd_map1. now rewrite simmonds_cell_mirror.
Qed.

Lemma simmonds_mirror_symmetry_witness :
  exists out out',
    simmonds_et_al_2012 (of_rows [[Fin 10]]) (of_rows [[Fin 0]])
      (of_rows [[Fin 1]]) (of_rows [[Fin 3]]) (of_rows [[Fin 1]])
      (of_rows [[Fin (-0.5)]]) = Ok out
    /\ simmonds_et_al_2012 (map1 fneg (of_rows [[Fin 10]])) (of_rows [[Fin 0]])
         (of_rows [[Fin 1]]) (map1 fneg (of_rows [[Fin 3]]))
         (of_rows [[Fin 1]]) (map1 fneg (of_rows [[Fin (-0.5)]])) = Ok out'
    /\ rd out' 0 0 = rd out 0 0.
Proof.
  destruct (simmonds_returns (of_rows [[Fin 10]]) (of_rows [[Fin 10]])
              (of_rows [[Fin 0]]) (of_rows [[Fin 1]]) (of_rows [[Fin 3]])
              (of_rows [[Fin 1]]) (of_rows [[Fin (-0.5)]]))
    as (out & Hout & _); try (split; simpl; auto).
  destruct (simmonds_mirror_symmetry _ _ _ _ _ _ out Hout)
    as (out' & Hout' & _ & _ & Hcell).
  exists out, out'. auto.
Defined.

(** ** The potential temperature *)

Lemma theta_pointwise (temp pres out : farr) :
  theta_from_temp_pres temp pres = Ok out ->
  forall i j,
    rd out i j =
    fmul (rd temp i j) (fpow (fdiv (Fin 1000) (rd pres i j)) (2 / 7)).
Proof.
  unfold theta_from_temp_pres; intros H i j. inv_np. rd_unfold. reflexivity.
Qed.

Lemma fmul_one_r (a : fval) : fmul a (Fin 1) = a.
Proof.
  destruct a; cbn [fmul]; try reflexivity.
  - unfold inf_times.
    replace (Reqb 1 0) with false by (symmetry; apply Reqb_false; lra).
    now replace (Rltb 0 1) with true by (symmetry; apply Rltb_true; lra).
  - unfold inf_times.
    replace (Reqb 1 0) with false by (symmetry; apply Reqb_false; lra).
    now replace (Rltb 0 1) with true by (symmetry; apply Rltb_true; lra).
  - f_equal. lra.
Qed.

(** X23: whenever [theta_from_temp_pres] returns: at a cell with
    pressure 1000 theta is the temperature; at a cell with a negative
    pressure theta is not-a-number; and at a cell with a temperature that is
    not negative, theta at a pressure [q] is at most theta at any positive
    pressure [p <= q]. *)
Theorem theta_reference_and_negative_pressure (temp pres out : farr) :
  theta_from_temp_pres temp pres = Ok out ->
  forall i j,
    (rd pres i j = Fin 1000 -> rd out i j = rd temp i j)
    /\ (forall p, (p < 0)%R -> rd pres i j = Fin p -> rd out i j = NaN)
    /\ (forall t p q, (0 <= t)%R -> (0 < p <= q)%R ->
          rd temp i j = Fin t -> rd pres i j = Fin q ->
          exists x y,
            rd out i j = Fin x
            /\ fmul (Fin t) (fpow (fdiv (Fin 1000) (Fin p)) (2 / 7)) = Fin y
            /\ (0 <= x <= y)%R).
Proof.
  intros Hout i j. rewrite (theta_pointwise _ _ _ Hout). splits.
  - intros ->. rewrite fdiv_fin by lra.
    replace (1000 / 1000)%R with 1%R by lra. unfold fpow.
    replace (Rltb 1 0) with false by (symmetry; apply Rltb_false; lra).
    replace (Reqb 1 0) with false by (symmetry; apply Reqb_false; lra).
    unfold Rpower. rewrite ln_1, Rmult_0_r, exp_0. apply fmul_one_r.
  - intros p Hp ->. rewrite fdiv_fin by lra. unfold fpow.
    replace (Rltb (1000 / p) 0) with true; [now nan_simpl|].
    symmetry. apply Rltb_true.
    pose proof (Rinv_lt_0_compat p Hp). unfold Rdiv. nra.
  - intros t p q Ht [Hp Hpq] -> ->. rewrite !fdiv_fin by lra.
    assert (Hq : (0 < 1000 / q)%R)
      by (apply Rdiv_lt_0_compat; lra).
    assert (Hpq' : (1000 / q <= 1000 / p)%R).
    { unfold Rdiv. apply Rmult_le_compat_l; [lra|].
      apply Rinv_le_contravar; lra. }
    unfold fpow.
    replace (Rltb (1000 / q) 0) with false by (symmetry; apply Rltb_false; lra).
    replace (Reqb (1000 / q) 0) with false by (symmetry; apply Reqb_false; lra).
    replace (Rltb (1000 / p) 0) with false by (symmetry; apply Rltb_false; lra).
    replace (Reqb (1000 / p) 0) with false by (symmetry; apply Reqb_false; lra).
    cbn [fmul]. do 2 eexists. split; [reflexivity|]. split; [reflexivity|].
    assert (Hmono : (Rpower (1000 / q) (2 / 7) <= Rpower (1000 / p) (2 / 7))%R)
      by (apply Rle_Rpower_l; lra).
    assert (Hpos : (0 < Rpower (1000 / q) (2 / 7))%R)
      by (unfold Rpower; apply exp_pos).
    split; nra.
Qed.

Lemma theta_reference_and_negative_pressure_witness :
  exists out,
    theta_from_temp_pres (of_rows [[Fin 280; Fin 290]])
      (of_rows [[Fin 1000; Fin (-5)]]) = Ok out
    /\ rd out 0 0 = Fin 280 /\ rd out 0 1 = NaN.
Proof.
  destruct (theta_returns (of_rows [[Fin 280; Fin 290]])
              (of_rows [[Fin 280; Fin 290]]) (of_rows [[Fin 1000; Fin (-5)]]))
    as (out & Hout & _); try (split; simpl; auto).
  exists out; split; [exact Hout|].
  pose proof (theta_reference_and_negative_pressure _ _ _ Hout) as H.
  split.
  - apply (proj1 (H 0%nat 0%nat)). reflexivity.
  - apply (proj1 (proj2 (H 0%nat 1%nat)) (-5)%R); [lra|reflexivity].
Defined.

(** ** The gradient and the divergence on the whole grid *)

(** X24: on grids of one shape, [geo_gradient] raises [IndexError] when
    the grids have no column, and returns two derivatives of the shape of the
    grid when they have one. *)
Theorem geo_gradient_needs_a_column (lat lon data : farr) :
  nrows lon = nrows lat -> ncols lon = ncols lat ->
  nrows data = nrows lat -> ncols data = ncols lat ->
  (ncols lat = 0%nat -> geo_gradient lat lon data = Err IndexError)
  /\ ((0 < ncols lat)%nat ->
      exists dx dy,
        geo_gradient lat lon data = Ok (dx, dy)
        /\ shape dx = shape lat /\ shape dy = shape lat).
Proof.
  intros Hr1 Hc1 Hr2 Hc2. split.
  - intros H0. unfold geo_gradient. cbn [four_corner_shift].
    unfold add_last_col. cbn [roll_left ncols]. rewrite Hc1, H0.
    reflexivity.
  - intros Hc.
    destruct (geo_gradient_cells lat lon data Hr1 Hc1 Hr2 Hc2 Hc)
      as (dx & dy & Hg & Hxr & Hxc & Hyr & Hyc & _).
    exists dx, dy. unfold shape. rewrite Hxr, Hxc, Hyr, Hyc. auto.
Qed.

Lemma geo_gradient_needs_a_column_witness :
  geo_gradient (mk_nd 2 0 (fun _ _ => Fin 0)) (mk_nd 2 0 (fun _ _ => Fin 0))
    (mk_nd 2 0 (fun _ _ => Fin 0)) = Err IndexError.
Proof.
  apply (proj1 (geo_gradient_needs_a_column
                  (mk_nd 2 0 (fun _ _ => Fin 0)) (mk_nd 2 0 (fun _ _ => Fin 0))
                  (mk_nd 2 0 (fun _ _ => Fin 0))
                  eq_refl eq_refl eq_refl eq_refl)).
  reflexivity.
Defined.

(** X25: on grids of one shape with at least one column
    [geo_divergence] returns the sum of the x-derivative of [x] and the
    y-derivative of [y], of the shape of the grid; the divergence is
    not-a-number in the first and in the last row, and wherever [y] is
    missing at the cell, above it or below it. *)
Theorem geo_divergence_missing_rows (lat lon x y : farr) :
  nrows lon = nrows lat -> ncols lon = ncols lat ->
  nrows x = nrows lat -> ncols x = ncols lat ->
  nrows y = nrows lat -> ncols y = ncols lat ->
  (0 < ncols lat)%nat ->
  exists x_dx x_dy y_dx y_dy div,
    geo_gradient lat lon x = Ok (x_dx, x_dy)
    /\ geo_gradient lat lon y = Ok (y_dx, y_dy)
    /\ geo_divergence lat lon x y = Ok div
    /\ nrows div = nrows lat /\ ncols div = ncols lat
    /\ forall i j, (i < nrows lat)%nat -> (j < ncols lat)%nat ->
         cell div i j = fadd (cell x_dx i j) (cell y_dy i j)
         /\ ((i = 0%nat \/ (i + 1)%nat = nrows lat
              \/ cell y (i - 1) j = NaN \/ cell y i j = NaN
              \/ cell y (i + 1) j = NaN) ->
             cell div i j = NaN).
Proof.
  intros Hr1 Hc1 Hr2 Hc2 Hr3 Hc3 Hc.
  destruct (geo_gradient_cells lat lon x Hr1 Hc1 Hr2 Hc2 Hc)
    as (x_dx & x_dy & Hgx & Hxr & Hxc & _).
  destruct (geo_gradient_cells lat lon y Hr1 Hc1 Hr3 Hc3 Hc)
    as (y_dx & y_dy & Hgy & _ & _ & Hyr & Hyc & _).
  assert (Hdiv : okfull lat (lift2 fadd (Ok x_dx) (Ok y_dy))) by full_tac.
  destruct Hdiv as (div & Hdiv & Hdr & Hdc).
  exists x_dx, x_dy, y_dx, y_dy, div.
  splits; auto.
  - unfold geo_divergence. rewrite Hgx. cbn [bind]. rewrite Hgy. cbn [bind].
    exact Hdiv.
  - intros i j Hi Hj.
    assert (Hcell : cell div i j = fadd (cell x_dx i j) (cell y_dy i j)).
    { rewrite <- (rd_in_range div i j) by lia. inv_np. rd_unfold.
      now rewrite !rd_in_range by lia. }
    split; [exact Hcell|].
    intros Hcase. rewrite Hcell.
    rewrite (dy_missing lat lon y y_dx y_dy i j) by auto.
    now nan_simpl.
Qed.

Lemma geo_divergence_missing_rows_witness :
  exists div,
    geo_divergence ex_lat ex_lon ex_theta ex_H850 = Ok div
    /\ cell div 0 1 = NaN /\ cell div 2 1 = NaN.
Proof.
  destruct (geo_divergence_missing_rows ex_lat ex_lon ex_theta ex_H850)
    as (x_dx & x_dy & y_dx & y_dy & div & _ & _ & Hdiv & _ & _ & Hcell);
    try reflexivity; try (simpl; lia).
  exists div; split; [exact Hdiv|]. split.
  - apply (Hcell 0%nat 1%nat); simpl; lia.
  - apply (Hcell 2%nat 1%nat); simpl; lia.
Defined.

(** ** The four shifts *)

Lemma mod_pred_succ (n j : nat) :
  (j < n)%nat -> (((j + 1) mod n + (n - 1)) mod n = j)%nat.
Proof.
  intros Hj. destruct (Nat.eq_dec (j + 1) n) as [E | E].
  - rewrite E, Nat.Div0.mod_same. cbn [Nat.add].
    rewrite Nat.mod_small by lia. lia.
  - rewrite (Nat.mod_small (j + 1)) by lia.
    replace (j + 1 + (n - 1))%nat with (j + 1 * n)%nat by lia.
    rewrite Nat.Div0.mod_add. apply Nat.mod_small; lia.
Qed.

Lemma mod_succ_pred (n j : nat) :
  (j < n)%nat -> (((j + (n - 1)) mod n + 1) mod n = j)%nat.
Proof.
  intros Hj. destruct j as [|j].
  - cbn [Nat.add]. rewrite (Nat.mod_small (n - 1)) by lia.
    replace (n - 1 + 1)%nat with n by lia. apply Nat.Div0.mod_same.
  - replace (S j + (n - 1))%nat with (j + 1 * n)%nat by lia.
    rewrite Nat.Div0.mod_add, (Nat.mod_small j) by lia.
    rewrite Nat.mod_small by lia. lia.
Qed.

(** X26: the four shifts of [four_corner_shift] keep the shape of the
    array; the left and the right shift undo each other at every cell; the
    up and the down shift undo each other except in the row that was pushed
    out, which comes back as not-a-number (the first row after down then up,
    the last row after up then down). *)
Theorem four_corner_shift_round_trip
    (arr up down lft rgt up_d down_u rgt_l lft_r : farr)
    (a1 a2 a3 b0 b2 b3 c0 c1 c2 d0 d1 d3 : farr) :
  four_corner_shift arr 1 = (up, down, lft, rgt) ->
  four_corner_shift down 1 = (up_d, a1, a2, a3) ->
  four_corner_shift up 1 = (b0, down_u, b2, b3) ->
  four_corner_shift lft 1 = (c0, c1, c2, rgt_l) ->
  four_corner_shift rgt 1 = (d0, d1, lft_r, d3) ->
  (shape up = shape arr /\ shape down = shape arr
   /\ shape lft = shape arr /\ shape rgt = shape arr)
  /\ forall i j, (i < nrows arr)%nat -> (j < ncols arr)%nat ->
       cell rgt_l i j = cell arr i j
       /\ cell lft_r i j = cell arr i j
       /\ cell up_d i j = (if (i =? 0)%nat then NaN else cell arr i j)
       /\ cell down_u i j =
          (if (i + 1 =? nrows arr)%nat then NaN else cell arr i j).
Proof.
  cbn [four_corner_shift].
  intros [= <- <- <- <-] [= <- _ _ _] [= _ <- _ _] [= _ _ _ <-] [= _ _ <- _].
  split; [splits; reflexivity|].
  intros i j Hi Hj.
  cbn [roll_left roll_right shift_up shift_down cell nrows ncols]. splits.
  - now rewrite mod_succ_pred.
  - now rewrite mod_pred_succ.
  - destruct i as [|i]; [reflexivity|].
    replace (S i <? 1)%nat with false by (symmetry; apply Nat.ltb_ge; lia).
    replace (S i - 1 + 1 <? nrows arr)%nat with true
      by (symmetry; apply Nat.ltb_lt; lia).
    cbn [Nat.eqb]. f_equal; lia.
  - change (1 =? 0)%nat with false; cbv iota.
    destruct (Nat.eqb_spec (i + 1) (nrows arr)) as [E | E].
    + replace (i + 1 <? nrows arr)%nat with false
        by (symmetry; apply Nat.ltb_ge; lia).
      reflexivity.
    + replace (i + 1 <? nrows arr)%nat with true
        by (symmetry; apply Nat.ltb_lt; lia).
      replace (i + 1 <? 1)%nat with false
        by (symmetry; apply Nat.ltb_ge; lia).
      f_equal; lia.
Qed.

Lemma four_corner_shift_round_trip_witness :
  cell (roll_right (roll_left (of_rows [[Fin 1; Fin 2; Fin 3]]))) 0 2 = Fin 3.
Proof.
  destruct (four_corner_shift_round_trip
              (of_rows [[Fin 1; Fin 2; Fin 3]])
              _ _ _ _ _ _ _ _ _ _ _ _ _ _ _ _ _ _ _ _
              eq_refl eq_refl eq_refl eq_refl eq_refl) as [_ H].
  apply (H 0%nat 2%nat); simpl; lia.
Defined.

(** ** The one-sided differences and the distances of the older gradient *)

Lemma auto_derivative_pointwise (data dx dy : farr) :
  auto_derivative data = Ok (dx, dy) ->
  (0 < ncols data)%nat
  /\ forall i j,
       rd dx i j = fsub (rd data i j) (rd (roll_right data) i j)
       /\ rd dy i j = fsub (rd data i j) (rd (shift_up 1 data) i j).
Proof.
  unfold auto_derivative, wrap_right.
  destruct (Nat.eqb_spec (ncols data) 0) as [E | E]; [discriminate|].
  cbn [bind]. intros H. split; [lia|]. intros i j.
  inv_np. injection H as <- <-. rd_unfold. split; reflexivity.
Qed.

Lemma auto_derivative_full (L data : farr) :
  okfull L (Ok data) -> (0 < ncols L)%nat ->
  exists dx dy,
    auto_derivative data = Ok (dx, dy)
    /\ full L dx /\ full L dy.
Proof.
  intros (? & [= <-] & Hr & Hc) Hpos.
  unfold auto_derivative, wrap_right.
  destruct (Nat.eqb_spec (ncols data) 0) as [E | E]; [lia|].
  cbn [bind].
  full_step L. full_step L.
  eexists _, _; split; [reflexivity|]. split; split; assumption.
Qed.

Lemma compute_dist_grids_pointwise (lat lon distX distY : farr) :
  compute_dist_grids lat lon = Ok (distX, distY) ->
  exists dxLat dyLat dxLon dyLon,
    auto_derivative lat = Ok (dxLat, dyLat)
    /\ auto_derivative lon = Ok (dxLon, dyLon)
    /\ forall i j,
         rd distX i j
         = grid_step_cell (rd lat i j) (rd dxLat i j) (rd dxLon i j)
         /\ rd distY i j
            = grid_step_cell (rd lat i j) (rd dyLat i j) (rd dyLon i j).
Proof.
  unfold compute_dist_grids. intros H.
  apply bind_ok in H as ([dxLat dyLat] & Hlat & H).
  apply bind_ok in H as ([dxLon dyLon] & Hlon & H).
  exists dxLat, dyLat, dxLon, dyLon. split; [exact Hlat|].
  split; [exact Hlon|]. intros i j.
  inv_np. injection H as <- <-. rd_unfold. split; reflexivity.
Qed.

Lemma compute_dist_grids_full (lat lon : farr) :
  okfull lat (Ok lon) -> (0 < ncols lat)%nat ->
  exists distX distY,
    compute_dist_grids lat lon = Ok (distX, distY)
    /\ full lat distX /\ full lat distY.
Proof.
  intros Hlon Hpos.
  destruct (auto_derivative_full lat lat) as (dxLat & dyLat & Hlat & [] & []);
    [apply okfull_ret'; reflexivity|exact Hpos|].
  destruct (auto_derivative_full lat lon Hlon Hpos)
    as (dxLon & dyLon & Hlon' & [] & []).
  destruct Hlon as (? & [= <-] & Hr & Hc).
  unfold compute_dist_grids. rewrite Hlat, Hlon'. cbn [bind].
  repeat full_step lat.
  eexists _, _; split; [reflexivity|]. split; split; assumption.
Qed.

(** The differences of [auto_derivative] cell by cell. *)
Lemma auto_derivative_cells (data dx dy : farr) (i j : nat) :
  auto_derivative data = Ok (dx, dy) ->
  (i < nrows data)%nat -> (j < ncols data)%nat ->
  rd dx i j
  = fsub (cell data i j) (cell data i (left_of (ncols data) j))
  /\ rd dy i j
     = fsub (cell data i j)
            (if (i =? 0)%nat then NaN else cell data (i - 1) j).
Proof.
  intros H Hi Hj.
  destruct (auto_derivative_pointwise _ _ _ H) as [_ Hp].
  destruct (Hp i j) as [-> ->].
  rewrite !rd_in_range by (cbn [nrows ncols roll_right shift_up Nat.eqb]; lia).
  cbn [cell roll_right shift_up]. unfold left_of.
  now destruct i.
Qed.

(** ** The haversine step at one cell *)

Lemma grid_step_a_fin (p dp dl l : R) :
  grid_step_a (Fin p) (Fin dp) (Fin dl)
  = haversine_a (Fin p) (Fin l) (Fin (p + dp)) (Fin (l + dl)).
Proof.
  unfold grid_step_a, haversine_a. cbn [fadd]. rewrite !radians_fin.
  cbn [fadd fsub fneg fmul fdiv fsin fcos].
  replace (Reqb 2 0) with false by (symmetry; apply Reqb_false; lra).
  apply (f_equal Fin).
  replace ((p * PI / 180 + - ((p + dp) * PI / 180)) / 2)
    with (- (dp * PI / 180 / 2)) by lra.
  replace ((l * PI / 180 + - ((l + dl) * PI / 180)) / 2)
    with (- (dl * PI / 180 / 2)) by lra.
  rewrite !sin_neg. lra.
Qed.

Lemma grid_step_cell_fin (p dp dl l a : R) :
  haversine_a (Fin p) (Fin l) (Fin (p + dp)) (Fin (l + dl)) = Fin a ->
  (0 <= a <= 1)%R ->
  grid_step_cell (Fin p) (Fin dp) (Fin dl)
  = Fin (1000 * (mean_radius_earth * acos (1 - 2 * a))).
Proof.
  intros Ha Hb. unfold grid_step_cell.
  rewrite (grid_step_a_fin p dp dl l), Ha. simpl.
  replace (Rltb a 0) with false by (symmetry; apply Rltb_false; lra).
  replace (Rltb (1 + - a) 0) with false by (symmetry; apply Rltb_false; lra).
  simpl. f_equal.
  replace (1 + - a)%R with (1 - a)%R by lra.
  pose proof (hav_angle a Hb). nra.
Qed.

Lemma acos_cos_abs (x : R) : (Rabs x <= PI)%R -> acos (cos x) = Rabs x.
Proof.
  intros Hx. destruct (Rle_lt_dec 0 x) as [H | H].
  - rewrite Rabs_right in * by lra. apply acos_cos; lra.
  - rewrite Rabs_left in * by lra. rewrite <- cos_neg. apply acos_cos; lra.
Qed.

(** Along a meridian the step is the arc between the two latitudes. *)
Lemma grid_step_meridian (p pn l : R) :
  (Rabs (p - pn) <= 180)%R ->
  grid_step_cell (Fin p) (fsub (Fin p) (Fin pn)) (fsub (Fin l) (Fin l))
  = Fin (1000 * (mean_radius_earth * (Rabs (p - pn) * PI / 180))).
Proof.
  intros Hd. cbn [fsub fneg fadd].
  destruct (haversine_a_fin p l (p + (p + - pn)) (l + (l + - l)))
    as (a & Ha & Hb & Hc).
  rewrite (grid_step_cell_fin _ _ _ l a Ha Hb).
  rewrite cosc_cell_fin in Hc. injection Hc as Hc.
  do 3 f_equal. rewrite <- Hc.
  replace (PI / 180 * (l + (l + - l) + - l)) with 0 by lra.
  rewrite cos_0, Rmult_1_r.
  set (P := p * PI / 180). set (Q := (p + (p + - pn)) * PI / 180).
  replace (sin P * sin Q + cos P * cos Q) with (cos (P - Q))
    by (rewrite cos_minus; lra).
  replace (P - Q) with (- ((p - pn) * PI / 180)) by (unfold P, Q; lra).
  rewrite cos_neg, acos_cos_abs.
  - pose proof PI_RGT_0.
    unfold Rdiv. rewrite !Rabs_mult, (Rabs_right PI), (Rabs_right (/ 180));
      lra.
  - pose proof PI_RGT_0.
    unfold Rdiv. rewrite !Rabs_mult, (Rabs_right PI), (Rabs_right (/ 180))
      by lra. nra.
Qed.

(** The difference of a cell with itself over the step from a point to
    itself is a missing value. *)
Lemma step_to_itself (d p l : fval) :
  fdiv (fsub d d) (grid_step_cell p (fsub p p) (fsub l l)) = NaN.
Proof.
  destruct d as [| | |v]; try reflexivity.
  assert (E2 : Reqb 2 0 = false) by (apply Reqb_false; lra).
  destruct p as [| | |p], l as [| | |l]; try reflexivity;
    try (unfold grid_step_cell, grid_step_a; cbn [fsub fneg fadd];
         rewrite ?radians_fin; cbn [radians fmul fdiv fsin fcos fadd];
         rewrite ?E2; cbn [radians fmul fdiv fsin fcos fadd fsqrt farctan2];
         reflexivity).
  rewrite grid_step_meridian
    by (replace (p - p) with 0 by lra; rewrite Rabs_R0; lra).
  cbn [fsub fneg fadd fdiv].
  replace (p - p) with 0 by lra. rewrite Rabs_R0.
  replace (Reqb _ 0) with true by (symmetry; apply Reqb_true; lra).
  replace (Reqb _ 0) with true by (symmetry; apply Reqb_true; lra).
  reflexivity.
Qed.

Lemma grid_step_missing (p x : fval) : grid_step_cell p NaN x = NaN.
Proof. reflexivity. Qed.

(** The step is the arc from the cell to the mirror image of the
    neighbour: the point as far beyond the cell as the neighbour is before
    it. *)
Lemma grid_step_reflected (p l pn ln : R) :
  exists angle,
    (0 <= angle <= PI)%R
    /\ grid_step_cell (Fin p) (fsub (Fin p) (Fin pn)) (fsub (Fin l) (Fin ln))
       = Fin (1000 * (mean_radius_earth * angle))
    /\ dist_cell (Fin p) (Fin l) (Fin (2 * p - pn)) (Fin (2 * l - ln))
       = Fin (angle * R_earth).
Proof.
  cbn [fsub fneg fadd].
  destruct (haversine_a_fin p l (p + (p + - pn)) (l + (l + - ln)))
    as (a & Ha & Hb & Hc).
  exists (acos (1 - 2 * a)). split; [apply acos_bound|]. split.
  - now apply (grid_step_cell_fin _ _ _ l).
  - replace (2 * p - pn) with (p + (p + - pn)) by lra.
    replace (2 * l - ln) with (l + (l + - ln)) by lra.
    apply dist_cell_fin; [exact Hc|lra].
Qed.

(** The distances of [compute_dist_grids] cell by cell, on grids of one
    shape with a column. *)
Lemma compute_dist_grids_cells (lat lon : farr) :
  shape lon = shape lat -> (0 < ncols lat)%nat ->
  exists distX distY,
    compute_dist_grids lat lon = Ok (distX, distY)
    /\ full lat distX /\ full lat distY
    /\ forall i j, (i < nrows lat)%nat -> (j < ncols lat)%nat ->
         cell distX i j
         = grid_step_cell (cell lat i j)
             (fsub (cell lat i j) (cell lat i (left_of (ncols lat) j)))
             (fsub (cell lon i j) (cell lon i (left_of (ncols lat) j)))
         /\ cell distY i j
            = grid_step_cell (cell lat i j)
                (fsub (cell lat i j)
                      (if (i =? 0)%nat then NaN else cell lat (i - 1) j))
                (fsub (cell lon i j)
                      (if (i =? 0)%nat then NaN else cell lon (i - 1) j)).
Proof.
  intros [= Hr Hc] Hpos.
  destruct (compute_dist_grids_full lat lon) as (distX & distY & H & FX & FY);
    [now apply okfull_ret'|exact Hpos|].
  exists distX, distY. split; [exact H|]. split; [exact FX|].
  split; [exact FY|]. intros i j Hi Hj.
  destruct (compute_dist_grids_pointwise _ _ _ _ H)
    as (dxLat & dyLat & dxLon & dyLon & Hlat & Hlon & Hp).
  destruct FX as [FXr FXc], FY as [FYr FYc].
  rewrite <- (rd_in_range distX i j), <- (rd_in_range distY i j) by lia.
  destruct (Hp i j) as [-> ->].
  destruct (auto_derivative_cells _ _ _ i j Hlat Hi Hj) as [-> ->].
  destruct (auto_derivative_cells lon _ _ i j Hlon) as [-> ->]; try lia.
  rewrite !rd_in_range by lia. rewrite Hc. split; reflexivity.
Qed.

(** X27: on grids of one shape with at least one column
    [compute_dist_grids] returns two grids of that shape.  With finite
    coordinates, a distance is 6371000 m times the central angle between the
    cell and the mirror image of its neighbour (the left neighbour around
    the seam for [distX], the upper one for [distY]): the point [2 p - pn],
    [2 l - ln], for which [dist_between_grids] gives the same angle.  Down a
    meridian [distY] is the arc between the two latitudes, and in the first
    row, which has no upper neighbour, it is not-a-number; cells are exact
    reals. *)
Theorem compute_dist_grids_reflected_neighbour (lat lon : farr) :
  shape lon = shape lat -> (0 < ncols lat)%nat ->
  exists distX distY,
    compute_dist_grids lat lon = Ok (distX, distY)
    /\ shape distX = shape lat /\ shape distY = shape lat
    /\ (forall j, (0 < nrows lat)%nat -> (j < ncols lat)%nat ->
          cell distY 0 j = NaN)
    /\ forall i j p l pn ln,
         (i < nrows lat)%nat -> (j < ncols lat)%nat ->
         cell lat i j = Fin p -> cell lon i j = Fin l ->
         (cell lat i (left_of (ncols lat) j) = Fin pn ->
          cell lon i (left_of (ncols lat) j) = Fin ln ->
          exists angle,
            (0 <= angle <= PI)%R
            /\ cell distX i j = Fin (1000 * (mean_radius_earth * angle))
            /\ dist_cell (Fin p) (Fin l) (Fin (2 * p - pn))
                 (Fin (2 * l - ln)) = Fin (angle * R_earth))
         /\ ((0 < i)%nat ->
             cell lat (i - 1) j = Fin pn -> cell lon (i - 1) j = Fin ln ->
             (exists angle,
                (0 <= angle <= PI)%R
                /\ cell distY i j = Fin (1000 * (mean_radius_earth * angle))
                /\ dist_cell (Fin p) (Fin l) (Fin (2 * p - pn))
                     (Fin (2 * l - ln)) = Fin (angle * R_earth))
             /\ (ln = l -> (Rabs (p - pn) <= 180)%R ->
                 cell distY i j
                 = Fin (1000 * (mean_radius_earth
                                * (Rabs (p - pn) * PI / 180))))).
Proof.
  intros Hs Hpos.
  destruct (compute_dist_grids_cells lat lon Hs Hpos)
    as (distX & distY & H & [FXr FXc] & [FYr FYc] & Hcell).
  exists distX, distY. split; [exact H|].
  split; [unfold shape; now rewrite FXr, FXc|].
  split; [unfold shape; now rewrite FYr, FYc|].
  split.
  - intros j Hi Hj. destruct (Hcell 0%nat j Hi Hj) as [_ ->].
    cbn [Nat.eqb]. rewrite fsub_nan_r. apply grid_step_missing.
  - intros i j p l pn ln Hi Hj Hp Hl.
    destruct (Hcell i j Hi Hj) as [HX HY]. rewrite Hp, Hl in HX, HY. split.
    + intros Hpn Hln. rewrite HX, Hpn, Hln. apply grid_step_reflected.
    + intros Hi0 Hpn Hln.
      replace (i =? 0)%nat with false in HY
        by (symmetry; apply Nat.eqb_neq; lia).
      rewrite HY, Hpn, Hln. split; [apply grid_step_reflected|].
      intros -> Hd. now apply grid_step_meridian.
Qed.

Lemma compute_dist_grids_reflected_neighbour_witness :
  exists distX distY,
    compute_dist_grids (of_rows [[Fin 10; Fin 10]; [Fin 11; Fin 11]])
      (of_rows [[Fin 0; Fin 1]; [Fin 0; Fin 1]]) = Ok (distX, distY)
    /\ cell distY 0 1 = NaN
    /\ cell distY 1 1
       = Fin (1000 * (mean_radius_earth * (Rabs (11 - 10) * PI / 180))).
Proof.
  destruct (compute_dist_grids_reflected_neighbour
              (of_rows [[Fin 10; Fin 10]; [Fin 11; Fin 11]])
              (of_rows [[Fin 0; Fin 1]; [Fin 0; Fin 1]]))
    as (distX & distY & H & _ & _ & H0 & Hcell);
    [reflexivity|simpl; lia|].
  exists distX, distY. split; [exact H|]. split.
  - apply H0; simpl; lia.
  - destruct (Hcell 1%nat 1%nat 11 1 10 1) as [_ Hy];
      try reflexivity; try (simpl; lia).
    apply Hy; try reflexivity; try lia.
    replace (11 - 10) with 1 by lra. rewrite Rabs_R1. lra.
Defined.

(** ** The older gradient *)

Lemma left_of_single (j : nat) : left_of 1 j = 0%nat.
Proof. unfold left_of. apply Nat.mod_1_r. Qed.

(** X28: on grids of one shape with at least one column
    [geo_gradient_old] returns two derivatives of that shape.  The
    y-derivative is not-a-number in the first row; on a grid with a single
    column the x-derivative is not-a-number everywhere; and down a meridian,
    between two rows of different finite latitudes, the y-derivative is the
    backward difference of the data over the arc between the two latitudes
    on a sphere of radius 6371000 m; cells are exact reals. *)
Theorem geo_gradient_old_backward_difference (lat lon data : farr) :
  shape lon = shape lat -> shape data = shape lat ->
  (0 < ncols lat)%nat ->
  exists dx dy,
    geo_gradient_old lat lon data = Ok (dx, dy)
    /\ shape dx = shape lat /\ shape dy = shape lat
    /\ (forall j, (0 < nrows lat)%nat -> (j < ncols lat)%nat ->
          cell dy 0 j = NaN)
    /\ (ncols lat = 1%nat ->
        forall i, (i < nrows lat)%nat -> cell dx i 0 = NaN)
    /\ forall i j p pn l v vn,
         (0 < i < nrows lat)%nat -> (j < ncols lat)%nat ->
         cell lat i j = Fin p -> cell lat (i - 1) j = Fin pn ->
         cell lon i j = Fin l -> cell lon (i - 1) j = Fin l ->
         cell data i j = Fin v -> cell data (i - 1) j = Fin vn ->
         p <> pn -> (Rabs (p - pn) <= 180)%R ->
         cell dy i j
         = Fin ((v - vn)
                / (1000 * (mean_radius_earth * (Rabs (p - pn) * PI / 180)))).
Proof.
  intros Hs [= Hdr Hdc] Hpos.
  destruct (compute_dist_grids_cells lat lon Hs Hpos)
    as (distX & distY & Hdist & [FXr FXc] & [FYr FYc] & Hcell).
  destruct (auto_derivative_full lat data) as (ddx & ddy & Hder & [] & []);
    [now apply okfull_ret'|exact Hpos|].
  assert (Hx : okfull lat (lift2 fdiv (Ok ddx) (Ok distX))) by full_tac.
  assert (Hy : okfull lat (lift2 fdiv (Ok ddy) (Ok distY))) by full_tac.
  destruct Hx as (dx & Hx & Hxr & Hxc), Hy as (dy & Hy & Hyr & Hyc).
  exists dx, dy.
  assert (Hrun : geo_gradient_old lat lon data = Ok (dx, dy)).
  { unfold geo_gradient_old. rewrite Hder. cbn [bind]. rewrite Hdist.
    cbn [bind]. rewrite Hx. cbn [bind]. rewrite Hy. reflexivity. }
  assert (Hdx : forall i j, (i < nrows lat)%nat -> (j < ncols lat)%nat ->
            cell dx i j
            = fdiv (fsub (cell data i j)
                      (cell data i (left_of (ncols lat) j)))
                   (cell distX i j)).
  { intros i j Hi Hj. rewrite <- (rd_in_range dx i j) by lia.
    apply lift2_ok in Hx as (? & ? & [= <-] & [= <-] & _ & _ & ->).
    destruct (auto_derivative_cells _ _ _ i j Hder) as [-> _]; try lia.
    rewrite Hdc. now rewrite rd_in_range by lia. }
  assert (Hdy : forall i j, (i < nrows lat)%nat -> (j < ncols lat)%nat ->
            cell dy i j
            = fdiv (fsub (cell data i j)
                      (if (i =? 0)%nat then NaN else cell data (i - 1) j))
                   (cell distY i j)).
  { intros i j Hi Hj. rewrite <- (rd_in_range dy i j) by lia.
    apply lift2_ok in Hy as (? & ? & [= <-] & [= <-] & _ & _ & ->).
    destruct (auto_derivative_cells _ _ _ i j Hder) as [_ ->]; try lia.
    now rewrite rd_in_range by lia. }
  split; [exact Hrun|].
  split; [unfold shape; now rewrite Hxr, Hxc|].
  split; [unfold shape; now rewrite Hyr, Hyc|].
  split; [|split].
  - intros j Hi Hj. rewrite Hdy by lia. cbn [Nat.eqb].
    now rewrite fsub_nan_r.
  - intros Hone i Hi. rewrite Hdx by lia.
    destruct (Hcell i 0%nat Hi Hpos) as [-> _].
    rewrite Hone, left_of_single. apply step_to_itself.
  - intros i j p pn l v vn Hi Hj Hp Hpn Hl Hln Hv Hvn Hne Hd.
    rewrite Hdy by lia. destruct (Hcell i j) as [_ ->]; try lia.
    replace (i =? 0)%nat with false by (symmetry; apply Nat.eqb_neq; lia).
    rewrite Hp, Hpn, Hl, Hln, Hv, Hvn, grid_step_meridian by exact Hd.
    cbn [fsub fneg fadd fdiv].
    assert (Hpos' : 0 < 1000 * (mean_radius_earth
                                 * (Rabs (p - pn) * PI / 180))).
    { pose proof PI_RGT_0. unfold mean_radius_earth.
      assert (0 < Rabs (p - pn)) by (apply Rabs_pos_lt; lra). nra. }
    replace (Reqb _ 0) with false by (symmetry; apply Reqb_false; lra).
    reflexivity.
Qed.

Lemma geo_gradient_old_backward_difference_witness :
  exists dx dy,
    geo_gradient_old (of_rows [[Fin 10]; [Fin 11]])
      (of_rows [[Fin 0]; [Fin 0]]) (of_rows [[Fin 280]; [Fin 283]])
    = Ok (dx, dy)
    /\ cell dy 0 0 = NaN /\ cell dx 1 0 = NaN
    /\ cell dy 1 0
       = Fin ((283 - 280)
              / (1000 * (mean_radius_earth * (Rabs (11 - 10) * PI / 180)))).
Proof.
  destruct (geo_gradient_old_backward_difference
              (of_rows [[Fin 10]; [Fin 11]]) (of_rows [[Fin 0]; [Fin 0]])
              (of_rows [[Fin 280]; [Fin 283]]))
    as (dx & dy & H & _ & _ & H0 & H1 & Hcell);
    [reflexivity|reflexivity|simpl; lia|].
  exists dx, dy. split; [exact H|]. split; [|split].
  - apply H0; simpl; lia.
  - apply H1; [reflexivity|simpl; lia].
  - apply (Hcell 1%nat 0%nat 11 10 0 283 280);
      try reflexivity; try (simpl; lia); try lra.
    replace (11 - 10) with 1 by lra. rewrite Rabs_R1. lra.
Defined.

(** ** The distance in degrees *)





(** ** The broadcast shape of several grids *)

Lemma bdim_result (m n k : nat) : bdim m n = Some k -> k = m \/ k = n.
Proof.
  unfold bdim.
  destruct (m =? n)%nat; [intros [= <-]; auto|].
  destruct (m =? 1)%nat; [intros [= <-]; auto|].
  destruct (n =? 1)%nat; [intros [= <-]; auto|discriminate].
Qed.

Lemma bdim_same (n : nat) : bdim n n = Some n.
Proof. unfold bdim. now rewrite Nat.eqb_refl. Qed.

Lemma bdim_one_l (n : nat) : bdim 1 n = Some n.
Proof.
  unfold bdim. destruct (Nat.eqb_spec 1 n); [now subst|reflexivity].
Qed.

(** Lengths that are all [n] or 1 are broadcast to [n], or are all 1. *)
Lemma bdims_all (l : list nat) (n : nat) :
  (forall x, In x l -> x = n \/ x = 1%nat) ->
  bdims l = Some n
  \/ (bdims l = Some 1%nat /\ forall x, In x l -> x = 1%nat).
Proof.
  induction l as [|a tl IH]; intros H.
  - right. split; [reflexivity|intros x []].
  - cbn [bdims].
    destruct IH as [E | [E Hall]]; [intros x Hx; apply H; now right| |];
      rewrite E; destruct (H a (or_introl eq_refl)) as [-> | ->].
    + left. apply bdim_same.
    + left. apply bdim_one_l.
    + left. apply bdim_one_r.
    + right. split; [reflexivity|].
      intros x [<- | Hx]; [reflexivity|now apply Hall].
Qed.

Lemma bdims_some (l : list nat) (n : nat) :
  bdims l = Some n ->
  (forall x, In x l -> x = n \/ x = 1%nat) /\ (n = 1%nat \/ In n l).
Proof.
  revert n. induction l as [|a tl IH]; intros n.
  - intros [= <-]. split; [intros x []|now left].
  - cbn [bdims]. destruct (bdims tl) as [m|]; [|discriminate].
    intros H. destruct (IH m eq_refl) as [Hall Hin].
    pose proof (bdim_result _ _ _ H) as Hres.
    apply bdim_some in H as [Ha Hm]. split.
    + intros x [<- | Hx]; [exact Ha|].
      destruct (Hall x Hx) as [-> | ->]; [exact Hm|now right].
    + destruct Hres as [-> | ->]; [right; now left|].
      destruct Hin as [-> | Hin]; [now left|right; now right].
Qed.

(** The broadcast length is the only length the lengths fit that itself
    fits it. *)
Lemma bdims_unique (l : list nat) (n x : nat) :
  bdims l = Some n ->
  (forall m, In m l -> m = x \/ m = 1%nat) ->
  x = n \/ x = 1%nat -> x = n.
Proof.
  intros Hn Hall [-> | ->]; [reflexivity|].
  destruct (bdims_all l 1 Hall) as [E | [E _]];
    rewrite E in Hn; now injection Hn.
Qed.

Lemma bdims_tight (l : list nat) (x : nat) :
  (forall m, In m l -> m = x \/ m = 1%nat) -> In x l -> bdims l = Some x.
Proof.
  intros Hall Hin. destruct (bdims_all l x Hall) as [E | [E H1]]; [exact E|].
  now rewrite <- (H1 x Hin) in E.
Qed.

Lemma in_map_rows (arrs : list farr) (m : nat) :
  In m (map fst (map shape arrs)) -> exists a, In a arrs /\ nrows a = m.
Proof.
  rewrite map_map. intros H. apply in_map_iff in H as (a & <- & Ha).
  now exists a.
Qed.

Lemma in_map_cols (arrs : list farr) (m : nat) :
  In m (map snd (map shape arrs)) -> exists a, In a arrs /\ ncols a = m.
Proof.
  rewrite map_map. intros H. apply in_map_iff in H as (a & <- & Ha).
  now exists a.
Qed.

(** Grids that all fit one array have a broadcast shape. *)
Lemma fits_all_broadcast {B : Type} (arrs : list farr) (X : ndarray B) :
  (forall a, In a arrs -> fits a X) ->
  exists s, broadcast_shapes (map shape arrs) = Some s.
Proof.
  intros H. unfold broadcast_shapes.
  destruct (bdims_all (map fst (map shape arrs)) (nrows X)) as [-> | [-> _]];
    try (intros m Hm; apply in_map_rows in Hm as (a & Ha & <-);
         now destruct (H a Ha));
    (destruct (bdims_all (map snd (map shape arrs)) (ncols X))
       as [-> | [-> _]];
     try (intros m Hm; apply in_map_cols in Hm as (a & Ha & <-);
          now destruct (H a Ha)));
    eauto.
Qed.

(** Every grid fits an array of the broadcast shape. *)
Lemma broadcast_shapes_fits {B : Type}
    (arrs : list farr) (s : nat * nat) (L : ndarray B) :
  broadcast_shapes (map shape arrs) = Some s -> shape L = s ->
  forall a, In a arrs -> fits a L.
Proof.
  unfold broadcast_shapes.
  destruct (bdims (map fst (map shape arrs))) as [r|] eqn:Er; [|discriminate].
  destruct (bdims (map snd (map shape arrs))) as [c|] eqn:Ec; [|discriminate].
  intros [= <-] [= Hr Hc] a Ha.
  apply bdims_some in Er as [Er _], Ec as [Ec _]. split.
  - rewrite Hr. apply Er. rewrite map_map. apply in_map_iff. now exists a.
  - rewrite Hc. apply Ec. rewrite map_map. apply in_map_iff. now exists a.
Qed.

(** A result every grid fits, and that fits an array of the broadcast
    shape, has the broadcast shape. *)
Lemma broadcast_shapes_unique {B C : Type}
    (arrs : list farr) (s : nat * nat) (X : ndarray B) (L : ndarray C) :
  broadcast_shapes (map shape arrs) = Some s -> shape L = s ->
  (forall a, In a arrs -> fits a X) -> fits X L ->
  shape X = s.
Proof.
  unfold broadcast_shapes.
  destruct (bdims (map fst (map shape arrs))) as [r|] eqn:Er; [|discriminate].
  destruct (bdims (map snd (map shape arrs))) as [c|] eqn:Ec; [|discriminate].
  intros [= <-] [= Hr Hc] Hall [Fr Fc]. unfold shape. f_equal.
  - apply (bdims_unique _ _ _ Er); [|now rewrite <- Hr].
    intros m Hm. apply in_map_rows in Hm as (a & Ha & <-).
    now destruct (Hall a Ha).
  - apply (bdims_unique _ _ _ Ec); [|now rewrite <- Hc].
    intros m Hm. apply in_map_cols in Hm as (a & Ha & <-).
    now destruct (Hall a Ha).
Qed.

(** Grids that fit an array which has the rows of one of them and the
    columns of one of them are broadcast to its shape. *)
Lemma broadcast_shapes_tight {B : Type}
    (arrs : list farr) (X : ndarray B) (a b : farr) :
  (forall c, In c arrs -> fits c X) ->
  In a arrs -> nrows a = nrows X -> In b arrs -> ncols b = ncols X ->
  broadcast_shapes (map shape arrs) = Some (shape X).
Proof.
  intros Hall Ha Hr Hb Hc. unfold broadcast_shapes.
  rewrite (bdims_tight _ (nrows X)), (bdims_tight _ (ncols X)).
  - reflexivity.
  - intros m Hm. apply in_map_cols in Hm as (c & Hc' & <-).
    now destruct (Hall c Hc').
  - rewrite map_map. apply in_map_iff. now exists b.
  - intros m Hm. apply in_map_rows in Hm as (c & Hc' & <-).
    now destruct (Hall c Hc').
  - rewrite map_map. apply in_map_iff. now exists a.
Qed.

(** ** Unequal shapes *)

(** An array of a given shape. *)
Lemma shape_mk_nd {A : Type} (r c : nat) (f : nat -> nat -> A) :
  shape (mk_nd r c f) = (r, c).
Proof. reflexivity. Qed.

(** The wind-shift detector on any five grids: a mask of the broadcast
    shape, or [ValueError] when there is none. *)
Lemma simmonds_broadcast (latGrid lonGrid u_prior v_prior u v : farr) :
  match broadcast_shapes
          [shape latGrid; shape u_prior; shape v_prior; shape u; shape v] with
  | Some s =>
      exists out,
        simmonds_et_al_2012 latGrid lonGrid u_prior v_prior u v = Ok out
        /\ shape out = s
  | None =>
      simmonds_et_al_2012 latGrid lonGrid u_prior v_prior u v
      = Err ValueError
  end.
Proof.
  change [shape latGrid; shape u_prior; shape v_prior; shape u; shape v]
    with (map shape [latGrid; u_prior; v_prior; u; v]).
  destruct (broadcast_shapes _) as [[r c]|] eqn:E.
  - set (L := mk_nd r c (fun _ _ => NaN)).
    pose proof (broadcast_shapes_fits _ _ L E eq_refl) as F.
    destruct (simmonds_returns L latGrid lonGrid u_prior v_prior u v)
      as (out & Hout & Fout); try (apply F; simpl; tauto).
    exists out; split; [exact Hout|].
    apply (broadcast_shapes_unique _ _ out L E eq_refl); [|exact Fout].
    destruct (simmonds_inputs_fit _ _ _ _ _ _ _ Hout) as (? & ? & ? & ? & ?).
    intros a [<- | [<- | [<- | [<- | [<- | []]]]]]; assumption.
  - destruct (simmonds_et_al_2012 _ _ _ _ _ _) as [out|e] eqn:Hrun.
    + destruct (simmonds_inputs_fit _ _ _ _ _ _ _ Hrun) as (? & ? & ? & ? & ?).
      destruct (fits_all_broadcast [latGrid; u_prior; v_prior; u; v] out)
        as (s & Hs); [|congruence].
      intros a [<- | [<- | [<- | [<- | [<- | []]]]]]; assumption.
    + f_equal. exact (simmonds_raises_only _ _ _ _ _ _ e Hrun).
Qed.

(** The potential temperature on any two grids. *)
Lemma theta_broadcast (temp pres : farr) :
  match broadcast_shapes [shape temp; shape pres] with
  | Some s =>
      exists out, theta_from_temp_pres temp pres = Ok out /\ shape out = s
  | None => theta_from_temp_pres temp pres = Err ValueError
  end.
Proof.
  change [shape temp; shape pres] with (map shape [temp; pres]).
  destruct (broadcast_shapes _) as [[r c]|] eqn:E.
  - set (L := mk_nd r c (fun _ _ => NaN)).
    pose proof (broadcast_shapes_fits _ _ L E eq_refl) as F.
    destruct (theta_returns L temp pres) as (out & Hout & Fout);
      try (apply F; simpl; tauto).
    exists out; split; [exact Hout|].
    apply (broadcast_shapes_unique _ _ out L E eq_refl); [|exact Fout].
    destruct (theta_inputs_fit _ _ _ Hout) as (? & ? & _).
    intros a [<- | [<- | []]]; assumption.
  - destruct (theta_from_temp_pres _ _) as [out|e] eqn:Hrun.
    + destruct (theta_inputs_fit _ _ _ Hrun) as (? & ? & _).
      destruct (fits_all_broadcast [temp; pres] out) as (s & Hs);
        [|congruence].
      intros a [<- | [<- | []]]; assumption.
    + f_equal. exact (theta_raises_only _ _ e Hrun).
Qed.

Lemma dist_raises_only (lat0 lon0 lat1 lon1 : farr) :
  raises_only ValueError (dist_between_grids lat0 lon0 lat1 lon1).
Proof.
  unfold dist_between_grids, np_sin, np_cos, np_arccos.
  apply raises_only_bind; [raises_tac|intros cosc; raises_tac].
Qed.

(** With a column of longitudes the gradient fails by [ValueError] only. *)
Lemma geo_gradient_raises_only (lat lon data : farr) :
  (0 < ncols lon)%nat ->
  raises_only ValueError (geo_gradient lat lon data).
Proof.
  intros Hc. unfold geo_gradient; cbn [four_corner_shift].
  rewrite add_last_col_returns by exact Hc. cbn [bind].
  rewrite add_first_col_returns by exact Hc. cbn [bind].
  repeat (apply raises_only_bind;
          [first [apply dist_raises_only | raises_tac]|intros ?]).
  apply raises_only_ret.
Qed.

Lemma geo_gradient_no_column (lat lon data : farr) :
  ncols lon = 0%nat -> geo_gradient lat lon data = Err IndexError.
Proof.
  intros Hc. unfold geo_gradient; cbn [four_corner_shift].
  unfold add_last_col. cbn [ncols roll_left]. now rewrite Hc.
Qed.

(** The gradient on any three grids. *)
Lemma geo_gradient_broadcast (lat lon data : farr) :
  if (ncols lon =? 0)%nat then geo_gradient lat lon data = Err IndexError
  else
    match broadcast_shapes [shape lat; shape lon; shape data] with
    | Some s =>
        exists dx dy,
          geo_gradient lat lon data = Ok (dx, dy)
          /\ shape dx = s /\ shape dy = s
    | None => geo_gradient lat lon data = Err ValueError
    end.
Proof.
  destruct (Nat.eqb_spec (ncols lon) 0) as [Hc | Hc];
    [now apply geo_gradient_no_column|].
  assert (Hpos : (0 < ncols lon)%nat) by lia.
  change [shape lat; shape lon; shape data]
    with (map shape [lat; lon; data]).
  destruct (broadcast_shapes _) as [[r c]|] eqn:E.
  - set (L := mk_nd r c (fun _ _ => NaN)).
    pose proof (broadcast_shapes_fits _ _ L E eq_refl) as F.
    destruct (geo_gradient_returns L lat lon data)
      as (dx & dy & Hrun & Fdx & Fdy);
      try (apply F; simpl; tauto); [exact Hpos|].
    exists dx, dy; split; [exact Hrun|].
    destruct (geo_gradient_pointwise _ _ _ _ _ Hrun)
      as (_ & ? & ? & ? & ? & ? & ? & _).
    split.
    + apply (broadcast_shapes_unique _ _ dx L E eq_refl); [|exact Fdx].
      intros a [<- | [<- | [<- | []]]]; assumption.
    + apply (broadcast_shapes_unique _ _ dy L E eq_refl); [|exact Fdy].
      intros a [<- | [<- | [<- | []]]]; assumption.
  - destruct (geo_gradient lat lon data) as [[dx dy]|e] eqn:Hrun.
    + destruct (geo_gradient_pointwise _ _ _ _ _ Hrun)
        as (_ & ? & ? & ? & _).
      destruct (fits_all_broadcast [lat; lon; data] dy) as (s & Hs);
        [|congruence].
      intros a [<- | [<- | [<- | []]]]; assumption.
    + f_equal. exact (geo_gradient_raises_only lat lon data Hpos e Hrun).
Qed.

Lemma bin_edges_two_centres (centres edges : list fval) :
  bin_edges centres = Ok edges -> (2 <= length centres)%nat.
Proof.
  unfold bin_edges. intros H. apply bind_ok in H as (e1 & H1 & _).
  unfold item in H1. destruct (nth_error centres 1) eqn:E; [|discriminate].
  assert (Hlt : (1 < length centres)%nat)
    by (apply nth_error_Some; congruence).
  lia.
Qed.

(** The rasteriser returns only on a grid with at least two rows of
    latitudes and two columns of longitudes. *)
Lemma mask_zero_contour_two_centres
    (contour_paths : farr -> farr -> farr -> result (list path))
    (latGrid lonGrid data zc : farr) :
  mask_zero_contour contour_paths latGrid lonGrid data = Ok zc ->
  (2 <= nrows latGrid)%nat /\ (2 <= ncols lonGrid)%nat.
Proof.
  unfold mask_zero_contour. intros H.
  apply bind_ok in H as (paths & _ & H).
  apply bind_ok in H as (latc & Hlatc & H).
  apply bind_ok in H as (lonc & Hlonc & H).
  apply bind_ok in H as (late & Hlate & H).
  apply bind_ok in H as (lone & Hlone & _).
  rewrite <- (length_first_col _ _ Hlatc), <- (length_first_row _ _ Hlonc).
  split; eauto using bin_edges_two_centres.
Qed.

(** The geopotential and the gradient of theta are broadcast to the
    advection. *)
Lemma hewson_advection_inputs_fit
    (latGrid lonGrid H850 gx gy rot_param Vx Vy gta : farr) :
  hewson_advection latGrid lonGrid H850 gx gy = Ok (rot_param, Vx, Vy, gta) ->
  fits H850 gta /\ fits gx gta /\ fits gy gta.
Proof.
  unfold hewson_advection; cbn [four_corner_shift]. intros H.
  apply bind_ok in H as (rot0 & _ & H).
  apply bind_ok in H as (sel70 & _ & H).
  apply bind_ok in H as (rot1 & _ & H).
  apply bind_ok in H as (sel20 & _ & H).
  apply bind_ok in H as (rot2 & _ & H).
  apply bind_ok in H as (dz_y & Hdzy & H).
  apply bind_ok in H as (dy & _ & H).
  apply bind_ok in H as (dz_x & _ & H).
  apply bind_ok in H as (dx & _ & H).
  apply bind_ok in H as (Vy' & HVy & H).
  apply bind_ok in H as (Vx' & HVx & H).
  apply bind_ok in H as (vgx & Hvgx & H).
  apply bind_ok in H as (vgy & Hvgy & H).
  apply bind_ok in H as (gta' & Hgta & H).
  injection H as <- <- <- <-.
  inv_np.
  assert (FH : fits H850 (shift_down 1 H850)) by (split; left; reflexivity).
  splits; [fits_up 12%nat|fits_up 12%nat|fits_up 12%nat].
Qed.

(** Whenever the thermal-front detector returns, its four grids have a
    broadcast shape, and both masks have it. *)
Lemma hewson_broadcast_shape
    (contour_paths : farr -> farr -> farr -> result (list path))
    (latGrid lonGrid theta H850 : farr) (out : hewson_out) :
  hewson_1998 contour_paths latGrid lonGrid theta H850 = Ok out ->
  broadcast_shapes [shape latGrid; shape lonGrid; shape theta; shape H850]
  = Some (shape (wf out))
  /\ shape (cf out) = shape (wf out).
Proof.
  unfold hewson_1998. intros H.
  destruct (hewson_masks_spec _ _ _ _ _ _ _ _ H)
    as (l & zc_raw & Hbody & Hzc & Hcr & Hcc & _ & _ & Fgta & _).
  destruct (hewson_with_inv _ _ _ _ _ _ _ _ H) as (l' & Hbody' & Hwf & _).
  rewrite Hbody in Hbody'. injection Hbody' as <-.
  destruct (hewson_body_inv _ _ _ _ _ _ _ _ Hbody)
    as (gNorm & mux & muy & abs_mu & zc0 & sel & Hloc & _ & _ & _ & Hzc0
        & _ & Hset & Hadv & _).
  rewrite Hzc in Hzc0. injection Hzc0 as <-.
  destruct (mask_zero_contour_shape _ _ _ _ _ Hzc) as [Hzr Hzc'].
  destruct (mask_zero_contour_two_centres _ _ _ _ _ Hzc) as [Hn Hm].
  apply set_where_ok in Hset as ([Hsr Hsc] & _).
  apply map2_ok in Hwf as (_ & [Fzr Fzc] & _).
  assert (Hrows : nrows latGrid = nrows (wf out)) by lia.
  assert (Hcols : ncols lonGrid = ncols (wf out)) by lia.
  unfold hewson_locating in Hloc.
  apply bind_ok in Hloc as ([gx gy] & Hgrad & Hloc).
  assert (E : gx = l_gx l).
  { repeat (apply bind_ok in Hloc as ([? ?] & _ & Hloc)
            || apply bind_ok in Hloc as (? & _ & Hloc)).
    now injection Hloc. }
  subst gx.
  destruct (geo_gradient_pointwise _ _ _ _ _ Hgrad)
    as (_ & _ & _ & _ & Flat & Flon & Ftheta & _).
  destruct (hewson_advection_inputs_fit _ _ _ _ _ _ _ _ _ Hadv)
    as (FH & Fgx & _).
  split; [|unfold shape; now rewrite Hcr, Hcc].
  change [shape latGrid; shape lonGrid; shape theta; shape H850]
    with (map shape [latGrid; lonGrid; theta; H850]).
  apply (broadcast_shapes_tight _ (wf out) latGrid lonGrid);
    try (simpl; tauto); try assumption.
  intros a [<- | [<- | [<- | [<- | []]]]].
  - exact (fits_trans _ _ _ Flat (fits_trans _ _ _ Fgx Fgta)).
  - exact (fits_trans _ _ _ Flon (fits_trans _ _ _ Fgx Fgta)).
  - exact (fits_trans _ _ _ Ftheta (fits_trans _ _ _ Fgx Fgta)).
  - exact (fits_trans _ _ _ FH Fgta).
Qed.

(** ** The thermal-front detector with a geopotential of another shape *)

(** The advection with a geopotential grid that is only broadcast to the
    grid. *)
Lemma hewson_advection_fit (latGrid lonGrid H850 gx gy : farr) :
  okfull latGrid (Ok lonGrid) -> fits H850 latGrid ->
  okfull latGrid (Ok gx) -> okfull latGrid (Ok gy) ->
  returns (hewson_advection latGrid lonGrid H850 gx gy)
    (fun t => full latGrid (snd t)).
Proof.
  intros (? & [= <-] & Hlr & Hlc) FH
         (? & [= <-] & Hxr & Hxc) (? & [= <-] & Hyr & Hyc).
  unfold hewson_advection. cbv zeta. cbn [four_corner_shift].
  run_expr latGrid. run_expr latGrid. run_set_where latGrid.
  run_expr latGrid. run_set_where latGrid.
  apply (returns_bind _ _ (fun x => fits x latGrid));
    [apply okfit_lift2; apply okfit_ret; exact FH|intros dz_y Fdzy].
  run_dist latGrid.
  apply (returns_bind _ _ (fun x => fits x latGrid));
    [apply okfit_lift2; apply okfit_ret; exact FH|intros dz_x Fdzx].
  run_dist latGrid.
  apply (returns_bind_full latGrid);
    [apply okfull_lift2_l; [apply okfull_ret'; assumption|];
     apply okfit_lift2; [now apply okfit_ret|];
     apply okfull_okfit, okfull_ret'; assumption
    |intros Vy HVr HVc; cbv beta].
  apply (returns_bind_full latGrid);
    [apply okfull_lift2_l; [apply okfull_ret'; assumption|];
     apply okfit_lift2; [now apply okfit_ret|];
     apply okfull_okfit, okfull_ret'; assumption
    |intros Vx HXr HXc; cbv beta].
  run_expr latGrid. run_expr latGrid. run_expr latGrid.
  apply returns_ret. split; assumption.
Qed.

Lemma hewson_body_fit
    (contour_paths : farr -> farr -> farr -> result (list path))
    (ka1 ka2 : R) (latGrid lonGrid theta H850 : farr) (a da b db : R) :
  okfull latGrid (Ok lonGrid) -> okfull latGrid (Ok theta) ->
  fits H850 latGrid ->
  (2 <= nrows latGrid)%nat -> (2 <= ncols latGrid)%nat ->
  (0 < da)%R -> (0 < db)%R ->
  (forall i, (i < nrows latGrid)%nat ->
     cell latGrid i 0 = Fin (centre a da i)) ->
  (forall j, (j < ncols lonGrid)%nat ->
     cell lonGrid 0 j = Fin (centre b db j)) ->
  (forall data, exists paths verts,
     contour_paths latGrid lonGrid data = Ok paths
     /\ gather_vertices paths = Some verts) ->
  returns (hewson_body contour_paths ka1 ka2 latGrid lonGrid theta H850)
    (fun l => full latGrid (l_wf_mask l) /\ full latGrid (l_cf_mask l)
              /\ full latGrid (l_zc_6 l) /\ full latGrid (l_tot_div l)).
Proof.
  intros Hlon Htheta HH Hn Hm Hda Hdb Hlat Hlong Hengine.
  assert (Hc : (0 < ncols latGrid)%nat) by lia.
  unfold hewson_body.
  destruct (hewson_locating_full latGrid lonGrid theta Hlon Htheta Hc)
    as (gx & gy & gNorm & mux & muy & abs_mu & m1 & m2 & Hloc
        & Hgx & Hgy & Hmux & Hmuy & Habs & Hm1 & Hm2).
  apply (returns_bind _ _ (fun t => t = (gx, gy, gNorm, mux, muy, abs_mu,
                                          m1, m2)));
    [exists (gx, gy, gNorm, mux, muy, abs_mu, m1, m2); auto|].
  intros t ->.
  pose proof Hlon as (? & [= <-] & Hlr & Hlc).
  pose proof Hm1 as (? & [= <-] & Hm1r & Hm1c).
  pose proof Hm2 as (? & [= <-] & Hm2r & Hm2c).
  run_expr latGrid. run_expr latGrid.
  apply (returns_bind _ _ (full latGrid));
    [now apply hewson_tot_div_full|intros tot_div [Htr Htc]].
  destruct (Hengine tot_div) as (paths & verts & Hp & Hv).
  rewrite (mask_zero_contour_uniform _ _ _ _ paths verts a da b db Hp Hv)
    by (assumption || lia).
  cbn [bind].
  run_expr latGrid. run_set_where latGrid.
  apply (returns_bind _ _ (fun t => full latGrid (snd t)));
    [now apply hewson_advection_fit|].
  intros [[[rot_param Vx] Vy] gta] [Hgr Hgc]; cbn [snd] in Hgr, Hgc.
  run_expr latGrid. run_expr latGrid.
  apply returns_ret; cbn [l_wf_mask l_cf_mask l_zc_6 l_tot_div].
  unfold full; auto 8.
Qed.

(** On a regular grid the detector accepts a geopotential grid of another
    shape, as long as it can be broadcast to the grid. *)
Lemma hewson_1998_accepts_broadcast_geopotential
    (contour_paths : farr -> farr -> farr -> result (list path))
    (latGrid lonGrid theta H850 : farr) (a da b db : R) :
  shape lonGrid = shape latGrid -> shape theta = shape latGrid ->
  fits H850 latGrid ->
  (2 <= nrows latGrid)%nat -> (2 <= ncols latGrid)%nat ->
  (0 < da)%R -> (0 < db)%R ->
  (forall i, (i < nrows latGrid)%nat ->
     cell latGrid i 0 = Fin (centre a da i)) ->
  (forall j, (j < ncols lonGrid)%nat ->
     cell lonGrid 0 j = Fin (centre b db j)) ->
  (forall data, exists paths verts,
     contour_paths latGrid lonGrid data = Ok paths
     /\ gather_vertices paths = Some verts) ->
  exists out,
    hewson_1998 contour_paths latGrid lonGrid theta H850 = Ok out
    /\ shape (wf out) = shape latGrid /\ shape (cf out) = shape latGrid.
Proof.
  intros [= Hlr Hlc] [= Htr Htc] FH Hn Hm Hda Hdb Hlat Hlong Hengine.
  unfold hewson_1998, hewson_with.
  destruct (hewson_body_fit contour_paths k1 k2 latGrid lonGrid theta H850
              a da b db)
    as (l & -> & [Hwr Hwc] & [Hcr Hcc] & [Hzr Hzc] & _);
    auto; try (now apply okfull_ret').
  cbn [bind].
  full_step latGrid. full_step latGrid.
  eexists; split; [reflexivity|]. cbn [wf cf]. unfold shape.
  split; congruence.
Qed.

(** C4, as the code has it: none of the four operations compares shapes;
    each follows numpy's broadcasting.  The wind-shift detector and the
    potential temperature return exactly when the shapes of the grids they
    read have a broadcast shape; the result has that shape and reads every
    grid through the broadcast, and without a broadcast shape the error is
    [ValueError].  The gradient does the same when the grid of longitudes
    has a column; without one it raises [IndexError].  The thermal-front
    detector, whenever it returns, returns masks of the broadcast shape of
    its four grids; and it returns on grids of unequal shape: on a regular
    grid of at least two rows and two columns, with theta and the longitudes
    of the shape of the grid, a geopotential grid that is only broadcast to
    the grid is accepted, when the contour has a path. *)
Theorem broadcast_shape_rule
    (contour_paths : farr -> farr -> farr -> result (list path))
    (latGrid lonGrid u_prior v_prior u v temp pres data theta H850 : farr) :
  match broadcast_shapes
          [shape latGrid; shape u_prior; shape v_prior; shape u; shape v] with
  | Some s =>
      exists out,
        simmonds_et_al_2012 latGrid lonGrid u_prior v_prior u v = Ok out
        /\ shape out = s
        /\ forall i j,
             rd out i j =
             of_bool (simmonds_cell (rd latGrid i j) (rd u_prior i j)
                        (rd v_prior i j) (rd u i j) (rd v i j))
  | None =>
      simmonds_et_al_2012 latGrid lonGrid u_prior v_prior u v
      = Err ValueError
  end
  /\ match broadcast_shapes [shape temp; shape pres] with
     | Some s =>
         exists out,
           theta_from_temp_pres temp pres = Ok out
           /\ shape out = s
           /\ forall i j,
                rd out i j =
                fmul (rd temp i j)
                     (fpow (fdiv (Fin 1000) (rd pres i j)) (2 / 7))
     | None => theta_from_temp_pres temp pres = Err ValueError
     end
  /\ (if (ncols lonGrid =? 0)%nat
      then geo_gradient latGrid lonGrid data = Err IndexError
      else
        match broadcast_shapes
                [shape latGrid; shape lonGrid; shape data] with
        | Some s =>
            exists dx dy,
              geo_gradient latGrid lonGrid data = Ok (dx, dy)
              /\ shape dx = s /\ shape dy = s
        | None => geo_gradient latGrid lonGrid data = Err ValueError
        end)
  /\ (forall out,
        hewson_1998 contour_paths latGrid lonGrid theta H850 = Ok out ->
        broadcast_shapes
          [shape latGrid; shape lonGrid; shape theta; shape H850]
        = Some (shape (wf out))
        /\ shape (cf out) = shape (wf out))
  /\ (forall a da b db : R,
        shape lonGrid = shape latGrid -> shape theta = shape latGrid ->
        fits H850 latGrid ->
        (2 <= nrows latGrid)%nat -> (2 <= ncols latGrid)%nat ->
        (0 < da)%R -> (0 < db)%R ->
        (forall i, (i < nrows latGrid)%nat ->
           cell latGrid i 0 = Fin (centre a da i)) ->
        (forall j, (j < ncols lonGrid)%nat ->
           cell lonGrid 0 j = Fin (centre b db j)) ->
        (forall field, exists paths verts,
           contour_paths latGrid lonGrid field = Ok paths
           /\ gather_vertices paths = Some verts) ->
        exists out,
          hewson_1998 contour_paths latGrid lonGrid theta H850 = Ok out
          /\ shape (wf out) = shape latGrid
          /\ shape (cf out) = shape latGrid).
Proof.
  splits.
  - pose proof (simmonds_broadcast latGrid lonGrid u_prior v_prior u v) as H.
    destruct (broadcast_shapes _) as [s|]; [|exact H].
    destruct H as (out & Hout & Hs). exists out. splits; auto.
    exact (simmonds_pointwise _ _ _ _ _ _ _ Hout).
  - pose proof (theta_broadcast temp pres) as H.
    destruct (broadcast_shapes _) as [s|]; [|exact H].
    destruct H as (out & Hout & Hs). exists out. splits; auto.
    now apply theta_inputs_fit in Hout.
  - apply geo_gradient_broadcast.
  - apply hewson_broadcast_shape.
  - apply hewson_1998_accepts_broadcast_geopotential.
Qed.

Lemma broadcast_shape_rule_witness :
  (exists out,
     theta_from_temp_pres (of_rows [[Fin 280; Fin 290]; [Fin 285; Fin 295]])
       (of_rows [[Fin 850]]) = Ok out
     /\ shape out = (2%nat, 2%nat))
  /\ (exists dx dy,
        geo_gradient ex_lat ex_lon (of_rows [[Fin 1; Fin 2; Fin 3]])
        = Ok (dx, dy)
        /\ shape dx = (3%nat, 3%nat) /\ shape dy = (3%nat, 3%nat))
  /\ exists out,
       hewson_1998 ex_contour ex_lat ex_lon ex_theta (of_rows [[Fin 1500]])
       = Ok out
       /\ shape (wf out) = (3%nat, 3%nat)
       /\ broadcast_shapes [shape ex_lat; shape ex_lon; shape ex_theta;
                            shape (of_rows [[Fin 1500]])]
          = Some (3%nat, 3%nat).
Proof.
  destruct (broadcast_shape_rule ex_contour ex_lat ex_lon ex_lat ex_lat
              ex_lat ex_lat
              (of_rows [[Fin 280; Fin 290]; [Fin 285; Fin 295]])
              (of_rows [[Fin 850]]) (of_rows [[Fin 1; Fin 2; Fin 3]])
              ex_theta (of_rows [[Fin 1500]]))
    as (_ & Htheta & Hgrad & Hshape & Hrun).
  split; [|split].
  - change (broadcast_shapes _) with (Some (2%nat, 2%nat)) in Htheta.
    destruct Htheta as (out & Hout & Hs & _).
    exists out. split; [exact Hout|exact Hs].
  - change (ncols ex_lon =? 0)%nat with false in Hgrad.
    change (broadcast_shapes _) with (Some (3%nat, 3%nat)) in Hgrad.
    destruct Hgrad as (dx & dy & H & Hs1 & Hs2).
    exists dx, dy. split; [exact H|]. split; [exact Hs1|exact Hs2].
  - assert (Hlat : forall i, (i < nrows ex_lat)%nat ->
              cell ex_lat i 0 = Fin (centre 10 20 i)).
    { intros [|[|[|i]]] Hi; simpl in Hi; try lia; unfold centre; simpl;
        f_equal; lra. }
    assert (Hlon : forall j, (j < ncols ex_lon)%nat ->
              cell ex_lon 0 j = Fin (centre 0 1 j)).
    { intros [|[|[|j]]] Hj; simpl in Hj; try lia; unfold centre; simpl;
        f_equal; lra. }
    assert (Hengine : forall field, exists paths verts,
              ex_contour ex_lat ex_lon field = Ok paths
              /\ gather_vertices paths = Some verts).
    { intros field. exists [[(Fin 30, Fin 1)]], [(Fin 30, Fin 1)].
      split; reflexivity. }
    assert (Hfit : fits (of_rows [[Fin 1500]]) ex_lat)
      by (split; right; reflexivity).
    assert (H3 : (2 <= 3)%nat) by lia.
    assert (Hda : 0 < 20) by lra. assert (Hdb : 0 < 1) by lra.
    destruct (Hrun 10 20 0 1 eq_refl eq_refl Hfit H3 H3 Hda Hdb Hlat Hlon
                Hengine) as (out & Hout & Hs & _).
    exists out. split; [exact Hout|]. split; [exact Hs|reflexivity].
Defined.

(** ** The last edge in binary64 *)

Section LastEdge.
Import PrimFloat Binary64.
Local Set Warnings "-inexact-float".

(** C8, failing input: in binary64, on the grid with the latitudes 1.1, 1.2
    and 1.3 and the longitudes 0 and 1, the last latitude edge, computed as
    [(1.3 - div/2) + div/2] with [div = 1.2 - 1.1], is 1.2999999999999998,
    below the last centre 1.3.  For a field whose zero contour is the
    meridian 0.5, with the vertices (1.1, 0.5), (1.2, 0.5) and (1.3, 0.5),
    the vertex on the last row lies beyond the last edge and has no bin: the
    mask is 1 at (0, 1) and (1, 1) and 0 in the whole last row, which the
    contour crosses.  With the last boundary half a step beyond the last
    centre, as the first boundary is half a step before the first centre,
    the vertex is in the last bin. *)
Theorem last_row_vertex_dropped
    (contour_paths : farr64 -> farr64 -> farr64 -> result (list path64)) :
  contour_paths seam_lat seam_lon seam_data = Ok seam_contour ->
  bin_edges64 [1.1; 1.2; 1.3]%float
  = Ok [1.0500000000000003; 1.15; 1.25;
        1.2999999999999998]%float
  /\ ltb 1.2999999999999998 1.3 = true
  /\ bin_index64 [1.0500000000000003; 1.15; 1.25;
                  1.2999999999999998]%float 1.3%float = None
  /\ bin_index64 [1.0500000000000003; 1.15; 1.25;
                  1.3 + (1.2 - 1.1) / 2]%float 1.3%float = Some 2%nat
  /\ exists out,
       mask_zero_contour64 contour_paths seam_lat seam_lon seam_data = Ok out
       /\ shape out = (3%nat, 2%nat)
       /\ cell out 0 1 = 1%float /\ cell out 1 1 = 1%float
       /\ cell out 2 0 = 0%float /\ cell out 2 1 = 0%float.
Proof.
  intros Hpaths.
  split; [vm_compute; reflexivity|].
  split; [vm_compute; reflexivity|].
  split; [vm_compute; reflexivity|].
  split; [vm_compute; reflexivity|].
  unfold mask_zero_contour64. rewrite Hpaths. cbn [bind].
  eexists. split; [vm_compute; reflexivity|].
  repeat split; vm_compute; reflexivity.
Qed.

Lemma last_row_vertex_dropped_witness :
  exists out,
    mask_zero_contour64 (fun _ _ _ => Ok seam_contour)
      seam_lat seam_lon seam_data = Ok out
    /\ cell out 2 1 = 0%float.
Proof.
  destruct (last_row_vertex_dropped (fun _ _ _ => Ok seam_contour) eq_refl)
    as (_ & _ & _ & _ & out & Hout & _ & _ & _ & _ & H21).
  exists out. split; [exact Hout|exact H21].
Defined.

End LastEdge.
